(** * Monkey-TS: a shallow embedding of the interpreter and its properties

    The development follows the layout of the TypeScript sources:
    [token], [Lexer], [ast], [Parser], the object system, [Environment],
    the builtin table and the evaluator.  Every definition is a transcription
    of the function of the same name.

    Modelling conventions.
    - A JavaScript [number] held by an integer object is a [number] below: an
      exact integer, one of the two infinities, or NaN.  Sums, differences
      and products are exact, so they agree with IEEE doubles as long as
      magnitudes stay below 2^53; a quotient is rounded as the doubles round
      it; negative zero is identified with zero.
    - Source text is a [string] of 8-bit characters; [charCodeAt] is the
      character code.
    - Objects are immutable once built, so an object is its constructor
      data together with the reference [ref] it was allocated at; the
      JavaScript [===] on objects compares references.
    - Environments are mutable and shared: they live in a heap of frames and
      are passed around as indices into that heap.
    - A JavaScript exception (a [TypeError] on a property access of [null] or
      [undefined]) and exhaustion of the recursion budget are explicit
      outcomes of the evaluation monad. *)

From Stdlib Require Import ZArith String Ascii List Lia Bool.
From stdpp Require Import base option list gmap strings pretty.

Import ListNotations.
Local Open Scope string_scope.
Local Open Scope list_scope.

(** ** JavaScript numbers that hold integers *)

Inductive number : Type :=
| Num (z : Z)
| PosInf
| NegInf
| NaN.

Module Number.

Definition neg (a : number) : number :=
  match a with
  | Num z => Num (- z)
  | PosInf => NegInf
  | NegInf => PosInf
  | NaN => NaN
  end.

Definition add (a b : number) : number :=
  match a, b with
  | NaN, _ | _, NaN => NaN
  | Num x, Num y => Num (x + y)
  | PosInf, NegInf | NegInf, PosInf => NaN
  | PosInf, _ | _, PosInf => PosInf
  | NegInf, _ | _, NegInf => NegInf
  end.

Definition sub (a b : number) : number := add a (neg b).

(** Sign of a number, as an integer in {-1, 0, 1}; NaN has none. *)
Definition sgn (a : number) : option Z :=
  match a with
  | Num z => Some (Z.sgn z)
  | PosInf => Some 1%Z
  | NegInf => Some (-1)%Z
  | NaN => None
  end.

Definition inf_of_sign (s : Z) : number :=
  if (s =? 0)%Z then NaN else if (0 <? s)%Z then PosInf else NegInf.

Definition mul (a b : number) : number :=
  match a, b with
  | Num x, Num y => Num (x * y)
  | _, _ =>
      match sgn a, sgn b with
      | Some s, Some t => inf_of_sign (s * t)
      | _, _ => NaN
      end
  end.

(** The quotient [a / (b * 2^e)] as a numerator and a denominator. *)
Definition scaled (a b e : Z) : Z * Z :=
  (a * 2 ^ Z.max 0 (- e), b * 2 ^ Z.max 0 e)%Z.

(** The integer nearest to [n / d], the even one of the two when [n / d]
    is half way between them. *)
Definition nearest_even (n d : Z) : Z :=
  let m := (n / d)%Z in
  let r := (n mod d)%Z in
  if (2 * r <? d)%Z then m
  else if (d <? 2 * r)%Z then (m + 1)%Z
  else if Z.even m then m else (m + 1)%Z.

(** The exponent of the last bit a double keeps of the quotient of two
    positive integers: the one that leaves 53 significant bits, and not
    below -1074, the exponent of the smallest double. *)
Definition exponent (a b : Z) : Z :=
  let e := (Z.log2 a - Z.log2 b - 52)%Z in
  let '(n, d) := scaled a b e in
  Z.max (if (n <? 2 ^ 52 * d)%Z then e - 1 else e)%Z (-1074)%Z.

(** [a / b] on two positive integers that are doubles: the double nearest
    to the quotient, ties to even, as [(m, e)] for [m * 2^e].  (The quotient
    of two doubles that hold integers never overflows.) *)
Definition quotient (a b : Z) : Z * Z :=
  let e := exponent a b in
  let '(n, d) := scaled a b e in
  (nearest_even n d, e).

(** [Math.floor] of [v * 2^e]. *)
Definition floor_scaled (v e : Z) : Z :=
  let '(n, d) := scaled v 1 (- e) in (n / d)%Z.

(** [Math.floor(a / b)]: the quotient as the division of doubles gives it,
    rounded toward minus infinity.  A zero divisor (taken as positive zero)
    gives an infinity carrying the sign of the dividend, or NaN for 0/0; a
    finite number over an infinity is (a signed) zero. *)
Definition floor_div (a b : number) : number :=
  match a, b with
  | NaN, _ | _, NaN => NaN
  | Num x, Num y =>
      if (y =? 0)%Z then inf_of_sign (Z.sgn x)
      else if (x =? 0)%Z then Num 0
      else
        let '(m, e) := quotient (Z.abs x) (Z.abs y) in
        Num (floor_scaled (Z.sgn x * Z.sgn y * m) e)
  | Num _, _ => Num 0
  | _, Num y =>
      match sgn a with
      | Some s => if (y =? 0)%Z then inf_of_sign s else inf_of_sign (s * Z.sgn y)
      | None => NaN
      end
  | _, _ => NaN
  end.

Definition lt (a b : number) : bool :=
  match a, b with
  | NaN, _ | _, NaN => false
  | Num x, Num y => (x <? y)%Z
  | NegInf, NegInf | PosInf, _ => false
  | NegInf, _ => true
  | Num _, PosInf => true
  | Num _, NegInf => false
  end.

Definition gt (a b : number) : bool := lt b a.

(** [a === b] on numbers: NaN is different from itself. *)
Definition eq (a b : number) : bool :=
  match a, b with
  | Num x, Num y => (x =? y)%Z
  | PosInf, PosInf | NegInf, NegInf => true
  | _, _ => false
  end.

(** [String(a)], as produced by a template literal or [toString()]. *)
Definition toString (a : number) : string :=
  match a with
  | Num z => pretty z
  | PosInf => "Infinity"
  | NegInf => "-Infinity"
  | NaN => "NaN"
  end.

End Number.

(** ** token/token.ts *)

Module token.

(** The token types are string constants in the source; [INHERITED] stands
    for what [lookupIdent] returns on a name that the keyword table, a plain
    JavaScript object, inherits from [Object.prototype]. *)
Inductive TokenType : Type :=
| ILLEGAL | EOF
| IDENT | INT | STRING
| ASSIGN | PLUS | MINUS | BANG | ASTERISK | SLASH
| LT | GT | EQ | NOT_EQ
| COMMA | SEMICOLON | COLON
| LPAREN | RPAREN | LBRACE | RBRACE | LBRACKET | RBRACKET
| FUNCTION | LET | TRUE | FALSE | IF | ELSE | RETURN
| INHERITED (name : string).

Definition TokenType_eq_dec (a b : TokenType) : {a = b} + {a <> b}.
Proof. decide equality. apply string_dec. Defined.

Definition eqb (a b : TokenType) : bool :=
  if TokenType_eq_dec a b then true else false.

(** The text of a token type, as it is spliced into parser messages.  For
    an inherited member the text is that of a host object and depends on
    the JavaScript engine; a fixed name stands for it. *)
Definition name (t : TokenType) : string :=
  match t with
  | ILLEGAL => "ILLEGAL" | EOF => "EOF"
  | IDENT => "IDENT" | INT => "INT" | STRING => "STRING"
  | ASSIGN => "=" | PLUS => "+" | MINUS => "-" | BANG => "!"
  | ASTERISK => "*" | SLASH => "/"
  | LT => "<" | GT => ">" | EQ => "==" | NOT_EQ => "!="
  | COMMA => "," | SEMICOLON => ";" | COLON => ":"
  | LPAREN => "(" | RPAREN => ")" | LBRACE => "{" | RBRACE => "}"
  | LBRACKET => "[" | RBRACKET => "]"
  | FUNCTION => "FUNCTION" | LET => "LET" | TRUE => "TRUE"
  | FALSE => "FALSE" | IF => "IF" | ELSE => "ELSE" | RETURN => "RETURN"
  | INHERITED n => "Object.prototype." +:+ n
  end.

Record Token : Type := mkToken { Type_ : TokenType; Literal : string }.

Definition keywords : list (string * TokenType) :=
  [ ("fn", FUNCTION); ("let", LET); ("true", TRUE); ("false", FALSE);
    ("if", IF); ("else", ELSE); ("return", RETURN) ].

(** Property names every plain object inherits that an identifier of
    letters and underscores can spell. *)
Definition inherited : list string :=
  [ "constructor"; "hasOwnProperty"; "isPrototypeOf";
    "propertyIsEnumerable"; "toLocaleString"; "toString"; "valueOf";
    "__proto__"; "__defineGetter__"; "__defineSetter__";
    "__lookupGetter__"; "__lookupSetter__" ].

Fixpoint assoc {A} (k : string) (l : list (string * A)) : option A :=
  match l with
  | [] => None
  | (k', v) :: l' => if String.eqb k k' then Some v else assoc k l'
  end.

Definition lookupIdent (ident : string) : TokenType :=
  match assoc ident keywords with
  | Some tokenType => tokenType
  | None =>
      if existsb (String.eqb ident) inherited then INHERITED ident
      else IDENT
  end.

End token.

Export token(Token, mkToken, Type_, Literal).

(** ** lexer/lexer.ts *)

Module Lexer.
Import token.

(** [ch] is [None] where the source holds the empty string (end of input). *)
Record Lexer : Type := mkLexer {
  input : string;
  position : nat;
  readPosition : nat;
  ch : option ascii
}.

Definition readChar (l : Lexer) : Lexer :=
  {| input := input l;
     ch := if (String.length (input l) <=? readPosition l)%nat then None
           else String.get (readPosition l) (input l);
     position := readPosition l;
     readPosition := readPosition l + 1 |}.

Definition new (inp : string) : Lexer :=
  readChar {| input := inp; position := 0; readPosition := 0; ch := None |}.

Definition peekChar (l : Lexer) : option ascii :=
  if (String.length (input l) <=? readPosition l)%nat then None
  else String.get (readPosition l) (input l).

Definition code (c : ascii) : nat := nat_of_ascii c.

Definition isLetter (c : ascii) : bool :=
  ((code "a" <=? code c)%nat && (code c <=? code "z")%nat)
  || ((code "A" <=? code c)%nat && (code c <=? code "Z")%nat)
  || Ascii.eqb c "_".

Definition isDigit (c : ascii) : bool :=
  (code "0" <=? code c)%nat && (code c <=? code "9")%nat.

Definition isWhitespace (c : ascii) : bool :=
  Ascii.eqb c " " || Ascii.eqb c "009" || Ascii.eqb c "010" || Ascii.eqb c "013".

(** [while (p(this.ch)) this.readChar()]; every iteration moves
    [readPosition] forward and the loop ends at the latest on the end of
    the input, so [n] = length of the input + 1 iterations are enough. *)
Fixpoint readWhile (p : ascii -> bool) (n : nat) (l : Lexer) : Lexer :=
  match n with
  | 0 => l
  | S n' =>
      match ch l with
      | Some c => if p c then readWhile p n' (readChar l) else l
      | None => l
      end
  end.

Definition budget (l : Lexer) : nat := S (String.length (input l)).

Definition skipWhitespace (l : Lexer) : Lexer :=
  readWhile isWhitespace (budget l) l.

Definition slice (s : string) (from to : nat) : string :=
  String.substring from (to - from) s.

Definition readIdentifier (l : Lexer) : string * Lexer :=
  let startPosition := position l in
  let l' := readWhile isLetter (budget l) l in
  (slice (input l) startPosition (position l'), l').

Definition readNumber (l : Lexer) : string * Lexer :=
  let startPosition := position l in
  let l' := readWhile isDigit (budget l) l in
  (slice (input l) startPosition (position l'), l').

(** [while (true) { readChar(); if (ch is the quote or the end) break }] *)
Fixpoint readStringLoop (n : nat) (l : Lexer) : Lexer :=
  match n with
  | 0 => l
  | S n' =>
      let l1 := readChar l in
      match ch l1 with
      | None => l1
      | Some c => if Ascii.eqb c "034" then l1 else readStringLoop n' l1
      end
  end.

Definition readString (l : Lexer) : string * Lexer :=
  let startPosition := position l + 1 in
  let l' := readStringLoop (budget l) l in
  (slice (input l) startPosition (position l'), l').

Definition newToken (tokenType : TokenType) (c : ascii) : Token :=
  mkToken tokenType (String c EmptyString).

Definition nextToken (l0 : Lexer) : Token * Lexer :=
  let l := skipWhitespace l0 in
  match ch l with
  | None => (mkToken EOF "", readChar l)
  | Some c =>
      let single (t : TokenType) := (newToken t c, readChar l) in
      if Ascii.eqb c "=" then
        if match peekChar l with Some d => Ascii.eqb d "=" | None => false end
        then (mkToken EQ "==", readChar (readChar l))
        else single ASSIGN
      else if Ascii.eqb c "+" then single PLUS
      else if Ascii.eqb c "-" then single MINUS
      else if Ascii.eqb c "!" then
        if match peekChar l with Some d => Ascii.eqb d "=" | None => false end
        then (mkToken NOT_EQ "!=", readChar (readChar l))
        else single BANG
      else if Ascii.eqb c "/" then single SLASH
      else if Ascii.eqb c "*" then single ASTERISK
      else if Ascii.eqb c "<" then single LT
      else if Ascii.eqb c ">" then single GT
      else if Ascii.eqb c ";" then single SEMICOLON
      else if Ascii.eqb c ":" then single COLON
      else if Ascii.eqb c "," then single COMMA
      else if Ascii.eqb c "{" then single LBRACE
      else if Ascii.eqb c "}" then single RBRACE
      else if Ascii.eqb c "(" then single LPAREN
      else if Ascii.eqb c ")" then single RPAREN
      else if Ascii.eqb c "034" then
        let '(s, l') := readString l in (mkToken STRING s, readChar l')
      else if Ascii.eqb c "[" then single LBRACKET
      else if Ascii.eqb c "]" then single RBRACKET
      else if isLetter c then
        let '(literal, l') := readIdentifier l in
        (mkToken (lookupIdent literal) literal, l')
      else if isDigit c then
        let '(literal, l') := readNumber l in (mkToken INT literal, l')
      else single ILLEGAL
  end.

End Lexer.

(** ** ast/ast.ts *)

Module ast.

Record Identifier : Type := mkIdentifier {
  ident_token : Token;
  ident_value : string
}.

(** The parser never stores a null child, so children are total; the
    alternative of an [IfExpression] is optional as in the source.  The
    pairs of a [HashLiteral] are a JavaScript [Map] keyed by the key
    expression objects, every one of them a distinct object: an ordered
    list of pairs. *)
#[warnings="-register-all"]
Inductive Expression : Type :=
| IdentifierE (i : Identifier)
| IntegerLiteral (tok : Token) (value : number)
| StringLiteral (tok : Token) (value : string)
| BooleanLiteral (tok : Token) (value : bool)
| ArrayLiteral (tok : Token) (elements : list Expression)
| HashLiteral (tok : Token) (pairs : list (Expression * Expression))
| PrefixExpression (tok : Token) (operator : string) (right : Expression)
| InfixExpression (tok : Token) (left : Expression) (operator : string)
                  (right : Expression)
| IfExpression (tok : Token) (condition : Expression)
               (consequence : BlockStatement)
               (alternative : option BlockStatement)
| FunctionLiteral (tok : Token) (parameters : list Identifier)
                  (body : BlockStatement)
| CallExpression (tok : Token) (func : Expression) (args : list Expression)
| IndexExpression (tok : Token) (left : Expression) (index : Expression)
with Statement : Type :=
| LetStatement (tok : Token) (name : Identifier) (value : Expression)
| ReturnStatement (tok : Token) (returnValue : Expression)
| ExpressionStatement (tok : Token) (expression : Expression)
with BlockStatement : Type :=
| Block (tok : Token) (statements : list Statement).

Record Program : Type := mkProgram { statements : list Statement }.

(** What [evalNode] dispatches on with its chain of [instanceof] tests. *)
Inductive Node : Type :=
| ProgramNode (p : Program)
| StatementNode (s : Statement)
| BlockNode (b : BlockStatement)
| ExpressionNode (e : Expression).

(** [xs.join(sep)] *)
Fixpoint join (sep : string) (xs : list string) : string :=
  match xs with
  | [] => ""
  | [x] => x
  | x :: rest => x +:+ sep +:+ join sep rest
  end.

Definition concat (xs : list string) : string :=
  fold_right String.append "" xs.

(** The [toString()] methods of the node classes. *)
Fixpoint toString (e : Expression) : string :=
  match e with
  | IdentifierE i => ident_value i
  | IntegerLiteral tok _ => Literal tok
  | StringLiteral tok _ => Literal tok
  | BooleanLiteral tok _ => Literal tok
  | ArrayLiteral _ elements =>
      "[" +:+ join ", " (List.map toString elements) +:+ "]"
  | HashLiteral _ pairs =>
      "{" +:+ join ", "
        (List.map (fun kv => toString (fst kv) +:+ ":" +:+ toString (snd kv))
                  pairs) +:+ "}"
  | PrefixExpression _ operator r =>
      "(" +:+ operator +:+ toString r +:+ ")"
  | InfixExpression _ l operator r =>
      "(" +:+ toString l +:+ " " +:+ operator +:+ " " +:+ toString r +:+ ")"
  | IfExpression _ condition consequence alternative =>
      "if" +:+ toString condition +:+ " " +:+ blockToString consequence +:+
      match alternative with
      | Some alt => "else " +:+ blockToString alt
      | None => ""
      end
  | FunctionLiteral tok parameters body =>
      Literal tok +:+ "(" +:+ join ", " (List.map ident_value parameters) +:+ ") "
      +:+ blockToString body
  | CallExpression _ func args =>
      toString func +:+ "(" +:+ join ", " (List.map toString args) +:+ ")"
  | IndexExpression _ l index =>
      "(" +:+ toString l +:+ "[" +:+ toString index +:+ "])"
  end
with statementToString (s : Statement) : string :=
  match s with
  | LetStatement tok name value =>
      Literal tok +:+ " " +:+ ident_value name +:+ " = " +:+ toString value +:+ ";"
  | ReturnStatement tok returnValue =>
      Literal tok +:+ " " +:+ toString returnValue +:+ ";"
  | ExpressionStatement _ expression => toString expression
  end
with blockToString (b : BlockStatement) : string :=
  match b with
  | Block _ stmts => concat (List.map statementToString stmts)
  end.

Definition programToString (p : Program) : string :=
  concat (List.map statementToString (statements p)).

End ast.

(** ** parser/parser.ts *)

(** The parser reads its scanner only through [nextToken()]. *)
Class TokenSource (L : Type) := nextTok : L -> Token * L.

#[global] Instance Lexer_source : TokenSource Lexer.Lexer := Lexer.nextToken.

(** A scanner that has its tokens ready; [EOF] is repeated at the end. *)
#[global] Instance list_source : TokenSource (list Token) :=
  fun l => match l with
           | [] => (mkToken token.EOF "", [])
           | t :: l' => (t, l')
           end.

Module Precedence.
Definition LOWEST : nat := 1.
Definition EQUALS : nat := 2.
Definition LESSGREATER : nat := 3.
Definition SUM : nat := 4.
Definition PRODUCT : nat := 5.
Definition PREFIX : nat := 6.
Definition CALL : nat := 7.
Definition INDEX : nat := 8.
End Precedence.

Module Parser.
Import token ast Precedence.

Definition precedences (t : TokenType) : option nat :=
  match t with
  | EQ | NOT_EQ => Some EQUALS
  | LT | GT => Some LESSGREATER
  | PLUS | MINUS => Some SUM
  | SLASH | ASTERISK => Some PRODUCT
  | LPAREN => Some CALL
  | LBRACKET => Some INDEX
  | _ => None
  end.

(** [parseInt(s, 10)]: leading white space, an optional sign, then the
    longest run of decimal digits; NaN when there is no digit. *)
Fixpoint digitsValue (s : string) (acc : option Z) : option Z :=
  match s with
  | EmptyString => acc
  | String c s' =>
      if Lexer.isDigit c
      then digitsValue s'
             (Some (10 * default 0%Z acc + (Z.of_nat (Lexer.code c) - 48))%Z)
      else acc
  end.

Definition isStrWhiteSpace (c : ascii) : bool :=
  Lexer.isWhitespace c || Ascii.eqb c "011" || Ascii.eqb c "012"
  || Ascii.eqb c "160".

Fixpoint trimStart (s : string) : string :=
  match s with
  | String c s' => if isStrWhiteSpace c then trimStart s' else s
  | EmptyString => s
  end.

Definition parseInt (s : string) : number :=
  match trimStart s with
  | String c s' =>
      if Ascii.eqb c "-" then
        match digitsValue s' None with Some z => Num (- z) | None => NaN end
      else if Ascii.eqb c "+" then
        match digitsValue s' None with Some z => Num z | None => NaN end
      else
        match digitsValue (String c s') None with
        | Some z => Num z
        | None => NaN
        end
  | EmptyString => NaN
  end.

Section WithScanner.
Context {L : Type} `{TokenSource L}.

Record Parser : Type := mkParser {
  lexer : L;
  errors : list string;
  curToken : Token;
  peekToken : Token
}.

(** A parser method: it may update the parser and returns a value, or
    runs out of recursion budget ([None]). *)
Definition P (A : Type) : Type := Parser -> option (A * Parser).

Definition ret {A} (a : A) : P A := fun p => Some (a, p).

Definition bind {A B} (m : P A) (k : A -> P B) : P B :=
  fun p => match m p with
           | Some (a, p') => k a p'
           | None => None
           end.

Definition gets {A} (f : Parser -> A) : P A := fun p => Some (f p, p).
Definition modify (f : Parser -> Parser) : P unit := fun p => Some (tt, f p).
Definition outOfBudget {A} : P A := fun _ => None.

Notation "x <- m ;; k" := (bind m (fun x => k))
  (at level 62, m at next level, right associativity).
Notation "m ;;; k" := (bind m (fun _ => k))
  (at level 62, right associativity).

Definition advance (p : Parser) : Parser :=
  let '(t, l') := nextTok (lexer p) in
  {| lexer := l'; errors := errors p;
     curToken := peekToken p; peekToken := t |}.

Definition nextToken : P unit := modify advance.

Definition pushError (msg : string) : P unit :=
  modify (fun p => {| lexer := lexer p; errors := errors p ++ [msg];
                      curToken := curToken p; peekToken := peekToken p |}).

(** The constructor: both tokens start empty and are filled by two
    calls of [nextToken]. *)
Definition new (l : L) : Parser :=
  advance (advance {| lexer := l; errors := [];
                      curToken := mkToken ILLEGAL "";
                      peekToken := mkToken ILLEGAL "" |}).

Definition curTokenIs (t : TokenType) : P bool :=
  gets (fun p => token.eqb (Type_ (curToken p)) t).

Definition peekTokenIs (t : TokenType) : P bool :=
  gets (fun p => token.eqb (Type_ (peekToken p)) t).

Definition peekError (t : TokenType) : P unit :=
  got <- gets (fun p => Type_ (peekToken p)) ;;
  pushError ("expected next token to be " +:+ token.name t +:+ ", got "
             +:+ token.name got +:+ " instead").

Definition expectPeek (t : TokenType) : P bool :=
  b <- peekTokenIs t ;;
  if b then nextToken ;;; ret true
  else peekError t ;;; ret false.

Definition noPrefixParseFnError (t : TokenType) : P unit :=
  pushError ("no prefix parse function for " +:+ token.name t +:+ " found").

Definition peekPrecedence : P nat :=
  gets (fun p => default LOWEST (precedences (Type_ (peekToken p)))).

Definition curPrecedence : P nat :=
  gets (fun p => default LOWEST (precedences (Type_ (curToken p)))).

(** *** Handlers; [pe] is [parseExpression] one level down the budget. *)
Section Handlers.
Variable pe : nat -> P (option Expression).

Definition parseIdentifier : P (option Expression) :=
  tok <- gets curToken ;;
  ret (Some (IdentifierE (mkIdentifier tok (Literal tok)))).

Definition parseIntegerLiteral : P (option Expression) :=
  tok <- gets curToken ;;
  match parseInt (Literal tok) with
  | NaN =>
      pushError ("could not parse " +:+ Literal tok +:+ " as integer") ;;;
      ret None
  | value => ret (Some (IntegerLiteral tok value))
  end.

Definition parseStringLiteral : P (option Expression) :=
  tok <- gets curToken ;;
  ret (Some (StringLiteral tok (Literal tok))).

Definition parseBoolean : P (option Expression) :=
  tok <- gets curToken ;;
  b <- curTokenIs TRUE ;;
  ret (Some (BooleanLiteral tok b)).

(** The loop of [parseExpressionList]: [while (peekTokenIs(COMMA))]. *)
Fixpoint parseExpressionListLoop (n : nat) (acc : list Expression)
  : P (option (list Expression)) :=
  b <- peekTokenIs COMMA ;;
  if b then
    match n with
    | 0 => outOfBudget
    | S n' =>
        nextToken ;;; nextToken ;;;
        expr <- pe LOWEST ;;
        match expr with
        | None => ret None
        | Some e => parseExpressionListLoop n' (acc ++ [e])
        end
    end
  else ret (Some acc).

Definition parseExpressionList (n : nat) (end_ : TokenType)
  : P (option (list Expression)) :=
  b <- peekTokenIs end_ ;;
  if b then nextToken ;;; ret (Some [])
  else
    nextToken ;;;
    firstExpr <- pe LOWEST ;;
    match firstExpr with
    | None => ret None
    | Some e =>
        list <- parseExpressionListLoop n [e] ;;
        match list with
        | None => ret None
        | Some l =>
            ok <- expectPeek end_ ;;
            if ok then ret (Some l) else ret None
        end
    end.

Definition parseArrayLiteral (n : nat) : P (option Expression) :=
  tok <- gets curToken ;;
  elements <- parseExpressionList n RBRACKET ;;
  match elements with
  | None => ret None
  | Some els => ret (Some (ArrayLiteral tok els))
  end.

(** The loop of [parseHashLiteral]: [while (!peekTokenIs(RBRACE))]. *)
Fixpoint parseHashLoop (n : nat) (acc : list (Expression * Expression))
  : P (option (list (Expression * Expression))) :=
  b <- peekTokenIs RBRACE ;;
  if b then ret (Some acc)
  else
    match n with
    | 0 => outOfBudget
    | S n' =>
        nextToken ;;;
        key <- pe LOWEST ;;
        match key with
        | None => ret None
        | Some k =>
            ok <- expectPeek COLON ;;
            if negb ok then ret None
            else
              nextToken ;;;
              value <- pe LOWEST ;;
              match value with
              | None => ret None
              | Some v =>
                  isEnd <- peekTokenIs RBRACE ;;
                  if isEnd then parseHashLoop n' (acc ++ [(k, v)])
                  else
                    ok' <- expectPeek COMMA ;;
                    if ok' then parseHashLoop n' (acc ++ [(k, v)])
                    else ret None
              end
        end
    end.

Definition parseHashLiteral (n : nat) : P (option Expression) :=
  tok <- gets curToken ;;
  pairs <- parseHashLoop n [] ;;
  match pairs with
  | None => ret None
  | Some ps =>
      ok <- expectPeek RBRACE ;;
      if ok then ret (Some (HashLiteral tok ps)) else ret None
  end.

Definition parsePrefixExpression : P (option Expression) :=
  exprToken <- gets curToken ;;
  let operator := Literal exprToken in
  nextToken ;;;
  right <- pe PREFIX ;;
  match right with
  | None => ret None
  | Some r => ret (Some (PrefixExpression exprToken operator r))
  end.

Definition parseGroupedExpression : P (option Expression) :=
  nextToken ;;;
  exp <- pe LOWEST ;;
  ok <- expectPeek RPAREN ;;
  if ok then ret exp else ret None.

Definition parseLetStatement : P (option Statement) :=
  stmtToken <- gets curToken ;;
  ok <- expectPeek IDENT ;;
  if negb ok then ret None
  else
    tok <- gets curToken ;;
    let name := mkIdentifier tok (Literal tok) in
    ok' <- expectPeek ASSIGN ;;
    if negb ok' then ret None
    else
      nextToken ;;;
      value <- pe LOWEST ;;
      match value with
      | None => ret None
      | Some v =>
          semi <- peekTokenIs SEMICOLON ;;
          (if semi then nextToken else ret tt) ;;;
          ret (Some (LetStatement stmtToken name v))
      end.

Definition parseReturnStatement : P (option Statement) :=
  stmtToken <- gets curToken ;;
  nextToken ;;;
  returnValue <- pe LOWEST ;;
  match returnValue with
  | None => ret None
  | Some v =>
      semi <- peekTokenIs SEMICOLON ;;
      (if semi then nextToken else ret tt) ;;;
      ret (Some (ReturnStatement stmtToken v))
  end.

Definition parseExpressionStatement : P (option Statement) :=
  stmtToken <- gets curToken ;;
  expression <- pe LOWEST ;;
  match expression with
  | None => ret None
  | Some e =>
      semi <- peekTokenIs SEMICOLON ;;
      (if semi then nextToken else ret tt) ;;;
      ret (Some (ExpressionStatement stmtToken e))
  end.

Definition parseStatement : P (option Statement) :=
  t <- gets (fun p => Type_ (curToken p)) ;;
  match t with
  | LET => parseLetStatement
  | RETURN => parseReturnStatement
  | _ => parseExpressionStatement
  end.

(** The statement loop shared by [parseBlockStatement] (which also
    stops on a closing brace) and [parseProgram]. *)
Fixpoint parseStatements (inBlock : bool) (n : nat) (acc : list Statement)
  : P (list Statement) :=
  isBrace <- curTokenIs RBRACE ;;
  isEof <- curTokenIs EOF ;;
  if (inBlock && isBrace) || isEof then ret acc
  else
    match n with
    | 0 => outOfBudget
    | S n' =>
        stmt <- parseStatement ;;
        nextToken ;;;
        parseStatements inBlock n'
          (match stmt with Some s => acc ++ [s] | None => acc end)
    end.

Definition parseBlockStatement (n : nat) : P BlockStatement :=
  tok <- gets curToken ;;
  nextToken ;;;
  stmts <- parseStatements true n [] ;;
  ret (Block tok stmts).

Definition parseIfExpression (n : nat) : P (option Expression) :=
  exprToken <- gets curToken ;;
  ok <- expectPeek LPAREN ;;
  if negb ok then ret None
  else
    nextToken ;;;
    condition <- pe LOWEST ;;
    match condition with
    | None => ret None
    | Some cond =>
        ok1 <- expectPeek RPAREN ;;
        if negb ok1 then ret None
        else
          ok2 <- expectPeek LBRACE ;;
          if negb ok2 then ret None
          else
            consequence <- parseBlockStatement n ;;
            isElse <- peekTokenIs ELSE ;;
            if isElse then
              nextToken ;;;
              ok3 <- expectPeek LBRACE ;;
              if negb ok3 then ret None
              else
                alternative <- parseBlockStatement n ;;
                ret (Some (IfExpression exprToken cond consequence
                                        (Some alternative)))
            else ret (Some (IfExpression exprToken cond consequence None))
    end.

(** The loop of [parseFunctionParameters]. *)
Fixpoint parseParametersLoop (n : nat) (acc : list Identifier)
  : P (list Identifier) :=
  b <- peekTokenIs COMMA ;;
  if b then
    match n with
    | 0 => outOfBudget
    | S n' =>
        nextToken ;;; nextToken ;;;
        tok <- gets curToken ;;
        parseParametersLoop n' (acc ++ [mkIdentifier tok (Literal tok)])
    end
  else ret acc.

Definition parseFunctionParameters (n : nat)
  : P (option (list Identifier)) :=
  b <- peekTokenIs RPAREN ;;
  if b then nextToken ;;; ret (Some [])
  else
    nextToken ;;;
    tok <- gets curToken ;;
    identifiers <- parseParametersLoop n [mkIdentifier tok (Literal tok)] ;;
    ok <- expectPeek RPAREN ;;
    if ok then ret (Some identifiers) else ret None.

Definition parseFunctionLiteral (n : nat) : P (option Expression) :=
  litToken <- gets curToken ;;
  ok <- expectPeek LPAREN ;;
  if negb ok then ret None
  else
    parameters <- parseFunctionParameters n ;;
    match parameters with
    | None => ret None
    | Some params =>
        ok' <- expectPeek LBRACE ;;
        if negb ok' then ret None
        else
          body <- parseBlockStatement n ;;
          ret (Some (FunctionLiteral litToken params body))
    end.

Definition parseInfixExpression (left : Expression)
  : P (option Expression) :=
  exprToken <- gets curToken ;;
  let operator := Literal exprToken in
  precedence <- curPrecedence ;;
  nextToken ;;;
  right <- pe precedence ;;
  match right with
  | None => ret None
  | Some r => ret (Some (InfixExpression exprToken left operator r))
  end.

Definition parseCallExpression (n : nat) (func : Expression)
  : P (option Expression) :=
  tok <- gets curToken ;;
  args <- parseExpressionList n RPAREN ;;
  match args with
  | None => ret None
  | Some a => ret (Some (CallExpression tok func a))
  end.

Definition parseIndexExpression (left : Expression)
  : P (option Expression) :=
  exprToken <- gets curToken ;;
  nextToken ;;;
  index <- pe LOWEST ;;
  match index with
  | None => ret None
  | Some i =>
      ok <- expectPeek RBRACKET ;;
      if ok then ret (Some (IndexExpression exprToken left i))
      else ret None
  end.

(** The two handler tables filled by the constructor. *)
Definition prefixParseFns (n : nat) (t : TokenType)
  : option (P (option Expression)) :=
  match t with
  | IDENT => Some parseIdentifier
  | INT => Some parseIntegerLiteral
  | STRING => Some parseStringLiteral
  | BANG | MINUS => Some parsePrefixExpression
  | TRUE | FALSE => Some parseBoolean
  | LPAREN => Some parseGroupedExpression
  | IF => Some (parseIfExpression n)
  | FUNCTION => Some (parseFunctionLiteral n)
  | LBRACKET => Some (parseArrayLiteral n)
  | LBRACE => Some (parseHashLiteral n)
  | _ => None
  end.

Definition infixParseFns (n : nat) (t : TokenType)
  : option (Expression -> P (option Expression)) :=
  match t with
  | PLUS | MINUS | SLASH | ASTERISK | EQ | NOT_EQ | LT | GT =>
      Some parseInfixExpression
  | LPAREN => Some (parseCallExpression n)
  | LBRACKET => Some parseIndexExpression
  | _ => None
  end.

(** The [while] loop of [parseExpression]. *)
Fixpoint infixLoop (n : nat) (precedence : nat) (leftExp : Expression)
  : P (option Expression) :=
  semi <- peekTokenIs SEMICOLON ;;
  pp <- peekPrecedence ;;
  if negb semi && (precedence <? pp)%nat then
    t <- gets (fun p => Type_ (peekToken p)) ;;
    match infixParseFns n t with
    | None => ret (Some leftExp)
    | Some infix =>
        match n with
        | 0 => outOfBudget
        | S n' =>
            nextToken ;;;
            leftExp' <- infix leftExp ;;
            match leftExp' with
            | None => ret None
            | Some l => infixLoop n' precedence l
            end
        end
    end
  else ret (Some leftExp).

Definition parseExpressionBody (n : nat) (precedence : nat)
  : P (option Expression) :=
  t <- gets (fun p => Type_ (curToken p)) ;;
  match prefixParseFns n t with
  | None => noPrefixParseFnError t ;;; ret None
  | Some prefix =>
      leftExp <- prefix ;;
      match leftExp with
      | None => ret None
      | Some l => infixLoop n precedence l
      end
  end.

End Handlers.

(** [budget] bounds the nesting of [parseExpression] calls and the
    iterations of every loop below it. *)
Fixpoint parseExpression (budget : nat) (precedence : nat)
  : P (option Expression) :=
  match budget with
  | 0 => outOfBudget
  | S n => parseExpressionBody (parseExpression n) n precedence
  end.

Definition parseProgram (budget : nat) : P Program :=
  stmts <- parseStatements (parseExpression budget) false budget [] ;;
  ret (mkProgram stmts).

End WithScanner.

Arguments Parser L : clear implicits.
Arguments P L A : clear implicits.

End Parser.

(** ** object/types.ts, object/object.ts *)

Module object.
Import ast.

(** The builtin functions are values of the host language; the table is
    fixed, so a builtin object carries the name of its function. *)
Inductive BuiltinFunction : Type :=
| Len | First | Last | Rest | Push | Puts | Write.

(** What a variable of type [MonkeyObject | null] can hold at run time:
    [null], [undefined] (an array read past the end), or an object.  The
    environment captured by a function is a reference into the heap of
    frames; a hash keeps its pairs in insertion order under the string of
    the hash key, each pair holding the original key and the value. *)
#[warnings="-register-all"]
Inductive Value : Type :=
| JsNull
| JsUndefined
| Obj (ref : nat) (o : MonkeyObject)
with MonkeyObject : Type :=
| IntegerObject (value : number)
| BooleanObject (value : bool)
| StringObject (value : string)
| NullObject
| ReturnValue (value : Value)
| ErrorObject (message : string)
| FunctionObject (parameters : list Identifier) (body : BlockStatement)
                 (env : nat)
| BuiltinObject (fn : BuiltinFunction)
| ArrayObject (elements : list Value)
| HashObject (pairs : list (string * (Value * Value))).

Definition HashPair : Type := Value * Value.
Definition key (p : HashPair) : Value := fst p.
Definition value (p : HashPair) : Value := snd p.

Definition NULL_OBJ := "NULL".
Definition ERROR_OBJ := "ERROR".
Definition INTEGER_OBJ := "INTEGER".
Definition BOOLEAN_OBJ := "BOOLEAN".
Definition STRING_OBJ := "STRING".
Definition RETURN_VALUE_OBJ := "RETURN_VALUE".
Definition FUNCTION_OBJ := "FUNCTION".
Definition BUILTIN_OBJ := "BUILTIN".
Definition ARRAY_OBJ := "ARRAY".
Definition HASH_OBJ := "HASH".

(** The [type()] method. *)
Definition type (o : MonkeyObject) : string :=
  match o with
  | IntegerObject _ => INTEGER_OBJ
  | BooleanObject _ => BOOLEAN_OBJ
  | StringObject _ => STRING_OBJ
  | NullObject => NULL_OBJ
  | ReturnValue _ => RETURN_VALUE_OBJ
  | ErrorObject _ => ERROR_OBJ
  | FunctionObject _ _ _ => FUNCTION_OBJ
  | BuiltinObject _ => BUILTIN_OBJ
  | ArrayObject _ => ARRAY_OBJ
  | HashObject _ => HASH_OBJ
  end.

(** [a === b]: references are compared, not contents. *)
Definition same (a b : Value) : bool :=
  match a, b with
  | JsNull, JsNull | JsUndefined, JsUndefined => true
  | Obj r1 _, Obj r2 _ => Nat.eqb r1 r2
  | _, _ => false
  end.

Record HashKey : Type := mkHashKey { hk_type : string; hk_value : number }.

Definition HashKey_toString (k : HashKey) : string :=
  hk_type k +:+ ":" +:+ Number.toString (hk_value k).

(** The conversion to a signed 32-bit integer done by [<<] and [&]. *)
Definition toInt32 (x : Z) : Z := ((x + 2 ^ 31) mod 2 ^ 32 - 2 ^ 31)%Z.

(** The loop of [StringObject.hashKey]:
    [hash = ((hash << 5) - hash) + charCodeAt(i); hash = hash & hash]. *)
Fixpoint stringHash (s : string) (hash : Z) : Z :=
  match s with
  | EmptyString => hash
  | String c s' =>
      let h := (toInt32 (Z.shiftl hash 5) - hash + Z.of_nat (nat_of_ascii c))%Z in
      stringHash s' (toInt32 (Z.land h h))
  end.

(** The [hashKey()] method, for the three classes that have one. *)
Definition hashKey (o : MonkeyObject) : option HashKey :=
  match o with
  | IntegerObject v => Some (mkHashKey INTEGER_OBJ v)
  | BooleanObject b => Some (mkHashKey BOOLEAN_OBJ (Num (if b then 1 else 0)))
  | StringObject s => Some (mkHashKey STRING_OBJ (Num (Z.abs (stringHash s 0))))
  | _ => None
  end.

(** [isHashable]: does the object have a [hashKey] method. *)
Definition isHashable (o : MonkeyObject) : bool :=
  match hashKey o with Some _ => true | None => false end.

(** The [inspect()] method; [None] is the [TypeError] of calling it on a
    [null] or [undefined] element. *)
Fixpoint inspect (v : Value) : option string :=
  match v with
  | JsNull | JsUndefined => None
  | Obj _ o =>
      match o with
      | IntegerObject n => Some (Number.toString n)
      | BooleanObject b => Some (if b then "true" else "false")
      | StringObject s => Some s
      | NullObject => Some "null"
      | ReturnValue v' => inspect v'
      | ErrorObject m => Some ("ERROR: " +:+ m)
      | FunctionObject ps body _ =>
          Some ("fn(" +:+ join ", " (List.map ident_value ps) +:+ ") {"
                +:+ String "010" (blockToString body) +:+ String "010" "}")
      | BuiltinObject _ => Some "builtin function"
      | ArrayObject elements =>
          let fix all (l : list Value) : option (list string) :=
            match l with
            | [] => Some []
            | x :: r =>
                match inspect x, all r with
                | Some s, Some ss => Some (s :: ss)
                | _, _ => None
                end
            end in
          match all elements with
          | Some ss => Some ("[" +:+ join ", " ss +:+ "]")
          | None => None
          end
      | HashObject pairs =>
          let fix all (l : list (string * (Value * Value)))
            : option (list string) :=
            match l with
            | [] => Some []
            | (_, (k, x)) :: r =>
                match inspect k, inspect x, all r with
                | Some sk, Some sx, Some ss => Some ((sk +:+ ": " +:+ sx) :: ss)
                | _, _, _ => None
                end
            end in
          match all pairs with
          | Some ss => Some ("{" +:+ join ", " ss +:+ "}")
          | None => None
          end
      end
  end.

(** [pairs.get(k)] and [pairs.set(k, p)] of the JavaScript [Map] inside a
    hash object: a later [set] of a present key replaces the pair where
    it stands. *)
Fixpoint pairs_get (k : string) (pairs : list (string * HashPair))
  : option HashPair :=
  match pairs with
  | [] => None
  | (k', p) :: rest => if String.eqb k k' then Some p else pairs_get k rest
  end.

Fixpoint pairs_set (k : string) (p : HashPair)
  (pairs : list (string * HashPair)) : list (string * HashPair) :=
  match pairs with
  | [] => [(k, p)]
  | (k', p') :: rest =>
      if String.eqb k k' then (k, p) :: rest
      else (k', p') :: pairs_set k p rest
  end.

End object.

(** ** object/environment.ts and the run-time state *)

Module Environment.
Import object.

(** One [Environment] object: its own table and the reference to the
    enclosing environment. *)
Record Frame : Type := mkFrame {
  store : gmap string Value;
  outer : option nat
}.

(** The mutable world of one run: the environments allocated so far
    (an [Environment] value of the source is an index into [envs]), the
    next free object reference, and what was written to the console. *)
Record State : Type := mkState {
  envs : list Frame;
  nextRef : nat;
  console : list string
}.

(** [get]: the local table first, then the enclosing environments.  A
    binding to [undefined] reads as absent ([obj !== undefined]).  The
    environments are created innermost last, so a walk is never longer
    than the heap. *)
Fixpoint get_walk (n : nat) (h : list Frame) (e : nat) (name : string)
  : Value * bool :=
  match n with
  | 0 => (JsNull, false)
  | S n' =>
      match h !! e with
      | None => (JsNull, false)
      | Some fr =>
          match store fr !! name with
          | Some JsUndefined | None =>
              match outer fr with
              | Some o => get_walk n' h o name
              | None => (JsNull, false)
              end
          | Some obj => (obj, true)
          end
      end
  end.

Definition get (s : State) (e : nat) (name : string) : Value * bool :=
  get_walk (length (envs s)) (envs s) e name.

(** [set]: always the local table of [e]. *)
Definition set (e : nat) (name : string) (val : Value) (s : State) : State :=
  {| envs := alter (fun fr => {| store := <[name := val]> (store fr);
                                 outer := outer fr |}) e (envs s);
     nextRef := nextRef s;
     console := console s |}.

(** [new Environment(outer)]: a fresh frame at the end of the heap. *)
Definition alloc (o : option nat) (s : State) : nat * State :=
  (length (envs s),
   {| envs := envs s ++ [mkFrame ∅ o];
      nextRef := nextRef s;
      console := console s |}).

Definition newEnclosedEnvironment (o : nat) (s : State) : nat * State :=
  alloc (Some o) s.

End Environment.

(** ** The evaluation monad *)

Module Monad.
Import object Environment.

(** The outcome of running a piece of the evaluator: a result, a thrown
    [TypeError] (a method call on [null] or [undefined]), or an exhausted
    recursion budget (the host stack overflow). *)
Inductive Outcome (A : Type) : Type :=
| Ok (a : A)
| Throw
| Exhausted.
Arguments Ok {A} a.
Arguments Throw {A}.
Arguments Exhausted {A}.

Definition M (A : Type) : Type := State -> Outcome (A * State).

Definition ret {A} (a : A) : M A := fun s => Ok (a, s).

Definition bind {A B} (m : M A) (k : A -> M B) : M B :=
  fun s => match m s with
           | Ok (a, s') => k a s'
           | Throw => Throw
           | Exhausted => Exhausted
           end.

Definition throw {A} : M A := fun _ => Throw.
Definition exhausted {A} : M A := fun _ => Exhausted.

(** The state after one more object was allocated. *)
Definition allocated (s : State) : State :=
  {| envs := envs s; nextRef := S (nextRef s); console := console s |}.

(** [new C(...)]: the object gets the next free reference. *)
Definition new (o : MonkeyObject) : M Value :=
  fun s => Ok (Obj (nextRef s) o, allocated s).

(** [v.type()], a [TypeError] when [v] is not an object. *)
Definition typeOf (v : Value) : M string :=
  match v with
  | Obj _ o => ret (type o)
  | _ => throw
  end.

(** [console.log(v.inspect())] *)
Definition log (v : Value) : M unit :=
  match inspect v with
  | Some line =>
      fun s => Ok (tt, {| envs := envs s; nextRef := nextRef s;
                          console := console s ++ [line] |})
  | None => throw
  end.

End Monad.

Export Monad(Ok, Throw, Exhausted).

Declare Scope eval_scope.
Delimit Scope eval_scope with eval.
Notation "x <- m ;; k" := (Monad.bind m (fun x => k))
  (at level 62, m at next level, right associativity) : eval_scope.
Notation "m ;;; k" := (Monad.bind m (fun _ => k))
  (at level 62, right associativity) : eval_scope.

(** ** evaluator/builtins.ts *)

Module builtins.
Import object Environment Monad.
Local Open Scope eval_scope.

(** The objects of the table are created when the module is loaded, before
    the three singletons of the evaluator. *)
Definition table : list (string * Value) :=
  [ ("len", Obj 0 (BuiltinObject Len));
    ("first", Obj 1 (BuiltinObject First));
    ("last", Obj 2 (BuiltinObject Last));
    ("rest", Obj 3 (BuiltinObject Rest));
    ("push", Obj 4 (BuiltinObject Push));
    ("puts", Obj 5 (BuiltinObject Puts));
    ("write", Obj 6 (BuiltinObject Write)) ].

(** [builtins.get(name)] *)
Definition get (name : string) : option Value := token.assoc name table.

Definition wrongNumber (got want : nat) : string :=
  "wrong number of arguments. got=" +:+ pretty got +:+ ", want=" +:+ pretty want.

Definition mustBeArray (fn : string) (arg : Value) : M Value :=
  t <- typeOf arg ;;
  new (ErrorObject ("argument to '" +:+ fn +:+ "' must be ARRAY, got " +:+ t)).

Fixpoint logAll (args : list Value) : M unit :=
  match args with
  | [] => ret tt
  | arg :: rest => log arg ;;; logAll rest
  end.

(** [fn(...args)] for each function of the table. *)
Definition call (fn : BuiltinFunction) (args : list Value) : M Value :=
  match fn with
  | Len =>
      match args with
      | [arg] =>
          match arg with
          | Obj _ (StringObject s) =>
              new (IntegerObject (Num (Z.of_nat (String.length s))))
          | Obj _ (ArrayObject elements) =>
              new (IntegerObject (Num (Z.of_nat (length elements))))
          | _ =>
              t <- typeOf arg ;;
              new (ErrorObject ("argument to 'len' not supported, got " +:+ t))
          end
      | _ => new (ErrorObject (wrongNumber (length args) 1))
      end
  | First =>
      match args with
      | [arg] =>
          match arg with
          | Obj _ (ArrayObject elements) =>
              match elements with
              | x :: _ => ret x
              | [] => new NullObject
              end
          | _ => mustBeArray "first" arg
          end
      | _ => new (ErrorObject (wrongNumber (length args) 1))
      end
  | Last =>
      match args with
      | [arg] =>
          match arg with
          | Obj _ (ArrayObject elements) =>
              match List.last (List.map Some elements) None with
              | Some x => ret x
              | None => new NullObject
              end
          | _ => mustBeArray "last" arg
          end
      | _ => new (ErrorObject (wrongNumber (length args) 1))
      end
  | Rest =>
      match args with
      | [arg] =>
          match arg with
          | Obj _ (ArrayObject elements) =>
              match elements with
              | _ :: newElements => new (ArrayObject newElements)
              | [] => new NullObject
              end
          | _ => mustBeArray "rest" arg
          end
      | _ => new (ErrorObject (wrongNumber (length args) 1))
      end
  | Push =>
      match args with
      | [arr; x] =>
          match arr with
          | Obj _ (ArrayObject elements) => new (ArrayObject (elements ++ [x]))
          | _ => mustBeArray "push" arr
          end
      | _ => new (ErrorObject (wrongNumber (length args) 2))
      end
  | Puts | Write => logAll args ;;; new NullObject
  end.

End builtins.

(** ** evaluator/evaluator.ts *)

Module evaluator.
Import ast object Environment Monad.
Local Open Scope eval_scope.

(** The three singletons, created when the module is loaded. *)
Definition NULL : Value := Obj 7 NullObject.
Definition TRUE : Value := Obj 8 (BooleanObject true).
Definition FALSE : Value := Obj 9 (BooleanObject false).

(** The state a run starts from: no environment yet, and the references
    of the builtin table and of the singletons taken. *)
Definition initial : State := {| envs := []; nextRef := 10; console := [] |}.

Definition newError (message : string) : M Value := new (ErrorObject message).

Definition isError (objValue : Value) : M bool :=
  match objValue with
  | JsNull => ret false
  | JsUndefined => throw
  | Obj _ (ErrorObject _) => ret true
  | Obj _ _ => ret false
  end.

Definition nativeBoolToBooleanObject (input : bool) : Value :=
  if input then TRUE else FALSE.

Definition evalBangOperatorExpression (right : Value) : Value :=
  if same right TRUE then FALSE
  else if same right FALSE then TRUE
  else if same right NULL then TRUE
  else FALSE.

Definition evalMinusPrefixOperatorExpression (right : Value) : M Value :=
  t <- typeOf right ;;
  match right with
  | Obj _ (IntegerObject value) => new (IntegerObject (Number.neg value))
  | _ => newError ("unknown operator: -" +:+ t)
  end.

Definition evalPrefixExpression (operator : string) (right : Value) : M Value :=
  if String.eqb operator "!" then ret (evalBangOperatorExpression right)
  else if String.eqb operator "-" then evalMinusPrefixOperatorExpression right
  else
    t <- typeOf right ;;
    newError ("unknown operator: " +:+ operator +:+ t).

(** Only called with two integer objects. *)
Definition evalIntegerInfixExpression (operator : string) (left right : Value)
  : M Value :=
  match left, right with
  | Obj _ (IntegerObject leftVal), Obj _ (IntegerObject rightVal) =>
      if String.eqb operator "+" then
        new (IntegerObject (Number.add leftVal rightVal))
      else if String.eqb operator "-" then
        new (IntegerObject (Number.sub leftVal rightVal))
      else if String.eqb operator "*" then
        new (IntegerObject (Number.mul leftVal rightVal))
      else if String.eqb operator "/" then
        new (IntegerObject (Number.floor_div leftVal rightVal))
      else if String.eqb operator "<" then
        ret (nativeBoolToBooleanObject (Number.lt leftVal rightVal))
      else if String.eqb operator ">" then
        ret (nativeBoolToBooleanObject (Number.gt leftVal rightVal))
      else if String.eqb operator "==" then
        ret (nativeBoolToBooleanObject (Number.eq leftVal rightVal))
      else if String.eqb operator "!=" then
        ret (nativeBoolToBooleanObject (negb (Number.eq leftVal rightVal)))
      else
        newError ("unknown operator: " +:+ INTEGER_OBJ +:+ " " +:+ operator
                  +:+ " " +:+ INTEGER_OBJ)
  | _, _ => throw
  end.

(** Only called with two string objects. *)
Definition evalStringInfixExpression (operator : string) (left right : Value)
  : M Value :=
  match left, right with
  | Obj _ (StringObject leftVal), Obj _ (StringObject rightVal) =>
      if negb (String.eqb operator "+") then
        newError ("unknown operator: " +:+ STRING_OBJ +:+ " " +:+ operator
                  +:+ " " +:+ STRING_OBJ)
      else new (StringObject (leftVal +:+ rightVal))
  | _, _ => throw
  end.

(** [left.type() === t && right.type() === t]: the right operand is only
    asked for its type when the left one has type [t]. *)
Definition bothOfType (t : string) (left right : Value) : M bool :=
  lt <- typeOf left ;;
  if String.eqb lt t then
    rt <- typeOf right ;; ret (String.eqb rt t)
  else ret false.

Definition evalInfixExpression (operator : string) (left right : Value)
  : M Value :=
  ints <- bothOfType INTEGER_OBJ left right ;;
  if ints then evalIntegerInfixExpression operator left right
  else
    strs <- bothOfType STRING_OBJ left right ;;
    if strs then evalStringInfixExpression operator left right
    else if String.eqb operator "==" then
      ret (nativeBoolToBooleanObject (same left right))
    else if String.eqb operator "!=" then
      ret (nativeBoolToBooleanObject (negb (same left right)))
    else
      lt <- typeOf left ;;
      rt <- typeOf right ;;
      if negb (String.eqb lt rt) then
        newError ("type mismatch: " +:+ lt +:+ " " +:+ operator +:+ " " +:+ rt)
      else
        newError ("unknown operator: " +:+ lt +:+ " " +:+ operator +:+ " " +:+ rt).

Definition isTruthy (obj : Value) : bool :=
  if same obj NULL then false
  else if same obj TRUE then true
  else if same obj FALSE then false
  else true.

Definition evalIdentifier (node : Identifier) (env : nat) : M Value :=
  fun s =>
    let '(val, ok) := Environment.get s env (ident_value node) in
    if ok then Ok (val, s)
    else
      match builtins.get (ident_value node) with
      | Some builtin => Ok (builtin, s)
      | None => newError ("identifier not found: " +:+ ident_value node) s
      end.

(** [args[i]]: [undefined] past the end. *)
Definition item (args : list Value) (i : nat) : Value :=
  default JsUndefined (args !! i).

(** The loop of [extendFunctionEnv]:
    [for (i = 0; i < parameters.length; i++) env.set(parameters[i].value, args[i])]. *)
Fixpoint bindParameters (env : nat) (parameters : list Identifier)
  (args : list Value) (i : nat) (s : State) : State :=
  match parameters with
  | [] => s
  | p :: rest =>
      bindParameters env rest args (S i)
        (Environment.set env (ident_value p) (item args i) s)
  end.

Definition extendFunctionEnv (parameters : list Identifier) (fenv : nat)
  (args : list Value) : M nat :=
  fun s =>
    let '(env, s1) := newEnclosedEnvironment fenv s in
    Ok (env, bindParameters env parameters args 0 s1).

Definition unwrapReturnValue (objValue : Value) : Value :=
  match objValue with
  | Obj _ (ReturnValue value) => value
  | JsNull | JsUndefined => NULL
  | _ => objValue
  end.

Definition evalArrayIndexExpression (array index : Value) : M Value :=
  match array, index with
  | Obj _ (ArrayObject elements), Obj _ (IntegerObject idx) =>
      let max := Number.sub (Num (Z.of_nat (length elements))) (Num 1) in
      if Number.lt idx (Num 0) || Number.gt idx max then ret NULL
      else
        match idx with
        | Num i => ret (item elements (Z.to_nat i))
        | _ => ret JsUndefined
        end
  | _, _ => throw
  end.

Definition evalHashIndexExpression (hash index : Value) : M Value :=
  match hash, index with
  | Obj _ (HashObject pairs), Obj _ io =>
      match hashKey io with
      | None => newError ("unusable as hash key: " +:+ type io)
      | Some hashed =>
          match pairs_get (HashKey_toString hashed) pairs with
          | None => ret NULL
          | Some found => ret (value found)
          end
      end
  | _, _ => throw
  end.

Definition evalIndexExpression (left index : Value) : M Value :=
  isArrayIndex <-
    (lt <- typeOf left ;;
     if String.eqb lt ARRAY_OBJ then
       it <- typeOf index ;; ret (String.eqb it INTEGER_OBJ)
     else ret false) ;;
  if isArrayIndex then evalArrayIndexExpression left index
  else
    lt <- typeOf left ;;
    if String.eqb lt HASH_OBJ then evalHashIndexExpression left index
    else newError ("index operator not supported: " +:+ lt).

(** *** The recursive part; [ev] is [evalNode] one level down the budget. *)
Section Recursive.
Variable ev : option Node -> nat -> M Value.

Definition evalExpr (e : Expression) (env : nat) : M Value :=
  ev (Some (ExpressionNode e)) env.

Fixpoint evalProgramLoop (stmts : list Statement) (env : nat)
  (result : Value) : M Value :=
  match stmts with
  | [] => ret result
  | statement :: rest =>
      result <- ev (Some (StatementNode statement)) env ;;
      match result with
      | Obj _ (ReturnValue v) => ret v
      | Obj _ (ErrorObject _) => ret result
      | _ => evalProgramLoop rest env result
      end
  end.

Definition evalProgram (program : Program) (env : nat) : M Value :=
  evalProgramLoop (statements program) env JsNull.

Fixpoint evalBlockLoop (stmts : list Statement) (env : nat)
  (result : Value) : M Value :=
  match stmts with
  | [] => ret result
  | statement :: rest =>
      result <- ev (Some (StatementNode statement)) env ;;
      match result with
      | JsNull => evalBlockLoop rest env result
      | JsUndefined => throw
      | Obj _ (ReturnValue _) | Obj _ (ErrorObject _) => ret result
      | Obj _ _ => evalBlockLoop rest env result
      end
  end.

Definition evalBlockStatement (block : BlockStatement) (env : nat)
  : M Value :=
  match block with
  | Block _ stmts => evalBlockLoop stmts env JsNull
  end.

Definition evalIfExpression (condition : Expression)
  (consequence : BlockStatement) (alternative : option BlockStatement)
  (env : nat) : M Value :=
  cond <- evalExpr condition env ;;
  err <- isError cond ;;
  if err then ret cond
  else if isTruthy cond then ev (Some (BlockNode consequence)) env
  else
    match alternative with
    | Some alt => ev (Some (BlockNode alt)) env
    | None => ret NULL
    end.

(** The result is the list of values, or the one-element list of the
    first error. *)
Fixpoint evalExpressionsLoop (exps : list Expression) (env : nat)
  (result : list Value) : M (list Value) :=
  match exps with
  | [] => ret result
  | e :: rest =>
      evaluated <- evalExpr e env ;;
      err <- isError evaluated ;;
      if err then ret [evaluated]
      else evalExpressionsLoop rest env (result ++ [evaluated])
  end.

Definition evalExpressions (exps : list Expression) (env : nat)
  : M (list Value) :=
  evalExpressionsLoop exps env [].

Definition applyFunction (func : Value) (args : list Value) : M Value :=
  t <- typeOf func ;;
  match func with
  | Obj _ (FunctionObject parameters body fenv) =>
      extendedEnv <- extendFunctionEnv parameters fenv args ;;
      evaluated <- ev (Some (BlockNode body)) extendedEnv ;;
      ret (unwrapReturnValue evaluated)
  | Obj _ (BuiltinObject fn) => builtins.call fn args
  | _ => newError ("not a function: " +:+ t)
  end.

(** The loop of [evalHashLiteral]; [hash] is the reference of the hash
    object under construction. *)
Fixpoint evalHashLoop (hash : nat) (nodes : list (Expression * Expression))
  (env : nat) (pairs : list (string * HashPair)) : M Value :=
  match nodes with
  | [] => ret (Obj hash (HashObject pairs))
  | (keyNode, valueNode) :: rest =>
      k <- evalExpr keyNode env ;;
      err <- isError k ;;
      if err then ret k
      else
        match k with
        | Obj _ ko =>
            match hashKey ko with
            | None => newError ("unusable as hash key: " +:+ type ko)
            | Some hashed =>
                v <- evalExpr valueNode env ;;
                err' <- isError v ;;
                if err' then ret v
                else evalHashLoop hash rest env
                       (pairs_set (HashKey_toString hashed) (k, v) pairs)
            end
        | _ => throw
        end
  end.

Definition evalHashLiteral (nodes : list (Expression * Expression))
  (env : nat) : M Value :=
  hash <- new (HashObject []) ;;
  match hash with
  | Obj r _ => evalHashLoop r nodes env []
  | _ => throw
  end.

Definition evalNodeBody (node : option Node) (env : nat) : M Value :=
  match node with
  | None => ret JsNull
  | Some (ProgramNode program) => evalProgram program env
  | Some (StatementNode (ExpressionStatement _ expression)) =>
      evalExpr expression env
  | Some (BlockNode block) => evalBlockStatement block env
  | Some (StatementNode (ReturnStatement _ returnValue)) =>
      val <- evalExpr returnValue env ;;
      err <- isError val ;;
      if err then ret val else new (ReturnValue val)
  | Some (StatementNode (LetStatement _ name value)) =>
      val <- evalExpr value env ;;
      err <- isError val ;;
      if err then ret val
      else
        (fun s => Ok (val, Environment.set env (ident_value name) val s))
  | Some (ExpressionNode e) =>
      match e with
      | IntegerLiteral _ value => new (IntegerObject value)
      | StringLiteral _ value => new (StringObject value)
      | BooleanLiteral _ value => ret (nativeBoolToBooleanObject value)
      | PrefixExpression _ operator r =>
          right <- evalExpr r env ;;
          err <- isError right ;;
          if err then ret right else evalPrefixExpression operator right
      | InfixExpression _ l operator r =>
          left <- evalExpr l env ;;
          err <- isError left ;;
          if err then ret left
          else
            right <- evalExpr r env ;;
            err' <- isError right ;;
            if err' then ret right
            else evalInfixExpression operator left right
      | IfExpression _ condition consequence alternative =>
          evalIfExpression condition consequence alternative env
      | IdentifierE i => evalIdentifier i env
      | FunctionLiteral _ parameters body =>
          new (FunctionObject parameters body env)
      | CallExpression _ f a =>
          func <- evalExpr f env ;;
          err <- isError func ;;
          if err then ret func
          else
            args <- evalExpressions a env ;;
            argErr <-
              match args with
              | [a0] => isError a0
              | _ => ret false
              end ;;
            if argErr then ret (item args 0) else applyFunction func args
      | ArrayLiteral _ els =>
          elements <- evalExpressions els env ;;
          elErr <-
            match elements with
            | [a0] => isError a0
            | _ => ret false
            end ;;
          if elErr then ret (item elements 0) else new (ArrayObject elements)
      | IndexExpression _ l i =>
          left <- evalExpr l env ;;
          err <- isError left ;;
          if err then ret left
          else
            index <- evalExpr i env ;;
            err' <- isError index ;;
            if err' then ret index else evalIndexExpression left index
      | HashLiteral _ pairs => evalHashLiteral pairs env
      end
  end.

End Recursive.

(** [budget] bounds the depth of the recursion of [evalNode]; running out
    of it is the stack overflow of the host. *)
Fixpoint evalNode (budget : nat) (node : option Node) (env : nat) : M Value :=
  match budget with
  | 0 => exhausted
  | S n => evalNodeBody (evalNode n) node env
  end.

(** The usual entry sequence: lex, parse, create the root environment,
    evaluate the program. *)
Definition run (budget : nat) (source : string)
  : option (list string * Outcome (Value * State)) :=
  match Parser.parseProgram budget (Parser.new (Lexer.new source)) with
  | None => None
  | Some (program, p) =>
      let '(env, s) := Environment.alloc None initial in
      Some (Parser.errors p,
            evalNode budget (Some (ProgramNode program)) env s)
  end.

(** The parser messages and the value of a run, without the final state. *)
Definition runValue (budget : nat) (source : string)
  : option (list string * Outcome Value) :=
  match run budget source with
  | Some (errs, Ok (v, _)) => Some (errs, Ok v)
  | Some (errs, Throw) => Some (errs, Throw)
  | Some (errs, Exhausted) => Some (errs, Exhausted)
  | None => None
  end.

End evaluator.

(** * Vocabulary of the properties *)

Import ast object Environment Monad evaluator.
Local Open Scope nat_scope.

(** A string literal of the source language: [s] between double quotes. *)
Definition quoted (s : string) : string :=
  String "034" (s +:+ String "034" "").

(** ** Statement sequences *)

(** Does the result of a statement end the enclosing sequence. *)
Definition stops (v : Value) : bool :=
  match v with
  | Obj _ (ReturnValue _) | Obj _ (ErrorObject _) => true
  | _ => false
  end.

(** Evaluate the statements in order with [ev] as long as no result stops
    the sequence; the value is the last result and the state reached.
    Inside a block a result [undefined] is a [TypeError], at the top level
    it is passed over. *)
Fixpoint quietRun (ev : option Node → nat → M Value) (inBlock : bool)
  (env : nat) (stmts : list Statement) (last : Value) (s : State)
  : option (Value * State) :=
  match stmts with
  | [] => Some (last, s)
  | st :: rest =>
      match ev (Some (StatementNode st)) env s with
      | Ok (v, s') =>
          if stops v then None
          else
            match v with
            | JsUndefined =>
                if inBlock then None else quietRun ev inBlock env rest v s'
            | _ => quietRun ev inBlock env rest v s'
            end
      | _ => None
      end
  end.

(** What a program returns for the result that stopped it. *)
Definition unwrapped (v : Value) : Value :=
  match v with
  | Obj _ (ReturnValue inner) => inner
  | _ => v
  end.

(** ** Environments *)

(** No environment is lost and every environment that exists in [s] is
    the same in [s']. *)
Definition frames_kept (s s' : State) : Prop :=
  length (envs s) ≤ length (envs s')
  ∧ ∀ e, e < length (envs s) → envs s' !! e = envs s !! e.

(** The same, but for the environment [env], which may have changed. *)
Definition frames_kept_except (env : nat) (s s' : State) : Prop :=
  length (envs s) ≤ length (envs s')
  ∧ ∀ e, e < length (envs s) → e ≠ env → envs s' !! e = envs s !! e.

(** A relation between the state before and after that holds across the
    steps every part of the evaluator makes: none, several in a row, the
    allocation of an object, a line on the console. *)
Class Steady (R : State → State → Prop) : Prop := {
  steady_refl : ∀ s, R s s;
  steady_trans : ∀ s1 s2 s3, R s1 s2 → R s2 s3 → R s1 s3;
  steady_alloc : ∀ s, R s (allocated s);
  steady_log : ∀ s line,
      R s {| envs := envs s; nextRef := nextRef s;
             console := console s ++ [line] |}
}.

(** [m] relates the state it starts in to the state it ends in by [R]. *)
Definition preserves {A} (R : State → State → Prop) (m : M A) : Prop :=
  ∀ s a s', m s = Ok (a, s') → R s s'.

(** Environments are created after the environment they enclose. *)
Definition wf_heap (h : list Frame) : Prop :=
  ∀ e fr o, h !! e = Some fr → outer fr = Some o → o < e.

(** The table of a call environment after [parameters] were bound to
    [args] from position [i] on. *)
Fixpoint boundStore (parameters : list Identifier) (args : list Value)
  (i : nat) (m : gmap string Value) : gmap string Value :=
  match parameters with
  | [] => m
  | p :: rest => boundStore rest args (S i) (<[ident_value p := item args i]> m)
  end.

(** The state in which the body of a call runs: a new environment
    enclosing [fenv], with the parameters bound. *)
Definition callState (parameters : list Identifier) (fenv : nat)
  (args : list Value) (s : State) : State :=
  {| envs := envs s ++ [mkFrame (boundStore parameters args 0 ∅) (Some fenv)];
     nextRef := nextRef s;
     console := console s |}.

(** ** The heap invariant *)

(** Every environment a value refers to, directly or through the values
    it contains, is one of the first [n] environments of the heap. *)
Fixpoint bounded (n : nat) (v : Value) : Prop :=
  match v with
  | JsNull | JsUndefined => True
  | Obj _ o =>
      match o with
      | FunctionObject _ _ env => env < n
      | ReturnValue v' => bounded n v'
      | ArrayObject elements =>
          (fix all (l : list Value) : Prop :=
             match l with
             | [] => True
             | x :: r => bounded n x ∧ all r
             end) elements
      | HashObject pairs =>
          (fix all (l : list (string * (Value * Value))) : Prop :=
             match l with
             | [] => True
             | (_, (k, x)) :: r => bounded n k ∧ bounded n x ∧ all r
             end) pairs
      | _ => True
      end
  end.

(** The same for the key and the value of an entry of a hash. *)
Definition boundedPair (n : nat) (kp : string * HashPair) : Prop :=
  bounded n (key (snd kp)) ∧ bounded n (value (snd kp)).

(** The heap is in order: environments are created after the ones they
    enclose, and the values in the tables refer to existing environments. *)
Definition heap_ok (h : list Frame) : Prop :=
  wf_heap h
  ∧ ∀ e fr x v, h !! e = Some fr → store fr !! x = Some v →
                bounded (length h) v.

(** From a heap in order with at least [n] environments, [m] ends in a
    heap in order that is not shorter, with a result that satisfies [Q] at
    the new length. *)
Definition sound {A} (n : nat) (Q : nat → A → Prop) (m : M A) : Prop :=
  ∀ s a s', heap_ok (envs s) → n ≤ length (envs s) → m s = Ok (a, s') →
    heap_ok (envs s') ∧ length (envs s) ≤ length (envs s')
    ∧ Q (length (envs s')) a.

(** The environments are the same before and after. *)
Definition same_envs (s s' : State) : Prop := envs s' = envs s.

(** ** Sample inputs *)

Definition sampleInt (lit : string) (z : Z) : Expression :=
  IntegerLiteral (mkToken token.INT lit) (Num z).

Definition sampleExpressionStatement (lit : string) (z : Z) : Statement :=
  ExpressionStatement (mkToken token.INT lit) (sampleInt lit z).

Definition sampleReturn (lit : string) (z : Z) : Statement :=
  ReturnStatement (mkToken token.RETURN "return") (sampleInt lit z).

Definition sampleIdentifier (name : string) : Identifier :=
  mkIdentifier (mkToken token.IDENT name) name.

Definition sampleLet (name lit : string) (z : Z) : Statement :=
  LetStatement (mkToken token.LET "let") (sampleIdentifier name)
               (sampleInt lit z).

(** The state of a run right after the root environment was created. *)
Definition rootState : State := snd (Environment.alloc None initial).

(** A state whose root environment binds [x] to the integer 1. *)
Definition shadowState : State :=
  {| envs := [mkFrame {["x" := Obj 10 (IntegerObject (Num 1))]} None];
     nextRef := 12;
     console := [] |}.

(** The same state after a call whose body bound [x] to 2 in its own
    environment. *)
Definition shadowedState : State :=
  {| envs := [mkFrame {["x" := Obj 10 (IntegerObject (Num 1))]} None;
              mkFrame {["x" := Obj 12 (IntegerObject (Num 2))]} (Some 0)];
     nextRef := 13;
     console := [] |}.

(** A function without parameters whose body is [let x = 2]. *)
Definition shadowingFunction : Value :=
  Obj 11 (FunctionObject []
            (Block (mkToken token.LBRACE "{") [sampleLet "x" "2" 2]) 0).

(** ** The grammar of arithmetic expressions *)

Section Grammar.
Import token Precedence.

(** The ranking of the binary operators, as the specification lists it:
    equality below relational below additive below multiplicative. *)
Definition operatorLevel (t : TokenType) : option nat :=
  match t with
  | EQ | NOT_EQ => Some 2
  | LT | GT => Some 3
  | PLUS | MINUS => Some 4
  | ASTERISK | SLASH => Some 5
  | _ => None
  end.

(** The level of a whole expression: any operator may stand outside
    parentheses. *)
Definition loosest : nat := 2.

(** The reference reading of a token sequence, written from the words of
    the specification and not from the parser: [Renders m e ts] says that
    [ts] is an expression all of whose operators outside parentheses have
    level at least [m], and that [e] is its precedence-correct tree.
    The left operand of an operator of level [q] is an expression of
    level [q] (a chain of equal precedence groups to the left), the right
    operand one of level [q + 1] (a higher precedence binds tighter). *)
Inductive Renders : nat → Expression → list Token → Prop :=
| Renders_identifier (m : nat) (tok : Token) :
    Type_ tok = IDENT →
    Renders m (IdentifierE (mkIdentifier tok (Literal tok))) [tok]
| Renders_integer (m : nat) (tok : Token) (z : Z) :
    Type_ tok = INT →
    Parser.parseInt (Literal tok) = Num z →
    Renders m (IntegerLiteral tok (Num z)) [tok]
| Renders_group (m : nat) (lp rp : Token) (e : Expression)
    (ts : list Token) :
    Type_ lp = LPAREN → Type_ rp = RPAREN →
    Renders loosest e ts →
    Renders m e (lp :: ts ++ [rp])
| Renders_infix (m q : nat) (op : Token) (l r : Expression)
    (tsl tsr : list Token) :
    operatorLevel (Type_ op) = Some q →
    m ≤ q →
    Renders q l tsl →
    Renders (S q) r tsr →
    Renders m (InfixExpression op l (Literal op) r) (tsl ++ op :: tsr).

(** The binary operators, for which [parseInfixExpression] is registered. *)
Definition isBinaryOperator (t : TokenType) : bool :=
  match t with
  | PLUS | MINUS | SLASH | ASTERISK | EQ | NOT_EQ | LT | GT => true
  | _ => false
  end.

(** The next [n] tokens a parser will see, the current one first. *)
Fixpoint upcoming {L : Type} `{TokenSource L} (n : nat) (p : Parser.Parser L)
  : list Token :=
  match n with
  | 0 => []
  | S n' => Parser.curToken p :: upcoming n' (Parser.advance p)
  end.

(** Lex and parse a source text; the rendering of the program and the
    parser messages. *)
Definition parseToString (budget : nat) (source : string)
  : option (string * list string) :=
  match Parser.parseProgram budget (Parser.new (Lexer.new source)) with
  | Some (program, p) => Some (programToString program, Parser.errors p)
  | None => None
  end.

(** The tokens of [a + b * c] and the tree they stand for. *)
Definition sampleName (name : string) : Token := mkToken IDENT name.

Definition sampleSum : list Token :=
  [sampleName "a"; mkToken PLUS "+"; sampleName "b"; mkToken ASTERISK "*";
   sampleName "c"].

Definition sampleSumTree : Expression :=
  InfixExpression (mkToken PLUS "+")
    (IdentifierE (mkIdentifier (sampleName "a") "a")) "+"
    (InfixExpression (mkToken ASTERISK "*")
       (IdentifierE (mkIdentifier (sampleName "b") "b")) "*"
       (IdentifierE (mkIdentifier (sampleName "c") "c"))).

End Grammar.

(** ** Vocabulary of the further properties *)

(** Evaluate the expressions in order with [ev] as long as no result is an
    error; the values and the state reached. *)
Fixpoint valuesOf (ev : option Node → nat → M Value) (env : nat)
  (exps : list Expression) (s : State) : option (list Value * State) :=
  match exps with
  | [] => Some ([], s)
  | e :: rest =>
      match ev (Some (ExpressionNode e)) env s with
      | Ok (v, s1) =>
          match isError v s1 with
          | Ok (false, _) =>
              match valuesOf ev env rest s1 with
              | Some (vs, s2) => Some (v :: vs, s2)
              | None => None
              end
          | _ => None
          end
      | _ => None
      end
  end.

(** The number of arguments a builtin insists on; [puts] and [write] take
    any number. *)
Definition wanted (fn : BuiltinFunction) : option nat :=
  match fn with
  | Len | First | Last | Rest => Some 1
  | Push => Some 2
  | Puts | Write => None
  end.

(** The name under which a builtin reports a wrong argument. *)
Definition builtinName (fn : BuiltinFunction) : string :=
  match fn with
  | Len => "len" | First => "first" | Last => "last" | Rest => "rest"
  | Push => "push" | Puts => "puts" | Write => "write"
  end.

(** The state after [lines] were written to the console and one object was
    allocated. *)
Definition printed (lines : list string) (s : State) : State :=
  {| envs := envs s; nextRef := S (nextRef s); console := console s ++ lines |}.

(** The polynomial hash of a string in base 31, over the integers:
    [h * 31^n + c1 * 31^(n-1) + ... + cn] for the character codes [ci]. *)
Fixpoint polynomial31 (s : string) (h : Z) : Z :=
  match s with
  | EmptyString => h
  | String c s' => polynomial31 s' (31 * h + Z.of_nat (nat_of_ascii c))%Z
  end.

(** An expression that evaluates to an error in the root environment. *)
Definition sampleUnbound : Expression := IdentifierE (sampleIdentifier "foobar").

Definition sampleUnboundError : Value :=
  Obj 10 (ErrorObject "identifier not found: foobar").

(** A block holding the one statement [1]. *)
Definition sampleBlock : BlockStatement :=
  Block (mkToken token.LBRACE "{") [sampleExpressionStatement "1" 1].

(** ** Vocabulary of the lexer properties *)

(** The lexer on [inp] with its current character at index [i]. *)
Definition lexerAt (inp : string) (i : nat) : Lexer.Lexer :=
  Lexer.mkLexer inp i (S i) (String.get i inp).

(** The lexer that has read [pre] and has [suf] before it. *)
Definition lexerOn (pre suf : string) : Lexer.Lexer :=
  lexerAt (pre +:+ suf) (String.length pre).

Fixpoint allChars (p : ascii → bool) (s : string) : bool :=
  match s with
  | EmptyString => true
  | String c s' => p c && allChars p s'
  end.

Definition startsWith (p : ascii → bool) (s : string) : bool :=
  match s with
  | String c _ => p c
  | EmptyString => false
  end.

(** The first [n] tokens a lexer gives. *)
Fixpoint tokens (n : nat) (l : Lexer.Lexer) : list Token :=
  match n with
  | 0 => []
  | S n' => let '(t, l') := Lexer.nextToken l in t :: tokens n' l'
  end.

(** Any character but the double quote. *)
Definition notQuote (c : ascii) : bool := negb (Ascii.eqb c "034").

(** ** The grammar of statement sequences *)

Section StatementGrammar.
Import token.

(** [RendersStatement st ts]: the tokens [ts], without the semicolon that
    may follow, are the statement [st] over an expression of the grammar
    above. *)
Inductive RendersStatement : Statement → list Token → Prop :=
| Renders_let (lt name eq : Token) (e : Expression) (ts : list Token) :
    Type_ lt = LET → Type_ name = IDENT → Type_ eq = ASSIGN →
    Renders loosest e ts →
    RendersStatement (LetStatement lt (mkIdentifier name (Literal name)) e)
                     (lt :: name :: eq :: ts)
| Renders_return (rt : Token) (e : Expression) (ts : list Token) :
    Type_ rt = RETURN →
    Renders loosest e ts →
    RendersStatement (ReturnStatement rt e) (rt :: ts)
| Renders_expression (tok : Token) (e : Expression) (rest : list Token) :
    Renders loosest e (tok :: rest) →
    RendersStatement (ExpressionStatement tok e) (tok :: rest).

(** A token after which a statement without semicolon is over: one that
    continues no expression and is no semicolon. *)
Definition startsAfresh (ts : list Token) : Prop :=
  match ts with
  | [] => True
  | t :: _ => Parser.precedences (Type_ t) = None ∧ Type_ t ≠ SEMICOLON
  end.

(** [RendersProgram stmts ts]: [ts] is the sequence of the statements
    [stmts], each followed by a semicolon or, where the next token allows
    it, by nothing. *)
Inductive RendersProgram : list Statement → list Token → Prop :=
| Renders_end : RendersProgram [] []
| Renders_semicolon (st : Statement) (ts : list Token) (semi : Token)
    (stmts : list Statement) (rest : list Token) :
    RendersStatement st ts → Type_ semi = SEMICOLON →
    RendersProgram stmts rest →
    RendersProgram (st :: stmts) (ts ++ semi :: rest)
| Renders_bare (st : Statement) (ts : list Token)
    (stmts : list Statement) (rest : list Token) :
    RendersStatement st ts → startsAfresh rest →
    RendersProgram stmts rest →
    RendersProgram (st :: stmts) (ts ++ rest).

End StatementGrammar.

(** The tokens of [let x = 5; x] and the statements they stand for. *)
Definition sampleProgramTokens : list Token :=
  [mkToken token.LET "let"; sampleName "x"; mkToken token.ASSIGN "=";
   mkToken token.INT "5"; mkToken token.SEMICOLON ";"; sampleName "x"].

Definition sampleProgram : list Statement :=
  [sampleLet "x" "5" 5;
   ExpressionStatement (sampleName "x")
                       (IdentifierE (sampleIdentifier "x"))].

(** ** Trees as the parser builds them from source text *)

Section PrintedTrees.
Import token.

(** The tokens of the eight binary operators. *)
Definition binaryOperators : list Token :=
  [mkToken PLUS "+"; mkToken MINUS "-"; mkToken ASTERISK "*";
   mkToken SLASH "/"; mkToken LT "<"; mkToken GT ">"; mkToken EQ "==";
   mkToken NOT_EQ "!="].

(** A name of the source language: a non-empty run of letters and
    underscores that is no keyword. *)
Definition isName (w : string) : Prop :=
  w ≠ "" ∧ allChars Lexer.isLetter w = true ∧ lookupIdent w = IDENT.

(** [Printable e]: [e] is a tree of identifiers, integer literals and
    binary operators each of whose nodes carries the token the lexer
    gives for its text. *)
Inductive Printable : Expression → Prop :=
| Printable_identifier (w : string) :
    isName w →
    Printable (IdentifierE (mkIdentifier (mkToken IDENT w) w))
| Printable_integer (w : string) (z : Z) :
    w ≠ "" → allChars Lexer.isDigit w = true →
    Parser.parseInt w = Num z →
    Printable (IntegerLiteral (mkToken INT w) (Num z))
| Printable_infix (op : Token) (l r : Expression) :
    op ∈ binaryOperators →
    Printable l → Printable r →
    Printable (InfixExpression op l (Literal op) r).

(** The tokens of [toString e] for such a tree: operands of an operator
    are printed between parentheses. *)
Fixpoint printedTokens (e : Expression) : list Token :=
  match e with
  | IdentifierE i => [ident_token i]
  | IntegerLiteral tok _ => [tok]
  | InfixExpression op l _ r =>
      mkToken LPAREN "(" :: (printedTokens l ++ op :: printedTokens r)
      ++ [mkToken RPAREN ")"]
  | _ => []
  end.

(** The token a statement made of the printed expression starts with. *)
Definition firstToken (e : Expression) : Token :=
  List.hd (mkToken ILLEGAL "") (printedTokens e).

(** [PrintableProgram stmts]: [let] and [return] statements over such
    trees, and possibly one expression statement at the end. *)
Inductive PrintableProgram : list Statement → Prop :=
| Printable_nothing : PrintableProgram []
| Printable_last (e : Expression) :
    Printable e →
    PrintableProgram [ExpressionStatement (firstToken e) e]
| Printable_let (w : string) (e : Expression) (rest : list Statement) :
    isName w → Printable e → PrintableProgram rest →
    PrintableProgram
      (LetStatement (mkToken LET "let") (mkIdentifier (mkToken IDENT w) w) e
       :: rest)
| Printable_return (e : Expression) (rest : list Statement) :
    Printable e → PrintableProgram rest →
    PrintableProgram (ReturnStatement (mkToken RETURN "return") e :: rest).

(** The tokens of the printed statements. *)
Fixpoint programTokens (stmts : list Statement) : list Token :=
  match stmts with
  | [] => []
  | LetStatement lt name e :: rest =>
      (lt :: ident_token name :: mkToken ASSIGN "=" :: printedTokens e)
      ++ mkToken SEMICOLON ";" :: programTokens rest
  | ReturnStatement rt e :: rest =>
      (rt :: printedTokens e) ++ mkToken SEMICOLON ";" :: programTokens rest
  | ExpressionStatement _ e :: rest => printedTokens e ++ programTokens rest
  end.

End PrintedTrees.

(** The statements [let x = (a + 5);] and [return x;] as the parser builds
    them, and the two expression statements [a] and [b]. *)
Definition samplePrinted : list Statement :=
  [LetStatement (mkToken token.LET "let") (sampleIdentifier "x")
     (InfixExpression (mkToken token.PLUS "+")
        (IdentifierE (sampleIdentifier "a")) "+"
        (IntegerLiteral (mkToken token.INT "5") (Num 5)));
   ReturnStatement (mkToken token.RETURN "return")
     (IdentifierE (sampleIdentifier "x"))].

Definition sampleTwoNames : list Statement :=
  [ExpressionStatement (sampleName "a") (IdentifierE (sampleIdentifier "a"));
   ExpressionStatement (sampleName "b") (IdentifierE (sampleIdentifier "b"))].

(** ** Vocabulary of the parser's termination *)

Section ParserRuns.
Context {L : Type} `{TokenSource L}.

(** From its [r]-th token on, the current one counted as number 0, the
    parser sees only end-of-file tokens. *)
Definition endsWithin (r : nat) (p : Parser.Parser L) : Prop :=
  ∀ j, r ≤ j →
       Type_ (Parser.curToken (Nat.iter j Parser.advance p)) = token.EOF.

(** The method [m] returns when called on [p], and leaves a parser that
    still ends within [r] tokens. *)
Definition returns {A : Type} (r : nat) (m : Parser.P L A)
  (p : Parser.Parser L) : Prop :=
  ∃ a p', m p = Some (a, p') ∧ endsWithin r p'.

End ParserRuns.

(** ** The grammar of the language *)

Section LanguageGrammar.
Import token Precedence.

(** The two prefix operators. *)
Definition isPrefixOperator (t : TokenType) : bool :=
  match t with
  | BANG | MINUS => true
  | _ => false
  end.

(** The names between the parentheses of a function literal, after the
    first one: each after a comma. *)
Inductive ReadsNames : list Identifier → list Token → Prop :=
| ReadsNames_end : ReadsNames [] []
| ReadsNames_more (comma name : Token) (names : list Identifier)
    (rest : list Token) :
    Type_ comma = COMMA → Type_ name = IDENT →
    ReadsNames names rest →
    ReadsNames (mkIdentifier name (Literal name) :: names)
               (comma :: name :: rest).

(** The parameters of a function literal: nothing, or names separated by
    commas. *)
Inductive ReadsParameters : list Identifier → list Token → Prop :=
| ReadsParameters_none : ReadsParameters [] []
| ReadsParameters_some (name : Token) (names : list Identifier)
    (rest : list Token) :
    Type_ name = IDENT →
    ReadsNames names rest →
    ReadsParameters (mkIdentifier name (Literal name) :: names)
                    (name :: rest).

(** The reference reading of the whole language.  [Reads lo hi e ts]:
    the tokens [ts] are the expression [e], where [e] may stand to the
    right of an operator of a level below [lo] and before a token of a
    level up to [hi].  The levels are those of the parser's table: a
    binary operator of level [q] takes on its left an expression that
    may stand before it (a chain of equal level groups to the left) and on
    its right one that may stand after it; a prefix operator takes an
    operand that may stand after level [PREFIX], and the expression may
    not stand before a call or an index; the function of a call and the
    indexed expression may stand before the bracket that follows.
    Everything between brackets, the elements of lists, the keys and
    values of a hash, the condition of an [if] and the expressions of
    statements are of the loosest kind.  A hash literal may end with a
    comma, an array literal and the arguments of a call may not. *)
Inductive Reads : nat → nat → Expression → list Token → Prop :=
| Reads_identifier (lo hi : nat) (tok : Token) :
    Type_ tok = IDENT →
    Reads lo hi (IdentifierE (mkIdentifier tok (Literal tok))) [tok]
| Reads_integer (lo hi : nat) (tok : Token) (z : Z) :
    Type_ tok = INT →
    Parser.parseInt (Literal tok) = Num z →
    Reads lo hi (IntegerLiteral tok (Num z)) [tok]
| Reads_string (lo hi : nat) (tok : Token) :
    Type_ tok = STRING →
    Reads lo hi (StringLiteral tok (Literal tok)) [tok]
| Reads_true (lo hi : nat) (tok : Token) :
    Type_ tok = TRUE →
    Reads lo hi (BooleanLiteral tok true) [tok]
| Reads_false (lo hi : nat) (tok : Token) :
    Type_ tok = FALSE →
    Reads lo hi (BooleanLiteral tok false) [tok]
| Reads_group (lo hi : nat) (lp rp : Token) (e : Expression)
    (ts : list Token) :
    Type_ lp = LPAREN → Type_ rp = RPAREN →
    Reads loosest LOWEST e ts →
    Reads lo hi e (lp :: ts ++ [rp])
| Reads_prefix (lo hi : nat) (op : Token) (r : Expression)
    (ts : list Token) :
    isPrefixOperator (Type_ op) = true →
    hi ≤ PREFIX →
    Reads (S PREFIX) hi r ts →
    Reads lo hi (PrefixExpression op (Literal op) r) (op :: ts)
| Reads_infix (lo hi q : nat) (op : Token) (l r : Expression)
    (tsl tsr : list Token) :
    operatorLevel (Type_ op) = Some q →
    lo ≤ q → hi ≤ q →
    Reads q q l tsl →
    Reads (S q) hi r tsr →
    Reads lo hi (InfixExpression op l (Literal op) r) (tsl ++ op :: tsr)
| Reads_call (lo hi : nat) (lp rp : Token) (f : Expression)
    (args : list Expression) (tsf tsa : list Token) :
    Type_ lp = LPAREN → Type_ rp = RPAREN →
    lo ≤ CALL →
    Reads CALL CALL f tsf →
    ReadsList args tsa →
    Reads lo hi (CallExpression lp f args) (tsf ++ lp :: tsa ++ [rp])
| Reads_index (lo hi : nat) (lb rb : Token) (l i : Expression)
    (tsl tsi : list Token) :
    Type_ lb = LBRACKET → Type_ rb = RBRACKET →
    lo ≤ CALL →
    Reads CALL INDEX l tsl →
    Reads loosest LOWEST i tsi →
    Reads lo hi (IndexExpression lb l i) (tsl ++ lb :: tsi ++ [rb])
| Reads_array (lo hi : nat) (lb rb : Token) (es : list Expression)
    (ts : list Token) :
    Type_ lb = LBRACKET → Type_ rb = RBRACKET →
    ReadsList es ts →
    Reads lo hi (ArrayLiteral lb es) (lb :: ts ++ [rb])
| Reads_hash (lo hi : nat) (lb rb : Token)
    (pairs : list (Expression * Expression)) (ts : list Token) :
    Type_ lb = LBRACE → Type_ rb = RBRACE →
    ReadsPairs pairs ts →
    Reads lo hi (HashLiteral lb pairs) (lb :: ts ++ [rb])
| Reads_if (lo hi : nat) (tok lp rp : Token) (cond : Expression)
    (consequence : BlockStatement) (tsc tsb : list Token) :
    Type_ tok = IF → Type_ lp = LPAREN → Type_ rp = RPAREN →
    Reads loosest LOWEST cond tsc →
    ReadsBlock consequence tsb →
    Reads lo hi (IfExpression tok cond consequence None)
          (tok :: lp :: tsc ++ rp :: tsb)
| Reads_if_else (lo hi : nat) (tok lp rp el : Token) (cond : Expression)
    (consequence alternative : BlockStatement) (tsc tsb tse : list Token) :
    Type_ tok = IF → Type_ lp = LPAREN → Type_ rp = RPAREN →
    Type_ el = ELSE →
    Reads loosest LOWEST cond tsc →
    ReadsBlock consequence tsb →
    ReadsBlock alternative tse →
    Reads lo hi (IfExpression tok cond consequence (Some alternative))
          (tok :: lp :: tsc ++ rp :: tsb ++ el :: tse)
| Reads_function (lo hi : nat) (tok lp rp : Token)
    (parameters : list Identifier) (body : BlockStatement)
    (tsp tsb : list Token) :
    Type_ tok = FUNCTION → Type_ lp = LPAREN → Type_ rp = RPAREN →
    ReadsParameters parameters tsp →
    ReadsBlock body tsb →
    Reads lo hi (FunctionLiteral tok parameters body)
          (tok :: lp :: tsp ++ rp :: tsb)

(** Expressions separated by commas. *)
with ReadsList : list Expression → list Token → Prop :=
| ReadsList_none : ReadsList [] []
| ReadsList_some (e : Expression) (ts : list Token) (es : list Expression)
    (rest : list Token) :
    Reads loosest LOWEST e ts →
    ReadsRest es rest →
    ReadsList (e :: es) (ts ++ rest)

with ReadsRest : list Expression → list Token → Prop :=
| ReadsRest_end : ReadsRest [] []
| ReadsRest_more (comma : Token) (e : Expression) (ts : list Token)
    (es : list Expression) (rest : list Token) :
    Type_ comma = COMMA →
    Reads loosest LOWEST e ts →
    ReadsRest es rest →
    ReadsRest (e :: es) (comma :: ts ++ rest)

(** The pairs of a hash literal: [key : value], separated by commas. *)
with ReadsPairs : list (Expression * Expression) → list Token → Prop :=
| ReadsPairs_none : ReadsPairs [] []
| ReadsPairs_last (colon : Token) (k v : Expression) (tk tv : list Token) :
    Type_ colon = COLON →
    Reads loosest LOWEST k tk →
    Reads loosest LOWEST v tv →
    ReadsPairs [(k, v)] (tk ++ colon :: tv)
| ReadsPairs_more (colon comma : Token) (k v : Expression)
    (tk tv : list Token) (pairs : list (Expression * Expression))
    (rest : list Token) :
    Type_ colon = COLON → Type_ comma = COMMA →
    Reads loosest LOWEST k tk →
    Reads loosest LOWEST v tv →
    ReadsPairs pairs rest →
    ReadsPairs ((k, v) :: pairs) (tk ++ colon :: tv ++ comma :: rest)

(** A block: statements between braces. *)
with ReadsBlock : BlockStatement → list Token → Prop :=
| ReadsBlock_braces (lb rb : Token) (stmts : list Statement)
    (ts : list Token) :
    Type_ lb = LBRACE → Type_ rb = RBRACE →
    ReadsStatements stmts ts →
    ReadsBlock (Block lb stmts) (lb :: ts ++ [rb])

(** A statement, without the semicolon that may follow. *)
with ReadsStatement : Statement → list Token → Prop :=
| Reads_let (lt name eq : Token) (e : Expression) (ts : list Token) :
    Type_ lt = LET → Type_ name = IDENT → Type_ eq = ASSIGN →
    Reads loosest LOWEST e ts →
    ReadsStatement (LetStatement lt (mkIdentifier name (Literal name)) e)
                   (lt :: name :: eq :: ts)
| Reads_return (rt : Token) (e : Expression) (ts : list Token) :
    Type_ rt = RETURN →
    Reads loosest LOWEST e ts →
    ReadsStatement (ReturnStatement rt e) (rt :: ts)
| Reads_expression (tok : Token) (e : Expression) (rest : list Token) :
    Reads loosest LOWEST e (tok :: rest) →
    ReadsStatement (ExpressionStatement tok e) (tok :: rest)

(** Statements in sequence, each followed by a semicolon or, where the
    next token allows it, by nothing. *)
with ReadsStatements : list Statement → list Token → Prop :=
| ReadsStatements_end : ReadsStatements [] []
| ReadsStatements_semicolon (st : Statement) (ts : list Token) (semi : Token)
    (stmts : list Statement) (rest : list Token) :
    ReadsStatement st ts → Type_ semi = SEMICOLON →
    ReadsStatements stmts rest →
    ReadsStatements (st :: stmts) (ts ++ semi :: rest)
| ReadsStatements_bare (st : Statement) (ts : list Token)
    (stmts : list Statement) (rest : list Token) :
    ReadsStatement st ts → startsAfresh rest →
    ReadsStatements stmts rest →
    ReadsStatements (st :: stmts) (ts ++ rest).

End LanguageGrammar.

Scheme Reads_mut := Minimality for Reads Sort Prop
  with ReadsList_mut := Minimality for ReadsList Sort Prop
  with ReadsRest_mut := Minimality for ReadsRest Sort Prop
  with ReadsPairs_mut := Minimality for ReadsPairs Sort Prop
  with ReadsBlock_mut := Minimality for ReadsBlock Sort Prop
  with ReadsStatement_mut := Minimality for ReadsStatement Sort Prop
  with ReadsStatements_mut := Minimality for ReadsStatements Sort Prop.

Combined Scheme Reads_mutual from Reads_mut, ReadsList_mut, ReadsRest_mut,
  ReadsPairs_mut, ReadsBlock_mut, ReadsStatement_mut, ReadsStatements_mut.

(** The tokens an expression may start with: those that have a prefix
    handler. *)
Definition startsExpression (t : token.TokenType) : bool :=
  match t with
  | token.IDENT | token.INT | token.STRING | token.BANG | token.MINUS
  | token.TRUE | token.FALSE | token.LPAREN | token.IF | token.FUNCTION
  | token.LBRACKET | token.LBRACE => true
  | _ => false
  end.

(** ** What it is for the parser to read a phrase *)

Section ParserReads.
Import token Precedence Parser.
Context {L : Type} `{TokenSource L}.

(** The parser has the tokens [ts] before it, the current one first. *)
Definition sees (p : Parser L) (ts : list Token) : Prop :=
  upcoming (length ts) p = ts.

(** A token that may follow an expression which stands before level
    [hi]: it binds no tighter, and is no [else]. *)
Definition mayFollow (hi : nat) (t : Token) : Prop :=
  default LOWEST (precedences (Type_ t)) ≤ hi ∧ Type_ t ≠ ELSE.

(** A token that ends a statement's expression: it continues no
    expression and is no [else]. *)
Definition endsExpression (t : Token) : Prop :=
  precedences (Type_ t) = None ∧ Type_ t ≠ ELSE.

(** [parseExpression] reads the tokens [ts] as [e] and goes on in its
    loop with [e] as the left operand, on the last token of [ts]. *)
Definition expressionRead (lo hi : nat) (e : Expression) (ts : list Token)
  : Prop :=
  ∀ (f prec : nat) (p : Parser L) (t : Token),
    prec < lo → length ts ≤ f →
    sees p (ts ++ [t]) → mayFollow hi t →
    ∃ n', f < n' + length ts
          ∧ parseExpression (S f) prec p
            = infixLoop (parseExpression f) n' prec e
                        (Nat.iter (length ts - 1) advance p).

(** [parseExpressionList], called on the token before the list, reads the
    expressions and the closing bracket [t], and stands on it. *)
Definition listRead (es : list Expression) (ts : list Token) : Prop :=
  ∀ (f n : nat) (p : Parser L) (t : Token),
    length ts < f → length ts ≤ n →
    sees (advance p) (ts ++ [t]) →
    Type_ t = RPAREN ∨ Type_ t = RBRACKET →
    parseExpressionList (parseExpression f) n (Type_ t) p
    = Some (Some es, Nat.iter (S (length ts)) advance p).

(** The loop of [parseExpressionList], called on the last token of an
    expression, reads the further ones. *)
Definition restRead (es : list Expression) (ts : list Token) : Prop :=
  ∀ (f n : nat) (p : Parser L) (t : Token) (acc : list Expression),
    length ts < f → length ts ≤ n →
    sees (advance p) (ts ++ [t]) →
    Type_ t = RPAREN ∨ Type_ t = RBRACKET →
    parseExpressionListLoop (parseExpression f) n acc p
    = Some (Some (acc ++ es), Nat.iter (length ts) advance p).

(** The loop of [parseHashLiteral], called on the opening brace or on a
    comma, reads the pairs up to the closing brace. *)
Definition pairsRead (pairs : list (Expression * Expression))
  (ts : list Token) : Prop :=
  ∀ (f n : nat) (p : Parser L) (t : Token)
    (acc : list (Expression * Expression)),
    length ts < f → length ts ≤ n →
    sees (advance p) (ts ++ [t]) → Type_ t = RBRACE →
    parseHashLoop (parseExpression f) n acc p
    = Some (Some (acc ++ pairs), Nat.iter (length ts) advance p).

(** [parseBlockStatement], called on the opening brace, reads the block
    and stands on the closing brace. *)
Definition blockRead (b : BlockStatement) (ts : list Token) : Prop :=
  ∀ (f n : nat) (p : Parser L) (t : Token),
    length ts ≤ f → length ts ≤ n →
    sees p (ts ++ [t]) →
    parseBlockStatement (parseExpression f) n p
    = Some (b, Nat.iter (length ts - 1) advance p).

(** [parseStatement] reads the statement, and the semicolon after it
    when there is one. *)
Definition statementRead (st : Statement) (ts : list Token) : Prop :=
  ∀ (f : nat) (p : Parser L) (t : Token),
    length ts < f →
    sees p (ts ++ [t]) → endsExpression t →
    parseStatement (parseExpression f) p
    = Some (Some st, if token.eqb (Type_ t) SEMICOLON
                     then Nat.iter (length ts) advance p
                     else Nat.iter (length ts - 1) advance p).

(** The statement loop reads the statements up to the end of file or, in
    a block, the closing brace. *)
Definition statementsRead (stmts : list Statement) (ts : list Token)
  : Prop :=
  ∀ (f n : nat) (inBlock : bool) (acc : list Statement) (p : Parser L)
    (t : Token),
    length ts < f → length ts ≤ n →
    sees p (ts ++ [t]) →
    Type_ t = EOF ∨ (inBlock = true ∧ Type_ t = RBRACE) →
    parseStatements (parseExpression f) inBlock n acc p
    = Some (acc ++ stmts, Nat.iter (length ts) advance p).

End ParserReads.

(** A program that uses most forms of the language, and its tokens. *)
Definition sampleLanguage : string :=
  "let f = fn(x, y) { if (!x) { return -y * 2 } else { [x, y][0] } }; f(true, {1: 2}[1])".

Definition sampleLanguageTokens : list Token :=
  Eval vm_compute in tokens 48 (Lexer.new sampleLanguage).

(** References are handed out in increasing order: from [s] to [s'] none
    was given back. *)
Definition refs_kept (s s' : State) : Prop := nextRef s ≤ nextRef s'.

(** * Properties *)

(** ** Integer division *)

Section Quotients.
Local Open Scope Z_scope.

Lemma nearest_even_cases (n d : Z) :
  (Number.nearest_even n d = n / d ∧ 2 * (n mod d) ≤ d)
  ∨ (Number.nearest_even n d = n / d + 1 ∧ d ≤ 2 * (n mod d)).
Proof.
  unfold Number.nearest_even.
  destruct (Z.ltb_spec (2 * (n mod d)) d); [left; lia|].
  destruct (Z.ltb_spec d (2 * (n mod d))); [right; lia|].
  destruct (Z.even (n / d)); [left | right]; lia.
Qed.

(** The quotient and the remainder of [a * s] by [b], from those of [a]. *)
Lemma scaled_division (a b s : Z) :
  0 < b → 0 ≤ s →
  (a * s) / b = (a / b) * s + ((a mod b) * s) / b
  ∧ (a * s) mod b = ((a mod b) * s) mod b.
Proof.
  intros Hb Hs.
  pose proof (Z.div_mod a b ltac:(lia)) as Ha.
  pose proof (Z.mod_pos_bound a b Hb) as Hj.
  pose proof (Z.div_mod ((a mod b) * s) b ltac:(lia)) as Ht.
  pose proof (Z.mod_pos_bound ((a mod b) * s) b Hb) as Hr.
  assert (E : a * s = b * ((a / b) * s + ((a mod b) * s) / b)
                      + ((a mod b) * s) mod b) by nia.
  split.
  - symmetry. eapply Z.div_unique_pos; [|exact E]. lia.
  - symmetry. eapply Z.mod_unique_pos; [|exact E]. lia.
Qed.

Section Rounding.
Variables (a b s : Z).
Hypothesis (Ha : 1 ≤ a < 2 ^ 53) (Hb : 1 ≤ b) (Hs : 1 ≤ s).
Hypothesis (Hnorm : 2 ^ 52 * b ≤ a * s).

Lemma no_half (c : Z) : 1 ≤ c → 2 * c * s ≤ b → False.
Proof.
  intros Hc H2. change (2 ^ 53) with (2 * 2 ^ 52) in Ha.
  assert (2 ^ 52 * (2 * s) ≤ a * s) by nia.
  assert (2 * 2 ^ 52 ≤ a) by nia. lia.
Qed.

Lemma round_floor : Number.nearest_even (a * s) b / s = a / b.
Proof.
  destruct (scaled_division a b s ltac:(lia) ltac:(lia)) as [Hq Hr].
  pose proof (Z.div_mod a b ltac:(lia)) as Ea.
  pose proof (Z.mod_pos_bound a b ltac:(lia)) as Hj.
  pose proof (Z.div_mod ((a mod b) * s) b ltac:(lia)) as Et.
  pose proof (Z.mod_pos_bound ((a mod b) * s) b ltac:(lia)) as Hrem.
  set (k := a / b) in *. set (j := a mod b) in *.
  set (t := (j * s) / b) in *. set (rem := (j * s) mod b) in *.
  assert (Ht : 0 ≤ t < s) by (split; nia).
  destruct (nearest_even_cases (a * s) b) as [[-> _]|[-> Hup]];
    rewrite Hq; [|rewrite Hr in Hup].
  - symmetry. apply (Z.div_unique_pos _ _ _ t); lia.
  - destruct (Z.eq_dec (t + 1) s) as [Hlast|Hlast].
    + exfalso. apply (no_half (b - j)); [lia|]. nia.
    + symmetry. apply (Z.div_unique_pos _ _ _ (t + 1)); lia.
Qed.

Lemma round_ceil : (- Number.nearest_even (a * s) b) / s = (- a) / b.
Proof.
  destruct (scaled_division a b s ltac:(lia) ltac:(lia)) as [Hq Hr].
  pose proof (Z.div_mod a b ltac:(lia)) as Ea.
  pose proof (Z.mod_pos_bound a b ltac:(lia)) as Hj.
  pose proof (Z.div_mod ((a mod b) * s) b ltac:(lia)) as Et.
  pose proof (Z.mod_pos_bound ((a mod b) * s) b ltac:(lia)) as Hrem.
  set (k := a / b) in *. set (j := a mod b) in *.
  set (t := (j * s) / b) in *. set (rem := (j * s) mod b) in *.
  assert (Ht : 0 ≤ t < s) by (split; nia).
  destruct (Z.eq_dec j 0) as [Hj0|Hj0].
  - assert (t = 0 ∧ rem = 0) as [Ht0 Hr0] by (split; nia).
    assert (Hn : Number.nearest_even (a * s) b = k * s).
    { destruct (nearest_even_cases (a * s) b) as [[-> _]|[_ Hup]];
        [lia | rewrite Hr in Hup; lia]. }
    rewrite Hn. transitivity (- k).
    + symmetry. apply (Z.div_unique_pos _ _ _ 0); lia.
    + apply (Z.div_unique_pos _ _ _ 0); lia.
  - transitivity (- k - 1).
    + destruct (nearest_even_cases (a * s) b) as [[-> Hdown]|[-> _]];
        rewrite Hq; [rewrite Hr in Hdown|].
      * destruct (Z.eq_dec t 0) as [Ht0|Ht0].
        -- exfalso. apply (no_half j); [lia|]. nia.
        -- symmetry. apply (Z.div_unique_pos _ _ _ (s - t)); lia.
      * symmetry. apply (Z.div_unique_pos _ _ _ (s - t - 1)); lia.
    + apply (Z.div_unique_pos _ _ _ (b - j)); lia.
Qed.

End Rounding.

Lemma scaled_nonpos (a b e : Z) :
  e ≤ 0 → Number.scaled a b e = (a * 2 ^ (- e), b).
Proof.
  intros He. unfold Number.scaled.
  rewrite (Z.max_r 0 (- e)), (Z.max_l 0 e) by lia.
  now rewrite Z.pow_0_r, Z.mul_1_r.
Qed.

Lemma floor_scaled_nonpos (v e : Z) :
  e ≤ 0 → Number.floor_scaled v e = v / 2 ^ (- e).
Proof.
  intros He. unfold Number.floor_scaled, Number.scaled.
  rewrite Z.opp_involutive, (Z.max_l 0 e), (Z.max_r 0 (- e)) by lia.
  now rewrite Z.pow_0_r, Z.mul_1_r, Z.mul_1_l.
Qed.

(** Between two integers below 2^53 the exponent leaves at least 53
    bits of the quotient and is that of no tiny number. *)
Lemma exponent_normal (a b : Z) :
  1 ≤ a < 2 ^ 53 → 1 ≤ b < 2 ^ 53 →
  Number.exponent a b ≤ 0 ∧ 2 ^ 52 * b ≤ a * 2 ^ (- Number.exponent a b).
Proof.
  intros Ha Hb.
  pose proof (Z.log2_spec a ltac:(lia)) as La.
  pose proof (Z.log2_spec b ltac:(lia)) as Lb.
  pose proof (Z.log2_nonneg a) as Na. pose proof (Z.log2_nonneg b) as Nb.
  assert (Ua : Z.log2 a < 53) by (apply Z.log2_lt_pow2; lia).
  assert (Ub : Z.log2 b < 53) by (apply Z.log2_lt_pow2; lia).
  unfold Number.exponent.
  set (e := Z.log2 a - Z.log2 b - 52).
  assert (He : - 104 ≤ e ≤ 0) by (unfold e; lia).
  rewrite (scaled_nonpos a b e) by lia.
  assert (Hpow : 2 ^ (- e) * 2 ^ Z.log2 a = 2 ^ Z.log2 b * 2 ^ 52).
  { rewrite <- !Z.pow_add_r by lia. f_equal. unfold e. lia. }
  assert (Hpos : 0 < 2 ^ (- e)) by (apply Z.pow_pos_nonneg; lia).
  rewrite Z.pow_succ_r in La, Lb by lia.
  destruct (Z.ltb_spec (a * 2 ^ (- e)) (2 ^ 52 * b)) as [Hlt|Hge].
  - rewrite Z.max_l by lia. split; [lia|].
    replace (- (e - 1)) with (Z.succ (- e)) by lia.
    rewrite Z.pow_succ_r by lia. nia.
  - rewrite Z.max_l by lia. split; [lia | exact Hge].
Qed.

Lemma quotient_exact (a b : Z) :
  1 ≤ a < 2 ^ 53 → 1 ≤ b < 2 ^ 53 →
  Number.floor_scaled (fst (Number.quotient a b))
                      (snd (Number.quotient a b)) = a / b
  ∧ Number.floor_scaled (- fst (Number.quotient a b))
                        (snd (Number.quotient a b)) = (- a) / b.
Proof.
  intros Ha Hb. destruct (exponent_normal a b Ha Hb) as [He Hnorm].
  unfold Number.quotient. rewrite (scaled_nonpos a b _ He). cbn [fst snd].
  rewrite !floor_scaled_nonpos by exact He.
  assert (Hs : 1 ≤ 2 ^ (- Number.exponent a b))
    by (pose proof (Z.pow_pos_nonneg 2 (- Number.exponent a b)); lia).
  split.
  - apply round_floor; (lia || assumption).
  - apply round_ceil; (lia || assumption).
Qed.

(** On integers below 2^53 the division of doubles followed by
    [Math.floor] is the floor of the exact quotient. *)
Lemma floor_div_finite (l r : Z) :
  r ≠ 0 → Z.abs l < 2 ^ 53 → Z.abs r < 2 ^ 53 →
  Number.floor_div (Num l) (Num r) = Num (l / r).
Proof.
  intros Hr Hl Hrb. unfold Number.floor_div.
  destruct (Z.eqb_spec r 0) as [|_]; [contradiction|].
  destruct (Z.eqb_spec l 0) as [->|Hl0]; [now rewrite Z.div_0_l|].
  destruct (quotient_exact (Z.abs l) (Z.abs r) ltac:(lia) ltac:(lia))
    as [Hfloor Hceil].
  destruct (Number.quotient (Z.abs l) (Z.abs r)) as [m e].
  cbn [fst snd] in Hfloor, Hceil. f_equal.
  destruct (Z.lt_total l 0) as [Hln|[->|Hlp]]; [|contradiction|];
    destruct (Z.lt_total r 0) as [Hrn|[->|Hrp]]; try contradiction.
  - rewrite (Z.sgn_neg l), (Z.sgn_neg r) by lia.
    replace (-1 * -1 * m) with m by lia. rewrite Hfloor.
    rewrite !Z.abs_neq by lia. apply Z.div_opp_opp. lia.
  - rewrite (Z.sgn_neg l), (Z.sgn_pos r) by lia.
    replace (-1 * 1 * m) with (- m) by lia. rewrite Hceil.
    rewrite Z.abs_neq, (Z.abs_eq r) by lia. now rewrite Z.opp_involutive.
  - rewrite (Z.sgn_pos l), (Z.sgn_neg r) by lia.
    replace (1 * -1 * m) with (- m) by lia. rewrite Hceil.
    rewrite (Z.abs_eq l), (Z.abs_neq r) by lia.
    rewrite <- (Z.div_opp_opp l r) by lia. reflexivity.
  - rewrite (Z.sgn_pos l), (Z.sgn_pos r) by lia.
    replace (1 * 1 * m) with m by lia. rewrite Hfloor.
    now rewrite !Z.abs_eq by lia.
Qed.

End Quotients.

Section Division.

Lemma evalInfix_two_integers (op : string) (a b : nat) (x y : number) :
  evalInfixExpression op (Obj a (IntegerObject x)) (Obj b (IntegerObject y))
  = evalIntegerInfixExpression op (Obj a (IntegerObject x))
                                  (Obj b (IntegerObject y)).
Proof. reflexivity. Qed.

(** C1, as the code has it: the quotient of two integer objects of
    magnitude below 2^53 with a nonzero divisor is a fresh integer object
    holding the quotient rounded toward minus infinity (the floor).  The
    result is the truncated quotient whenever the operands have the same
    sign, so 7 / 2 is 3.  Beyond that range the quotient is rounded to a
    double before it is floored: (2^55 + 8) / 3 gives 12009599006321326,
    one more than the floor of the exact quotient. *)
Theorem division_rounds_down (l r : Z) (a b : nat) (s : State) :
  r ≠ 0%Z → (Z.abs l < 2 ^ 53)%Z → (Z.abs r < 2 ^ 53)%Z →
  evalInfixExpression "/" (Obj a (IntegerObject (Num l)))
                          (Obj b (IntegerObject (Num r))) s
  = Ok (Obj (nextRef s) (IntegerObject (Num (l / r))), allocated s)
  ∧ ((0 < r)%Z → (r * (l / r) ≤ l < r * (l / r) + r)%Z)
  ∧ ((r < 0)%Z → (r * (l / r) + r < l ≤ r * (l / r))%Z)
  ∧ ((0 ≤ l ∧ 0 < r)%Z ∨ (l ≤ 0 ∧ r < 0)%Z → (l / r = l ÷ r)%Z)
  ∧ runValue 20 "7 / 2" = Some ([], Ok (Obj 12 (IntegerObject (Num 3))))
  ∧ evalInfixExpression "/" (Obj a (IntegerObject (Num (2 ^ 55 + 8))))
                            (Obj b (IntegerObject (Num 3))) s
    = Ok (Obj (nextRef s) (IntegerObject (Num 12009599006321326)),
          allocated s)
  ∧ ((2 ^ 55 + 8) / 3 = 12009599006321325)%Z.
Proof.
  intros Hr Hl Hrb. split; [|split; [|split; [|split; [|split; [|split]]]]].
  - rewrite evalInfix_two_integers. unfold evalIntegerInfixExpression.
    rewrite <- (floor_div_finite l r Hr Hl Hrb). reflexivity.
  - intros Hpos. pose proof (Z.mul_div_le l r Hpos).
    pose proof (Z.mul_succ_div_gt l r Hpos). lia.
  - intros Hneg. pose proof (Z.mul_div_ge l r Hneg).
    pose proof (Z.mul_succ_div_lt l r Hneg). lia.
  - intros [[Hl' Hr']|[Hl' Hr']].
    + symmetry. now apply Z.quot_div_nonneg.
    + rewrite <- (Z.opp_involutive l), <- (Z.opp_involutive r) at 1.
      rewrite Z.div_opp_opp by lia.
      rewrite <- (Z.quot_opp_opp l r) by lia.
      symmetry. apply Z.quot_div_nonneg; lia.
  - vm_compute. reflexivity.
  - rewrite evalInfix_two_integers. reflexivity.
  - reflexivity.
Qed.

Lemma division_rounds_down_witness :
  evalInfixExpression "/" (Obj 10 (IntegerObject (Num (-7))))
                          (Obj 11 (IntegerObject (Num 2))) initial
  = Ok (Obj 10 (IntegerObject (Num (-4))), allocated initial).
Proof.
  refine (proj1 (division_rounds_down (-7) 2 10 11 initial _ _ _));
    [lia | reflexivity | reflexivity].
Defined.

(** C1 as stated fails: -7 / 2 evaluates to -4, while the quotient
    truncated toward zero is -3. *)
Lemma division_does_not_truncate :
  runValue 20 "-7 / 2" = Some ([], Ok (Obj 13 (IntegerObject (Num (-4)))))
  ∧ (-7 ÷ 2 = -3)%Z
  ∧ ¬ (∃ s', evalInfixExpression "/" (Obj 10 (IntegerObject (Num (-7))))
               (Obj 11 (IntegerObject (Num 2))) initial
             = Ok (Obj 10 (IntegerObject (Num (-7 ÷ 2))), s')).
Proof.
  split; [vm_compute; reflexivity|]. split; [reflexivity|].
  intros [s' H]. vm_compute in H. discriminate H.
Qed.

End Division.

(** ** Prefix and infix operators on other operands *)

Section Operators.

Lemma same_Obj (r1 r2 : nat) (o1 o2 : MonkeyObject) :
  same (Obj r1 o1) (Obj r2 o2) = true ↔ r1 = r2.
Proof. simpl. apply Nat.eqb_eq. Qed.


(** C2, as the code has it: on two objects that are neither both
    integers nor both strings, [==] is true exactly when the two sides are
    the same object (for booleans and null: the same singleton), [!=] is
    its negation, and any other operator is a "type mismatch" error when
    the kinds differ and an "unknown operator" error when they agree. *)
Theorem infix_on_other_operands (op : string) (rl rr : nat)
  (ol or : MonkeyObject) (s : State) :
  ¬ (type ol = INTEGER_OBJ ∧ type or = INTEGER_OBJ) →
  ¬ (type ol = STRING_OBJ ∧ type or = STRING_OBJ) →
  (op = "==" →
     evalInfixExpression op (Obj rl ol) (Obj rr or) s
     = Ok (nativeBoolToBooleanObject (rl =? rr)%nat, s))
  ∧ (op = "!=" →
     evalInfixExpression op (Obj rl ol) (Obj rr or) s
     = Ok (nativeBoolToBooleanObject (negb (rl =? rr)%nat), s))
  ∧ (op ≠ "==" → op ≠ "!=" → type ol ≠ type or →
     evalInfixExpression op (Obj rl ol) (Obj rr or) s
     = Ok (Obj (nextRef s)
             (ErrorObject ("type mismatch: " +:+ type ol +:+ " " +:+ op
                           +:+ " " +:+ type or)), allocated s))
  ∧ (op ≠ "==" → op ≠ "!=" → type ol = type or →
     evalInfixExpression op (Obj rl ol) (Obj rr or) s
     = Ok (Obj (nextRef s)
             (ErrorObject ("unknown operator: " +:+ type ol +:+ " " +:+ op
                           +:+ " " +:+ type or)), allocated s)).
Proof.
  intros Hint Hstr.
  assert (Hgen : evalInfixExpression op (Obj rl ol) (Obj rr or) s
    = if String.eqb op "==" then
        Ok (nativeBoolToBooleanObject (rl =? rr)%nat, s)
      else if String.eqb op "!=" then
        Ok (nativeBoolToBooleanObject (negb (rl =? rr)%nat), s)
      else if negb (String.eqb (type ol) (type or)) then
        Ok (Obj (nextRef s)
              (ErrorObject ("type mismatch: " +:+ type ol +:+ " " +:+ op
                            +:+ " " +:+ type or)), allocated s)
      else
        Ok (Obj (nextRef s)
              (ErrorObject ("unknown operator: " +:+ type ol +:+ " " +:+ op
                            +:+ " " +:+ type or)), allocated s)).
  { destruct ol, or;
      try (exfalso; apply Hint; split; reflexivity);
      try (exfalso; apply Hstr; split; reflexivity);
      unfold evalInfixExpression, bothOfType, Monad.bind, typeOf, Monad.ret;
      cbn [type same]; simpl;
      destruct (String.eqb op "=="); try reflexivity;
      destruct (String.eqb op "!="); reflexivity. }
  rewrite Hgen. repeat split.
  - intros ->. reflexivity.
  - intros ->. reflexivity.
  - intros H1 H2 Ht.
    apply String.eqb_neq in H1, H2, Ht. now rewrite H1, H2, Ht.
  - intros H1 H2 Ht.
    apply String.eqb_neq in H1, H2. apply String.eqb_eq in Ht.
    now rewrite H1, H2, Ht.
Qed.

Lemma infix_on_other_operands_witness :
  evalInfixExpression "+" (Obj 10 (IntegerObject (Num 5))) TRUE initial
  = Ok (Obj 10 (ErrorObject "type mismatch: INTEGER + BOOLEAN"),
        allocated initial)
  ∧ evalInfixExpression "+" TRUE FALSE initial
    = Ok (Obj 10 (ErrorObject "unknown operator: BOOLEAN + BOOLEAN"),
          allocated initial)
  ∧ evalInfixExpression "==" TRUE TRUE initial = Ok (TRUE, initial).
Proof.
  split; [|split].
  - refine (proj1 (proj2 (proj2 (infix_on_other_operands "+" 10 8
             (IntegerObject (Num 5)) (BooleanObject true) initial _ _)))
             _ _ _);
      (intros [H1 H2] || intros H1); discriminate.
  - refine (proj2 (proj2 (proj2 (infix_on_other_operands "+" 8 9
             (BooleanObject true) (BooleanObject false) initial _ _)))
             _ _ _);
      try reflexivity; (intros [H1 H2] || intros H1); discriminate.
  - refine (proj1 (infix_on_other_operands "==" 8 8
             (BooleanObject true) (BooleanObject true) initial _ _) _);
      try reflexivity; intros [H1 H2]; discriminate.
Defined.

(** C2 as stated fails: an array compared with itself is equal, although
    the operands are not a boolean or null singleton. *)
Lemma equality_holds_on_one_array :
  runValue 20 "let a = [1]; a == a" = Some ([], Ok TRUE)
  ∧ evalInfixExpression "=="
      (Obj 11 (ArrayObject [Obj 10 (IntegerObject (Num 1))]))
      (Obj 11 (ArrayObject [Obj 10 (IntegerObject (Num 1))])) initial
    = Ok (TRUE, initial).
Proof. split; vm_compute; reflexivity. Qed.

End Operators.

(** ** Array indexing *)

Section Indexing.

Lemma index_of_array_integer (r1 r2 : nat) (elements : list Value)
  (idx : number) :
  evalIndexExpression (Obj r1 (ArrayObject elements))
                      (Obj r2 (IntegerObject idx))
  = evalArrayIndexExpression (Obj r1 (ArrayObject elements))
                             (Obj r2 (IntegerObject idx)).
Proof. reflexivity. Qed.



End Indexing.


(** ** Hash keys *)

Section HashKeys.

Lemma pretty_N_go_head (c : ascii) (x : N) (s s' : string) :
  (∀ d, pretty_N_char d ≠ c) →
  s ≠ String c s' → pretty_N_go x s ≠ String c s'.
Proof.
  intros Hc. revert s.
  induction (N.lt_wf_0 x) as [x _ IH]; intros s Hs.
  assert (x = 0 ∨ 0 < x)%N as [->|Hpos] by lia.
  - now rewrite pretty_N_go_0.
  - rewrite pretty_N_go_step by done. apply IH.
    + now apply N.div_lt.
    + intros [= Hd _]. exact (Hc _ Hd).
Qed.

Lemma pretty_positive_head (c : ascii) (p : positive) (s' : string) :
  (∀ d, pretty_N_char d ≠ c) → pretty p ≠ String c s'.
Proof.
  intros Hc. unfold pretty, pretty_positive, pretty, pretty_N.
  destruct (decide (N.pos p = 0%N)); [discriminate|].
  apply pretty_N_go_head; [exact Hc | discriminate].
Qed.

Lemma digit_is_not (c : ascii) :
  (Lexer.isDigit c = false) → ∀ d, pretty_N_char d ≠ c.
Proof.
  intros Hc d Hd. subst c. unfold pretty_N_char in Hc.
  repeat case_match; discriminate Hc.
Qed.

Lemma toString_finite (z : Z) :
  pretty z ≠ "Infinity" ∧ pretty z ≠ "-Infinity" ∧ pretty z ≠ "NaN".
Proof.
  destruct z as [|p|p]; unfold pretty, pretty_Z.
  - repeat split; discriminate.
  - repeat split; apply pretty_positive_head, digit_is_not; reflexivity.
  - repeat split; try discriminate.
    intros [= H]. revert H.
    apply pretty_positive_head, digit_is_not; reflexivity.
Qed.

Lemma Number_toString_inj (a b : number) :
  Number.toString a = Number.toString b → a = b.
Proof.
  destruct a as [x| | |], b as [y| | |]; simpl; intros H;
    try reflexivity; try discriminate H;
    try (exfalso; destruct (toString_finite x) as (?&?&?); congruence);
    try (exfalso; destruct (toString_finite y) as (?&?&?); congruence).
  f_equal. now apply (inj pretty).
Qed.

(** The string under which a key is filed determines the kind and the
    numeric hash of the key. *)
Lemma HashKey_toString_inj (o1 o2 : MonkeyObject) (h1 h2 : HashKey) :
  hashKey o1 = Some h1 → hashKey o2 = Some h2 →
  HashKey_toString h1 = HashKey_toString h2 → h1 = h2.
Proof.
  intros H1 H2.
  destruct o1; try discriminate H1; destruct o2; try discriminate H2;
    injection H1 as <-; injection H2 as <-;
    unfold HashKey_toString; cbn [hk_type hk_value];
    cbv beta iota fix delta [INTEGER_OBJ BOOLEAN_OBJ STRING_OBJ String.append];
    intros H; try discriminate H; injection H as H;
    first [apply Number_toString_inj in H | apply (inj pretty) in H];
    now rewrite H.
Qed.

Lemma pairs_get_set_same (k : string) (p : HashPair)
  (pairs : list (string * HashPair)) :
  pairs_get k (pairs_set k p pairs) = Some p.
Proof.
  induction pairs as [|[k' p'] rest IH]; simpl.
  - now rewrite String.eqb_refl.
  - destruct (String.eqb k k') eqn:E; simpl.
    + now rewrite String.eqb_refl.
    + now rewrite E.
Qed.

Lemma pairs_get_set_other (k k2 : string) (p : HashPair)
  (pairs : list (string * HashPair)) :
  k ≠ k2 → pairs_get k2 (pairs_set k p pairs) = pairs_get k2 pairs.
Proof.
  intros Hne. induction pairs as [|[k' p'] rest IH]; simpl.
  - destruct (String.eqb_spec k2 k); [congruence | reflexivity].
  - destruct (String.eqb_spec k k') as [->|Hk]; simpl.
    + destruct (String.eqb_spec k2 k'); [congruence | reflexivity].
    + now rewrite IH.
Qed.

(** C5, as the code has it: a pair stored under one hashable key is
    found under another exactly when both keys have the same kind and the
    same numeric hash.  Keys of different kinds never meet; integer and
    boolean keys meet exactly when they are equal; two strings meet
    exactly when the absolute values of their 32-bit hashes agree, and no
    comparison with the stored key is made. *)
Theorem hash_lookup_by_kind_and_hash (o1 o2 : MonkeyObject) (h1 h2 : HashKey)
  (r1 r2 rh : nat) (v : Value) (pairs : list (string * HashPair))
  (s : State) :
  hashKey o1 = Some h1 → hashKey o2 = Some h2 →
  (h1 = h2 →
     evalHashIndexExpression
       (Obj rh (HashObject
                  (pairs_set (HashKey_toString h1) (Obj r1 o1, v) pairs)))
       (Obj r2 o2) s = Ok (v, s))
  ∧ (h1 ≠ h2 →
     evalHashIndexExpression
       (Obj rh (HashObject
                  (pairs_set (HashKey_toString h1) (Obj r1 o1, v) pairs)))
       (Obj r2 o2) s
     = evalHashIndexExpression (Obj rh (HashObject pairs)) (Obj r2 o2) s)
  ∧ (type o1 ≠ type o2 → h1 ≠ h2)
  ∧ (o1 = o2 → h1 = h2)
  ∧ (type o1 = INTEGER_OBJ ∨ type o1 = BOOLEAN_OBJ → h1 = h2 → o1 = o2)
  ∧ (∀ s1 s2, o1 = StringObject s1 → o2 = StringObject s2 →
       (h1 = h2 ↔ Z.abs (stringHash s1 0) = Z.abs (stringHash s2 0))).
Proof.
  intros H1 H2. split; [|split; [|split; [|split; [|split]]]].
  - intros <-. unfold evalHashIndexExpression. rewrite H2.
    now rewrite pairs_get_set_same.
  - intros Hne. unfold evalHashIndexExpression. rewrite H2.
    rewrite pairs_get_set_other; [reflexivity|].
    intros Heq. apply Hne. exact (HashKey_toString_inj _ _ _ _ H1 H2 Heq).
  - intros Ht <-. apply Ht.
    destruct o1; try discriminate H1; destruct o2; try discriminate H2;
      try reflexivity; injection H1 as <-; discriminate H2.
  - intros <-. congruence.
  - intros Hk <-.
    destruct o1 as [x|b|x| | | | | | |]; try discriminate H1;
      destruct o2 as [y|c|y| | | | | | |]; try discriminate H2;
      try (destruct Hk as [Hk|Hk]; discriminate Hk);
      injection H1 as <-; injection H2 as H2; try discriminate H2.
    + now rewrite H2.
    + destruct b, c; try reflexivity; discriminate H2.
  - intros s1 s2 -> ->. injection H1 as <-. injection H2 as <-.
    split; [intros [= H]; exact H | intros ->; reflexivity].
Qed.

End HashKeys.

(** ** Running the evaluation monad *)

Section MonadFacts.

Lemma bind_Ok {A B} (m : M A) (k : A → M B) (s : State) (b : B) (s' : State) :
  Monad.bind m k s = Ok (b, s') →
  ∃ a s1, m s = Ok (a, s1) ∧ k a s1 = Ok (b, s').
Proof.
  unfold Monad.bind. destruct (m s) as [[a s1]| |]; try discriminate.
  intros H. now exists a, s1.
Qed.

Lemma bind_of_Ok {A B} (m : M A) (k : A → M B) (s s1 : State) (a : A) :
  m s = Ok (a, s1) → Monad.bind m k s = k a s1.
Proof. unfold Monad.bind. now intros ->. Qed.

(** Unfolding equations of [evalNode]. *)
Lemma evalNode_S (n : nat) (node : option Node) (env : nat) :
  evalNode (S n) node env = evalNodeBody (evalNode n) node env.
Proof. reflexivity. Qed.

End MonadFacts.

(** ** Programs and blocks *)

Section Sequences.

Variable ev : option Node → nat → M Value.

Lemma programLoop_quiet (env : nat) (pre rest : list Statement)
  (r0 last : Value) (s0 s1 : State) :
  quietRun ev false env pre r0 s0 = Some (last, s1) →
  evalProgramLoop ev (pre ++ rest) env r0 s0
  = evalProgramLoop ev rest env last s1.
Proof.
  revert r0 s0. induction pre as [|st pre IH]; intros r0 s0 H; simpl in *.
  - now injection H as -> ->.
  - unfold Monad.bind.
    destruct (ev (Some (StatementNode st)) env s0) as [[v s']| |];
      try discriminate.
    destruct v as [| |r o]; simpl in H; try now apply IH.
    destruct o; simpl in H; try discriminate; now apply IH.
Qed.

Lemma blockLoop_quiet (env : nat) (pre rest : list Statement)
  (r0 last : Value) (s0 s1 : State) :
  quietRun ev true env pre r0 s0 = Some (last, s1) →
  evalBlockLoop ev (pre ++ rest) env r0 s0
  = evalBlockLoop ev rest env last s1.
Proof.
  revert r0 s0. induction pre as [|st pre IH]; intros r0 s0 H; simpl in *.
  - now injection H as -> ->.
  - unfold Monad.bind.
    destruct (ev (Some (StatementNode st)) env s0) as [[v s']| |];
      try discriminate.
    destruct v as [| |r o]; simpl in H; try discriminate; try now apply IH.
    destruct o; simpl in H; try discriminate; now apply IH.
Qed.

Lemma programLoop_stop (env : nat) (st : Statement) (post : list Statement)
  (r0 v : Value) (s1 s2 : State) :
  ev (Some (StatementNode st)) env s1 = Ok (v, s2) → stops v = true →
  evalProgramLoop ev (st :: post) env r0 s1 = Ok (unwrapped v, s2).
Proof.
  intros Hev Hstop. simpl. rewrite (bind_of_Ok _ _ _ _ _ Hev).
  destruct v as [| |r o]; try discriminate Hstop.
  destruct o; try discriminate Hstop; reflexivity.
Qed.

Lemma blockLoop_stop (env : nat) (st : Statement) (post : list Statement)
  (r0 v : Value) (s1 s2 : State) :
  ev (Some (StatementNode st)) env s1 = Ok (v, s2) → stops v = true →
  evalBlockLoop ev (st :: post) env r0 s1 = Ok (v, s2).
Proof.
  intros Hev Hstop. simpl. rewrite (bind_of_Ok _ _ _ _ _ Hev).
  destruct v as [| |r o]; try discriminate Hstop.
  destruct o; try discriminate Hstop; reflexivity.
Qed.

End Sequences.

(** C3: a program and a block evaluate their statements in order and
    stop at the first statement whose result is a return value or an error;
    what comes later is not evaluated, whatever it is.  The program returns
    the inner value of a return value, the block returns the wrapper itself.
    When no statement stops the sequence, the result is that of the last
    statement. *)
Theorem sequences_stop_at_return_or_error (n : nat) (env : nat)
  (pre post : list Statement) (st : Statement) (tok : Token)
  (v : Value) (s0 s1 s2 : State) (last : Value) :
  evalNode n (Some (StatementNode st)) env s1 = Ok (v, s2) →
  stops v = true →
  (quietRun (evalNode n) false env pre JsNull s0 = Some (last, s1) →
     evalNode (S n) (Some (ProgramNode (mkProgram (pre ++ st :: post)))) env s0
     = Ok (unwrapped v, s2))
  ∧ (quietRun (evalNode n) true env pre JsNull s0 = Some (last, s1) →
     evalNode (S n) (Some (BlockNode (Block tok (pre ++ st :: post)))) env s0
     = Ok (v, s2))
  ∧ (quietRun (evalNode n) false env pre JsNull s0 = Some (last, s1) →
     evalNode (S n) (Some (ProgramNode (mkProgram pre))) env s0
     = Ok (last, s1))
  ∧ (quietRun (evalNode n) true env pre JsNull s0 = Some (last, s1) →
     evalNode (S n) (Some (BlockNode (Block tok pre))) env s0
     = Ok (last, s1))
  ∧ runValue 50 "let f = fn() { if (true) { return 1; } 2 }; f()"
    = Some ([], Ok (Obj 11 (IntegerObject (Num 1)))).
Proof.
  intros Hev Hstop. split; [|split; [|split; [|split]]].
  - intros Hq. rewrite evalNode_S. simpl. unfold evalProgram. simpl.
    rewrite (programLoop_quiet _ _ _ _ _ _ _ _ Hq).
    now apply programLoop_stop.
  - intros Hq. rewrite evalNode_S. simpl.
    rewrite (blockLoop_quiet _ _ _ _ _ _ _ _ Hq).
    now apply blockLoop_stop.
  - intros Hq. rewrite evalNode_S. simpl. unfold evalProgram. simpl.
    rewrite <- (app_nil_r pre).
    now rewrite (programLoop_quiet _ _ _ _ _ _ _ _ Hq).
  - intros Hq. rewrite evalNode_S. simpl.
    rewrite <- (app_nil_r pre).
    now rewrite (blockLoop_quiet _ _ _ _ _ _ _ _ Hq).
  - vm_compute. reflexivity.
Qed.

(** ** Environments across evaluation *)

Section Frames.

#[global] Instance frames_kept_steady : Steady frames_kept.
Proof.
  split.
  - intros s. split; [lia | auto].
  - intros s1 s2 s3 [L1 H1] [L2 H2]. split; [lia|].
    intros e He. rewrite H2 by lia. now apply H1.
  - intros s. split; [simpl; lia | auto].
  - intros s line. split; [simpl; lia | auto].
Qed.

#[global] Instance frames_kept_except_steady (env : nat) :
  Steady (frames_kept_except env).
Proof.
  split.
  - intros s. split; [lia | auto].
  - intros s1 s2 s3 [L1 H1] [L2 H2]. split; [lia|].
    intros e He Hne. rewrite H2 by (lia || assumption). now apply H1.
  - intros s. split; [simpl; lia | auto].
  - intros s line. split; [simpl; lia | auto].
Qed.

Lemma frames_kept_weaken (env : nat) (s s' : State) :
  frames_kept s s' → frames_kept_except env s s'.
Proof. intros [L H]. split; [exact L | auto]. Qed.

(** [set] touches the table of its own environment only. *)
Lemma set_frames (env : nat) (name : string) (val : Value) (s : State) :
  frames_kept_except env s (Environment.set env name val s).
Proof.
  split; simpl.
  - now rewrite length_alter.
  - intros e _ Hne. now apply list_lookup_alter_ne.
Qed.

Lemma set_local (env : nat) (name : string) (val : Value) (s : State)
  (fr : Frame) :
  envs s !! env = Some fr →
  envs (Environment.set env name val s) !! env
  = Some (mkFrame (<[name := val]> (store fr)) (outer fr)).
Proof. intros H. simpl. now rewrite list_lookup_alter_eq, H. Qed.

Context {R : State → State → Prop} `{!Steady R}.

Lemma preserves_ret {A} (a : A) : preserves R (Monad.ret a).
Proof. intros s a' s' [= _ <-]. apply steady_refl. Qed.

Lemma preserves_throw {A} : preserves R (@Monad.throw A).
Proof. intros s a s' H. discriminate H. Qed.

Lemma preserves_exhausted {A} : preserves R (@Monad.exhausted A).
Proof. intros s a s' H. discriminate H. Qed.

Lemma preserves_bind {A B} (m : M A) (k : A → M B) :
  preserves R m → (∀ a, preserves R (k a)) → preserves R (Monad.bind m k).
Proof.
  intros Hm Hk s b s' H. apply bind_Ok in H as (a & s1 & H1 & H2).
  eapply steady_trans; [eapply Hm | eapply Hk]; eassumption.
Qed.

Lemma preserves_new (o : MonkeyObject) : preserves R (Monad.new o).
Proof. intros s a s' [= _ <-]. apply steady_alloc. Qed.

Lemma preserves_log (v : Value) : preserves R (Monad.log v).
Proof.
  unfold Monad.log. destruct (inspect v) as [line|]; [|apply preserves_throw].
  intros s0 a s' [= _ <-]. apply steady_log.
Qed.

End Frames.

(** Decompose a goal [preserves R m] along the structure of [m]. *)
Ltac preserve_step :=
  first
    [ solve [auto 2]
    | apply preserves_ret
    | apply preserves_throw
    | apply preserves_exhausted
    | apply preserves_new
    | apply preserves_log
    | apply preserves_bind; [|intros ?]
    | match goal with
      | |- preserves _ (match ?x with _ => _ end) => destruct x
      | |- preserves _ (if ?b then _ else _) => destruct b
      end ].

Ltac preserve := repeat preserve_step.

Section Leaves.

Context {R : State → State → Prop} `{!Steady R}.

Lemma preserves_typeOf (v : Value) : preserves R (typeOf v).
Proof. unfold typeOf. preserve. Qed.

Lemma preserves_isError (v : Value) : preserves R (isError v).
Proof. unfold isError. preserve. Qed.

Lemma preserves_newError (msg : string) : preserves R (newError msg).
Proof. apply preserves_new. Qed.

Lemma preserves_prefix (op : string) (v : Value) :
  preserves R (evalPrefixExpression op v).
Proof.
  unfold evalPrefixExpression, evalMinusPrefixOperatorExpression, newError.
  pose proof preserves_typeOf. preserve; auto.
Qed.

Lemma preserves_infix (op : string) (l r : Value) :
  preserves R (evalInfixExpression op l r).
Proof.
  unfold evalInfixExpression, bothOfType, evalIntegerInfixExpression,
    evalStringInfixExpression, newError.
  pose proof preserves_typeOf. preserve; auto.
Qed.

Lemma preserves_index (l i : Value) : preserves R (evalIndexExpression l i).
Proof.
  unfold evalIndexExpression, evalArrayIndexExpression,
    evalHashIndexExpression, newError.
  pose proof preserves_typeOf. preserve; auto.
Qed.

Lemma preserves_identifier (i : Identifier) (env : nat) :
  preserves R (evalIdentifier i env).
Proof.
  intros s a s'. unfold evalIdentifier.
  destruct (Environment.get s env (ident_value i)) as [val [|]].
  - intros [= _ <-]. apply steady_refl.
  - destruct (builtins.get (ident_value i)).
    + intros [= _ <-]. apply steady_refl.
    + apply preserves_new.
Qed.

Lemma preserves_logAll (args : list Value) : preserves R (builtins.logAll args).
Proof. induction args; simpl; preserve. Qed.

Lemma preserves_builtin (fn : BuiltinFunction) (args : list Value) :
  preserves R (builtins.call fn args).
Proof.
  unfold builtins.call, builtins.mustBeArray.
  pose proof preserves_typeOf. pose proof preserves_logAll.
  preserve; auto.
Qed.

End Leaves.

(** ** Function calls *)

Section Calls.

Lemma bindParameters_eq (e : nat) (ps : list Identifier) (args : list Value)
  (i : nat) (s : State) :
  bindParameters e ps args i s
  = {| envs := alter (λ fr, mkFrame (boundStore ps args i (store fr))
                                    (outer fr)) e (envs s);
       nextRef := nextRef s;
       console := console s |}.
Proof.
  revert i s. induction ps as [|p ps IH]; intros i s; simpl.
  - rewrite list_alter_id; [now destruct s | now intros []].
  - rewrite IH. unfold Environment.set. simpl.
    now rewrite list_alter_alter_eq.
Qed.

(** [extendFunctionEnv] returns a new environment at the end of the heap;
    it encloses the environment captured by the function. *)
Lemma extendFunctionEnv_eq (ps : list Identifier) (fenv : nat)
  (args : list Value) (s : State) :
  extendFunctionEnv ps fenv args s
  = Ok (length (envs s), callState ps fenv args s).
Proof.
  unfold extendFunctionEnv, newEnclosedEnvironment, alloc, callState.
  rewrite bindParameters_eq. simpl. do 3 f_equal.
  rewrite <- (Nat.add_0_r (length (envs s))) at 1.
  now rewrite alter_app_r.
Qed.

Lemma callState_frames (ps : list Identifier) (fenv : nat)
  (args : list Value) (s : State) :
  frames_kept s (callState ps fenv args s)
  ∧ length (envs (callState ps fenv args s)) = S (length (envs s))
  ∧ envs (callState ps fenv args s) !! length (envs s)
    = Some (mkFrame (boundStore ps args 0 ∅) (Some fenv)).
Proof.
  unfold callState, frames_kept. cbn [envs]. repeat split.
  - rewrite length_app. simpl. lia.
  - intros e He. now apply lookup_app_l.
  - rewrite length_app. simpl. lia.
  - rewrite lookup_app_r by lia. now rewrite Nat.sub_diag.
Qed.

Variable ev : option Node → nat → M Value.

(** Applying a function object: the body runs in the new environment and
    one layer of return value is taken off its result. *)
Lemma applyFunction_Function (r : nat) (ps : list Identifier)
  (body : BlockStatement) (fenv : nat) (args : list Value) (s : State) :
  applyFunction ev (Obj r (FunctionObject ps body fenv)) args s
  = match ev (Some (BlockNode body)) (length (envs s))
            (callState ps fenv args s) with
    | Ok (v, s2) => Ok (unwrapReturnValue v, s2)
    | Throw => Throw
    | Exhausted => Exhausted
    end.
Proof.
  unfold applyFunction. simpl. unfold Monad.bind at 1. simpl.
  unfold Monad.bind at 1. rewrite extendFunctionEnv_eq.
  unfold Monad.bind.
  now destruct (ev (Some (BlockNode body)) (length (envs s))
                   (callState ps fenv args s)) as [[v s2]| |].
Qed.

Hypothesis IH : ∀ node env, preserves (frames_kept_except env) (ev node env).

Lemma applyFunction_frames (f : Value) (args : list Value) :
  preserves frames_kept (applyFunction ev f args).
Proof.
  intros s v s' H. destruct f as [| |r o]; try discriminate H.
  destruct o;
    try (revert H; apply preserves_bind;
         [apply preserves_typeOf | intros ?; apply preserves_newError]).
  - rewrite applyFunction_Function in H.
    destruct (ev (Some (BlockNode body)) (length (envs s))
                (callState parameters env args s)) as [[v2 s2]| |] eqn:E;
      try discriminate H.
    injection H as _ <-. apply IH in E as [L2 K2].
    destruct (callState_frames parameters env args s) as ([L1 K1] & Len & _).
    split; [lia|]. intros e He.
    rewrite K2 by lia. now apply K1.
  - revert H. unfold applyFunction. apply preserves_bind;
      [apply preserves_typeOf | intros ?; apply preserves_builtin].
Qed.

Lemma applyFunction_frames_except (env : nat) (f : Value)
  (args : list Value) :
  preserves (frames_kept_except env) (applyFunction ev f args).
Proof.
  intros s v s' H. apply frames_kept_weaken.
  exact (applyFunction_frames _ _ _ _ _ H).
Qed.

Lemma preserves_programLoop (stmts : list Statement) (env : nat) (r : Value) :
  preserves (frames_kept_except env) (evalProgramLoop ev stmts env r).
Proof.
  revert r. induction stmts as [|st stmts IHs]; intros r; simpl;
    preserve; auto.
Qed.

Lemma preserves_blockLoop (stmts : list Statement) (env : nat) (r : Value) :
  preserves (frames_kept_except env) (evalBlockLoop ev stmts env r).
Proof.
  revert r. induction stmts as [|st stmts IHs]; intros r; simpl;
    preserve; auto.
Qed.

Lemma preserves_expressionsLoop (exps : list Expression) (env : nat)
  (acc : list Value) :
  preserves (frames_kept_except env) (evalExpressionsLoop ev exps env acc).
Proof.
  revert acc. induction exps as [|e exps IHe]; intros acc; simpl;
    unfold evalExpr; pose proof (@preserves_isError (frames_kept_except env) _);
    preserve; auto.
Qed.

Lemma preserves_hashLoop (hash : nat) (nodes : list (Expression * Expression))
  (env : nat) (pairs : list (string * HashPair)) :
  preserves (frames_kept_except env) (evalHashLoop ev hash nodes env pairs).
Proof.
  revert pairs. induction nodes as [|[k v] nodes IHn]; intros pairs; simpl;
    unfold evalExpr, newError;
    pose proof (@preserves_isError (frames_kept_except env) _);
    preserve; auto.
Qed.

Lemma preserves_body (node : option Node) (env : nat) :
  preserves (frames_kept_except env) (evalNodeBody ev node env).
Proof.
  pose proof (@preserves_isError (frames_kept_except env) _).
  pose proof (@preserves_prefix (frames_kept_except env) _).
  pose proof (@preserves_infix (frames_kept_except env) _).
  pose proof (@preserves_index (frames_kept_except env) _).
  pose proof (@preserves_identifier (frames_kept_except env) _).
  pose proof preserves_programLoop. pose proof preserves_blockLoop.
  pose proof preserves_expressionsLoop. pose proof preserves_hashLoop.
  pose proof applyFunction_frames_except.
  unfold evalNodeBody, evalProgram, evalBlockStatement, evalIfExpression,
    evalExpressions, evalHashLiteral, evalExpr.
  preserve.
  intros s0 x s1 [= _ <-]. apply set_frames.
Qed.

End Calls.

Lemma evalNode_frames (n : nat) (node : option Node) (env : nat) :
  preserves (frames_kept_except env) (evalNode n node env).
Proof.
  revert node env. induction n as [|n IH]; intros node env.
  - apply preserves_exhausted.
  - rewrite evalNode_S. now apply preserves_body.
Qed.

(** ** Lookups in a well-formed heap *)

Section Lookups.

(** A walk from [e] only reads environments up to [e], and needs no more
    than [e + 1] steps. *)
Lemma get_walk_stable (h h' : list Frame) (name : string) :
  wf_heap h →
  ∀ n n' e, e < n → e < n' →
    (∀ e', e' ≤ e → h' !! e' = h !! e') →
    get_walk n h' e name = get_walk n' h e name.
Proof.
  intros Hwf n. induction n as [|n IH]; intros n' e Hn Hn' Hsame; [lia|].
  destruct n' as [|n']; [lia|]. simpl.
  rewrite (Hsame e) by lia.
  destruct (h !! e) as [fr|] eqn:Hfr; [|reflexivity].
  assert (Hout : ∀ o, outer fr = Some o → get_walk n h' o name
                                        = get_walk n' h o name).
  { intros o Ho. pose proof (Hwf _ _ _ Hfr Ho).
    apply IH; try lia. intros e' He'. apply Hsame. lia. }
  destruct (store fr !! name) as [[| |r o]|]; try reflexivity;
    destruct (outer fr) as [o|]; try reflexivity; now apply Hout.
Qed.

Lemma get_walk_S (n : nat) (h : list Frame) (e : nat) (name : string) :
  get_walk (S n) h e name
  = match h !! e with
    | None => (JsNull, false)
    | Some fr =>
        match store fr !! name with
        | Some JsUndefined | None =>
            match outer fr with
            | Some o => get_walk n h o name
            | None => (JsNull, false)
            end
        | Some obj => (obj, true)
        end
    end.
Proof. reflexivity. Qed.

(** The two operations that change the heap keep it well formed. *)
Lemma set_wf (env : nat) (name : string) (val : Value) (s : State) :
  wf_heap (envs s) → wf_heap (envs (Environment.set env name val s)).
Proof.
  intros Hwf e fr o Hfr Ho. simpl in Hfr.
  destruct (decide (env = e)) as [->|Hne].
  - rewrite list_lookup_alter_eq in Hfr.
    destruct (envs s !! e) as [fr0|] eqn:E; [|discriminate].
    injection Hfr as <-. exact (Hwf e fr0 o E Ho).
  - rewrite list_lookup_alter_ne in Hfr by assumption.
    exact (Hwf e fr o Hfr Ho).
Qed.

Lemma newEnclosedEnvironment_wf (o : nat) (s : State) :
  wf_heap (envs s) → o < length (envs s) →
  wf_heap (envs (snd (newEnclosedEnvironment o s))).
Proof.
  intros Hwf Ho e fr o' Hfr Ho'. simpl in Hfr.
  destruct (decide (e < length (envs s))) as [He|He].
  - rewrite lookup_app_l in Hfr by assumption. exact (Hwf e fr o' Hfr Ho').
  - rewrite lookup_app_r in Hfr by lia.
    destruct (e - length (envs s)) as [|k] eqn:E; [|discriminate].
    injection Hfr as <-. injection Ho' as <-. lia.
Qed.

Lemma get_after_frames_kept (s s' : State) (e : nat) (name : string) :
  wf_heap (envs s) → frames_kept s s' → e < length (envs s) →
  Environment.get s' e name = Environment.get s e name.
Proof.
  intros Hwf [Hlen Hkept] He. unfold Environment.get.
  apply get_walk_stable; try assumption; try lia.
  intros e' He'. apply Hkept. lia.
Qed.

Lemma boundStore_other (ps : list Identifier) (args : list Value) (i : nat)
  (m : gmap string Value) (x : string) :
  x ∉ List.map ident_value ps → boundStore ps args i m !! x = m !! x.
Proof.
  revert i m. induction ps as [|p ps IH]; intros i m Hx; simpl; [reflexivity|].
  simpl in Hx. apply not_elem_of_cons in Hx as [Hne Hx].
  rewrite IH by assumption. now apply lookup_insert_ne.
Qed.

Lemma boundStore_positional (ps : list Identifier) (args : list Value)
  (i : nat) (m : gmap string Value) (j : nat) (p : Identifier) :
  NoDup (List.map ident_value ps) → ps !! j = Some p →
  boundStore ps args i m !! ident_value p = Some (item args (i + j)).
Proof.
  revert i m j. induction ps as [|a ps IH]; intros i m j Hnd Hp;
    [discriminate|].
  simpl in Hnd. apply NoDup_cons in Hnd as [Ha Hnd].
  destruct j as [|j]; simpl in *.
  - injection Hp as ->. rewrite boundStore_other by assumption.
    rewrite lookup_insert_eq. now rewrite Nat.add_0_r.
  - rewrite (IH (S i) _ j Hnd Hp). f_equal. f_equal. lia.
Qed.

(** A parameter whose name no later parameter has is bound to the
    argument at its position. *)
Lemma boundStore_last (ps : list Identifier) (args : list Value)
  (i : nat) (m : gmap string Value) (j : nat) (p : Identifier) :
  ps !! j = Some p →
  (∀ k q, j < k → ps !! k = Some q → ident_value q ≠ ident_value p) →
  boundStore ps args i m !! ident_value p = Some (item args (i + j)).
Proof.
  revert i m j. induction ps as [|a ps IH]; intros i m j Hp Hlater;
    [discriminate|].
  destruct j as [|j]; simpl in *.
  - injection Hp as ->. rewrite boundStore_other.
    + rewrite lookup_insert_eq. now rewrite Nat.add_0_r.
    + intros Hin. apply list_elem_of_fmap in Hin as (q & Hq & Hin).
      apply list_elem_of_lookup in Hin as [k Hk].
      apply (Hlater (S k) q); [lia | exact Hk | now symmetry].
  - rewrite (IH (S i) _ j Hp).
    + f_equal. f_equal. lia.
    + intros k q Hk Hq. apply (Hlater (S k) q); [lia | exact Hq].
Qed.

(** From position [i] on there is no argument left: every remaining
    parameter is bound to [undefined]. *)
Lemma boundStore_beyond (ps : list Identifier) (args : list Value)
  (i : nat) (m : gmap string Value) (x : string) :
  length args ≤ i →
  x ∈ List.map ident_value ps ∨ m !! x = Some JsUndefined →
  boundStore ps args i m !! x = Some JsUndefined.
Proof.
  revert i m. induction ps as [|a ps IH]; intros i m Hlate Hin; simpl.
  - destruct Hin as [Hin|Hm]; [inversion Hin | exact Hm].
  - apply IH; [lia|].
    destruct (decide (x ∈ List.map ident_value ps)) as [|Hnot];
      [now left | right].
    destruct (decide (ident_value a = x)) as [Hax|Hax].
    + rewrite <- Hax, lookup_insert_eq. f_equal. unfold item.
      rewrite lookup_ge_None_2 by lia. reflexivity.
    + rewrite lookup_insert_ne by assumption.
      destruct Hin as [Hin|Hm]; [|exact Hm].
      simpl in Hin. apply elem_of_cons in Hin as [?|?]; congruence.
Qed.

(** A parameter at a position without argument is bound to [undefined],
    also when its name occurs earlier among the parameters. *)
Lemma boundStore_missing (ps : list Identifier) (args : list Value)
  (i : nat) (m : gmap string Value) (j : nat) (p : Identifier) :
  ps !! j = Some p → length args ≤ i + j →
  boundStore ps args i m !! ident_value p = Some JsUndefined.
Proof.
  revert i m j. induction ps as [|a ps IH]; intros i m j Hp Hlate;
    [discriminate|].
  destruct j as [|j]; simpl in *.
  - injection Hp as ->. apply boundStore_beyond; [lia|]. right.
    rewrite lookup_insert_eq. f_equal. unfold item.
    rewrite lookup_ge_None_2 by lia. reflexivity.
  - apply (IH (S i) _ j Hp). lia.
Qed.

Lemma boundStore_extra (ps : list Identifier) (args extra : list Value)
  (i : nat) (m : gmap string Value) :
  i + length ps ≤ length args →
  boundStore ps (args ++ extra) i m = boundStore ps args i m.
Proof.
  revert i m. induction ps as [|a ps IH]; intros i m Hlen; simpl;
    [reflexivity|].
  simpl in Hlen. rewrite IH by lia. unfold item.
  now rewrite lookup_app_l by lia.
Qed.

End Lookups.

(** C9: [set] writes into the table of its own environment and leaves
    every other environment as it is; across a function call every
    environment that existed before the call is unchanged: a [let] in the
    body shadows an outer binding and does not change it.  Hence, the
    environments being created after the ones they enclose, each of them
    resolves every name after the call as it did before. *)
Theorem set_is_local_and_calls_shadow (n : nat) (f : Value)
  (args : list Value) (s s' : State) (v : Value)
  (env : nat) (name : string) (val : Value) :
  applyFunction (evalNode n) f args s = Ok (v, s') →
  wf_heap (envs s) →
  frames_kept_except env s (Environment.set env name val s)
  ∧ (∀ fr, envs s !! env = Some fr →
       envs (Environment.set env name val s) !! env
       = Some (mkFrame (<[name := val]> (store fr)) (outer fr)))
  ∧ frames_kept s s'
  ∧ (∀ e x, e < length (envs s) →
       Environment.get s' e x = Environment.get s e x)
  ∧ runValue 50 "let x = 1; let f = fn() { let x = 2; x }; f(); x"
    = Some ([], Ok (Obj 10 (IntegerObject (Num 1)))).
Proof.
  intros Happ Hwf.
  assert (Hkept : frames_kept s s').
  { exact (applyFunction_frames _ (evalNode_frames n) _ _ _ _ _ Happ). }
  split; [apply set_frames|]. split; [intros fr; apply set_local|].
  split; [exact Hkept|]. split.
  - intros e x He. now apply get_after_frames_kept.
  - vm_compute. reflexivity.
Qed.

(** C6: a function literal evaluates to a function object holding the
    environment it is evaluated in; applying the object runs the body in a
    new environment that encloses that captured environment, with the
    parameters bound to the arguments by position (a name that occurs
    twice among the parameters is bound at its last position), and takes
    one layer of return value off the result; the adder program evaluates
    to 5.  The environment is held by reference: a binding made in it after
    the function was created is seen by the body. *)
Theorem closures_capture_definition_environment (n : nat) (tok : Token)
  (ps : list Identifier) (body : BlockStatement) (env fenv r : nat)
  (args : list Value) (s : State) :
  evalNode (S n) (Some (ExpressionNode (FunctionLiteral tok ps body))) env s
  = Ok (Obj (nextRef s) (FunctionObject ps body env), allocated s)
  ∧ applyFunction (evalNode n) (Obj r (FunctionObject ps body fenv)) args s
    = match evalNode n (Some (BlockNode body)) (length (envs s))
              (callState ps fenv args s) with
      | Ok (v, s2) => Ok (unwrapReturnValue v, s2)
      | Throw => Throw
      | Exhausted => Exhausted
      end
  ∧ envs (callState ps fenv args s) !! length (envs s)
    = Some (mkFrame (boundStore ps args 0 ∅) (Some fenv))
  ∧ frames_kept s (callState ps fenv args s)
  ∧ (∀ i p, ps !! i = Some p →
       (∀ j q, i < j → ps !! j = Some q → ident_value q ≠ ident_value p) →
       boundStore ps args 0 ∅ !! ident_value p = Some (item args i))
  ∧ (∀ i p, NoDup (List.map ident_value ps) → ps !! i = Some p →
       boundStore ps args 0 ∅ !! ident_value p = Some (item args i))
  ∧ (∀ r' w, unwrapReturnValue (Obj r' (ReturnValue w)) = w)
  ∧ runValue 50 ("let newAdder = fn(x) { fn(y) { x + y } }; "
                 +:+ "let addTwo = newAdder(2); addTwo(3)")
    = Some ([], Ok (Obj 14 (IntegerObject (Num 5))))
  ∧ runValue 50 "let f = fn() { y }; let y = 5; f()"
    = Some ([], Ok (Obj 11 (IntegerObject (Num 5)))).
Proof.
  destruct (callState_frames ps fenv args s) as (Hkept & _ & Hnew).
  split; [reflexivity|]. split; [apply applyFunction_Function|].
  split; [exact Hnew|]. split; [exact Hkept|]. split; [|split].
  - intros i p Hp Hlater. exact (boundStore_last ps args 0 ∅ i p Hp Hlater).
  - intros i p Hnd Hp. exact (boundStore_positional ps args 0 ∅ i p Hnd Hp).
  - split; [reflexivity|]. split; vm_compute; reflexivity.
Qed.

(** C10, as the code has it: a call with fewer arguments than parameters
    is not rejected; a parameter without argument is bound to [undefined],
    which reads as absent, so its name resolves as it does in the
    environment captured by the function (an existing environment of a heap
    in which environments are created after the ones they enclose): to a
    binding there or further out, else to the builtin of that name, else to
    an "identifier not found" error.  Arguments beyond the parameters are
    ignored. *)
Theorem missing_parameters_read_through (ps : list Identifier) (fenv : nat)
  (args : list Value) (s : State) (j : nat) (p : Identifier) :
  wf_heap (envs s) → fenv < length (envs s) →
  ps !! j = Some p → length args ≤ j →
  extendFunctionEnv ps fenv args s
  = Ok (length (envs s), callState ps fenv args s)
  ∧ Environment.get (callState ps fenv args s) (length (envs s)) (ident_value p)
    = Environment.get s fenv (ident_value p)
  ∧ evalIdentifier p (length (envs s)) (callState ps fenv args s)
    = (let '(val, ok) := Environment.get s fenv (ident_value p) in
       if ok then Ok (val, callState ps fenv args s)
       else
         match builtins.get (ident_value p) with
         | Some builtin => Ok (builtin, callState ps fenv args s)
         | None =>
             newError ("identifier not found: " +:+ ident_value p)
                      (callState ps fenv args s)
         end)
  ∧ (∀ ev r body,
       applyFunction ev (Obj r (FunctionObject ps body fenv)) args s
       = match ev (Some (BlockNode body)) (length (envs s))
                 (callState ps fenv args s) with
         | Ok (v, s2) => Ok (unwrapReturnValue v, s2)
         | Throw => Throw
         | Exhausted => Exhausted
         end)
  ∧ (∀ given extra, length ps ≤ length given →
       extendFunctionEnv ps fenv (given ++ extra) s
       = extendFunctionEnv ps fenv given s)
  ∧ runValue 50 "let x = 10; fn(x) { x }()"
    = Some ([], Ok (Obj 10 (IntegerObject (Num 10))))
  ∧ runValue 50 "fn(x) { x }()"
    = Some ([], Ok (Obj 11 (ErrorObject "identifier not found: x")))
  ∧ runValue 50 "let f = fn(x) { x }; f(1, 2)"
    = Some ([], Ok (Obj 11 (IntegerObject (Num 1)))).
Proof.
  intros Hwf Hfenv Hp Hlen.
  assert (Hget : Environment.get (callState ps fenv args s) (length (envs s))
                   (ident_value p)
                 = Environment.get s fenv (ident_value p)).
  { destruct (callState_frames ps fenv args s) as ([_ Hkept] & Hlen' & Hnew).
    unfold Environment.get. rewrite Hlen', get_walk_S, Hnew. cbn [store outer].
    rewrite (boundStore_missing ps args 0 ∅ j p Hp) by (simpl; lia).
    apply get_walk_stable; try assumption; try lia.
    intros e' He'. apply Hkept. lia. }
  split; [apply extendFunctionEnv_eq|]. split; [exact Hget|]. split.
  - unfold evalIdentifier. rewrite Hget.
    now destruct (Environment.get s fenv (ident_value p)) as [val [|]].
  - split; [intros ev r body; apply applyFunction_Function|].
    split; [|repeat split; vm_compute; reflexivity].
    intros given extra Hgiven. rewrite !extendFunctionEnv_eq.
    unfold callState. now rewrite boundStore_extra by (simpl; lia).
Qed.

(** ** The heap stays in order

    The well-formedness that the lookups above rely on holds in the state
    a run starts from and is kept by every evaluation. *)

Section Bounded.

Lemma bounded_array (n r : nat) (elements : list Value) :
  bounded n (Obj r (ArrayObject elements)) ↔ Forall (bounded n) elements.
Proof.
  simpl. induction elements as [|x l IH]; simpl.
  - split; [constructor | trivial].
  - rewrite Forall_cons. now rewrite IH.
Qed.

Lemma bounded_hash (n r : nat) (pairs : list (string * HashPair)) :
  bounded n (Obj r (HashObject pairs)) ↔ Forall (boundedPair n) pairs.
Proof.
  simpl. induction pairs as [|[k [a b]] l IH]; simpl.
  - split; [constructor | trivial].
  - rewrite Forall_cons. unfold boundedPair at 1. simpl. rewrite IH. tauto.
Qed.

Lemma bounded_mono (n n' : nat) : n ≤ n' → ∀ v, bounded n v → bounded n' v.
Proof.
  intros Hle. fix IH 1. intros [| |r o]; try (simpl; trivial).
  destruct o; try (simpl; trivial).
  - apply IH.
  - simpl. lia.
  - induction elements as [|x l IHl]; simpl; [trivial|].
    intros [Hx Hl]. split; [now apply IH | now apply IHl].
  - induction pairs as [|[k [a b]] l IHl]; simpl; [trivial|].
    intros (Ha & Hb & Hl). repeat split; [now apply IH | now apply IH | now apply IHl].
Qed.

Lemma bounded_all_mono (n n' : nat) (l : list Value) :
  n ≤ n' → Forall (bounded n) l → Forall (bounded n') l.
Proof.
  intros Hle H. eapply Forall_impl; [exact H|].
  intros v. now apply bounded_mono.
Qed.

Lemma bounded_item (n : nat) (l : list Value) (i : nat) :
  Forall (bounded n) l → bounded n (item l i).
Proof.
  intros H. unfold item. destruct (l !! i) as [v|] eqn:E; simpl; [|trivial].
  exact (proj1 (Forall_lookup _ _) H i v E).
Qed.

Lemma bounded_last (n : nat) (l : list Value) (x : Value) :
  Forall (bounded n) l → List.last (List.map Some l) None = Some x →
  bounded n x.
Proof.
  induction l as [|a l IH]; [discriminate|]. intros Hall.
  apply Forall_cons in Hall as [Ha Hl]. destruct l as [|b l].
  - simpl. now intros [= <-].
  - intros H. now apply IH.
Qed.

Lemma bounded_unwrap (n : nat) (v : Value) :
  bounded n v → bounded n (unwrapReturnValue v).
Proof. destruct v as [| |r []]; simpl; auto. Qed.

Lemma bounded_pairs_get (n : nat) (k : string)
  (pairs : list (string * HashPair)) (p : HashPair) :
  Forall (boundedPair n) pairs → pairs_get k pairs = Some p →
  bounded n (value p).
Proof.
  induction pairs as [|[k' p'] l IH]; [discriminate|]. intros Hall.
  apply Forall_cons in Hall as [[_ Hp] Hl]. simpl.
  destruct (String.eqb k k'); [now intros [= <-] | now apply IH].
Qed.

Lemma bounded_pairs_set (n : nat) (k : string) (a b : Value)
  (pairs : list (string * HashPair)) :
  bounded n a → bounded n b → Forall (boundedPair n) pairs →
  Forall (boundedPair n) (pairs_set k (a, b) pairs).
Proof.
  intros Ha Hb. induction pairs as [|[k' p'] l IH]; intros Hall; simpl.
  - repeat constructor; assumption.
  - apply Forall_cons in Hall as [Hp Hl]. destruct (String.eqb k k').
    + constructor; [split; assumption | assumption].
    + constructor; [assumption | now apply IH].
Qed.

Lemma bounded_builtin (name : string) (v : Value) (n : nat) :
  builtins.get name = Some v → bounded n v.
Proof.
  unfold builtins.get, builtins.table. simpl.
  repeat (destruct (String.eqb name _); [now intros [= <-]|]).
  discriminate.
Qed.

End Bounded.

Section HeapInvariant.

(** The two ways the heap changes keep it in order. *)
Lemma heap_ok_set (env : nat) (name : string) (val : Value) (s : State) :
  heap_ok (envs s) → bounded (length (envs s)) val →
  heap_ok (envs (Environment.set env name val s)).
Proof.
  intros [Hwf Hst] Hval. split; [now apply set_wf|].
  intros e fr x v Hfr Hx. simpl in *. rewrite length_alter.
  destruct (decide (env = e)) as [->|Hne].
  - rewrite list_lookup_alter_eq in Hfr.
    destruct (envs s !! e) as [fr0|] eqn:E; [|discriminate].
    injection Hfr as <-. simpl in Hx.
    destruct (decide (name = x)) as [->|Hx'].
    + rewrite lookup_insert_eq in Hx. now injection Hx as <-.
    + rewrite lookup_insert_ne in Hx by assumption. exact (Hst e fr0 x v E Hx).
  - rewrite list_lookup_alter_ne in Hfr by assumption.
    exact (Hst e fr x v Hfr Hx).
Qed.

Lemma boundStore_bounded (n : nat) (ps : list Identifier)
  (args : list Value) (i : nat) (m : gmap string Value) :
  Forall (bounded n) args →
  (∀ x v, m !! x = Some v → bounded n v) →
  ∀ x v, boundStore ps args i m !! x = Some v → bounded n v.
Proof.
  intros Hargs. revert i m. induction ps as [|p ps IH]; intros i m Hm; simpl;
    [exact Hm|].
  apply IH. intros x v.
  destruct (decide (ident_value p = x)) as [->|Hne].
  - rewrite lookup_insert_eq. intros [= <-]. now apply bounded_item.
  - rewrite lookup_insert_ne by assumption. apply Hm.
Qed.

Lemma heap_ok_callState (ps : list Identifier) (fenv : nat)
  (args : list Value) (s : State) :
  heap_ok (envs s) → fenv < length (envs s) →
  Forall (bounded (length (envs s))) args →
  heap_ok (envs (callState ps fenv args s)).
Proof.
  intros [Hwf Hst] Hfenv Hargs. split.
  - intros e fr o Hfr Ho. simpl in Hfr.
    destruct (decide (e < length (envs s))) as [He|He].
    + rewrite lookup_app_l in Hfr by assumption. exact (Hwf e fr o Hfr Ho).
    + rewrite lookup_app_r in Hfr by lia.
      destruct (e - length (envs s)) as [|k] eqn:E; [|discriminate].
      injection Hfr as <-. injection Ho as <-. lia.
  - intros e fr x v Hfr Hx. simpl in *. rewrite length_app. simpl.
    destruct (decide (e < length (envs s))) as [He|He].
    + rewrite lookup_app_l in Hfr by assumption.
      apply (bounded_mono (length (envs s))); [lia|].
      exact (Hst e fr x v Hfr Hx).
    + rewrite lookup_app_r in Hfr by lia.
      destruct (e - length (envs s)) as [|k] eqn:E; [|discriminate].
      injection Hfr as <-. simpl in Hx.
      apply (bounded_mono (length (envs s))); [lia|].
      apply (boundStore_bounded _ ps args 0 ∅ Hargs) with x; [|exact Hx].
      intros x' v'. now rewrite lookup_empty.
Qed.

Lemma get_walk_bounded (h : list Frame) (name : string) (n e : nat)
  (v : Value) (ok : bool) :
  heap_ok h → get_walk n h e name = (v, ok) → bounded (length h) v.
Proof.
  intros [_ Hst]. revert e. induction n as [|n IH]; intros e; simpl.
  - now intros [= <- _].
  - destruct (h !! e) as [fr|] eqn:Hfr; [|now intros [= <- _]].
    destruct (store fr !! name) as [w|] eqn:Hw.
    + pose proof (Hst e fr name w Hfr Hw).
      destruct w; try (now intros [= <- _]).
      destruct (outer fr); [apply IH | now intros [= <- _]].
    + destruct (outer fr); [apply IH | now intros [= <- _]].
Qed.

(** The rules of [sound] for the operations of the monad. *)

Lemma sound_ret {A} (n : nat) (Q : nat → A → Prop) (a : A) :
  (∀ m, n ≤ m → Q m a) → sound n Q (Monad.ret a).
Proof. intros HQ s a' s' Hok Hn [= <- <-]. auto. Qed.

Lemma sound_throw {A} (n : nat) (Q : nat → A → Prop) :
  sound n Q (@Monad.throw A).
Proof. intros s a s' _ _ H. discriminate H. Qed.

Lemma sound_exhausted {A} (n : nat) (Q : nat → A → Prop) :
  sound n Q (@Monad.exhausted A).
Proof. intros s a s' _ _ H. discriminate H. Qed.

Lemma sound_new (n : nat) (Q : nat → Value → Prop) (o : MonkeyObject) :
  (∀ m r, n ≤ m → Q m (Obj r o)) → sound n Q (Monad.new o).
Proof. intros HQ s a s' Hok Hn [= <- <-]. simpl. auto. Qed.

Lemma sound_bind {A B} (n : nat) (Q : nat → A → Prop) (Q' : nat → B → Prop)
  (m : M A) (k : A → M B) :
  sound n Q m →
  (∀ a n', n ≤ n' → Q n' a → sound n' Q' (k a)) →
  sound n Q' (Monad.bind m k).
Proof.
  intros Hm Hk s b s' Hok Hn H. apply bind_Ok in H as (a & s1 & H1 & H2).
  destruct (Hm _ _ _ Hok Hn H1) as (Hok1 & Hlen1 & HQ).
  destruct (Hk a (length (envs s1)) ltac:(lia) HQ _ _ _ Hok1 ltac:(lia) H2)
    as (Hok2 & Hlen2 & HQ').
  split; [assumption|]. split; [lia | assumption].
Qed.

Lemma sound_weaken {A} (n n' : nat) (Q Q' : nat → A → Prop) (m : M A) :
  n ≤ n' → (∀ k a, n' ≤ k → Q k a → Q' k a) → sound n Q m → sound n' Q' m.
Proof.
  intros Hn HQ Hm s a s' Hok Hlen H.
  destruct (Hm _ _ _ Hok ltac:(lia) H) as (Hok' & Hlen' & Ha).
  split; [assumption|]. split; [assumption|]. apply HQ; [lia | assumption].
Qed.

Lemma sound_log (n : nat) (v : Value) : sound n (λ _ _, True) (Monad.log v).
Proof.
  unfold Monad.log. destruct (inspect v) as [line|]; [|apply sound_throw].
  intros s a s' Hok Hn [= _ <-]. simpl. auto.
Qed.

Lemma sound_set (n env : nat) (name : string) (val : Value) :
  bounded n val →
  sound n bounded (λ s, Ok (val, Environment.set env name val s)).
Proof.
  intros Hval s a s' Hok Hn [= <- <-].
  assert (Hv : bounded (length (envs s)) val)
    by (now apply (bounded_mono n)).
  split; [now apply heap_ok_set|]. simpl. rewrite length_alter. auto.
Qed.

End HeapInvariant.

#[global] Instance same_envs_steady : Steady same_envs.
Proof.
  split; unfold same_envs.
  - reflexivity.
  - intros s1 s2 s3 H1 H2. now rewrite H2.
  - reflexivity.
  - reflexivity.
Qed.

Lemma sound_pure {A} (n : nat) (m : M A) :
  preserves same_envs m → sound n (λ _ _, True) m.
Proof.
  intros Hm s a s' Hok Hn H. apply Hm in H. unfold same_envs in H.
  rewrite H. auto.
Qed.

(** Decompose a goal [sound n Q m] along the structure of [m]. *)
Ltac sound_first :=
  first
    [ match goal with
      | IH : ∀ node env n, env < n → sound n bounded (?ev node env)
        |- sound _ _ (?ev _ _) => apply IH; lia
      end
    | solve [eauto 2]
    | apply sound_pure; solve [preserve; auto] ].

Ltac sound_step :=
  first
    [ solve [auto 2]
    | apply sound_throw
    | apply sound_exhausted
    | apply sound_ret; intros ? ?
    | apply sound_new; intros ? ? ?
    | eapply sound_bind; [sound_first | intros ? ? ? ?]
    | match goal with
      | |- sound _ _ (match ?x with _ => _ end) =>
          first [is_var x; destruct x | destruct x eqn:?]
      | |- sound _ _ (if ?b then _ else _) => destruct b
      end ].

Ltac sound_steps := repeat sound_step.

(** Close a goal [bounded m v] from what is known about smaller heaps. *)
Ltac bounded_mono_close :=
  match goal with
  | H : bounded ?n ?v |- bounded ?m ?v =>
      apply (bounded_mono n m); [lia | exact H]
  end.

Ltac bounded_close :=
  try exact I;
  try assumption;
  try (simpl; lia);
  try (simpl; exact I);
  try bounded_mono_close;
  try (simpl; bounded_mono_close);
  try (repeat match goal with
              | H : bounded _ (Obj _ (ReturnValue _)) |- _ => simpl in H
              end;
       bounded_mono_close).

Section LeavesInvariant.

Lemma sound_prefix (n : nat) (op : string) (v : Value) :
  sound n bounded (evalPrefixExpression op v).
Proof.
  unfold evalPrefixExpression, evalMinusPrefixOperatorExpression, newError.
  pose proof (@preserves_typeOf same_envs _).
  sound_steps; bounded_close.
  unfold evalBangOperatorExpression.
  repeat match goal with |- context [if ?b then _ else _] => destruct b end;
    exact I.
Qed.

Lemma sound_infix (n : nat) (op : string) (l r : Value) :
  sound n bounded (evalInfixExpression op l r).
Proof.
  unfold evalInfixExpression, bothOfType, evalIntegerInfixExpression,
    evalStringInfixExpression, newError.
  pose proof (@preserves_typeOf same_envs _).
  sound_steps; bounded_close;
    unfold nativeBoolToBooleanObject;
    repeat match goal with |- context [if ?b then _ else _] => destruct b end;
    exact I.
Qed.

Lemma sound_index (n : nat) (l i : Value) :
  bounded n l → sound n bounded (evalIndexExpression l i).
Proof.
  intros Hl.
  unfold evalIndexExpression, evalArrayIndexExpression,
    evalHashIndexExpression, newError.
  pose proof (@preserves_typeOf same_envs _).
  sound_steps; bounded_close.
  - apply bounded_item. apply (bounded_all_mono n); [lia|].
    exact (proj1 (bounded_array n ref elements) Hl).
  - apply (bounded_mono n); [lia|].
    eapply bounded_pairs_get; [|eassumption].
    exact (proj1 (bounded_hash n ref pairs) Hl).
Qed.

Lemma sound_identifier (n : nat) (i : Identifier) (env : nat) :
  sound n bounded (evalIdentifier i env).
Proof.
  intros s a s' Hok Hn. unfold evalIdentifier.
  destruct (Environment.get s env (ident_value i)) as [val ok] eqn:E.
  destruct ok.
  - intros [= <- <-]. split; [assumption|]. split; [lia|].
    exact (get_walk_bounded _ _ _ _ _ _ Hok E).
  - destruct (builtins.get (ident_value i)) as [b|] eqn:B.
    + intros [= <- <-]. split; [assumption|]. split; [lia|].
      now apply (bounded_builtin (ident_value i)).
    + intros H. refine (sound_new n bounded _ _ s a s' Hok Hn H).
      intros; exact I.
Qed.

Lemma sound_builtin (n : nat) (fn : BuiltinFunction) (args : list Value) :
  Forall (bounded n) args → sound n bounded (builtins.call fn args).
Proof.
  intros Hargs. unfold builtins.call, builtins.mustBeArray.
  pose proof (@preserves_typeOf same_envs _).
  pose proof (@preserves_logAll same_envs _).
  sound_steps; bounded_close;
    repeat match goal with
           | H : bounded _ (Obj _ (ArrayObject _)) |- _ =>
               apply bounded_array in H
           | H : Forall _ (_ :: _) |- _ => apply Forall_cons in H as [? ?]
           end;
    try apply bounded_array;
    first
      [ bounded_close; fail
      | apply (bounded_mono n); [lia|];
        eapply bounded_last; [|eassumption]; assumption
      | apply (bounded_all_mono n); [lia|];
        first [ assumption
              | apply Forall_app; split; [assumption|]; now constructor ] ].
Qed.

End LeavesInvariant.

Section EvaluationInvariant.

Variable ev : option Node → nat → M Value.
Hypothesis IH : ∀ node env n, env < n → sound n bounded (ev node env).

Lemma sound_isError (n : nat) (v : Value) :
  sound n (λ _ _, True) (isError v).
Proof. apply sound_pure. apply preserves_isError. Qed.

Lemma sound_programLoop (stmts : list Statement) (env n : nat) (r : Value) :
  env < n → bounded n r → sound n bounded (evalProgramLoop ev stmts env r).
Proof.
  revert n r. induction stmts as [|st stmts IHs]; intros n r Henv Hr; simpl.
  - sound_steps; bounded_close.
  - sound_steps; first [apply IHs; [lia | bounded_close] | bounded_close].
Qed.

Lemma sound_blockLoop (stmts : list Statement) (env n : nat) (r : Value) :
  env < n → bounded n r → sound n bounded (evalBlockLoop ev stmts env r).
Proof.
  revert n r. induction stmts as [|st stmts IHs]; intros n r Henv Hr; simpl.
  - sound_steps; bounded_close.
  - sound_steps; first [apply IHs; [lia | bounded_close] | bounded_close].
Qed.

Lemma sound_expressionsLoop (exps : list Expression) (env n : nat)
  (acc : list Value) :
  env < n → Forall (bounded n) acc →
  sound n (λ m l, Forall (bounded m) l) (evalExpressionsLoop ev exps env acc).
Proof.
  pose proof sound_isError.
  revert n acc. induction exps as [|e exps IHe]; intros n acc Henv Hacc;
    simpl; unfold evalExpr.
  - sound_steps. now apply (bounded_all_mono n).
  - sound_steps.
    + constructor; [bounded_close | constructor].
    + apply IHe; [lia|]. apply Forall_app. split.
      * apply (bounded_all_mono n); [lia | assumption].
      * constructor; [bounded_close | constructor].
Qed.

Lemma sound_hashLoop (hash : nat) (nodes : list (Expression * Expression))
  (env n : nat) (pairs : list (string * HashPair)) :
  env < n → Forall (boundedPair n) pairs →
  sound n bounded (evalHashLoop ev hash nodes env pairs).
Proof.
  pose proof sound_isError.
  revert n pairs. induction nodes as [|[k v] nodes IHn];
    intros n pairs Henv Hpairs; simpl; unfold evalExpr, newError.
  - sound_steps. apply bounded_hash.
    eapply Forall_impl; [exact Hpairs|]. intros [x [pk pv]] [Hk Hv].
    split; now apply (bounded_mono n).
  - sound_steps; bounded_close.
    apply IHn; [lia|]. apply bounded_pairs_set.
    + bounded_close.
    + bounded_close.
    + eapply Forall_impl; [exact Hpairs|]. intros [x [pk pv]] [Hk Hv].
      split; apply (bounded_mono n); (lia || assumption).
Qed.

Lemma sound_applyFunction (n : nat) (f : Value) (args : list Value) :
  bounded n f → Forall (bounded n) args →
  sound n bounded (applyFunction ev f args).
Proof.
  intros Hf Hargs. destruct f as [| |r o];
    try (intros s a s' _ _ H; discriminate H).
  destruct o;
    try (unfold applyFunction, newError;
         pose proof (@preserves_typeOf same_envs _);
         sound_steps; bounded_close; fail).
  - intros s v s' Hok Hn H. rewrite applyFunction_Function in H.
    destruct (ev (Some (BlockNode body)) (length (envs s))
                (callState parameters env args s)) as [[v2 s2]| |] eqn:E;
      try discriminate H.
    injection H as <- <-. simpl in Hf.
    destruct (callState_frames parameters env args s) as (_ & Len & _).
    assert (Hcall : heap_ok (envs (callState parameters env args s))).
    { apply heap_ok_callState; [assumption | lia |].
      now apply (bounded_all_mono n). }
    destruct (IH _ (length (envs s)) (S (length (envs s))) ltac:(lia)
                 _ _ _ Hcall ltac:(lia) E) as (Hok2 & Hlen2 & Hv).
    split; [assumption|]. split; [lia|]. now apply bounded_unwrap.
  - unfold applyFunction. pose proof (@preserves_typeOf same_envs _).
    pose proof (sound_builtin n fn args Hargs).
    eapply sound_bind; [sound_first|]. intros t n' Hn' _.
    apply sound_builtin. now apply (bounded_all_mono n).
Qed.

Lemma sound_body (node : option Node) (env n : nat) :
  env < n → sound n bounded (evalNodeBody ev node env).
Proof.
  intros Henv.
  pose proof sound_isError. pose proof sound_prefix. pose proof sound_infix.
  pose proof sound_identifier.
  pose proof (@preserves_isError same_envs _).
  unfold evalNodeBody, evalProgram, evalBlockStatement, evalIfExpression,
    evalExpressions, evalHashLiteral, evalExpr.
  repeat first
    [ sound_step
    | apply IH; lia
    | apply sound_programLoop; [lia | exact I]
    | apply sound_blockLoop; [lia | exact I]
    | apply sound_hashLoop; [lia | constructor]
    | apply sound_set; bounded_close
    | apply sound_index; bounded_close
    | eapply sound_bind;
      [apply sound_expressionsLoop; [lia | constructor] | intros ? ? ? ?] ];
    bounded_close; cbv beta in *.
  - now destruct value0.
  - apply bounded_item. eapply bounded_all_mono; [|eassumption]. lia.
  - apply bounded_array. eapply bounded_all_mono; [|eassumption]. lia.
  - apply bounded_item. eapply bounded_all_mono; [|eassumption]. lia.
  - apply sound_applyFunction; [bounded_close|].
    eapply bounded_all_mono; [|eassumption]. lia.
Qed.

End EvaluationInvariant.

(** Evaluation keeps the heap in order: environments are created after the
    ones they enclose, and every function object, in a result or in a
    table, holds an existing environment. *)
Lemma evalNode_sound (budget : nat) (node : option Node) (env n : nat) :
  env < n → sound n bounded (evalNode budget node env).
Proof.
  revert node env n. induction budget as [|budget IH]; intros node env n Henv.
  - apply sound_exhausted.
  - rewrite evalNode_S. now apply sound_body.
Qed.

Lemma rootState_heap_ok : heap_ok (envs rootState).
Proof.
  split.
  - intros [|e] fr o; simpl; [|discriminate]. now intros [= <-].
  - intros [|e] fr x v; simpl; [|discriminate]. intros [= <-]. simpl.
    now rewrite lookup_empty.
Qed.

(** Every state a program ends in has a well-formed heap. *)
Corollary run_heap_ok (budget : nat) (source : string) (errs : list string)
  (v : Value) (s : State) :
  run budget source = Some (errs, Ok (v, s)) →
  heap_ok (envs s) ∧ bounded (length (envs s)) v.
Proof.
  unfold run.
  destruct (Parser.parseProgram budget (Parser.new (Lexer.new source)))
    as [[program p]|]; [|discriminate].
  intros [= _ H].
  destruct (evalNode_sound budget _ 0 1 ltac:(lia) _ _ _
              rootState_heap_ok ltac:(simpl; lia) H) as (Hok & _ & Hv).
  now split.
Qed.

(** ** The properties at sample inputs *)

Lemma sequences_stop_at_return_or_error_witness :
  evalNode 4
    (Some (ProgramNode (mkProgram [sampleExpressionStatement "9" 9;
                                   sampleReturn "10" 10;
                                   sampleExpressionStatement "8" 8])))
    0 rootState
  = Ok (Obj 11 (IntegerObject (Num 10)),
        allocated (allocated (allocated rootState)))
  ∧ evalNode 4
      (Some (BlockNode (Block (mkToken token.LBRACE "{")
                          [sampleExpressionStatement "9" 9;
                           sampleReturn "10" 10;
                           sampleExpressionStatement "8" 8])))
      0 rootState
    = Ok (Obj 12 (ReturnValue (Obj 11 (IntegerObject (Num 10)))),
          allocated (allocated (allocated rootState))).
Proof.
  pose proof (sequences_stop_at_return_or_error 3 0
                [sampleExpressionStatement "9" 9]
                [sampleExpressionStatement "8" 8]
                (sampleReturn "10" 10) (mkToken token.LBRACE "{")
                (Obj 12 (ReturnValue (Obj 11 (IntegerObject (Num 10)))))
                rootState (allocated rootState)
                (allocated (allocated (allocated rootState)))
                (Obj 10 (IntegerObject (Num 9)))
                eq_refl eq_refl) as (H1 & H2 & _).
  split; [exact (H1 eq_refl) | exact (H2 eq_refl)].
Defined.

Lemma hash_lookup_by_kind_and_hash_witness :
  hashKey (IntegerObject (Num 1)) = Some (mkHashKey INTEGER_OBJ (Num 1))
  ∧ hashKey (BooleanObject true) = Some (mkHashKey BOOLEAN_OBJ (Num 1))
  ∧ mkHashKey INTEGER_OBJ (Num 1) ≠ mkHashKey BOOLEAN_OBJ (Num 1)
  ∧ evalHashIndexExpression
      (Obj 12 (HashObject
                 (pairs_set (HashKey_toString (mkHashKey INTEGER_OBJ (Num 1)))
                            (Obj 10 (IntegerObject (Num 1)),
                             Obj 11 (IntegerObject (Num 2))) [])))
      (Obj 8 (BooleanObject true)) initial
    = evalHashIndexExpression (Obj 12 (HashObject []))
                              (Obj 8 (BooleanObject true)) initial.
Proof.
  pose proof (hash_lookup_by_kind_and_hash
                (IntegerObject (Num 1)) (BooleanObject true)
                (mkHashKey INTEGER_OBJ (Num 1)) (mkHashKey BOOLEAN_OBJ (Num 1))
                10 8 12 (Obj 11 (IntegerObject (Num 2))) [] initial
                eq_refl eq_refl) as (_ & Hne & Hkind & _).
  assert (Hdiff : mkHashKey INTEGER_OBJ (Num 1) ≠ mkHashKey BOOLEAN_OBJ (Num 1)).
  { apply Hkind. discriminate. }
  split; [reflexivity|]. split; [reflexivity|].
  split; [exact Hdiff | exact (Hne Hdiff)].
Defined.

(** C5 as stated fails: the strings Aa and BB are different keys of the
    same kind with the same hash, and the value stored under the first is
    returned for the second. *)
Lemma colliding_strings_share_an_entry :
  "Aa" ≠ "BB"
  ∧ hashKey (StringObject "Aa") = hashKey (StringObject "BB")
  ∧ runValue 50 ("{" +:+ quoted "Aa" +:+ ": 1}[" +:+ quoted "BB" +:+ "]")
    = Some ([], Ok (Obj 12 (IntegerObject (Num 1)))).
Proof.
  split; [discriminate|]. split; [reflexivity|]. vm_compute. reflexivity.
Qed.

Lemma closures_capture_definition_environment_witness :
  boundStore [sampleIdentifier "x"; sampleIdentifier "y"]
             [Obj 10 (IntegerObject (Num 2)); Obj 11 (IntegerObject (Num 3))]
             0 ∅ !! "x"
  = Some (Obj 10 (IntegerObject (Num 2)))
  ∧ envs (callState [] 0 [] rootState) !! 1 = Some (mkFrame ∅ (Some 0))
  ∧ applyFunction (evalNode 3)
      (Obj 11 (FunctionObject [] (Block (mkToken token.LBRACE "{") []) 0))
      [] rootState
    = Ok (NULL, callState [] 0 [] rootState).
Proof.
  pose proof (closures_capture_definition_environment 3
                (mkToken token.FUNCTION "fn")
                [sampleIdentifier "x"; sampleIdentifier "y"]
                (Block (mkToken token.LBRACE "{") []) 0 0 11
                [Obj 10 (IntegerObject (Num 2));
                 Obj 11 (IntegerObject (Num 3))] rootState)
    as (_ & _ & _ & _ & _ & Hx & _).
  pose proof (closures_capture_definition_environment 3
                (mkToken token.FUNCTION "fn") []
                (Block (mkToken token.LBRACE "{") []) 0 0 11 [] rootState)
    as (_ & Happly & Hnew & _).
  split; [|split; [exact Hnew | rewrite Happly; vm_compute; reflexivity]].
  apply (Hx 0 (sampleIdentifier "x")); [|reflexivity].
  apply NoDup_cons. split; [|apply NoDup_singleton].
  intros Hin. apply list_elem_of_singleton in Hin. discriminate Hin.
Defined.

Lemma shadowState_wf : wf_heap (envs shadowState).
Proof.
  intros e fr o He Ho. destruct e as [|e]; simpl in He.
  - injection He as <-. discriminate Ho.
  - discriminate He.
Defined.

Lemma set_is_local_and_calls_shadow_witness :
  applyFunction (evalNode 3) shadowingFunction [] shadowState
  = Ok (Obj 12 (IntegerObject (Num 2)), shadowedState)
  ∧ Environment.get shadowedState 0 "x" = Environment.get shadowState 0 "x"
  ∧ Environment.get shadowState 0 "x" = (Obj 10 (IntegerObject (Num 1)), true).
Proof.
  assert (Happ : applyFunction (evalNode 3) shadowingFunction [] shadowState
                 = Ok (Obj 12 (IntegerObject (Num 2)), shadowedState))
    by (vm_compute; reflexivity).
  pose proof (set_is_local_and_calls_shadow 3 shadowingFunction [] shadowState
                shadowedState (Obj 12 (IntegerObject (Num 2))) 0 "y" JsNull
                Happ shadowState_wf) as (_ & _ & _ & Hget & _).
  split; [exact Happ|].
  split; [apply Hget; simpl; lia | vm_compute; reflexivity].
Defined.

Lemma missing_parameters_read_through_witness :
  Environment.get (callState [sampleIdentifier "x"] 0 [] shadowState) 1 "x"
  = Environment.get shadowState 0 "x"
  ∧ evalIdentifier (sampleIdentifier "x") 1
      (callState [sampleIdentifier "x"] 0 [] shadowState)
    = Ok (Obj 10 (IntegerObject (Num 1)),
          callState [sampleIdentifier "x"] 0 [] shadowState).
Proof.
  assert (H0 : 0 < length (envs shadowState)) by (simpl; lia).
  assert (H1 : length (@nil Value) ≤ 0) by (simpl; lia).
  pose proof (missing_parameters_read_through [sampleIdentifier "x"] 0 []
                shadowState 0 (sampleIdentifier "x")
                shadowState_wf H0 eq_refl H1) as (_ & Hget & Hid & _).
  split; [exact Hget | exact Hid].
Defined.

(** C10 as stated fails: a parameter without argument whose name is that
    of a builtin resolves to the builtin, although no enclosing environment
    binds the name; no "identifier not found" error is produced. *)
Lemma missing_parameter_named_like_a_builtin :
  runValue 50 "fn(len) { len }()" = Some ([], Ok (Obj 0 (BuiltinObject Len)))
  ∧ Environment.get rootState 0 "len" = (JsNull, false).
Proof. split; vm_compute; reflexivity. Qed.

(** ** The expression parser *)

Section Pratt.
Import token Precedence Parser.

Context {L : Type} `{TokenSource L}.

Local Abbreviation skip k p := (Nat.iter k advance p).

Lemma advance_cur (p : Parser L) : curToken (advance p) = peekToken p.
Proof. unfold advance. now destruct (nextTok (lexer p)). Qed.

Lemma skip_advance (k : nat) (p : Parser L) :
  skip k (advance p) = skip (S k) p.
Proof. symmetry. apply Nat.iter_succ_r. Qed.

Lemma upcoming_length (n : nat) (p : Parser L) : length (upcoming n p) = n.
Proof. revert p. induction n as [|n IH]; intros p; simpl; auto. Qed.

Lemma upcoming_app (a b : nat) (p : Parser L) :
  upcoming (a + b) p = upcoming a p ++ upcoming b (skip a p).
Proof.
  revert p. induction a as [|a IH]; intros p; [reflexivity|].
  cbn [Nat.add upcoming]. rewrite IH, skip_advance. reflexivity.
Qed.

Lemma upcoming_split (a b : nat) (p : Parser L) (l1 l2 : list Token) :
  length l1 = a → upcoming (a + b) p = l1 ++ l2 →
  upcoming a p = l1 ∧ upcoming b (skip a p) = l2.
Proof.
  intros Hlen Hup. rewrite upcoming_app in Hup.
  apply app_inj_1 in Hup; [exact Hup|].
  now rewrite upcoming_length.
Qed.

Lemma upcoming_last (k : nat) (p : Parser L) (ts : list Token) (t : Token) :
  length ts = k → upcoming (S k) p = ts ++ [t] →
  curToken (skip k p) = t.
Proof.
  intros Hlen Hup. replace (S k) with (k + 1) in Hup by lia.
  apply upcoming_split in Hup as [_ Hup]; [|exact Hlen].
  simpl in Hup. now injection Hup.
Qed.

Lemma Renders_nonempty (m : nat) (e : Expression) (ts : list Token) :
  Renders m e ts → 1 ≤ length ts.
Proof.
  induction 1; simpl; try lia. rewrite length_app. simpl. lia.
Qed.

Variable pe : nat → P L (option Expression).

(** The loop of [parseExpression], one turn unfolded. *)
Lemma infixLoop_eq (n prec : nat) (left : Expression) (p : Parser L) :
  infixLoop pe n prec left p
  = if negb (token.eqb (Type_ (peekToken p)) SEMICOLON)
       && (prec <? default LOWEST (precedences (Type_ (peekToken p))))
    then
      match infixParseFns pe n (Type_ (peekToken p)) with
      | None => Some (Some left, p)
      | Some infix =>
          match n with
          | 0 => None
          | S n' =>
              match infix left (advance p) with
              | Some (Some l, p') => infixLoop pe n' prec l p'
              | Some (None, p') => Some (None, p')
              | None => None
              end
          end
      end
    else Some (Some left, p).
Proof.
  destruct n; cbn [infixLoop];
    unfold bind, peekTokenIs, peekPrecedence, gets, nextToken, modify, ret,
      outOfBudget;
    destruct (negb (token.eqb (Type_ (peekToken p)) SEMICOLON)
              && (prec <? default LOWEST (precedences (Type_ (peekToken p)))));
    try reflexivity;
    destruct (infixParseFns pe _ (Type_ (peekToken p))) as [infix|];
    try reflexivity.
  destruct (infix left (advance p)) as [[[l|] p']|]; reflexivity.
Qed.

Lemma parseInfixExpression_eq (left : Expression) (p : Parser L) :
  parseInfixExpression pe left p
  = match pe (default LOWEST (precedences (Type_ (curToken p)))) (advance p)
    with
    | Some (Some r, p') =>
        Some (Some (InfixExpression (curToken p) left (Literal (curToken p)) r),
              p')
    | Some (None, p') => Some (None, p')
    | None => None
    end.
Proof.
  unfold parseInfixExpression, curPrecedence, nextToken, bind, gets, modify,
    ret.
  destruct (pe _ (advance p)) as [[[r|] p']|]; reflexivity.
Qed.

(** The loop ends where the next token does not bind tighter. *)
Lemma infixLoop_stop (n prec : nat) (left : Expression) (p : Parser L) :
  default LOWEST (precedences (Type_ (peekToken p))) ≤ prec →
  infixLoop pe n prec left p = Some (Some left, p).
Proof.
  intros Hle. rewrite infixLoop_eq.
  destruct (Nat.ltb_spec prec
              (default LOWEST (precedences (Type_ (peekToken p)))));
    [lia|]. now rewrite andb_false_r.
Qed.

(** One turn of the loop on a binary operator. *)
Lemma infixLoop_step (n prec q : nat) (left : Expression) (p : Parser L) :
  isBinaryOperator (Type_ (peekToken p)) = true →
  precedences (Type_ (peekToken p)) = Some q →
  prec < q →
  infixLoop pe (S n) prec left p
  = match pe q (advance (advance p)) with
    | Some (Some r, p') =>
        infixLoop pe n prec
          (InfixExpression (peekToken p) left (Literal (peekToken p)) r) p'
    | Some (None, p') => Some (None, p')
    | None => None
    end.
Proof.
  intros Hop Hq Hlt. rewrite infixLoop_eq.
  assert (Hsemi : negb (token.eqb (Type_ (peekToken p)) SEMICOLON) = true)
    by (destruct (Type_ (peekToken p)); try discriminate Hop; reflexivity).
  assert (Hfn : infixParseFns pe (S n) (Type_ (peekToken p))
                = Some (parseInfixExpression pe))
    by (destruct (Type_ (peekToken p)); try discriminate Hop; reflexivity).
  rewrite Hsemi, Hq, Hfn. change (default LOWEST (Some q)) with q.
  cbn [andb]. destruct (Nat.ltb_spec prec q); [|lia].
  rewrite parseInfixExpression_eq, advance_cur, Hq.
  change (default LOWEST (Some q)) with q.
  destruct (pe q (advance (advance p))) as [[[r|] p']|]; reflexivity.
Qed.

(** The prefix handlers of the grammar. *)
Lemma body_identifier (n prec : nat) (p : Parser L) :
  Type_ (curToken p) = IDENT →
  parseExpressionBody pe n prec p
  = infixLoop pe n prec
      (IdentifierE (mkIdentifier (curToken p) (Literal (curToken p)))) p.
Proof.
  intros Ht. unfold parseExpressionBody, bind, gets. rewrite Ht. reflexivity.
Qed.

Lemma body_integer (n prec : nat) (p : Parser L) (z : Z) :
  Type_ (curToken p) = INT →
  parseInt (Literal (curToken p)) = Num z →
  parseExpressionBody pe n prec p
  = infixLoop pe n prec (IntegerLiteral (curToken p) (Num z)) p.
Proof.
  intros Ht Hz. unfold parseExpressionBody, bind, gets. rewrite Ht.
  cbn [prefixParseFns]. unfold parseIntegerLiteral, bind, gets.
  rewrite Hz. reflexivity.
Qed.

Lemma body_group (n prec : nat) (p p1 : Parser L) (e : Expression) :
  Type_ (curToken p) = LPAREN →
  pe LOWEST (advance p) = Some (Some e, p1) →
  Type_ (peekToken p1) = RPAREN →
  parseExpressionBody pe n prec p = infixLoop pe n prec e (advance p1).
Proof.
  intros Ht He Hr. unfold parseExpressionBody, bind, gets. rewrite Ht.
  cbn [prefixParseFns]. unfold parseGroupedExpression, bind, nextToken,
    modify. rewrite He.
  unfold expectPeek, bind, peekTokenIs, gets. rewrite Hr.
  reflexivity.
Qed.

End Pratt.
Section PrattCorrect.
Import token Precedence Parser.

Context {L : Type} `{TokenSource L}.

Local Abbreviation skip k p := (Nat.iter k advance p).

Lemma skip_pred_advance (k : nat) (p : Parser L) :
  1 ≤ k → skip (k - 1) (advance p) = skip k p.
Proof.
  intros Hk. rewrite skip_advance. f_equal. lia.
Qed.

Lemma upcoming_cons (n : nat) (p : Parser L) (a : Token)
  (l : list Token) :
  upcoming (S n) p = a :: l → curToken p = a ∧ upcoming n (advance p) = l.
Proof. cbn [upcoming]. intros Heq. now injection Heq. Qed.

Lemma peek_before_last (k : nat) (p : Parser L) (ts : list Token)
  (t : Token) :
  1 ≤ k → length ts = k → upcoming (S k) p = ts ++ [t] →
  peekToken (skip (k - 1) p) = t.
Proof.
  intros Hk Hlen Hup. rewrite <- advance_cur.
  change (advance (skip (k - 1) p)) with (skip (S (k - 1)) p).
  replace (S (k - 1)) with k by lia.
  eapply upcoming_last; eassumption.
Qed.

(** The precedence table of the parser ranks the binary operators as
    the specification does. *)
Lemma operatorLevel_precedences (t : TokenType) (q : nat) :
  operatorLevel t = Some q →
  isBinaryOperator t = true ∧ precedences t = Some q.
Proof. destruct t; intros [= <-]; split; reflexivity. Qed.

(** The parser reads an expression of the grammar and goes on in its loop
    with the tree of that expression as the left operand. *)
Lemma pratt_core (m : nat) (e : Expression) (ts : list Token) :
  Renders m e ts →
  ∀ (f prec : nat) (p : Parser L) (t : Token),
    prec < m → length ts ≤ f →
    upcoming (S (length ts)) p = ts ++ [t] →
    default LOWEST (precedences (Type_ t)) ≤ m →
    ∃ n', f < n' + length ts
          ∧ parseExpression (S f) prec p
            = infixLoop (parseExpression f) n' prec e
                        (skip (length ts - 1) p).
Proof.
  induction 1 as [m tok Htok | m tok z Htok Hz
                 | m lp rp e ts Hlp Hrp He IH
                 | m q op l r tsl tsr Hlevel Hmq Hl IHl Hr IHr];
    intros f prec p t Hprec Hf Hup Ht.
  - apply upcoming_cons in Hup as [Hcur _]. exists f. split; [simpl; lia|].
    cbn [parseExpression]. rewrite body_identifier by congruence.
    now rewrite Hcur.
  - apply upcoming_cons in Hup as [Hcur _]. exists f. split; [simpl; lia|].
    cbn [parseExpression].
    rewrite (body_integer _ _ _ _ z) by congruence.
    now rewrite Hcur.
  - pose proof (Renders_nonempty _ _ _ He) as Hne.
    assert (Hlen : length (lp :: ts ++ [rp]) = S (S (length ts)))
      by (simpl; rewrite length_app; simpl; lia).
    rewrite Hlen in *.
    destruct f as [|f']; [lia|].
    change ((lp :: ts ++ [rp]) ++ [t]) with (lp :: (ts ++ [rp]) ++ [t]) in Hup.
    apply upcoming_cons in Hup as [Hcur Hup].
    replace (S (S (length ts))) with (S (length ts) + 1) in Hup by lia.
    destruct (upcoming_split (S (length ts)) 1 (advance p)
                (ts ++ [rp]) [t]) as [Hin _];
      [rewrite length_app; simpl; lia | exact Hup |].
    destruct (IH f' LOWEST (advance p) rp) as (n2 & _ & Hparse).
    + unfold LOWEST, loosest. lia.
    + lia.
    + exact Hin.
    + rewrite Hrp. unfold LOWEST, loosest. simpl. lia.
    + assert (Hpeek : peekToken (skip (length ts - 1) (advance p)) = rp).
      { eapply peek_before_last; [exact Hne | reflexivity | exact Hin]. }
      rewrite infixLoop_stop in Hparse
        by (rewrite Hpeek, Hrp; unfold LOWEST; simpl; lia).
      exists (S f'). split; [lia|].
      cbn [parseExpression].
      rewrite (body_group _ _ _ _ _ e (eq_trans (f_equal Type_ Hcur) Hlp)
                 Hparse)
        by (rewrite Hpeek; exact Hrp).
      f_equal.
      rewrite skip_pred_advance by exact Hne.
      replace (S (S (length ts)) - 1) with (S (length ts)) by lia.
      reflexivity.
  - pose proof (Renders_nonempty _ _ _ Hl) as Hnl.
    pose proof (Renders_nonempty _ _ _ Hr) as Hnr.
    destruct (operatorLevel_precedences _ _ Hlevel) as [Hop Hq].
    rewrite length_app in Hf, Hup. cbn [length] in Hf, Hup.
    rewrite length_app. cbn [length].
    (* the tokens ahead: the left operand, the operator, the right one *)
    replace (S (length tsl + S (length tsr)))
      with (length tsl + (1 + S (length tsr))) in Hup by lia.
    rewrite <- app_assoc in Hup.
    destruct (upcoming_split _ _ _ _ _ eq_refl Hup) as [Hleft Hrest].
    apply upcoming_cons in Hrest as [Hopcur Hright].
    assert (Hupl : upcoming (S (length tsl)) p = tsl ++ [op]).
    { replace (S (length tsl)) with (length tsl + 1) by lia.
      rewrite upcoming_app, Hleft. simpl. now rewrite Hopcur. }
    destruct (IHl f prec p op) as (n1 & Hn1 & Hparse1);
      [lia | lia | exact Hupl | rewrite Hq; simpl; lia |].
    assert (Hpeek : peekToken (skip (length tsl - 1) p) = op).
    { eapply peek_before_last; [exact Hnl | reflexivity | exact Hupl]. }
    destruct n1 as [|n1]; [lia|].
    destruct f as [|f']; [lia|].
    destruct (IHr f' q (advance (skip (length tsl) p)) t)
      as (n2 & _ & Hparse2);
      [lia | lia | exact Hright | lia |].
    rewrite infixLoop_stop in Hparse2.
    2:{ rewrite (peek_before_last (length tsr) _ tsr t Hnr eq_refl Hright).
        lia. }
    exists n1. split; [lia|].
    rewrite Hparse1.
    rewrite (infixLoop_step _ _ _ q) by (rewrite ?Hpeek; assumption || lia).
    rewrite Hpeek.
    replace (advance (advance (skip (length tsl - 1) p)))
      with (advance (skip (length tsl) p)).
    2:{ f_equal. change (advance (skip (length tsl - 1) p))
          with (skip (S (length tsl - 1)) p). f_equal. lia. }
    rewrite Hparse2. f_equal.
    rewrite skip_advance, <- Nat.iter_add. f_equal. lia.
Qed.

Lemma skip_errors (k : nat) (p : Parser L) : errors (skip k p) = errors p.
Proof.
  induction k as [|k IH]; [reflexivity|].
  change (skip (S k) p) with (advance (skip k p)).
  etransitivity; [|exact IH]. unfold advance at 1.
  now destruct (nextTok (lexer (skip k p))).
Qed.

Lemma parseExpression_reads (e : Expression) (ts : list Token) (t : Token)
  (p : Parser L) (budget : nat) :
  Renders loosest e ts →
  upcoming (S (length ts)) p = ts ++ [t] →
  precedences (Type_ t) = None →
  length ts < budget →
  parseExpression budget LOWEST p = Some (Some e, skip (length ts - 1) p).
Proof.
  intros He Hup Ht Hb.
  pose proof (Renders_nonempty _ _ _ He) as Hne.
  destruct budget as [|f]; [lia|].
  destruct (pratt_core _ _ _ He f LOWEST p t) as (n' & _ & Hparse).
  - unfold LOWEST, loosest. lia.
  - lia.
  - exact Hup.
  - rewrite Ht. unfold LOWEST, loosest. simpl. lia.
  - rewrite Hparse. apply infixLoop_stop.
    rewrite (peek_before_last (length ts) p ts t Hne eq_refl Hup), Ht.
    simpl. lia.
Qed.

(** C4: on every token sequence that is an expression of identifiers,
    integer literals, the eight binary operators and parentheses, followed
    by a token that continues no expression, [parseExpression] returns the
    precedence-correct tree of the reference grammar, stops on the last
    token of the expression and records no error.  In particular
    a + b * c, a * b / c and a - b - c are grouped as the claim says. *)
Theorem pratt_parser_is_precedence_correct (e : Expression)
  (ts : list Token) (t : Token) (p : Parser L) (budget : nat) :
  Renders loosest e ts →
  upcoming (S (length ts)) p = ts ++ [t] →
  precedences (Type_ t) = None →
  length ts < budget →
  parseExpression budget LOWEST p = Some (Some e, skip (length ts - 1) p)
  ∧ errors (skip (length ts - 1) p) = errors p
  ∧ parseToString 50 "a + b * c" = Some ("(a + (b * c))", [])
  ∧ parseToString 50 "a * b / c" = Some ("((a * b) / c)", [])
  ∧ parseToString 50 "a - b - c" = Some ("((a - b) - c)", []).
Proof.
  intros He Hup Ht Hb.
  split; [exact (parseExpression_reads e ts t p budget He Hup Ht Hb)|].
  split; [apply skip_errors | repeat split; vm_compute; reflexivity].
Qed.

End PrattCorrect.

Lemma pratt_parser_is_precedence_correct_witness :
  Parser.parseExpression 6 Precedence.LOWEST (Parser.new sampleSum)
  = Some (Some sampleSumTree, Nat.iter 4 Parser.advance (Parser.new sampleSum))
  ∧ toString sampleSumTree = "(a + (b * c))".
Proof.
  assert (Htree : Renders loosest sampleSumTree sampleSum).
  { apply (Renders_infix loosest 4 (mkToken token.PLUS "+") _ _
             [sampleName "a"]
             [sampleName "b"; mkToken token.ASTERISK "*"; sampleName "c"]);
      [reflexivity | unfold loosest; lia
      | apply (Renders_identifier _ (sampleName "a")); reflexivity |].
    apply (Renders_infix _ 5 (mkToken token.ASTERISK "*")
             _ _ [sampleName "b"] [sampleName "c"]);
      [reflexivity | lia
      | apply (Renders_identifier _ (sampleName "b")); reflexivity
      | apply (Renders_identifier _ (sampleName "c")); reflexivity]. }
  assert (Hbudget : length sampleSum < 6) by (simpl; lia).
  split; [|reflexivity].
  exact (proj1 (pratt_parser_is_precedence_correct sampleSumTree sampleSum
                  (mkToken token.EOF "") (Parser.new sampleSum) 6
                  Htree eq_refl eq_refl Hbudget)).
Defined.


(** ** The reference grammar reads a token sequence in one way only *)

Section Unambiguous.
Import token Precedence Parser.

Lemma upcoming_ready (n : nat) (a b : Token) (rest : list Token)
  (errs : list string) :
  n ≤ S (S (length rest)) →
  upcoming n (mkParser rest errs a b) = take n (a :: b :: rest).
Proof.
  revert a b rest. induction n as [|n IH]; intros a b rest Hn;
    [reflexivity|].
  cbn [upcoming take curToken]. f_equal.
  destruct rest as [|c rest]; unfold advance; cbn.
  - destruct n as [|[|n]]; [reflexivity | reflexivity | simpl in Hn; lia].
  - apply IH. simpl in Hn. lia.
Qed.

Lemma upcoming_new (l : list Token) : upcoming (length l) (Parser.new l) = l.
Proof.
  destruct l as [|a [|b rest]]; try reflexivity.
  change (Parser.new (a :: b :: rest)) with (mkParser rest [] a b).
  rewrite upcoming_ready by (simpl; lia).
  apply firstn_all.
Qed.

Lemma Renders_unambiguous (e1 e2 : Expression) (ts : list Token) :
  Renders loosest e1 ts → Renders loosest e2 ts → e1 = e2.
Proof.
  intros H1 H2.
  assert (Hup : upcoming (S (length ts))
                  (Parser.new (ts ++ [mkToken EOF ""]))
                = ts ++ [mkToken EOF ""]).
  { rewrite <- (upcoming_new (ts ++ [mkToken EOF ""])) at 2.
    f_equal. rewrite length_app. simpl. lia. }
  pose proof (parseExpression_reads e1 ts _ _ (S (length ts)) H1 Hup
                eq_refl (Nat.lt_succ_diag_r _)) as P1.
  pose proof (parseExpression_reads e2 ts _ _ (S (length ts)) H2 Hup
                eq_refl (Nat.lt_succ_diag_r _)) as P2.
  rewrite P1 in P2. now injection P2.
Qed.

End Unambiguous.

(** * Further properties of the evaluator *)

(** ** Truthiness *)

Section Truthiness.

Lemma isTruthy_false (v : Value) :
  isTruthy v = false ↔ same v NULL = true ∨ same v FALSE = true.
Proof.
  unfold isTruthy. destruct (same v NULL) eqn:N; [intuition|].
  destruct (same v TRUE) eqn:T.
  - split; [discriminate|]. intros [H|H]; [discriminate|].
    destruct v as [| |r o]; try discriminate. simpl in *.
    apply Nat.eqb_eq in T, H. lia.
  - destruct (same v FALSE); intuition discriminate.
Qed.

Lemma bang_isTruthy (v : Value) :
  evalBangOperatorExpression v = nativeBoolToBooleanObject (negb (isTruthy v)).
Proof.
  unfold evalBangOperatorExpression, isTruthy.
  destruct v as [| |r o]; simpl; try reflexivity.
  destruct (Nat.eqb_spec r 8) as [->|]; [reflexivity|].
  destruct (Nat.eqb_spec r 9) as [->|]; [reflexivity|].
  destruct (r =? 7)%nat; reflexivity.
Qed.

End Truthiness.

(** X1: [!] and [if] agree on what counts as true.  For every value [c],
    [!c] is the true singleton exactly when [c] is not truthy, and the only
    values that are not truthy are the null and the false singleton; an
    [if] whose condition evaluated to the non-error value [c] is the
    consequence block when [c] is truthy, else the alternative block, else
    the null singleton. *)
Theorem bang_agrees_with_if (n : nat) (tok : Token) (condition : Expression)
  (consequence : BlockStatement) (alternative : option BlockStatement)
  (env : nat) (s s1 : State) (c : Value) :
  evalNode n (Some (ExpressionNode condition)) env s = Ok (c, s1) →
  isError c s1 = Ok (false, s1) →
  evalBangOperatorExpression c = nativeBoolToBooleanObject (negb (isTruthy c))
  ∧ (isTruthy c = false ↔ same c NULL = true ∨ same c FALSE = true)
  ∧ evalNode (S n)
      (Some (ExpressionNode
               (IfExpression tok condition consequence alternative))) env s
    = if isTruthy c then evalNode n (Some (BlockNode consequence)) env s1
      else match alternative with
           | Some alt => evalNode n (Some (BlockNode alt)) env s1
           | None => Ok (NULL, s1)
           end.
Proof.
  intros Hc Herr. split; [apply bang_isTruthy|]. split; [apply isTruthy_false|].
  rewrite evalNode_S. cbn [evalNodeBody]. unfold evalIfExpression, evalExpr.
  rewrite (bind_of_Ok _ _ _ _ _ Hc), (bind_of_Ok _ _ _ _ _ Herr).
  destruct (isTruthy c); [reflexivity|]. now destruct alternative.
Qed.

(** ** Errors and expression lists *)

(** X2: an error produced by the first subexpression of a prefix, infix,
    index, call or [if] expression, or by the expression of a statement,
    is the result of the whole node, in the state the subexpression left:
    nothing else is evaluated, [return] does not wrap the error and [let]
    binds nothing.  An error from the right operand or from the index
    propagates in the same way once the left operand is a value. *)
Theorem errors_propagate (n : nat) (e : Expression) (env r : nat)
  (message : string) (s s1 : State) :
  evalNode n (Some (ExpressionNode e)) env s
  = Ok (Obj r (ErrorObject message), s1) →
  let err := Ok (Obj r (ErrorObject message), s1) in
  (∀ tok op,
     evalNode (S n) (Some (ExpressionNode (PrefixExpression tok op e))) env s
     = err)
  ∧ (∀ tok op e2,
       evalNode (S n) (Some (ExpressionNode (InfixExpression tok e op e2)))
                env s = err)
  ∧ (∀ tok e2,
       evalNode (S n) (Some (ExpressionNode (IndexExpression tok e e2)))
                env s = err)
  ∧ (∀ tok args,
       evalNode (S n) (Some (ExpressionNode (CallExpression tok e args)))
                env s = err)
  ∧ (∀ tok consequence alternative,
       evalNode (S n)
         (Some (ExpressionNode (IfExpression tok e consequence alternative)))
         env s = err)
  ∧ (∀ tok,
       evalNode (S n) (Some (StatementNode (ExpressionStatement tok e))) env s
       = err)
  ∧ (∀ tok,
       evalNode (S n) (Some (StatementNode (ReturnStatement tok e))) env s
       = err)
  ∧ (∀ tok name,
       evalNode (S n) (Some (StatementNode (LetStatement tok name e))) env s
       = err)
  ∧ (∀ e1 l s0, evalNode n (Some (ExpressionNode e1)) env s0 = Ok (l, s) →
       isError l s = Ok (false, s) →
       (∀ tok op,
          evalNode (S n) (Some (ExpressionNode (InfixExpression tok e1 op e)))
                   env s0 = err)
       ∧ (∀ tok,
            evalNode (S n) (Some (ExpressionNode (IndexExpression tok e1 e)))
                     env s0 = err)).
Proof.
  intros He err.
  assert (Herr : isError (Obj r (ErrorObject message)) s1 = Ok (true, s1))
    by reflexivity.
  repeat split; intros; rewrite evalNode_S; cbn [evalNodeBody];
    unfold evalIfExpression, evalExpr;
    repeat match goal with
           | H : evalNode n _ env ?s0 = Ok _
             |- context [Monad.bind (evalNode n _ env) _ ?s0] =>
               rewrite (bind_of_Ok _ _ _ _ _ H)
           | H : isError _ ?s0 = Ok _
             |- context [Monad.bind (isError _) _ ?s0] =>
               rewrite (bind_of_Ok _ _ _ _ _ H)
           end; try reflexivity; try exact He.
Qed.

Section ExpressionLists.

Variable ev : option Node → nat → M Value.

Lemma isError_state (v : Value) (s s' : State) (b : bool) :
  isError v s = Ok (b, s') → s' = s.
Proof.
  destruct v as [| |r o]; try discriminate; [now intros [= _ <-]|].
  destruct o; now intros [= _ <-].
Qed.

Lemma expressionsLoop_values (env : nat) (exps : list Expression)
  (acc vals : list Value) (s s1 : State) :
  valuesOf ev env exps s = Some (vals, s1) →
  evalExpressionsLoop ev exps env acc s = Ok (acc ++ vals, s1).
Proof.
  revert acc vals s. induction exps as [|e exps IH]; intros acc vals s; simpl.
  - intros [= <- <-]. now rewrite app_nil_r.
  - unfold evalExpr, Monad.bind.
    destruct (ev (Some (ExpressionNode e)) env s) as [[v s2]| |];
      try discriminate.
    destruct (isError v s2) as [[[|] s3]| |] eqn:E; try discriminate.
    apply isError_state in E as ->.
    destruct (valuesOf ev env exps s2) as [[vs s4]|] eqn:V; try discriminate.
    intros [= <- <-]. rewrite (IH _ _ _ V). now rewrite <- app_assoc.
Qed.

Lemma expressionsLoop_error (env : nat) (pre post : list Expression)
  (e : Expression) (acc vals : list Value) (s s1 s2 : State) (r : nat)
  (message : string) :
  valuesOf ev env pre s = Some (vals, s1) →
  ev (Some (ExpressionNode e)) env s1
  = Ok (Obj r (ErrorObject message), s2) →
  evalExpressionsLoop ev (pre ++ e :: post) env acc s
  = Ok ([Obj r (ErrorObject message)], s2).
Proof.
  revert acc vals s. induction pre as [|e0 pre IH]; intros acc vals s; simpl.
  - intros [= _ <-] He. unfold evalExpr. now rewrite (bind_of_Ok _ _ _ _ _ He).
  - unfold evalExpr, Monad.bind.
    destruct (ev (Some (ExpressionNode e0)) env s) as [[v s3]| |];
      try discriminate.
    destruct (isError v s3) as [[[|] s4]| |] eqn:E; try discriminate.
    apply isError_state in E as ->.
    destruct (valuesOf ev env pre s3) as [[vs s5]|] eqn:V; try discriminate.
    intros [= _ <-] He. exact (IH _ _ _ V He).
Qed.

Lemma valuesOf_no_error (env : nat) (exps : list Expression)
  (vals : list Value) (s s1 : State) :
  valuesOf ev env exps s = Some (vals, s1) →
  length vals = length exps
  ∧ match vals with
    | [a0] => isError a0 s1 = Ok (false, s1)
    | _ => True
    end.
Proof.
  revert vals s. induction exps as [|e exps IH]; intros vals s; simpl.
  - now intros [= <- _].
  - destruct (ev (Some (ExpressionNode e)) env s) as [[v s2]| |];
      try discriminate.
    destruct (isError v s2) as [[[|] s3]| |] eqn:E; try discriminate.
    pose proof (isError_state _ _ _ _ E) as ->.
    destruct (valuesOf ev env exps s2) as [[vs s4]|] eqn:V; try discriminate.
    intros [= <- <-]. destruct (IH _ _ V) as [Hlen _]. split; [simpl; lia|].
    destruct vs as [|? ?]; [|exact I].
    destruct exps; [|discriminate]. simpl in V. injection V as <-. exact E.
Qed.

End ExpressionLists.

(** X3: the elements of an array literal and the arguments of a call are
    evaluated from left to right.  When none of them is an error the array
    holds the values in that order; the first error ends the evaluation and
    is the result of the array literal, and of the call, whose function is
    then not applied. *)
Theorem expressions_left_to_right (n : nat) (env : nat)
  (pre : list Expression) (vals : list Value) (s s1 : State) :
  valuesOf (evalNode n) env pre s = Some (vals, s1) →
  (∀ tok, evalNode (S n) (Some (ExpressionNode (ArrayLiteral tok pre))) env s
          = Ok (Obj (nextRef s1) (ArrayObject vals), allocated s1))
  ∧ (∀ tok f s0 fv,
       evalNode n (Some (ExpressionNode f)) env s0 = Ok (fv, s) →
       isError fv s = Ok (false, s) →
       evalNode (S n) (Some (ExpressionNode (CallExpression tok f pre))) env s0
       = applyFunction (evalNode n) fv vals s1)
  ∧ (∀ e post r message s2,
       evalNode n (Some (ExpressionNode e)) env s1
       = Ok (Obj r (ErrorObject message), s2) →
       (∀ tok, evalNode (S n)
                 (Some (ExpressionNode (ArrayLiteral tok (pre ++ e :: post))))
                 env s
               = Ok (Obj r (ErrorObject message), s2))
       ∧ (∀ tok f s0 fv,
            evalNode n (Some (ExpressionNode f)) env s0 = Ok (fv, s) →
            isError fv s = Ok (false, s) →
            evalNode (S n)
              (Some (ExpressionNode (CallExpression tok f (pre ++ e :: post))))
              env s0
            = Ok (Obj r (ErrorObject message), s2))).
Proof.
  intros Hv.
  pose proof (expressionsLoop_values (evalNode n) env pre [] vals s s1 Hv) as Hok.
  destruct (valuesOf_no_error _ _ _ _ _ _ Hv) as [_ Hone].
  assert (Hflag : (match vals with
                   | [a0] => isError a0
                   | _ => Monad.ret false
                   end) s1 = Ok (false, s1)).
  { destruct vals as [|a0 [|? ?]]; try reflexivity. exact Hone. }
  split; [|split].
  - intros tok. rewrite evalNode_S. cbn [evalNodeBody]. unfold evalExpressions.
    rewrite (bind_of_Ok _ _ _ _ _ Hok). cbn [app].
    rewrite (bind_of_Ok _ _ _ _ _ Hflag). reflexivity.
  - intros tok f s0 fv Hf Hnot. rewrite evalNode_S. cbn [evalNodeBody].
    unfold evalExpressions, evalExpr.
    rewrite (bind_of_Ok _ _ _ _ _ Hf), (bind_of_Ok _ _ _ _ _ Hnot).
    rewrite (bind_of_Ok _ _ _ _ _ Hok). cbn [app].
    rewrite (bind_of_Ok _ _ _ _ _ Hflag). reflexivity.
  - intros e post r message s2 He.
    pose proof (expressionsLoop_error (evalNode n) env pre post e [] vals
                  s s1 s2 r message Hv He) as Hbad.
    split.
    + intros tok. rewrite evalNode_S. cbn [evalNodeBody].
      unfold evalExpressions. rewrite (bind_of_Ok _ _ _ _ _ Hbad). reflexivity.
    + intros tok f s0 fv Hf Hnot. rewrite evalNode_S. cbn [evalNodeBody].
      unfold evalExpressions, evalExpr.
      rewrite (bind_of_Ok _ _ _ _ _ Hf), (bind_of_Ok _ _ _ _ _ Hnot).
      rewrite (bind_of_Ok _ _ _ _ _ Hbad). reflexivity.
Qed.

(** ** Operators *)

Section OperatorEdges.

(** X4: on two strings [+] concatenates into a new string object and every
    other operator, [==] and [!=] included, is an "unknown operator" error:
    strings are never compared. *)
Theorem strings_concatenate_only (op a b : string) (r1 r2 : nat) (s : State) :
  evalInfixExpression op (Obj r1 (StringObject a)) (Obj r2 (StringObject b)) s
  = Ok (Obj (nextRef s)
          (if String.eqb op "+" then StringObject (a +:+ b)
           else ErrorObject ("unknown operator: STRING " +:+ op +:+ " STRING")),
        allocated s)
  ∧ runValue 20 (quoted "ab" +:+ " + " +:+ quoted "cd")
    = Some ([], Ok (Obj 12 (StringObject "abcd")))
  ∧ runValue 20 (quoted "a" +:+ " == " +:+ quoted "a")
    = Some ([], Ok (Obj 12 (ErrorObject "unknown operator: STRING == STRING"))).
Proof.
  split; [|split; vm_compute; reflexivity].
  unfold evalInfixExpression, bothOfType. cbn.
  unfold evalStringInfixExpression, newError, Monad.new.
  now destruct (String.eqb op "+").
Qed.

(** X5: dividing an integer by zero is not an error.  The result is an
    integer object that holds no finite number: NaN when the dividend is
    zero as well, an infinity otherwise; it prints as such. *)
Theorem division_by_zero_is_no_error (l : Z) (a b : nat) (s : State) :
  ∃ v, evalInfixExpression "/" (Obj a (IntegerObject (Num l)))
                               (Obj b (IntegerObject (Num 0))) s
       = Ok (Obj (nextRef s) (IntegerObject v), allocated s)
       ∧ (∀ z, v ≠ Num z)
       ∧ (v = NaN ↔ l = 0%Z)
       ∧ (inspect (Obj (nextRef s) (IntegerObject v))
          ∈ [Some "NaN"; Some "Infinity"; Some "-Infinity"]).
Proof.
  exists (Number.inf_of_sign (Z.sgn l)). split; [reflexivity|].
  unfold Number.inf_of_sign.
  destruct (Z.eqb_spec (Z.sgn l) 0) as [H0|H0].
  - split; [discriminate|]. split; [|set_solver].
    split; [intros _; now apply Z.sgn_null_iff | reflexivity].
  - assert (l ≠ 0%Z) by (intros ->; now apply H0).
    destruct (0 <? Z.sgn l)%Z; (split; [discriminate|]);
      (split; [split; [discriminate | contradiction] | simpl; set_solver]).
Qed.

(** X6: [-] applied to an integer object gives a new integer object with
    the negated number, and negating twice gives back the number; applied
    to an object of any other kind it is the error "unknown operator: -"
    followed by the kind. *)
Theorem minus_negates_integers_only (r : nat) (o : MonkeyObject) (s : State) :
  (∀ v, o = IntegerObject v →
        evalPrefixExpression "-" (Obj r o) s
        = Ok (Obj (nextRef s) (IntegerObject (Number.neg v)), allocated s)
        ∧ Number.neg (Number.neg v) = v)
  ∧ (type o ≠ INTEGER_OBJ →
     evalPrefixExpression "-" (Obj r o) s
     = Ok (Obj (nextRef s) (ErrorObject ("unknown operator: -" +:+ type o)),
           allocated s))
  ∧ runValue 20 "-true"
    = Some ([], Ok (Obj 10 (ErrorObject "unknown operator: -BOOLEAN"))).
Proof.
  split; [|split; [|vm_compute; reflexivity]].
  - intros v ->. split; [reflexivity|]. destruct v; simpl; try reflexivity.
    now rewrite Z.opp_involutive.
  - intros Hne. destruct o; try reflexivity. now contradiction Hne.
Qed.

End OperatorEdges.

(** ** Builtin functions *)

Section Builtins.

Lemma last_snoc (els : list Value) (x : Value) :
  List.last (List.map Some (els ++ [x])) None = Some x.
Proof.
  rewrite List.map_app. simpl. apply List.last_last.
Qed.

Lemma array_index_item (r1 r2 : nat) (els : list Value) (i : nat)
  (s : State) :
  i < length els →
  evalIndexExpression (Obj r1 (ArrayObject els))
                      (Obj r2 (IntegerObject (Num (Z.of_nat i)))) s
  = Ok (item els i, s).
Proof.
  intros Hi. rewrite index_of_array_integer. unfold evalArrayIndexExpression.
  unfold Number.gt, Number.lt, Number.sub, Number.add, Number.neg.
  destruct (Z.ltb_spec (Z.of_nat i) 0); [lia|].
  destruct (Z.ltb_spec (Z.of_nat (length els) + - (1)) (Z.of_nat i)); [lia|].
  simpl. now rewrite Nat2Z.id.
Qed.

(** X7: [push] returns a new array with the element added at the end:
    [last] of the result is the pushed element itself, [len] is one more,
    indexing the result at the old length gives the element and at every
    smaller index what the original array holds there. *)
Theorem push_adds_at_the_end (r : nat) (els : list Value) (x : Value)
  (s : State) :
  let pushed := Obj (nextRef s) (ArrayObject (els ++ [x])) in
  let s1 := allocated s in
  builtins.call Push [Obj r (ArrayObject els); x] s = Ok (pushed, s1)
  ∧ builtins.call Last [pushed] s1 = Ok (x, s1)
  ∧ builtins.call Len [pushed] s1
    = Ok (Obj (nextRef s1) (IntegerObject (Num (Z.of_nat (length els) + 1))),
          allocated s1)
  ∧ (∀ ri, evalIndexExpression pushed
             (Obj ri (IntegerObject (Num (Z.of_nat (length els))))) s1
           = Ok (x, s1))
  ∧ (∀ ri i, i < length els →
       evalIndexExpression pushed (Obj ri (IntegerObject (Num (Z.of_nat i)))) s1
       = evalIndexExpression (Obj r (ArrayObject els))
           (Obj ri (IntegerObject (Num (Z.of_nat i)))) s1).
Proof.
  intros pushed s1. split; [reflexivity|]. split; [|split; [|split]].
  - unfold pushed. cbn [builtins.call]. now rewrite last_snoc.
  - unfold pushed. cbn [builtins.call]. rewrite length_app. simpl.
    unfold Monad.new. do 5 f_equal. lia.
  - intros ri. unfold pushed.
    rewrite array_index_item by (rewrite length_app; simpl; lia).
    unfold item. rewrite lookup_app_r by lia. now rewrite Nat.sub_diag.
  - intros ri i Hi. unfold pushed.
    rewrite !array_index_item by (try rewrite length_app; simpl; lia).
    unfold item. now rewrite lookup_app_l by lia.
Qed.

(** X8: a non-empty array is its [first] element followed by its [rest]:
    [first] returns the element at index 0 itself and [rest] a new array
    of the elements after it, which is the empty array, not null, when
    the array has one element.  On the empty array [first], [last] and
    [rest] return a new null object. *)
Theorem first_and_rest_split_an_array (r : nat) (els : list Value)
  (s : State) :
  match els with
  | y :: ys =>
      builtins.call First [Obj r (ArrayObject els)] s = Ok (y, s)
      ∧ builtins.call Rest [Obj r (ArrayObject els)] s
        = Ok (Obj (nextRef s) (ArrayObject ys), allocated s)
      ∧ builtins.call Last [Obj r (ArrayObject els)] s
        = Ok (item els (length els - 1), s)
  | [] =>
      ∀ fn, fn ∈ [First; Last; Rest] →
            builtins.call fn [Obj r (ArrayObject [])] s
            = Ok (Obj (nextRef s) NullObject, allocated s)
  end
  ∧ runValue 30 "rest([1])" = Some ([], Ok (Obj 12 (ArrayObject []))).
Proof.
  split; [|vm_compute; reflexivity].
  destruct els as [|y ys].
  - intros fn Hfn. repeat (apply elem_of_cons in Hfn as [->|Hfn];
                           [reflexivity|]).
    inversion Hfn.
  - split; [reflexivity|]. split; [reflexivity|].
    cbn [builtins.call]. unfold item.
    destruct (List.last (List.map Some (y :: ys)) None) as [x|] eqn:E.
    + f_equal. f_equal.
      assert (Hlast : (y :: ys) !! (length (y :: ys) - 1) = Some x).
      { revert y E. induction ys as [|z zs IH]; intros y E.
        - simpl in E. now injection E as <-.
        - change (List.last (List.map Some (z :: zs)) None = Some x) in E.
          specialize (IH z E). simpl in *. now rewrite Nat.sub_0_r in IH. }
      now rewrite Hlast.
    + exfalso. revert y E. induction ys as [|z zs IH]; intros y E;
        [discriminate|]. exact (IH z E).
Qed.

End Builtins.

(** ** References across evaluation *)

Section AcrossEvaluation.

Context {R : State → State → Prop} `{!Steady R}.
Hypothesis R_set : ∀ env name val s, R s (Environment.set env name val s).
Hypothesis R_call : ∀ ps fenv args s, R s (callState ps fenv args s).

Section Step.

Variable ev : option Node → nat → M Value.
Hypothesis IH : ∀ node env, preserves R (ev node env).

Lemma steady_applyFunction (f : Value) (args : list Value) :
  preserves R (applyFunction ev f args).
Proof.
  intros s v s' H. destruct f as [| |r o]; try discriminate H.
  destruct o;
    try (revert H; apply preserves_bind;
         [apply preserves_typeOf | intros ?; apply preserves_newError]).
  - rewrite applyFunction_Function in H.
    destruct (ev (Some (BlockNode body)) (length (envs s))
                (callState parameters env args s)) as [[v2 s2]| |] eqn:E;
      try discriminate H.
    injection H as _ <-. apply IH in E.
    exact (steady_trans _ _ _ (R_call parameters env args s) E).
  - revert H. unfold applyFunction. apply preserves_bind;
      [apply preserves_typeOf | intros ?; apply preserves_builtin].
Qed.

Lemma steady_programLoop (stmts : list Statement) (env : nat) (r : Value) :
  preserves R (evalProgramLoop ev stmts env r).
Proof.
  revert r. induction stmts as [|st stmts IHs]; intros r; simpl;
    preserve; auto.
Qed.

Lemma steady_blockLoop (stmts : list Statement) (env : nat) (r : Value) :
  preserves R (evalBlockLoop ev stmts env r).
Proof.
  revert r. induction stmts as [|st stmts IHs]; intros r; simpl;
    preserve; auto.
Qed.

Lemma steady_expressionsLoop (exps : list Expression) (env : nat)
  (acc : list Value) :
  preserves R (evalExpressionsLoop ev exps env acc).
Proof.
  revert acc. induction exps as [|e exps IHe]; intros acc; simpl;
    unfold evalExpr; pose proof (@preserves_isError R _);
    preserve; auto.
Qed.

Lemma steady_hashLoop (hash : nat) (nodes : list (Expression * Expression))
  (env : nat) (pairs : list (string * HashPair)) :
  preserves R (evalHashLoop ev hash nodes env pairs).
Proof.
  revert pairs. induction nodes as [|[k v] nodes IHn]; intros pairs; simpl;
    unfold evalExpr, newError;
    pose proof (@preserves_isError R _);
    preserve; auto.
Qed.

Lemma steady_body (node : option Node) (env : nat) :
  preserves R (evalNodeBody ev node env).
Proof.
  pose proof (@preserves_isError R _).
  pose proof (@preserves_prefix R _).
  pose proof (@preserves_infix R _).
  pose proof (@preserves_index R _).
  pose proof (@preserves_identifier R _).
  pose proof steady_programLoop. pose proof steady_blockLoop.
  pose proof steady_expressionsLoop. pose proof steady_hashLoop.
  pose proof steady_applyFunction.
  unfold evalNodeBody, evalProgram, evalBlockStatement, evalIfExpression,
    evalExpressions, evalHashLiteral, evalExpr.
  preserve.
  intros s0 x s1 [= _ <-]. apply R_set.
Qed.

End Step.

(** What holds across every step holds across the evaluation of a node. *)
Lemma evalNode_steady (n : nat) (node : option Node) (env : nat) :
  preserves R (evalNode n node env).
Proof.
  revert node env. induction n as [|n IH]; intros node env.
  - apply preserves_exhausted.
  - rewrite evalNode_S. now apply steady_body.
Qed.

End AcrossEvaluation.

Section References.

#[local] Instance refs_kept_steady : Steady refs_kept.
Proof.
  split; unfold refs_kept; simpl; intros; lia.
Qed.

(** References are handed out in increasing order: evaluation never goes
    back to one it has given. *)
Lemma evalNode_refs (n : nat) (node : option Node) (env : nat) :
  preserves refs_kept (evalNode n node env).
Proof.
  apply evalNode_steady.
  - intros e name val s. unfold refs_kept. simpl. lia.
  - intros ps fenv args s. unfold refs_kept, callState. simpl. lia.
Qed.

Lemma applyFunction_refs (n : nat) (f : Value) (args : list Value) :
  preserves refs_kept (applyFunction (evalNode n) f args).
Proof.
  apply steady_applyFunction.
  - intros ps fenv args' s. unfold refs_kept, callState. simpl. lia.
  - intros node env. apply evalNode_refs.
Qed.

Lemma evalExpressions_refs (n : nat) (exps : list Expression) (env : nat) :
  preserves refs_kept (evalExpressions (evalNode n) exps env).
Proof.
  apply steady_expressionsLoop. intros node env'. apply evalNode_refs.
Qed.

Lemma logAll_refs (args : list Value) (s s' : State) :
  builtins.logAll args s = Ok (tt, s') → nextRef s' = nextRef s.
Proof.
  revert s. induction args as [|v args IH]; intros s; simpl.
  - now intros [= <-].
  - unfold Monad.bind, Monad.log. destruct (inspect v) as [line|];
      [|discriminate].
    intros H. now rewrite (IH _ H).
Qed.

End References.

Section BuiltinResults.

(** X9: the null that [first], [last] and [rest] return for an empty array,
    and [puts] and [write] for any arguments, is a new object and not the
    null singleton of the evaluator.  References are handed out in
    increasing order: the state a run starts in is past the references of
    the singletons, and the evaluation of a node, of the arguments of a
    call, the application of a function and a whole run end in such a
    state again, as is the state the body of a function starts in.  So in
    every such state that null is truthy, [!] of it is false, and it
    differs under [==] from the null an [if] without alternative gives. *)
Theorem builtin_null_is_truthy :
  9 < nextRef rootState
  ∧ (∀ budget source errs v s,
       run budget source = Some (errs, Ok (v, s)) → 9 < nextRef s)
  ∧ (∀ s, 9 < nextRef s →
       (∀ n node env v s',
          evalNode n node env s = Ok (v, s') → 9 < nextRef s')
       ∧ (∀ n exps env vs s',
            evalExpressions (evalNode n) exps env s = Ok (vs, s') →
            9 < nextRef s')
       ∧ (∀ n f args v s',
            applyFunction (evalNode n) f args s = Ok (v, s') →
            9 < nextRef s')
       ∧ (∀ ps fenv args, 9 < nextRef (callState ps fenv args s))
       ∧ let fresh := Obj (nextRef s) NullObject in
         (∀ fn r, fn ∈ [First; Last; Rest] →
            builtins.call fn [Obj r (ArrayObject [])] s
            = Ok (fresh, allocated s))
         ∧ (∀ fn args v s', fn = Puts ∨ fn = Write →
              builtins.call fn args s = Ok (v, s') → v = fresh)
         ∧ isTruthy fresh = true
         ∧ evalBangOperatorExpression fresh = FALSE
         ∧ (∀ s', evalInfixExpression "==" fresh NULL s' = Ok (FALSE, s')))
  ∧ runValue 30 "if (first([])) { 1 } else { 2 }"
    = Some ([], Ok (Obj 12 (IntegerObject (Num 1))))
  ∧ runValue 30 "if (puts(1, 2)) { 1 } else { 2 }"
    = Some ([], Ok (Obj 13 (IntegerObject (Num 1)))).
Proof.
  split; [simpl; lia|]. split; [|split; [|split]].
  - intros budget source errs v s. unfold run.
    destruct (Parser.parseProgram budget (Parser.new (Lexer.new source)))
      as [[program p]|]; [|discriminate].
    intros [= _ H]. apply evalNode_refs in H. unfold refs_kept in H.
    simpl in H. lia.
  - intros s Hfresh. split; [|split; [|split; [|split]]].
    + intros n node env v s' H. apply evalNode_refs in H.
      unfold refs_kept in H. lia.
    + intros n exps env vs s' H. apply evalExpressions_refs in H.
      unfold refs_kept in H. lia.
    + intros n f args v s' H. apply applyFunction_refs in H.
      unfold refs_kept in H. lia.
    + intros ps fenv args. exact Hfresh.
    + intros fresh. split; [|split].
      * intros fn r Hfn.
        repeat (apply elem_of_cons in Hfn as [->|Hfn]; [reflexivity|]).
        inversion Hfn.
      * intros fn args v s' Hfn.
        assert (Hcall : builtins.call fn args
                        = Monad.bind (builtins.logAll args)
                                     (λ _, Monad.new NullObject))
          by (destruct Hfn as [->| ->]; reflexivity).
        rewrite Hcall. intros H. apply bind_Ok in H as ([] & s1 & H1 & H2).
        injection H2 as <- _. unfold fresh.
        now rewrite (logAll_refs _ _ _ H1).
      * assert (H7 : (nextRef s =? 7)%nat = false)
          by (apply Nat.eqb_neq; lia).
        assert (H8 : (nextRef s =? 8)%nat = false)
          by (apply Nat.eqb_neq; lia).
        assert (H9 : (nextRef s =? 9)%nat = false)
          by (apply Nat.eqb_neq; lia).
        split; [|split].
        -- unfold isTruthy, fresh. simpl. now rewrite H7, H8, H9.
        -- unfold evalBangOperatorExpression, fresh. simpl.
           now rewrite H7, H8, H9.
        -- intros s'. unfold evalInfixExpression, bothOfType, fresh. cbn.
           now rewrite H7.
  - vm_compute. reflexivity.
  - vm_compute. reflexivity.
Qed.

Lemma logAll_lines (args : list Value) (lines : list string) (s : State) :
  Forall2 (λ v line, inspect v = Some line) args lines →
  builtins.logAll args s
  = Ok (tt, {| envs := envs s; nextRef := nextRef s;
               console := console s ++ lines |}).
Proof.
  intros H. revert s. induction H as [|v line args lines Hv _ IH]; intros s.
  - simpl. unfold Monad.ret. rewrite app_nil_r. now destruct s.
  - simpl. unfold Monad.bind, Monad.log. rewrite Hv. rewrite IH. simpl.
    now rewrite <- app_assoc.
Qed.

(** X10: [puts] and [write] print the arguments in order, one line each,
    the line being what [inspect] gives for the argument, print nothing
    else, and return a new null object. *)
Theorem puts_prints_each_argument (fn : BuiltinFunction) (args : list Value)
  (lines : list string) (s : State) :
  fn = Puts ∨ fn = Write →
  Forall2 (λ v line, inspect v = Some line) args lines →
  builtins.call fn args s = Ok (Obj (nextRef s) NullObject, printed lines s)
  ∧ console (printed lines s) = console s ++ lines
  ∧ length lines = length args.
Proof.
  intros Hfn Hlines. split; [|split; [reflexivity|]].
  - destruct Hfn as [-> | ->]; cbn [builtins.call]; unfold Monad.bind;
      rewrite (logAll_lines _ _ _ Hlines); reflexivity.
  - symmetry. exact (Forall2_length _ _ _ Hlines).
Qed.

(** X11: a builtin called with the wrong number of arguments, or [first],
    [last], [rest] or [push] called on something that is not an array,
    returns an error object with the message of the source and writes
    nothing; [len] accepts strings and arrays only. *)
Theorem builtins_report_wrong_arguments (fn : BuiltinFunction) (w : nat)
  (args : list Value) (s : State) :
  wanted fn = Some w →
  (length args ≠ w →
   builtins.call fn args s
   = Ok (Obj (nextRef s)
           (ErrorObject ("wrong number of arguments. got="
                         +:+ pretty (length args) +:+ ", want=" +:+ pretty w)),
         allocated s))
  ∧ (∀ r o rest, args = Obj r o :: rest → length args = w →
       fn ≠ Len → type o ≠ ARRAY_OBJ →
       builtins.call fn args s
       = Ok (Obj (nextRef s)
               (ErrorObject ("argument to '" +:+ builtinName fn
                             +:+ "' must be ARRAY, got " +:+ type o)),
             allocated s))
  ∧ (∀ r o, args = [Obj r o] → fn = Len →
       type o ≠ ARRAY_OBJ → type o ≠ STRING_OBJ →
       builtins.call fn args s
       = Ok (Obj (nextRef s)
               (ErrorObject ("argument to 'len' not supported, got "
                             +:+ type o)),
             allocated s)).
Proof.
  intros Hw. split; [|split].
  - intros Hlen.
    destruct fn; try discriminate Hw; injection Hw as <-;
      destruct args as [|a [|b [|c rest]]];
      try reflexivity; simpl in Hlen; lia.
  - intros r o rest -> Hlen Hfn Harr.
    destruct fn; try discriminate Hw; try contradiction; injection Hw as <-;
      destruct rest as [|b [|c rest]]; try discriminate Hlen;
      destruct o; try reflexivity; now contradiction Harr.
  - intros r o -> -> Harr Hstr.
    destruct o; try reflexivity; contradiction.
Qed.

End BuiltinResults.

(** ** Indexing and environments *)

Section IndexEdges.

(** X12: what indexing does besides reading an array in bounds.  An object
    that is neither an array nor a hash cannot be indexed, and an array
    cannot be indexed by anything but an integer: both are the error
    "index operator not supported".  A hash indexed by an object that has
    no hash key (anything but an integer, a boolean or a string) is the
    error "unusable as hash key"; indexed by a key it does not hold it is
    the null singleton, not an error. *)
Theorem index_edge_cases (rl ri : nat) (ol oi : MonkeyObject) (s : State) :
  (type ol ≠ ARRAY_OBJ → type ol ≠ HASH_OBJ →
   evalIndexExpression (Obj rl ol) (Obj ri oi) s
   = Ok (Obj (nextRef s)
           (ErrorObject ("index operator not supported: " +:+ type ol)),
         allocated s))
  ∧ (type ol = ARRAY_OBJ → type oi ≠ INTEGER_OBJ →
     evalIndexExpression (Obj rl ol) (Obj ri oi) s
     = Ok (Obj (nextRef s)
             (ErrorObject "index operator not supported: ARRAY"),
           allocated s))
  ∧ (type ol = HASH_OBJ → hashKey oi = None →
     evalIndexExpression (Obj rl ol) (Obj ri oi) s
     = Ok (Obj (nextRef s)
             (ErrorObject ("unusable as hash key: " +:+ type oi)),
           allocated s))
  ∧ (∀ pairs k, ol = HashObject pairs → hashKey oi = Some k →
       pairs_get (HashKey_toString k) pairs = None →
       evalIndexExpression (Obj rl ol) (Obj ri oi) s = Ok (NULL, s))
  ∧ (hashKey oi = None
     ↔ type oi ≠ INTEGER_OBJ ∧ type oi ≠ BOOLEAN_OBJ ∧ type oi ≠ STRING_OBJ).
Proof.
  split; [|split; [|split; [|split]]].
  - intros Ha Hh. destruct ol; try reflexivity; contradiction.
  - intros Ha Hi. destruct ol; try discriminate Ha.
    destruct oi; try reflexivity; contradiction.
  - intros Hh Hk. destruct ol; try discriminate Hh.
    unfold evalIndexExpression. cbn. unfold evalHashIndexExpression.
    now rewrite Hk.
  - intros pairs k -> Hk Hget.
    unfold evalIndexExpression. cbn. unfold evalHashIndexExpression.
    now rewrite Hk, Hget.
  - destruct oi; simpl; split; intros H; try discriminate H;
      try (repeat split; discriminate);
      destruct H as (Hi & Hb & Hs); try reflexivity;
      try (now contradiction Hi); try (now contradiction Hb);
      now contradiction Hs.
Qed.

End IndexEdges.

Section EnvironmentLaws.

Lemma get_walk_set_other (n e e' : nat) (x y : string) (v : Value)
  (h : list Frame) :
  x ≠ y →
  get_walk n (alter (λ fr, {| store := <[x := v]> (store fr);
                              outer := outer fr |}) e h) e' y
  = get_walk n h e' y.
Proof.
  intros Hxy. revert e'. induction n as [|n IH]; intros e'; [reflexivity|].
  simpl. destruct (decide (e = e')) as [->|Hne].
  - rewrite list_lookup_alter_eq. destruct (h !! e') as [fr|]; [|reflexivity].
    simpl. rewrite lookup_insert_ne by assumption.
    destruct (store fr !! y) as [[| |r o]|]; try reflexivity;
      destruct (outer fr); try reflexivity; apply IH.
  - rewrite list_lookup_alter_ne by assumption.
    destruct (h !! e') as [fr|]; [|reflexivity].
    destruct (store fr !! y) as [[| |r o]|]; try reflexivity;
      destruct (outer fr); try reflexivity; apply IH.
Qed.

(** X13: what [set] and [get] of an environment do to each other.  After
    [set] of a name in an environment, [get] of that name there finds the
    value that was set; [get] of any other name, from any environment, is
    what it was before.  A new enclosed environment resolves every name as
    the environment it encloses, and creating it changes no lookup from
    an existing environment. *)
Theorem environment_get_after_set (e : nat) (x : string) (v : Value)
  (s : State) :
  e < length (envs s) →
  (v ≠ JsUndefined →
   Environment.get (Environment.set e x v s) e x = (v, true))
  ∧ (∀ e' y, x ≠ y →
       Environment.get (Environment.set e x v s) e' y = Environment.get s e' y)
  ∧ fst (newEnclosedEnvironment e s) = length (envs s)
  ∧ (wf_heap (envs s) →
     (∀ y, Environment.get (snd (newEnclosedEnvironment e s))
             (length (envs s)) y
           = Environment.get s e y)
     ∧ (∀ e' y, e' < length (envs s) →
          Environment.get (snd (newEnclosedEnvironment e s)) e' y
          = Environment.get s e' y)).
Proof.
  intros He. split; [|split; [|split; [reflexivity|]]].
  - intros Hv. unfold Environment.get, Environment.set. cbn [envs].
    rewrite length_alter. destruct (length (envs s)) as [|n] eqn:L; [lia|].
    rewrite get_walk_S, list_lookup_alter_eq.
    destruct (lookup_lt_is_Some_2 (envs s) e ltac:(lia)) as [fr ->].
    simpl. rewrite lookup_insert_eq. now destruct v.
  - intros e' y Hxy. unfold Environment.get, Environment.set. cbn [envs].
    rewrite length_alter. now apply get_walk_set_other.
  - intros Hwf. split.
    + intros y. unfold Environment.get, newEnclosedEnvironment, alloc.
      cbn [snd envs]. rewrite length_app. simpl.
      replace (length (envs s) + 1) with (S (length (envs s))) by lia.
      rewrite get_walk_S, lookup_app_r by lia. rewrite Nat.sub_diag. simpl.
      rewrite lookup_empty.
      apply get_walk_stable; try assumption; try lia.
      intros e' He'. apply lookup_app_l. lia.
    + intros e' y He'. apply get_after_frames_kept; try assumption.
      split; simpl; [rewrite length_app; simpl; lia|].
      intros e0 He0. now apply lookup_app_l.
Qed.

(** X14: a [let] binds the very object its expression evaluated to, and
    the value of the statement is that object; reading the name afterwards
    in the same environment gives the same object again and changes
    nothing. *)
Theorem let_then_lookup (n m : nat) (tok : Token) (name : Identifier)
  (value : Expression) (env : nat) (s s1 : State) (val : Value) :
  evalNode n (Some (ExpressionNode value)) env s = Ok (val, s1) →
  isError val s1 = Ok (false, s1) →
  env < length (envs s1) →
  let s2 := Environment.set env (ident_value name) val s1 in
  evalNode (S n) (Some (StatementNode (LetStatement tok name value))) env s
  = Ok (val, s2)
  ∧ evalNode (S m) (Some (ExpressionNode (IdentifierE name))) env s2
    = Ok (val, s2).
Proof.
  intros Hval Herr Henv s2. split.
  - rewrite evalNode_S. cbn [evalNodeBody]. unfold evalExpr.
    now rewrite (bind_of_Ok _ _ _ _ _ Hval), (bind_of_Ok _ _ _ _ _ Herr).
  - rewrite evalNode_S. cbn [evalNodeBody]. unfold evalIdentifier.
    assert (Hget : Environment.get s2 env (ident_value name) = (val, true)).
    { unfold Environment.get, s2, Environment.set. cbn [envs].
      rewrite length_alter. destruct (length (envs s1)) as [|k] eqn:L; [lia|].
      rewrite get_walk_S, list_lookup_alter_eq.
      destruct (lookup_lt_is_Some_2 (envs s1) env ltac:(lia)) as [fr ->].
      simpl. rewrite lookup_insert_eq.
      destruct val; try reflexivity. discriminate Herr. }
    now rewrite Hget.
Qed.

End EnvironmentLaws.

(** ** Hash keys of strings *)

Section StringHash.
Local Open Scope Z_scope.

Lemma toInt32_range (x : Z) : - 2 ^ 31 ≤ toInt32 x < 2 ^ 31.
Proof.
  unfold toInt32. pose proof (Z.mod_pos_bound (x + 2 ^ 31) (2 ^ 32)). lia.
Qed.

Lemma toInt32_congruent (x y : Z) :
  x mod 2 ^ 32 = y mod 2 ^ 32 → toInt32 x = toInt32 y.
Proof.
  intros H. unfold toInt32. f_equal.
  rewrite (Z.add_mod x), (Z.add_mod y) by lia. now rewrite H.
Qed.

Lemma toInt32_mod (x : Z) : toInt32 x mod 2 ^ 32 = x mod 2 ^ 32.
Proof.
  unfold toInt32.
  rewrite Zminus_mod, Z.mod_mod by lia.
  rewrite <- Zminus_mod. f_equal. lia.
Qed.

Lemma polynomial31_congruent (s : string) (h h' : Z) :
  h mod 2 ^ 32 = h' mod 2 ^ 32 →
  polynomial31 s h mod 2 ^ 32 = polynomial31 s h' mod 2 ^ 32.
Proof.
  revert h h'. induction s as [|c s IH]; intros h h' H; simpl; [exact H|].
  apply IH.
  rewrite (Z.add_mod (31 * h)), (Z.add_mod (31 * h')) by lia.
  rewrite (Z.mul_mod 31 h), (Z.mul_mod 31 h') by lia. now rewrite H.
Qed.

Lemma stringHash_polynomial (s : string) (h : Z) :
  stringHash s h mod 2 ^ 32 = polynomial31 s h mod 2 ^ 32
  ∧ (s ≠ EmptyString → stringHash s h = toInt32 (polynomial31 s h)).
Proof.
  revert h. induction s as [|c s IH]; intros h; simpl.
  - split; [reflexivity | congruence].
  - rewrite Z.land_diag.
    set (step := toInt32 (toInt32 (Z.shiftl h 5) - h
                          + Z.of_nat (nat_of_ascii c))).
    assert (Hstep : step mod 2 ^ 32
                    = (31 * h + Z.of_nat (nat_of_ascii c)) mod 2 ^ 32).
    { unfold step. rewrite toInt32_mod.
      rewrite Z.add_mod, Zminus_mod, toInt32_mod by lia.
      rewrite <- Zminus_mod, <- Z.add_mod by lia.
      f_equal. rewrite Z.shiftl_mul_pow2 by lia. lia. }
    destruct (IH step) as [Hmod Hne].
    assert (Hcong : stringHash s step mod 2 ^ 32
                    = polynomial31 s (31 * h + Z.of_nat (nat_of_ascii c))
                      mod 2 ^ 32).
    { rewrite Hmod. now apply polynomial31_congruent. }
    split; [exact Hcong|]. intros _.
    destruct s as [|c' s'].
    + simpl. unfold step. apply toInt32_congruent.
      rewrite Z.add_mod, Zminus_mod, toInt32_mod by lia.
      rewrite <- Zminus_mod, <- Z.add_mod by lia.
      f_equal. rewrite Z.shiftl_mul_pow2 by lia. lia.
    + rewrite Hne by discriminate. apply toInt32_congruent.
      apply polynomial31_congruent. exact Hstep.
Qed.

(** X16: the hash key of a string is the absolute value of its base-31
    polynomial hash wrapped to a signed 32-bit integer: the shift,
    subtraction and [&] of the loop compute [31 * hash + code] modulo 2^32.
    The key value is therefore a whole number between 0 and 2^31, and the
    empty string has key 0. *)
Theorem string_hash_is_polynomial31 (s : string) :
  hashKey (StringObject s)
  = Some (mkHashKey STRING_OBJ (Num (Z.abs (toInt32 (polynomial31 s 0)))))
  ∧ (∃ z, hk_value <$> hashKey (StringObject s) = Some (Num z)
          ∧ 0 ≤ z ≤ 2 ^ 31)
  ∧ hashKey (StringObject "") = Some (mkHashKey STRING_OBJ (Num 0)).
Proof.
  assert (H : stringHash s 0 = toInt32 (polynomial31 s 0)).
  { destruct s as [|c s]; [reflexivity|].
    now apply stringHash_polynomial. }
  split; [|split; [|reflexivity]].
  - unfold hashKey. now rewrite H.
  - exists (Z.abs (stringHash s 0)). split; [reflexivity|].
    rewrite H. pose proof (toInt32_range (polynomial31 s 0)). lia.
Qed.

End StringHash.

(** ** The heap of environments *)

Section HeapOrder.

(** In a well-formed heap no lookup needs more steps than there are
    environments. *)
Lemma get_walk_enough (h : list Frame) (e : nat) (x : string) (extra : nat) :
  wf_heap h →
  get_walk (length h + extra) h e x = get_walk (length h) h e x.
Proof.
  intros Hwf. destruct (decide (e < length h)) as [He|He].
  - apply get_walk_stable; try assumption; try lia. auto.
  - assert (Hnone : h !! e = None) by (apply lookup_ge_None; lia).
    destruct (length h + extra) as [|k], (length h) as [|k'];
      simpl; rewrite ?Hnone; reflexivity.
Qed.

(** X15: evaluation keeps the heap of environments in order.  Started in
    an existing environment of a heap in which every environment was
    created after the one it encloses and every function object, in a
    table or inside a stored array or hash, holds an existing environment,
    it ends in such a heap, loses no environment and returns such a value.
    The chain of enclosing environments is therefore never cyclic and a
    lookup ends within as many steps as there are environments.  The state
    a run starts in is in order. *)
Theorem evaluation_keeps_heap_in_order (budget : nat) (node : option Node)
  (env : nat) (s s' : State) (v : Value) :
  heap_ok (envs s) → env < length (envs s) →
  evalNode budget node env s = Ok (v, s') →
  heap_ok (envs s')
  ∧ length (envs s) ≤ length (envs s')
  ∧ bounded (length (envs s')) v
  ∧ (∀ e x extra,
       get_walk (length (envs s') + extra) (envs s') e x
       = Environment.get s' e x)
  ∧ heap_ok (envs rootState).
Proof.
  intros Hok Henv Heval.
  destruct (evalNode_sound budget node env (length (envs s)) Henv
              s v s' Hok (Nat.le_refl _) Heval) as (Hok' & Hlen & Hv).
  split; [exact Hok'|]. split; [exact Hlen|]. split; [exact Hv|]. split.
  - intros e x extra. apply get_walk_enough. exact (proj1 Hok').
  - exact rootState_heap_ok.
Qed.

End HeapOrder.

(** ** The further properties at concrete inputs *)

Lemma bang_agrees_with_if_witness :
  evalNode 4
    (Some (ExpressionNode
             (IfExpression (mkToken token.IF "if") (sampleInt "0" 0)
                           sampleBlock None))) 0 rootState
  = evalNode 3 (Some (BlockNode sampleBlock)) 0 (allocated rootState).
Proof.
  exact (proj2 (proj2 (bang_agrees_with_if 3 (mkToken token.IF "if")
                         (sampleInt "0" 0) sampleBlock None 0 rootState
                         (allocated rootState) (Obj 10 (IntegerObject (Num 0)))
                         eq_refl eq_refl))).
Defined.

Lemma errors_propagate_witness :
  evalNode 2
    (Some (StatementNode
             (LetStatement (mkToken token.LET "let") (sampleIdentifier "x")
                           sampleUnbound))) 0 rootState
  = Ok (sampleUnboundError, allocated rootState).
Proof.
  pose proof (errors_propagate 1 sampleUnbound 0 10
                "identifier not found: foobar" rootState (allocated rootState)
                eq_refl) as H.
  destruct H as (_ & _ & _ & _ & _ & _ & _ & Hlet & _).
  exact (Hlet (mkToken token.LET "let") (sampleIdentifier "x")).
Defined.

Lemma expressions_left_to_right_witness :
  evalNode 3
    (Some (ExpressionNode
             (ArrayLiteral (mkToken token.LBRACKET "[")
                           [sampleInt "1" 1; sampleUnbound; sampleInt "2" 2])))
    0 rootState
  = Ok (Obj 11 (ErrorObject "identifier not found: foobar"),
        allocated (allocated rootState)).
Proof.
  pose proof (expressions_left_to_right 2 0 [sampleInt "1" 1]
                [Obj 10 (IntegerObject (Num 1))] rootState
                (allocated rootState) eq_refl) as H.
  destruct H as (_ & _ & H).
  exact (proj1 (H sampleUnbound [sampleInt "2" 2] 11
                  "identifier not found: foobar"
                  (allocated (allocated rootState)) eq_refl)
               (mkToken token.LBRACKET "[")).
Defined.

Lemma builtin_null_is_truthy_witness :
  builtins.call Last [Obj 10 (ArrayObject [])] rootState
  = Ok (Obj 10 NullObject, allocated rootState)
  ∧ isTruthy (Obj 10 NullObject) = true.
Proof.
  destruct builtin_null_is_truthy as (Hroot & _ & Hstate & _).
  destruct (Hstate rootState Hroot)
    as (_ & _ & _ & _ & Hcall & _ & Htruthy & _).
  split; [|exact Htruthy].
  apply (Hcall Last 10). constructor 2. constructor 1.
Defined.

Lemma puts_prints_each_argument_witness :
  builtins.call Puts [Obj 10 (IntegerObject (Num 1)); Obj 11 (StringObject "a")]
                rootState
  = Ok (Obj 10 NullObject, printed ["1"; "a"] rootState).
Proof.
  refine (proj1 (puts_prints_each_argument Puts _ ["1"; "a"] rootState
                   (or_introl eq_refl) _)).
  repeat constructor.
Defined.

Lemma builtins_report_wrong_arguments_witness :
  builtins.call Push [Obj 10 (IntegerObject (Num 1))] rootState
  = Ok (Obj 10 (ErrorObject "wrong number of arguments. got=1, want=2"),
        allocated rootState).
Proof.
  refine (proj1 (builtins_report_wrong_arguments Push 2
                   [Obj 10 (IntegerObject (Num 1))] rootState eq_refl) _).
  simpl. lia.
Defined.

Lemma environment_get_after_set_witness :
  Environment.get
    (Environment.set 0 "x" (Obj 10 (IntegerObject (Num 1))) rootState) 0 "x"
  = (Obj 10 (IntegerObject (Num 1)), true).
Proof.
  assert (He : 0 < length (envs rootState)) by (simpl; lia).
  refine (proj1 (environment_get_after_set 0 "x"
                   (Obj 10 (IntegerObject (Num 1))) rootState He) _).
  discriminate.
Defined.

Lemma let_then_lookup_witness :
  evalNode 2 (Some (StatementNode (sampleLet "x" "5" 5))) 0 rootState
  = Ok (Obj 10 (IntegerObject (Num 5)),
        Environment.set 0 "x" (Obj 10 (IntegerObject (Num 5)))
                        (allocated rootState))
  ∧ evalNode 1 (Some (ExpressionNode (IdentifierE (sampleIdentifier "x")))) 0
      (Environment.set 0 "x" (Obj 10 (IntegerObject (Num 5)))
                       (allocated rootState))
    = Ok (Obj 10 (IntegerObject (Num 5)),
          Environment.set 0 "x" (Obj 10 (IntegerObject (Num 5)))
                          (allocated rootState)).
Proof.
  assert (He : 0 < length (envs (allocated rootState))) by (simpl; lia).
  exact (let_then_lookup 1 0 (mkToken token.LET "let") (sampleIdentifier "x")
           (sampleInt "5" 5) 0 rootState (allocated rootState)
           (Obj 10 (IntegerObject (Num 5))) eq_refl eq_refl He).
Defined.

Lemma evaluation_keeps_heap_in_order_witness :
  heap_ok (envs (allocated rootState))
  ∧ bounded 1 (Obj 10 (FunctionObject [] sampleBlock 0)).
Proof.
  pose proof (evaluation_keeps_heap_in_order 1
                (Some (ExpressionNode
                         (FunctionLiteral (mkToken token.FUNCTION "fn") []
                                          sampleBlock)))
                0 rootState (allocated rootState)
                (Obj 10 (FunctionObject [] sampleBlock 0))
                rootState_heap_ok (Nat.lt_0_1) eq_refl) as H.
  destruct H as (Hok & _ & Hv & _). split; [exact Hok | exact Hv].
Defined.

(** * Properties of the lexer *)

Section Strings.

Lemma string_app_cons (c : ascii) (s t : string) :
  String c s +:+ t = String c (s +:+ t).
Proof. reflexivity. Qed.

Lemma string_app_nil_r (s : string) : s +:+ "" = s.
Proof. induction s as [|c s IH]; [reflexivity|]. now rewrite string_app_cons, IH. Qed.

Lemma string_app_assoc (s t u : string) : (s +:+ t) +:+ u = s +:+ t +:+ u.
Proof.
  induction s as [|c s IH]; [reflexivity|].
  now rewrite !string_app_cons, IH.
Qed.

Lemma string_length_app (s t : string) :
  String.length (s +:+ t) = String.length s + String.length t.
Proof.
  induction s as [|c s IH]; [reflexivity|].
  rewrite string_app_cons. simpl. now rewrite IH.
Qed.

Lemma get_app_r (pre suf : string) (k : nat) :
  String.get (String.length pre + k) (pre +:+ suf) = String.get k suf.
Proof. rewrite Nat.add_comm. symmetry. apply append_correct2. Qed.

Lemma get_beyond (s : string) (i : nat) :
  String.length s ≤ i → String.get i s = None.
Proof.
  revert i. induction s as [|c s IH]; intros i Hi; [reflexivity|].
  destruct i as [|i]; simpl in *; [lia|]. apply IH. lia.
Qed.

Lemma get_within (s : string) (i : nat) :
  i < String.length s → ∃ c, String.get i s = Some c.
Proof.
  revert i. induction s as [|c s IH]; intros i Hi; simpl in Hi; [lia|].
  destruct i as [|i]; simpl; [now exists c|]. apply IH. lia.
Qed.

Lemma substring_app (pre w rest : string) :
  String.substring (String.length pre) (String.length w) (pre +:+ w +:+ rest)
  = w.
Proof.
  induction pre as [|c pre IH]; simpl.
  - change ("" +:+ w +:+ rest) with (w +:+ rest).
    induction w as [|c w IHw]; simpl; [now destruct rest|].
    now rewrite IHw.
  - exact IH.
Qed.

End Strings.

Section LexerPositions.
Import Lexer.

Lemma new_at (inp : string) : Lexer.new inp = lexerAt inp 0.
Proof.
  unfold Lexer.new, readChar, lexerAt. simpl. f_equal.
  destruct (String.length inp <=? 0)%nat eqn:E; [|reflexivity].
  apply Nat.leb_le in E. symmetry. now apply get_beyond.
Qed.

Lemma readChar_at (inp : string) (i : nat) :
  readChar (lexerAt inp i) = lexerAt inp (S i).
Proof.
  unfold readChar, lexerAt. simpl. f_equal; [lia|].
  destruct (String.length inp <=? S i)%nat eqn:E; [|reflexivity].
  apply Nat.leb_le in E. symmetry. now apply get_beyond.
Qed.

Lemma peekChar_at (inp : string) (i : nat) :
  peekChar (lexerAt inp i) = String.get (S i) inp.
Proof.
  unfold peekChar, lexerAt. simpl.
  destruct (String.length inp <=? S i)%nat eqn:E; [|reflexivity].
  apply Nat.leb_le in E. symmetry. now apply get_beyond.
Qed.

Lemma ch_on (pre suf : string) : ch (lexerOn pre suf) = String.get 0 suf.
Proof.
  unfold lexerOn, lexerAt. simpl.
  rewrite <- (Nat.add_0_r (String.length pre)). apply get_app_r.
Qed.

Lemma peekChar_on (pre suf : string) :
  peekChar (lexerOn pre suf) = String.get 1 suf.
Proof.
  unfold lexerOn. rewrite peekChar_at.
  replace (S (String.length pre)) with (String.length pre + 1) by lia.
  apply get_app_r.
Qed.

Lemma readChar_on (pre suf : string) (c : ascii) :
  readChar (lexerOn pre (String c suf)) = lexerOn (pre +:+ String c "") suf.
Proof.
  unfold lexerOn. rewrite readChar_at.
  rewrite string_app_assoc, string_length_app. simpl.
  f_equal. lia.
Qed.

Lemma lexerOn_app (pre w rest : string) :
  lexerOn (pre +:+ w) rest
  = lexerAt (pre +:+ w +:+ rest) (String.length pre + String.length w).
Proof.
  unfold lexerOn. now rewrite string_app_assoc, string_length_app.
Qed.

(** A loop [while (p(ch)) readChar()] reads exactly the longest run of
    characters that satisfy [p]. *)
Lemma readWhile_run (p : ascii → bool) (w rest pre : string) (fuel : nat) :
  allChars p w = true → startsWith p rest = false →
  String.length w < fuel →
  readWhile p fuel (lexerOn pre (w +:+ rest)) = lexerOn (pre +:+ w) rest.
Proof.
  revert pre fuel. induction w as [|c w IH]; intros pre fuel Hw Hrest Hfuel.
  - rewrite string_app_nil_r. destruct fuel as [|fuel]; [simpl in Hfuel; lia|].
    change ("" +:+ rest) with rest. cbn [readWhile]. rewrite ch_on.
    destruct rest as [|d rest]; [reflexivity|].
    cbn [String.get]. simpl in Hrest. now rewrite Hrest.
  - simpl in Hw. apply andb_true_iff in Hw as [Hc Hw].
    destruct fuel as [|fuel]; [simpl in Hfuel; lia|].
    cbn [readWhile]. rewrite ch_on, string_app_cons. cbn [String.get].
    rewrite Hc, readChar_on.
    rewrite IH; try assumption; [|simpl in Hfuel; lia].
    now rewrite string_app_assoc.
Qed.

Lemma slice_on (pre w rest : string) :
  slice (pre +:+ w +:+ rest) (String.length pre)
        (String.length (pre +:+ w)) = w.
Proof.
  unfold slice. rewrite string_length_app.
  replace (String.length pre + String.length w - String.length pre)
    with (String.length w) by lia.
  apply substring_app.
Qed.

End LexerPositions.

Section Lexemes.
Import Lexer token.

Lemma skipWhitespace_stays (l : Lexer) (c : ascii) :
  ch l = Some c → isWhitespace c = false → skipWhitespace l = l.
Proof.
  intros Hch Hc. unfold skipWhitespace, budget. cbn [readWhile].
  now rewrite Hch, Hc.
Qed.

Lemma nextToken_end (l : Lexer) :
  ch l = None → nextToken l = (mkToken EOF "", readChar l).
Proof.
  intros Hch. unfold nextToken, skipWhitespace, budget. cbn [readWhile].
  rewrite Hch. now rewrite Hch.
Qed.

Lemma letter_is_no_space (c : ascii) :
  isLetter c = true → isWhitespace c = false.
Proof.
  intros H. unfold isWhitespace.
  repeat match goal with
         | |- context [Ascii.eqb c ?d] =>
             destruct (Ascii.eqb_spec c d) as [->|_];
             [now vm_compute in H|]
         end.
  reflexivity.
Qed.

Lemma digit_is_no_space (c : ascii) :
  isDigit c = true → isWhitespace c = false.
Proof.
  intros H. unfold isWhitespace.
  repeat match goal with
         | |- context [Ascii.eqb c ?d] =>
             destruct (Ascii.eqb_spec c d) as [->|_];
             [now vm_compute in H|]
         end.
  reflexivity.
Qed.

Lemma digit_is_no_letter (c : ascii) : isDigit c = true → isLetter c = false.
Proof.
  unfold isDigit, isLetter. intros H. apply andb_true_iff in H as [H0 H9].
  apply Nat.leb_le in H0, H9. change (code "9") with 57 in H9.
  change (code "0") with 48 in H0.
  destruct (Ascii.eqb_spec c "_") as [->|_]; [vm_compute in H9; lia|].
  change (code "a") with 97. change (code "A") with 65.
  change (code "z") with 122. change (code "Z") with 90.
  destruct (Nat.leb_spec 97 (code c)), (Nat.leb_spec 65 (code c)),
    (Nat.leb_spec (code c) 90); simpl; try reflexivity; lia.
Qed.

(** On a letter [nextToken] reads an identifier, on a digit a number. *)
Lemma nextToken_letter (l : Lexer) (c : ascii) :
  ch l = Some c → isLetter c = true →
  nextToken l
  = let '(literal, l') := readIdentifier l in
    (mkToken (lookupIdent literal) literal, l').
Proof.
  intros Hch Hc. unfold nextToken.
  rewrite (skipWhitespace_stays l c Hch (letter_is_no_space c Hc)), Hch.
  repeat match goal with
         | |- context [Ascii.eqb c ?d] =>
             destruct (Ascii.eqb_spec c d) as [->|_];
             [now vm_compute in Hc|]
         end.
  now rewrite Hc.
Qed.

Lemma nextToken_digit (l : Lexer) (c : ascii) :
  ch l = Some c → isDigit c = true →
  nextToken l
  = let '(literal, l') := readNumber l in (mkToken INT literal, l').
Proof.
  intros Hch Hc. unfold nextToken.
  rewrite (skipWhitespace_stays l c Hch (digit_is_no_space c Hc)), Hch.
  repeat match goal with
         | |- context [Ascii.eqb c ?d] =>
             destruct (Ascii.eqb_spec c d) as [->|_];
             [now vm_compute in Hc|]
         end.
  now rewrite (digit_is_no_letter c Hc), Hc.
Qed.

Lemma span (p : ascii → bool) (s : string) :
  ∃ w r, s = w +:+ r ∧ allChars p w = true ∧ startsWith p r = false.
Proof.
  induction s as [|c s (w & r & -> & Hw & Hr)].
  - now exists "", "".
  - destruct (p c) eqn:Hc.
    + exists (String c w), r. repeat split; try assumption.
      simpl. now rewrite Hc, Hw.
    + now exists "", (String c (w +:+ r)).
Qed.

Lemma allChars_app (p : ascii → bool) (a b : string) :
  allChars p (a +:+ b) = allChars p a && allChars p b.
Proof.
  induction a as [|c a IH]; [reflexivity|].
  rewrite string_app_cons. simpl. now rewrite IH, andb_assoc.
Qed.

Lemma skipWhitespace_on (pre ws rest : string) :
  allChars isWhitespace ws = true →
  skipWhitespace (lexerOn pre (ws +:+ rest))
  = skipWhitespace (lexerOn (pre +:+ ws) rest).
Proof.
  intros Hws. destruct (span isWhitespace rest) as (w & r & -> & Hw & Hr).
  unfold skipWhitespace.
  rewrite <- (string_app_assoc ws w r).
  rewrite readWhile_run; try assumption.
  - rewrite readWhile_run; try assumption.
    + now rewrite string_app_assoc.
    + unfold budget, lexerOn, lexerAt. cbn [input].
      rewrite !string_length_app. lia.
  - now rewrite allChars_app, Hws, Hw.
  - unfold budget, lexerOn, lexerAt. cbn [input].
    rewrite !string_length_app. lia.
Qed.

End Lexemes.

Section LexemeTheorems.
Import Lexer token.

Lemma budget_on (pre w rest : string) :
  String.length w < budget (lexerOn pre (w +:+ rest)).
Proof.
  unfold budget, lexerOn, lexerAt. cbn [input].
  rewrite !string_length_app. lia.
Qed.

Lemma position_on (pre suf : string) :
  position (lexerOn pre suf) = String.length pre.
Proof. reflexivity. Qed.

Lemma input_on (pre suf : string) : input (lexerOn pre suf) = pre +:+ suf.
Proof. reflexivity. Qed.

Lemma nextToken_word (pre w rest : string) :
  w ≠ "" → allChars isLetter w = true → startsWith isLetter rest = false →
  nextToken (lexerOn pre (w +:+ rest))
  = (mkToken (lookupIdent w) w, lexerOn (pre +:+ w) rest).
Proof.
  intros Hne Hw Hrest. destruct w as [|c w]; [congruence|].
  assert (Hc : isLetter c = true) by (simpl in Hw; now destruct (isLetter c)).
  rewrite (nextToken_letter _ c); [|now rewrite ch_on|exact Hc].
  unfold readIdentifier.
  rewrite readWhile_run by (try assumption; apply budget_on).
  rewrite !position_on, input_on, slice_on. reflexivity.
Qed.

Lemma nextToken_number (pre w rest : string) :
  w ≠ "" → allChars isDigit w = true → startsWith isDigit rest = false →
  nextToken (lexerOn pre (w +:+ rest))
  = (mkToken INT w, lexerOn (pre +:+ w) rest).
Proof.
  intros Hne Hw Hrest. destruct w as [|c w]; [congruence|].
  assert (Hc : isDigit c = true) by (simpl in Hw; now destruct (isDigit c)).
  rewrite (nextToken_digit _ c); [|now rewrite ch_on|exact Hc].
  unfold readNumber.
  rewrite readWhile_run by (try assumption; apply budget_on).
  rewrite !position_on, input_on, slice_on. reflexivity.
Qed.

(** X17: the lexer reads words greedily and skips white space.  At a
    non-empty run of letters and underscores that is not followed by
    another one, the token is the whole run, a keyword token when the run
    spells a keyword; at a non-empty run of digits not followed by a digit,
    it is an integer token with the run as literal, whatever follows (a
    letter included); the lexer then stands right after the run.  Blanks,
    tabs and line ends before a token change nothing. *)
Theorem lexer_reads_whole_words (pre w rest : string) :
  w ≠ "" →
  (allChars isLetter w = true → startsWith isLetter rest = false →
   nextToken (lexerOn pre (w +:+ rest))
   = (mkToken (lookupIdent w) w, lexerOn (pre +:+ w) rest))
  ∧ (allChars isDigit w = true → startsWith isDigit rest = false →
     nextToken (lexerOn pre (w +:+ rest))
     = (mkToken INT w, lexerOn (pre +:+ w) rest))
  ∧ (allChars isWhitespace w = true →
     nextToken (lexerOn pre (w +:+ rest))
     = nextToken (lexerOn (pre +:+ w) rest)).
Proof.
  intros Hne. split; [|split].
  - now apply nextToken_word.
  - now apply nextToken_number.
  - intros Hw. unfold nextToken. now rewrite skipWhitespace_on.
Qed.

Lemma readStringLoop_run (s rest pre : string) (c0 : ascii) (fuel : nat) :
  allChars notQuote s = true →
  startsWith notQuote rest = false →
  String.length s < fuel →
  readStringLoop fuel (lexerOn pre (String c0 (s +:+ rest)))
  = lexerOn (pre +:+ String c0 s) rest.
Proof.
  revert pre c0 fuel. induction s as [|c s IH];
    intros pre c0 fuel Hs Hrest Hfuel;
    (destruct fuel as [|fuel]; [simpl in Hfuel; lia|]).
  - change ("" +:+ rest) with rest. cbn [readStringLoop].
    rewrite readChar_on, ch_on.
    destruct rest as [|d rest]; [reflexivity|]. cbn [String.get].
    simpl in Hrest. unfold notQuote in Hrest.
    destruct (Ascii.eqb d "034"); [reflexivity | discriminate].
  - simpl in Hs. apply andb_true_iff in Hs as [Hc Hs].
    cbn [readStringLoop]. rewrite readChar_on, ch_on, string_app_cons.
    cbn [String.get]. unfold notQuote in Hc.
    destruct (Ascii.eqb c "034"); [discriminate|].
    rewrite IH; try assumption; [|simpl in Hfuel; lia].
    now rewrite string_app_assoc.
Qed.

Lemma skipWhitespace_stays_on (pre suf : string) (c : ascii) :
  isWhitespace c = false →
  skipWhitespace (lexerOn pre (String c suf)) = lexerOn pre (String c suf).
Proof. intros Hc. apply (skipWhitespace_stays _ c); [apply ch_on | exact Hc]. Qed.

(** X18: a string literal is everything between a double quote and the
    next double quote, taken as it stands: there are no escape sequences
    and nothing is dropped.  The lexer then stands after the closing quote.
    When no closing quote follows, the literal silently runs to the end of
    the input and the next token is the end of file. *)
Theorem lexer_reads_string_literals (pre s rest : string) :
  allChars notQuote s = true →
  nextToken (lexerOn pre (quoted s +:+ rest))
  = (mkToken STRING s, lexerOn (pre +:+ quoted s) rest)
  ∧ fst (nextToken (lexerOn pre (String "034" s))) = mkToken STRING s
  ∧ fst (nextToken (snd (nextToken (lexerOn pre (String "034" s)))))
    = mkToken EOF "".
Proof.
  intros Hs.
  assert (Hslice : ∀ tail,
             slice (pre +:+ String "034" (s +:+ tail)) (String.length pre + 1)
                   (String.length (pre +:+ String "034" s)) = s).
  { intros tail.
    replace (pre +:+ String "034" (s +:+ tail))
      with ((pre +:+ String "034" "") +:+ s +:+ tail)
      by (now rewrite string_app_assoc).
    replace (String.length pre + 1)
      with (String.length (pre +:+ String "034" ""))
      by (rewrite string_length_app; reflexivity).
    replace (pre +:+ String "034" s)
      with ((pre +:+ String "034" "") +:+ s)
      by (now rewrite string_app_assoc).
    apply slice_on. }
  split; [|split].
  - unfold quoted. rewrite string_app_cons, string_app_assoc, string_app_cons.
    change ("" +:+ rest) with rest.
    unfold nextToken. rewrite skipWhitespace_stays_on by reflexivity.
    rewrite ch_on. cbn [String.get]. cbn [Ascii.eqb Bool.eqb].
    unfold readString.
    rewrite readStringLoop_run;
      [|exact Hs|reflexivity|
       unfold budget; rewrite input_on, !string_length_app; simpl;
       rewrite string_length_app; lia].
    rewrite position_on, input_on, Hslice, readChar_on.
    f_equal. f_equal. rewrite string_app_assoc. f_equal.
  - replace (String "034" s) with (String "034" (s +:+ ""))
      by (now rewrite string_app_nil_r).
    unfold nextToken. rewrite skipWhitespace_stays_on by reflexivity.
    rewrite ch_on. cbn [String.get]. cbn [Ascii.eqb Bool.eqb].
    unfold readString.
    rewrite readStringLoop_run;
      [|exact Hs|reflexivity|
       unfold budget; rewrite input_on, !string_length_app; simpl;
       rewrite string_length_app; lia].
    rewrite position_on, input_on, Hslice. reflexivity.
  - replace (String "034" s) with (String "034" (s +:+ ""))
      by (now rewrite string_app_nil_r).
    unfold nextToken at 2. rewrite skipWhitespace_stays_on by reflexivity.
    rewrite ch_on. cbn [String.get]. cbn [Ascii.eqb Bool.eqb].
    unfold readString.
    rewrite readStringLoop_run;
      [|exact Hs|reflexivity|
       unfold budget; rewrite input_on, !string_length_app; simpl;
       rewrite string_length_app; lia].
    cbn [snd]. unfold lexerOn at 1. rewrite readChar_at.
    rewrite nextToken_end; [reflexivity|].
    unfold lexerAt. cbn [ch]. apply get_beyond.
    rewrite string_app_nil_r. lia.
Qed.

(** X19: [=] and [!] are read with one character of lookahead: followed
    by [=] they form the two-character tokens [==] and [!=], followed by
    anything else, or by nothing, they are the assignment and the negation
    sign.  So [===] is [==] and then [=]. *)
Theorem lexer_looks_one_character_ahead (pre rest : string) :
  nextToken (lexerOn pre ("==" +:+ rest))
  = (mkToken EQ "==", lexerOn (pre +:+ "==") rest)
  ∧ nextToken (lexerOn pre ("!=" +:+ rest))
    = (mkToken NOT_EQ "!=", lexerOn (pre +:+ "!=") rest)
  ∧ (startsWith (Ascii.eqb "=") rest = false →
     nextToken (lexerOn pre ("=" +:+ rest))
     = (mkToken ASSIGN "=", lexerOn (pre +:+ "=") rest)
     ∧ nextToken (lexerOn pre ("!" +:+ rest))
       = (mkToken BANG "!", lexerOn (pre +:+ "!") rest))
  ∧ tokens 3 (Lexer.new "===")
    = [mkToken EQ "=="; mkToken ASSIGN "="; mkToken EOF ""].
Proof.
  assert (Hpeek : ∀ c, startsWith (Ascii.eqb "=") rest = false →
                       match String.get 1 (String c rest) with
                       | Some d => Ascii.eqb d "="
                       | None => false
                       end = false).
  { intros c H. destruct rest as [|d rest]; [reflexivity|].
    simpl in *. now rewrite Ascii.eqb_sym. }
  split; [|split; [|split; [|reflexivity]]].
  - change ("==" +:+ rest) with (String "=" (String "=" rest)).
    unfold nextToken. rewrite skipWhitespace_stays_on by reflexivity.
    rewrite ch_on, peekChar_on. cbn [String.get Ascii.eqb Bool.eqb].
    rewrite !readChar_on. now rewrite string_app_assoc.
  - change ("!=" +:+ rest) with (String "!" (String "=" rest)).
    unfold nextToken. rewrite skipWhitespace_stays_on by reflexivity.
    rewrite ch_on, peekChar_on. cbn [String.get Ascii.eqb Bool.eqb].
    rewrite !readChar_on. now rewrite string_app_assoc.
  - intros Hrest. split.
    + change ("=" +:+ rest) with (String "=" rest).
      unfold nextToken. rewrite skipWhitespace_stays_on by reflexivity.
      rewrite ch_on, peekChar_on. rewrite (Hpeek _ Hrest).
      cbn [String.get Ascii.eqb Bool.eqb]. now rewrite readChar_on.
    + change ("!" +:+ rest) with (String "!" rest).
      unfold nextToken. rewrite skipWhitespace_stays_on by reflexivity.
      rewrite ch_on, peekChar_on. rewrite (Hpeek _ Hrest).
      cbn [String.get Ascii.eqb Bool.eqb]. now rewrite readChar_on.
Qed.

End LexemeTheorems.

Section LexerProgress.
Import Lexer token.

Lemma readWhile_at (p : ascii → bool) (fuel : nat) (inp : string) (i : nat) :
  ∃ j, readWhile p fuel (lexerAt inp i) = lexerAt inp j ∧ i ≤ j
       ∧ (∀ c, fuel ≠ 0 → String.get i inp = Some c → p c = true → i < j).
Proof.
  revert i. induction fuel as [|fuel IH]; intros i.
  - exists i. repeat split; [lia | congruence].
  - cbn [readWhile]. change (ch (lexerAt inp i)) with (String.get i inp).
    destruct (String.get i inp) as [c|] eqn:E.
    + destruct (p c) eqn:Hc.
      * rewrite readChar_at. destruct (IH (S i)) as (j & Hj & Hle & _).
        exists j. split; [exact Hj|]. split; [lia|]. intros; lia.
      * exists i. split; [reflexivity|]. split; [lia|].
        intros c' _ [= <-] Hc'. congruence.
    + exists i. split; [reflexivity|]. split; [lia|]. intros c' _ H. discriminate.
Qed.

Lemma readStringLoop_at (fuel : nat) (inp : string) (i : nat) :
  fuel ≠ 0 → ∃ j, readStringLoop fuel (lexerAt inp i) = lexerAt inp j ∧ i < j.
Proof.
  revert i. induction fuel as [|fuel IH]; intros i Hf; [congruence|].
  cbn [readStringLoop]. rewrite readChar_at.
  change (ch (lexerAt inp (S i))) with (String.get (S i) inp).
  destruct (String.get (S i) inp) as [c|].
  - destruct (Ascii.eqb c "034").
    + exists (S i). split; [reflexivity | lia].
    + destruct fuel as [|fuel].
      * exists (S i). split; [reflexivity | lia].
      * destruct (IH (S i) ltac:(lia)) as (j & Hj & Hlt).
        exists j. split; [exact Hj | lia].
  - exists (S i). split; [reflexivity | lia].
Qed.

(** Every call of [nextToken] moves the lexer forward, and past the end
    of the input the token is the end of file. *)
Lemma nextToken_progress (inp : string) (i : nat) :
  ∃ j, snd (nextToken (lexerAt inp i)) = lexerAt inp j ∧ i < j
       ∧ (String.length inp ≤ i →
          fst (nextToken (lexerAt inp i)) = mkToken EOF "").
Proof.
  destruct (decide (String.length inp ≤ i)) as [Hend|Hin].
  - rewrite nextToken_end by (now apply get_beyond).
    rewrite readChar_at. exists (S i). repeat split. lia.
  - unfold nextToken.
    destruct (readWhile_at isWhitespace (budget (lexerAt inp i)) inp i)
      as (k & Hk & Hik & _).
    unfold skipWhitespace. rewrite Hk.
    change (ch (lexerAt inp k)) with (String.get k inp).
    assert (Hone : ∀ t, ∃ j, snd (t, readChar (lexerAt inp k)) = lexerAt inp j
                           ∧ i < j
                           ∧ (String.length inp ≤ i → fst (t, readChar (lexerAt inp k)) = mkToken EOF "")).
    { intros t. exists (S k). rewrite readChar_at.
      split; [reflexivity|]. split; [lia|]. intros; lia. }
    assert (Htwo : ∀ t, ∃ j, snd (t, readChar (readChar (lexerAt inp k)))
                             = lexerAt inp j
                           ∧ i < j
                           ∧ (String.length inp ≤ i → fst (t, readChar (readChar (lexerAt inp k))) = mkToken EOF "")).
    { intros t. exists (S (S k)). rewrite !readChar_at.
      split; [reflexivity|]. split; [lia|]. intros; lia. }
    destruct (String.get k inp) as [c|] eqn:Hc; [|apply Hone].
    repeat match goal with
           | |- context [if Ascii.eqb c ?d then _ else _] =>
               destruct (Ascii.eqb c d)
           | |- context [if match peekChar ?l with _ => _ end then _ else _] =>
               destruct (match peekChar l with Some d => Ascii.eqb d "=" | None => false end)
           end; try apply Hone; try apply Htwo.
    + unfold readString.
      destruct (readStringLoop_at (budget (lexerAt inp k)) inp k
                  ltac:(unfold budget; lia)) as (j & Hj & Hlt).
      rewrite Hj, readChar_at. exists (S j).
      split; [reflexivity|]. split; [lia|]. intros; lia.
    + destruct (isLetter c) eqn:Hl.
      * unfold readIdentifier.
        destruct (readWhile_at isLetter (budget (lexerAt inp k)) inp k)
          as (j & Hj & _ & Hlt).
        rewrite Hj. exists j. split; [reflexivity|].
        split; [|intros; lia].
        specialize (Hlt c ltac:(unfold budget; lia) Hc Hl). lia.
      * destruct (isDigit c) eqn:Hd; [|apply Hone].
        unfold readNumber.
        destruct (readWhile_at isDigit (budget (lexerAt inp k)) inp k)
          as (j & Hj & _ & Hlt).
        rewrite Hj. exists j. split; [reflexivity|].
        split; [|intros; lia].
        specialize (Hlt c ltac:(unfold budget; lia) Hc Hd). lia.
Qed.

Lemma tokens_reach_eof (inp : string) (n i : nat) :
  String.length inp ≤ i + n →
  tokens (S n) (lexerAt inp i) !! n = Some (mkToken EOF "").
Proof.
  revert i. induction n as [|n IH]; intros i Hlen.
  - destruct (nextToken_progress inp i) as (j & _ & _ & Heof).
    cbn [tokens]. destruct (nextToken (lexerAt inp i)) as [t l'].
    simpl in *. f_equal. apply Heof. lia.
  - destruct (nextToken_progress inp i) as (j & Hj & Hlt & _).
    change (tokens (S (S n)) (lexerAt inp i))
      with (let '(t, l') := nextToken (lexerAt inp i) in
            t :: tokens (S n) l').
    destruct (nextToken (lexerAt inp i)) as [t l']. simpl in Hj. subst l'.
    change ((t :: tokens (S n) (lexerAt inp j)) !! S n)
      with (tokens (S n) (lexerAt inp j) !! n).
    apply IH. lia.
Qed.

(** X20: lexing always comes to an end.  Every call of [nextToken] either
    consumes at least one character or stands at the end of the input, so
    from the token with number [length input] on (counting from 0) every
    token of any input is the end of file, and it stays so. *)
Theorem lexing_reaches_end_of_file (inp : string) (n : nat) :
  String.length inp ≤ n →
  tokens (S n) (Lexer.new inp) !! n = Some (mkToken EOF "")
  ∧ (∀ i, ∃ j, snd (nextToken (lexerAt inp i)) = lexerAt inp j ∧ i < j)
  ∧ Lexer.new inp = lexerAt inp 0.
Proof.
  intros Hlen. split; [|split; [|apply new_at]].
  - rewrite new_at. apply tokens_reach_eof. lia.
  - intros i. destruct (nextToken_progress inp i) as (j & Hj & Hlt & _).
    now exists j.
Qed.

End LexerProgress.

Lemma lexer_reads_whole_words_witness :
  Lexer.nextToken (lexerOn "" ("let" +:+ " x"))
  = (mkToken token.LET "let", lexerOn ("" +:+ "let") " x").
Proof.
  refine (proj1 (lexer_reads_whole_words "" "let" " x" _) eq_refl eq_refl).
  discriminate.
Defined.

Lemma lexer_reads_string_literals_witness :
  Lexer.nextToken (lexerOn "" (quoted "a b" +:+ ";"))
  = (mkToken token.STRING "a b", lexerOn ("" +:+ quoted "a b") ";").
Proof.
  exact (proj1 (lexer_reads_string_literals "" "a b" ";" eq_refl)).
Defined.

Lemma lexing_reaches_end_of_file_witness :
  tokens 3 (Lexer.new "5;") !! 2 = Some (mkToken token.EOF "").
Proof.
  refine (proj1 (lexing_reaches_end_of_file "5;" 2 _)). simpl. lia.
Defined.

(** * Properties of the statement parser *)

Section StatementParser.
Import token Precedence Parser.

Context {L : Type} `{TokenSource L}.

Local Abbreviation skip k p := (Nat.iter k advance p).

Lemma Renders_first (m : nat) (e : Expression) (ts : list Token) :
  Renders m e ts →
  ∃ t rest, ts = t :: rest
            ∧ (Type_ t = IDENT ∨ Type_ t = INT ∨ Type_ t = LPAREN).
Proof.
  induction 1 as [m tok Htok | m tok z Htok Hz
                 | m lp rp e ts Hlp Hrp He IH
                 | m q op l r tsl tsr Hlevel Hmq Hl IHl Hr IHr].
  - exists tok, []. auto.
  - exists tok, []. auto.
  - exists lp, (ts ++ [rp]). auto.
  - destruct IHl as (t & rest & -> & Ht). exists t, (rest ++ op :: tsr). auto.
Qed.

Lemma RendersStatement_first (st : Statement) (ts : list Token) :
  RendersStatement st ts →
  ∃ t rest, ts = t :: rest ∧ Type_ t ≠ EOF ∧ Type_ t ≠ RBRACE.
Proof.
  intros [lt name eq e ts' Hlt _ _ _ | rt e ts' Hrt _ | tok e rest He].
  - exists lt, (name :: eq :: ts'). rewrite Hlt. repeat split; discriminate.
  - exists rt, ts'. rewrite Hrt. repeat split; discriminate.
  - destruct (Renders_first _ _ _ He) as (t & rest' & [= <- <-] & Ht).
    exists tok, rest.
    destruct Ht as [-> | [-> | ->]]; repeat split; discriminate.
Qed.

Lemma RendersStatement_nonempty (st : Statement) (ts : list Token) :
  RendersStatement st ts → 1 ≤ length ts.
Proof.
  intros Hst. destruct (RendersStatement_first _ _ Hst) as (t & rest & -> & _).
  simpl. lia.
Qed.

(** The optional semicolon after the expression of a statement. *)
Lemma optional_semicolon (p : Parser L) :
  bind (peekTokenIs SEMICOLON)
       (λ semi, if semi then nextToken else ret tt) p
  = Some (tt, if token.eqb (Type_ (peekToken p)) SEMICOLON
              then advance p else p).
Proof.
  unfold bind, peekTokenIs, gets, nextToken, modify, ret.
  now destruct (token.eqb (Type_ (peekToken p)) SEMICOLON).
Qed.

Lemma eqb_refl (t : TokenType) : token.eqb t t = true.
Proof. unfold token.eqb. now destruct (TokenType_eq_dec t t). Qed.

Lemma eqb_neq (a b : TokenType) : a ≠ b → token.eqb a b = false.
Proof. intros Hne. unfold token.eqb. now destruct (TokenType_eq_dec a b). Qed.

Lemma skip_skip (a b : nat) (p : Parser L) :
  skip a (skip b p) = skip (a + b) p.
Proof. symmetry. apply Nat.iter_add. Qed.

(** The parser reads a statement of the grammar, and the semicolon after
    it when there is one. *)
Lemma parseStatement_reads (st : Statement) (ts : list Token) (t : Token)
  (p : Parser L) (budget : nat) :
  RendersStatement st ts →
  upcoming (S (length ts)) p = ts ++ [t] →
  precedences (Type_ t) = None →
  length ts < budget →
  parseStatement (parseExpression budget) p
  = Some (Some st, if token.eqb (Type_ t) SEMICOLON
                   then skip (length ts) p
                   else skip (length ts - 1) p).
Proof.
  intros Hst Hup Ht Hb.
  destruct Hst as [lt name eq e ts' Hlt Hname Heq He | rt e ts' Hrt He
                  | tok e rest He].
  - pose proof (Renders_nonempty _ _ _ He) as Hne.
    cbn [length app] in Hup, Hb.
    apply upcoming_cons in Hup as [Hc0 Hup].
    apply upcoming_cons in Hup as [Hc1 Hup].
    apply upcoming_cons in Hup as [Hc2 Hup].
    change (advance (advance (advance p))) with (skip 3 p) in Hup.
    assert (Hp0 : peekToken p = name) by (now rewrite <- advance_cur).
    assert (Hp1 : peekToken (advance p) = eq) by (now rewrite <- advance_cur).
    pose proof (parseExpression_reads e ts' t _ budget He Hup Ht
                  ltac:(lia)) as Hparse.
    pose proof (peek_before_last (length ts') _ ts' t Hne eq_refl Hup)
      as Hpeek.
    unfold parseStatement, bind, gets. rewrite Hc0, Hlt.
    unfold parseLetStatement, bind, gets, expectPeek, peekTokenIs, bind,
      gets, nextToken, modify, ret.
    rewrite Hp0, Hname, eqb_refl. cbn [negb].
    rewrite Hp1, Heq, eqb_refl. cbn [negb].
    change (advance (advance (advance p))) with (skip 3 p).
    rewrite Hparse, Hpeek, Hc0, Hc1.
    cbn [length].
    destruct (token.eqb (Type_ t) SEMICOLON).
    + do 2 f_equal.
      change (advance (skip (length ts' - 1) (skip 3 p)))
        with (skip (S (length ts' - 1)) (skip 3 p)).
      rewrite skip_skip. f_equal. lia.
    + do 2 f_equal. rewrite skip_skip. f_equal. lia.
  - pose proof (Renders_nonempty _ _ _ He) as Hne.
    cbn [length app] in Hup, Hb.
    apply upcoming_cons in Hup as [Hc0 Hup].
    change (advance p) with (skip 1 p) in Hup.
    pose proof (parseExpression_reads e ts' t _ budget He Hup Ht
                  ltac:(lia)) as Hparse.
    pose proof (peek_before_last (length ts') _ ts' t Hne eq_refl Hup)
      as Hpeek.
    unfold parseStatement, bind, gets. rewrite Hc0, Hrt.
    unfold parseReturnStatement, bind, gets, peekTokenIs, gets, nextToken,
      modify, ret.
    change (advance p) with (skip 1 p).
    rewrite Hparse, Hpeek, Hc0.
    cbn [length].
    destruct (token.eqb (Type_ t) SEMICOLON).
    + do 2 f_equal.
      change (advance (skip (length ts' - 1) (skip 1 p)))
        with (skip (S (length ts' - 1)) (skip 1 p)).
      rewrite skip_skip. f_equal. lia.
    + do 2 f_equal. rewrite skip_skip. f_equal. lia.
  - pose proof (Renders_nonempty _ _ _ He) as Hne.
    pose proof (parseExpression_reads e _ t _ budget He Hup Ht Hb)
      as Hparse.
    pose proof (peek_before_last _ _ _ t Hne eq_refl Hup) as Hpeek.
    destruct (Renders_first _ _ _ He) as (t0 & rest' & [= <- <-] & Ht0).
    pose proof (proj1 (upcoming_cons _ _ _ _ Hup)) as Hc0.
    unfold parseStatement, bind, gets. rewrite Hc0.
    assert (Hexpr : parseExpressionStatement (parseExpression budget) p
                    = Some (Some (ExpressionStatement tok e),
                            if token.eqb (Type_ t) SEMICOLON
                            then skip (length (tok :: rest)) p
                            else skip (length (tok :: rest) - 1) p)).
    { unfold parseExpressionStatement, bind, gets, peekTokenIs, gets,
        nextToken, modify, ret.
      rewrite Hparse, Hpeek, Hc0.
      destruct (token.eqb (Type_ t) SEMICOLON); [|reflexivity].
      do 2 f_equal.
      change (advance (skip (length (tok :: rest) - 1) p))
        with (skip (S (length (tok :: rest) - 1)) p).
      f_equal. simpl. lia. }
    destruct Ht0 as [-> | [-> | ->]]; exact Hexpr.
Qed.

Lemma RendersProgram_size (stmts : list Statement) (ts : list Token) :
  RendersProgram stmts ts → length stmts ≤ length ts.
Proof.
  induction 1 as [|st ts semi stmts rest Hst Hsemi _ IH
                 |st ts stmts rest Hst Hrest _ IH]; simpl; [lia| |];
    pose proof (RendersStatement_nonempty _ _ Hst);
    rewrite length_app; simpl; lia.
Qed.

Lemma parseStatements_eq (pe : nat → P L (option Expression))
  (inBlock : bool) (n : nat) (acc : list Statement) (p : Parser L) :
  parseStatements pe inBlock n acc p
  = if (inBlock && token.eqb (Type_ (curToken p)) RBRACE)
       || token.eqb (Type_ (curToken p)) EOF
    then Some (acc, p)
    else
      match n with
      | 0 => None
      | S n' =>
          match parseStatement pe p with
          | Some (stmt, p1) =>
              parseStatements pe inBlock n'
                (match stmt with Some s => acc ++ [s] | None => acc end)
                (advance p1)
          | None => None
          end
      end.
Proof.
  destruct n as [|n]; cbn [parseStatements];
    unfold bind, curTokenIs, gets, ret, outOfBudget, nextToken, modify;
    destruct ((inBlock && token.eqb (Type_ (curToken p)) RBRACE)
              || token.eqb (Type_ (curToken p)) EOF); reflexivity.
Qed.

Lemma parseStatements_reads (stmts : list Statement) (ts : list Token) :
  RendersProgram stmts ts →
  ∀ (acc : list Statement) (p : Parser L) (eof : Token) (fuel budget : nat),
    upcoming (S (length ts)) p = ts ++ [eof] →
    Type_ eof = EOF →
    length stmts ≤ fuel → length ts < budget →
    parseStatements (parseExpression budget) false fuel acc p
    = Some (acc ++ stmts, skip (length ts) p).
Proof.
  induction 1 as [|st ts semi stmts rest Hst Hsemi Hrest IH
                 |st ts stmts rest Hst Hfresh Hrest IH];
    intros acc p eof fuel budget Hup Heof Hfuel Hb.
  - apply upcoming_cons in Hup as [Hcur _].
    rewrite parseStatements_eq, Hcur, Heof. cbn.
    now rewrite app_nil_r.
  - pose proof (RendersStatement_nonempty _ _ Hst) as Hne.
    destruct (RendersStatement_first _ _ Hst) as (t0 & ts0 & Hts & Hno & _).
    rewrite length_app in Hup, Hb. cbn [length] in Hup, Hb, Hfuel.
    rewrite length_app. cbn [length].
    destruct fuel as [|fuel]; [lia|].
    replace (S (length ts + S (length rest)))
      with (S (length ts) + S (length rest)) in Hup by lia.
    replace ((ts ++ semi :: rest) ++ [eof])
      with ((ts ++ [semi]) ++ (rest ++ [eof])) in Hup
      by (now rewrite <- !app_assoc).
    assert (Hlen : length (ts ++ [semi]) = S (length ts))
      by (rewrite length_app; simpl; lia).
    destruct (upcoming_split (S (length ts)) (S (length rest)) p
                (ts ++ [semi]) (rest ++ [eof]) Hlen Hup) as [Hhead Htail].
    assert (Hcur : curToken p = t0).
    { rewrite Hts in Hhead. now apply upcoming_cons in Hhead as [? _]. }
    rewrite parseStatements_eq, Hcur, (eqb_neq _ _ Hno). cbn [andb orb].
    rewrite (parseStatement_reads st ts semi p budget Hst Hhead)
      by (rewrite ?Hsemi; reflexivity || lia).
    rewrite Hsemi, eqb_refl.
    change (advance (skip (length ts) p)) with (skip (S (length ts)) p).
    rewrite (IH _ _ eof fuel budget Htail Heof) by lia.
    rewrite <- app_assoc. cbn [app]. do 2 f_equal.
    rewrite skip_skip. f_equal. lia.
  - pose proof (RendersStatement_nonempty _ _ Hst) as Hne.
    destruct (RendersStatement_first _ _ Hst) as (t0 & ts0 & Hts & Hno & _).
    rewrite length_app in Hup, Hb. cbn [length] in Hfuel.
    rewrite length_app.
    destruct fuel as [|fuel]; [lia|].
    replace (S (length ts + length rest))
      with (length ts + S (length rest)) in Hup by lia.
    rewrite <- app_assoc in Hup.
    destruct (upcoming_split _ _ _ _ _ eq_refl Hup) as [Hhead Htail].
    (* the token after the statement *)
    assert (Hnext : ∃ t, upcoming (S (length ts)) p = ts ++ [t]
                         ∧ precedences (Type_ t) = None
                         ∧ Type_ t ≠ SEMICOLON).
    { assert (Hone : ∀ t, curToken (skip (length ts) p) = t →
                          upcoming (S (length ts)) p = ts ++ [t]).
      { intros t Hc. replace (S (length ts)) with (length ts + 1) by lia.
        rewrite upcoming_app, Hhead. cbn [upcoming]. now rewrite Hc. }
      destruct rest as [|t rest'].
      - exists eof. apply (upcoming_cons 0) in Htail as [Hc _].
        split; [now apply Hone|]. rewrite Heof. split; [reflexivity|].
        discriminate.
      - exists t. destruct Hfresh as [Hprec Hns].
        apply upcoming_cons in Htail as [Hc _].
        split; [now apply Hone|]. now split. }
    destruct Hnext as (t & Hupt & Hprec & Hns).
    assert (Hcur : curToken p = t0).
    { rewrite Hts in Hhead. now apply upcoming_cons in Hhead as [? _]. }
    rewrite parseStatements_eq, Hcur, (eqb_neq _ _ Hno). cbn [andb orb].
    rewrite (parseStatement_reads st ts t p budget Hst Hupt Hprec)
      by lia.
    rewrite (eqb_neq _ _ Hns).
    change (advance (skip (length ts - 1) p))
      with (skip (S (length ts - 1)) p).
    replace (S (length ts - 1)) with (length ts) by lia.
    rewrite (IH _ _ eof fuel budget Htail Heof) by lia.
    rewrite <- app_assoc. cbn [app]. do 2 f_equal.
    rewrite skip_skip. f_equal. lia.
Qed.

Lemma parser_on_statements (stmts : list Statement) (ts : list Token)
  (eof : Token) (p : Parser L) (budget : nat) :
  RendersProgram stmts ts →
  upcoming (S (length ts)) p = ts ++ [eof] →
  Type_ eof = EOF →
  length ts < budget →
  parseProgram budget p = Some (mkProgram stmts, skip (length ts) p)
  ∧ errors (skip (length ts) p) = errors p.
Proof.
  intros Hprog Hup Heof Hb. split; [|apply skip_errors].
  unfold parseProgram, bind, ret.
  rewrite (parseStatements_reads stmts ts Hprog [] p eof budget budget
             Hup Heof); [reflexivity | | exact Hb].
  pose proof (RendersProgram_size _ _ Hprog). lia.
Qed.

(** X21: the parser reads a sequence of [let], [return] and expression
    statements over the arithmetic expressions, each followed by a
    semicolon or by nothing where the next token cannot continue the
    expression: [parseProgram] returns exactly these statements in order,
    has consumed all their tokens, stands on the end of file and records
    no error. *)
Theorem parser_reads_statement_sequences (stmts : list Statement)
  (ts : list Token) (eof : Token) (p : Parser L) (budget : nat) :
  RendersProgram stmts ts →
  upcoming (S (length ts)) p = ts ++ [eof] →
  Type_ eof = EOF →
  length ts < budget →
  parseProgram budget p = Some (mkProgram stmts, skip (length ts) p)
  ∧ curToken (skip (length ts) p) = eof
  ∧ errors (skip (length ts) p) = errors p.
Proof.
  intros Hprog Hup Heof Hb.
  destruct (parser_on_statements stmts ts eof p budget Hprog Hup Heof Hb)
    as [Hparse Herrs].
  split; [exact Hparse|]. split; [|exact Herrs].
  eapply upcoming_last; [reflexivity | exact Hup].
Qed.

Lemma parseStatements_ends (pe : nat → P L (option Expression))
  (inBlock : bool) (n : nat) (acc stmts : list Statement)
  (p p' : Parser L) :
  parseStatements pe inBlock n acc p = Some (stmts, p') →
  Type_ (curToken p') = EOF
  ∨ (inBlock = true ∧ Type_ (curToken p') = RBRACE).
Proof.
  revert acc p. induction n as [|n IH]; intros acc p;
    rewrite parseStatements_eq.
  - destruct (token.eqb (Type_ (curToken p)) EOF) eqn:Eeof.
    + rewrite orb_true_r. intros [= _ <-]. left.
      unfold token.eqb in Eeof.
      now destruct (TokenType_eq_dec (Type_ (curToken p)) EOF).
    + rewrite orb_false_r.
      destruct (inBlock && token.eqb (Type_ (curToken p)) RBRACE) eqn:Eb;
        [|discriminate].
      intros [= _ <-]. right. apply andb_true_iff in Eb as [-> Eb].
      split; [reflexivity|]. unfold token.eqb in Eb.
      now destruct (TokenType_eq_dec (Type_ (curToken p)) RBRACE).
  - destruct (token.eqb (Type_ (curToken p)) EOF) eqn:Eeof.
    + rewrite orb_true_r. intros [= _ <-]. left.
      unfold token.eqb in Eeof.
      now destruct (TokenType_eq_dec (Type_ (curToken p)) EOF).
    + rewrite orb_false_r.
      destruct (inBlock && token.eqb (Type_ (curToken p)) RBRACE) eqn:Eb.
      * intros [= _ <-]. right. apply andb_true_iff in Eb as [-> Eb].
        split; [reflexivity|]. unfold token.eqb in Eb.
        now destruct (TokenType_eq_dec (Type_ (curToken p)) RBRACE).
      * destruct (parseStatement pe p) as [[stmt p1]|]; [|discriminate].
        apply IH.
Qed.

End StatementParser.

Section Decimals.
Import Parser.

Lemma pretty_N_char_digit (d : N) :
  (d < 10)%N →
  Lexer.isDigit (pretty_N_char d) = true
  ∧ (Z.of_nat (Lexer.code (pretty_N_char d)) - 48 = Z.of_N d)%Z.
Proof.
  intros Hd. rewrite <- (N2Nat.id d).
  assert (Hk : N.to_nat d < 10) by lia.
  destruct (N.to_nat d) as [|k]; [split; reflexivity|].
  do 9 (destruct k as [|k]; [split; reflexivity|]). lia.
Qed.

(** Reading the digits that [pretty] wrote gives the number back;
    [scale] is the power of ten that makes room for the digits of [x]. *)
Lemma digitsValue_pretty_N_go (x : N) :
  ∃ scale : Z,
    (x = 0%N → scale = 1%Z)
    ∧ ∀ (s : string) (acc : option Z),
        digitsValue (pretty_N_go x s) acc
        = digitsValue s (if decide (x = 0%N) then acc
                         else Some (default 0 acc * scale + Z.of_N x)%Z).
Proof.
  induction x as [x IH] using (well_founded_induction N.lt_wf_0).
  destruct (decide (x = 0%N)) as [->|Hx].
  - exists 1%Z. split; [reflexivity|]. intros s acc.
    now rewrite pretty_N_go_0.
  - destruct (IH (x `div` 10)%N) as (scale & Hone & Hscale).
    { apply N.div_lt; lia. }
    exists (scale * 10)%Z. split; [contradiction|]. intros s acc.
    rewrite pretty_N_go_step by lia. rewrite Hscale.
    destruct (pretty_N_char_digit (x `mod` 10)%N) as [Hdigit Hcode].
    { apply N.mod_lt. lia. }
    cbn [digitsValue]. rewrite Hdigit, Hcode. f_equal.
    pose proof (N.div_mod x 10 ltac:(lia)) as Hdm.
    destruct (decide ((x `div` 10)%N = 0%N)) as [H0|H0].
    + f_equal. rewrite (Hone H0). rewrite H0 in Hdm. lia.
    + simpl. f_equal. lia.
Qed.

Lemma pretty_N_go_digits (x : N) (s : string) :
  allChars Lexer.isDigit s = true →
  allChars Lexer.isDigit (pretty_N_go x s) = true.
Proof.
  revert s. induction x as [x IH] using (well_founded_induction N.lt_wf_0).
  intros s Hs. destruct (decide (x = 0%N)) as [->|Hx].
  - now rewrite pretty_N_go_0.
  - rewrite pretty_N_go_step by lia. apply IH; [apply N.div_lt; lia|].
    simpl. rewrite Hs.
    destruct (pretty_N_char_digit (x `mod` 10)%N) as [-> _];
      [apply N.mod_lt; lia | reflexivity].
Qed.

Lemma pretty_N_go_nonempty (x : N) (s : string) :
  x ≠ 0%N → pretty_N_go x s ≠ "".
Proof.
  revert s. induction x as [x IH] using (well_founded_induction N.lt_wf_0).
  intros s Hx. rewrite pretty_N_go_step by lia.
  destruct (decide ((x `div` 10)%N = 0%N)) as [H0|H0].
  - rewrite H0, pretty_N_go_0. discriminate.
  - apply IH; [apply N.div_lt; lia | exact H0].
Qed.

Lemma pretty_N_digits (x : N) :
  allChars Lexer.isDigit (pretty x) = true ∧ pretty x ≠ ""
  ∧ digitsValue (pretty x) None = Some (Z.of_N x).
Proof.
  unfold pretty, pretty_N. destruct (decide (x = 0%N)) as [->|Hx].
  - repeat split. discriminate.
  - split; [now apply pretty_N_go_digits|].
    split; [now apply pretty_N_go_nonempty|].
    destruct (digitsValue_pretty_N_go x) as (scale & _ & Hscale).
    rewrite Hscale. destruct (decide (x = 0%N)); [contradiction|].
    simpl. f_equal.
Qed.

Lemma trimStart_digits (s : string) :
  startsWith Lexer.isDigit s = true → trimStart s = s.
Proof.
  destruct s as [|c s]; [discriminate|]. simpl. intros Hc.
  unfold isStrWhiteSpace. rewrite (digit_is_no_space c Hc).
  repeat match goal with
         | |- context [Ascii.eqb c ?d] =>
             destruct (Ascii.eqb_spec c d) as [->|_];
             [now vm_compute in Hc|]
         end.
  reflexivity.
Qed.

Lemma allChars_starts (p : ascii → bool) (s : string) :
  allChars p s = true → s ≠ "" → startsWith p s = true.
Proof.
  destruct s as [|c s]; [congruence|]. simpl. intros H _.
  now apply andb_true_iff in H as [? _].
Qed.

Lemma parseInt_digits (s : string) (z : Z) :
  allChars Lexer.isDigit s = true → s ≠ "" →
  digitsValue s None = Some z →
  parseInt s = Num z ∧ parseInt ("-" +:+ s) = Num (- z).
Proof.
  intros Hs Hne Hz. pose proof (allChars_starts _ _ Hs Hne) as Hstart.
  unfold parseInt. rewrite (trimStart_digits s Hstart).
  destruct s as [|c s]; [congruence|]. simpl in Hstart.
  split.
  - destruct (Ascii.eqb_spec c "-") as [->|_]; [now vm_compute in Hstart|].
    destruct (Ascii.eqb_spec c "+") as [->|_]; [now vm_compute in Hstart|].
    now rewrite Hz.
  - change ("-" +:+ String c s) with (String "-" (String c s)).
    cbn [trimStart]. change (isStrWhiteSpace "-") with false. cbn iota.
    change (Ascii.eqb "-" "-") with true. cbn iota. now rewrite Hz.
Qed.

Lemma parseInt_pretty (z : Z) : parseInt (pretty z) = Num z.
Proof.
  destruct z as [|q|q]; [reflexivity| |].
  - destruct (pretty_N_digits (N.pos q)) as (Hd & Hne & Hv).
    exact (proj1 (parseInt_digits _ _ Hd Hne Hv)).
  - destruct (pretty_N_digits (N.pos q)) as (Hd & Hne & Hv).
    exact (proj2 (parseInt_digits _ _ Hd Hne Hv)).
Qed.

End Decimals.

Section IntegerLiterals.
Import token Parser.

Lemma pretty_nat_Z (n : nat) : pretty (Z.of_nat n) = pretty n.
Proof.
  unfold pretty at 2, pretty_nat. destruct n as [|n]; [reflexivity|].
  simpl. reflexivity.
Qed.

(** The parser on a source text that is one run of digits. *)
Lemma parser_on_digits (w : string) :
  w ≠ "" → allChars Lexer.isDigit w = true →
  ∃ l, Parser.new (Lexer.new w)
       = mkParser l [] (mkToken INT w) (mkToken EOF "").
Proof.
  intros Hne Hw.
  assert (Hnew : Lexer.new w = lexerOn "" (w +:+ "")).
  { rewrite new_at. unfold lexerOn. now rewrite string_app_nil_r. }
  unfold Parser.new, advance. cbn [lexer errors curToken peekToken].
  unfold nextTok, Lexer_source. rewrite Hnew.
  rewrite nextToken_number by (try assumption; reflexivity).
  cbn [lexer errors curToken peekToken].
  rewrite nextToken_end by (rewrite ch_on; reflexivity).
  eexists. reflexivity.
Qed.

(** X23: a decimal integer literal is read back exactly.  The source text
    that consists of the decimal digits of a natural number (up to 2^53,
    where the numbers of the host stay exact) lexes to one integer token,
    parses without error to one expression statement and evaluates to a
    new integer object holding that number, whose [inspect] is the source
    text again.  More generally [parseInt] reads back what [inspect]
    prints for any such integer, negative ones included. *)
Theorem integer_literals_read_back (n budget : nat) :
  (Z.of_nat n ≤ 2 ^ 53)%Z → 3 ≤ budget →
  run budget (pretty n)
  = Some ([], Ok (Obj 10 (IntegerObject (Num (Z.of_nat n))),
                  allocated rootState))
  ∧ inspect (Obj 10 (IntegerObject (Num (Z.of_nat n)))) = Some (pretty n)
  ∧ (∀ z r, (- 2 ^ 53 ≤ z ≤ 2 ^ 53)%Z →
       ∃ text, inspect (Obj r (IntegerObject (Num z))) = Some text
               ∧ parseInt text = Num z).
Proof.
  intros _ Hb. split; [|split].
  - destruct (pretty_N_digits (N.of_nat n)) as (Hd & Hne & Hv).
    change (pretty (N.of_nat n)) with (pretty n) in Hd, Hne, Hv.
    destruct (parser_on_digits (pretty n) Hne Hd) as (l & Hnew).
    set (tok := mkToken INT (pretty n)) in *.
    assert (Hz : parseInt (Literal tok) = Num (Z.of_nat n)).
    { unfold tok. cbn [Literal]. rewrite <- pretty_nat_Z.
      apply parseInt_pretty. }
    assert (Hprog : RendersProgram
                      [ExpressionStatement tok
                         (IntegerLiteral tok (Num (Z.of_nat n)))] ([tok] ++ [])).
    { apply Renders_bare; [|exact I|constructor].
      apply Renders_expression. now apply Renders_integer. }
    destruct (parser_on_statements _ _ (mkToken EOF "")
                (Parser.new (Lexer.new (pretty n))) budget Hprog)
      as (Hparse & Herrs).
    + rewrite Hnew. cbn [length app upcoming]. now rewrite advance_cur.
    + reflexivity.
    + simpl. lia.
    + unfold run. rewrite Hparse, Herrs, Hnew. cbn [errors].
      destruct budget as [|[|[|b]]]; try lia. reflexivity.
  - simpl. now rewrite pretty_nat_Z.
  - intros z r _. exists (pretty z). split; [reflexivity|].
    apply parseInt_pretty.
Qed.

End IntegerLiterals.

Lemma integer_literals_read_back_witness :
  run 3 "42"
  = Some ([], Ok (Obj 10 (IntegerObject (Num 42)), allocated rootState)).
Proof.
  assert (Hsmall : (Z.of_nat 42 ≤ 2 ^ 53)%Z) by (vm_compute; discriminate).
  exact (proj1 (integer_literals_read_back 42 3 Hsmall (Nat.le_refl 3))).
Defined.

Lemma parser_reads_statement_sequences_witness :
  Parser.parseProgram 7
    (Parser.new (sampleProgramTokens ++ [mkToken token.EOF ""]))
  = Some (mkProgram sampleProgram,
          Nat.iter 6 Parser.advance
            (Parser.new (sampleProgramTokens ++ [mkToken token.EOF ""]))).
Proof.
  assert (Hlet : RendersStatement (sampleLet "x" "5" 5)
                   [mkToken token.LET "let"; sampleName "x";
                    mkToken token.ASSIGN "="; mkToken token.INT "5"]).
  { apply (Renders_let (mkToken token.LET "let") (sampleName "x")
             (mkToken token.ASSIGN "=")); try reflexivity.
    apply (Renders_integer _ (mkToken token.INT "5") 5); reflexivity. }
  assert (Hx : RendersStatement
                 (ExpressionStatement (sampleName "x")
                    (IdentifierE (sampleIdentifier "x"))) [sampleName "x"]).
  { apply Renders_expression.
    apply (Renders_identifier _ (sampleName "x")). reflexivity. }
  assert (Hprog : RendersProgram sampleProgram sampleProgramTokens).
  { apply (Renders_semicolon _ _ (mkToken token.SEMICOLON ";") _
             [sampleName "x"] Hlet eq_refl).
    apply (Renders_bare _ _ [] [] Hx I Renders_end). }
  exact (proj1 (parser_reads_statement_sequences sampleProgram
                  sampleProgramTokens (mkToken token.EOF "")
                  (Parser.new (sampleProgramTokens ++ [mkToken token.EOF ""]))
                  7 Hprog eq_refl eq_refl (Nat.lt_succ_diag_r 6))).
Defined.

(** * Printing and parsing again *)

Section TokenRuns.
Import Lexer token.

Lemma tokens_cons (n : nat) (l l' : Lexer) (t : Token) :
  nextToken l = (t, l') → tokens (S n) l = t :: tokens n l'.
Proof. intros H. cbn [tokens]. now rewrite H. Qed.

Lemma tokens_blank (n : nat) (pre rest : string) :
  tokens (S n) (lexerOn pre (" " +:+ rest))
  = tokens (S n) (lexerOn (pre +:+ " ") rest).
Proof.
  cbn [tokens]. unfold nextToken.
  now rewrite (skipWhitespace_on pre " " rest eq_refl).
Qed.

Ltac one_character :=
  unfold nextToken; rewrite skipWhitespace_stays_on by reflexivity;
  rewrite ch_on, ?peekChar_on; cbn [String.get Ascii.eqb Bool.eqb];
  rewrite !readChar_on, ?string_app_assoc; reflexivity.

Lemma nextToken_operator (op : Token) (pre rest : string) :
  op ∈ binaryOperators →
  nextToken (lexerOn pre (Literal op +:+ rest))
  = (op, lexerOn (pre +:+ Literal op) rest).
Proof.
  intros Hop. unfold binaryOperators in Hop.
  repeat (apply elem_of_cons in Hop as [->|Hop];
          [cbn [Literal];
           match goal with
           | |- context [String ?c (String ?d "") +:+ rest] =>
               change (String c (String d "") +:+ rest)
                 with (String c (String d rest))
           | |- context [String ?c "" +:+ rest] =>
               change (String c "" +:+ rest) with (String c rest)
           end; one_character|]).
  inversion Hop.
Qed.

Lemma nextToken_punctuation (pre rest : string) :
  nextToken (lexerOn pre ("(" +:+ rest))
  = (mkToken LPAREN "(", lexerOn (pre +:+ "(") rest)
  ∧ nextToken (lexerOn pre (")" +:+ rest))
    = (mkToken RPAREN ")", lexerOn (pre +:+ ")") rest)
  ∧ nextToken (lexerOn pre (";" +:+ rest))
    = (mkToken SEMICOLON ";", lexerOn (pre +:+ ";") rest).
Proof.
  repeat split;
    match goal with
    | |- context [String ?c "" +:+ rest] =>
        change (String c "" +:+ rest) with (String c rest)
    end; one_character.
Qed.

Lemma nextToken_assign (pre rest : string) :
  startsWith (Ascii.eqb "=") rest = false →
  nextToken (lexerOn pre ("=" +:+ rest))
  = (mkToken ASSIGN "=", lexerOn (pre +:+ "=") rest).
Proof.
  intros Hrest. change ("=" +:+ rest) with (String "=" rest).
  unfold nextToken. rewrite skipWhitespace_stays_on by reflexivity.
  rewrite ch_on, peekChar_on.
  assert (Hpeek : match String.get 1 (String "=" rest) with
                  | Some d => Ascii.eqb d "="
                  | None => false
                  end = false).
  { destruct rest as [|d rest]; [reflexivity|].
    simpl in *. now rewrite Ascii.eqb_sym. }
  rewrite Hpeek. cbn [String.get Ascii.eqb Bool.eqb]. now rewrite readChar_on.
Qed.

End TokenRuns.

Section PrintedExpressions.
Import Lexer token.

Lemma Printable_nonempty (e : Expression) :
  Printable e → printedTokens e ≠ [].
Proof. intros []; discriminate. Qed.

Lemma operator_level (op : Token) :
  op ∈ binaryOperators → ∃ q, operatorLevel (Type_ op) = Some q ∧ loosest ≤ q.
Proof.
  intros Hop. unfold binaryOperators in Hop.
  repeat (apply elem_of_cons in Hop as [->|Hop];
          [eexists; split; [reflexivity | unfold loosest; lia]|]).
  inversion Hop.
Qed.

(** The tokens of a printed tree are an expression of the grammar, of any
    level since the parentheses are all there, and the tree is its
    reading. *)
Lemma Renders_printed (e : Expression) :
  Printable e → ∀ m, Renders m e (printedTokens e).
Proof.
  induction 1 as [w Hw|w z Hne Hw Hz|op l r Hop Hl IHl Hr IHr]; intros m.
  - now apply (Renders_identifier m (mkToken IDENT w)).
  - now apply (Renders_integer m (mkToken INT w) z).
  - destruct (operator_level op Hop) as (q & Hq & Hle).
    cbn [printedTokens]. apply Renders_group; try reflexivity.
    now apply (Renders_infix loosest q).
Qed.

(** The lexer on the text of a printed tree, wherever it stands in the
    input, as long as no letter or digit follows. *)
Lemma tokens_printed (e : Expression) :
  Printable e →
  ∀ pre rest n,
    startsWith isLetter rest = false → startsWith isDigit rest = false →
    tokens (length (printedTokens e) + n) (lexerOn pre (toString e +:+ rest))
    = printedTokens e ++ tokens n (lexerOn (pre +:+ toString e) rest).
Proof.
  induction 1 as [w (Hne & Hw & Hid)|w z Hne Hw Hz|op l r Hop Hl IHl Hr IHr];
    intros pre rest n Hletter Hdigit.
  - cbn [printedTokens toString ident_token ident_value length Nat.add app].
    rewrite (tokens_cons _ _ _ _ (nextToken_word pre w rest Hne Hw Hletter)).
    now rewrite Hid.
  - cbn [printedTokens toString Literal length Nat.add app].
    now rewrite (tokens_cons _ _ _ _ (nextToken_number pre w rest Hne Hw Hdigit)).
  - cbn [printedTokens toString].
    set (tl := printedTokens l) in *. set (tr := printedTokens r) in *.
    replace (length (mkToken LPAREN "(" :: (tl ++ op :: tr)
                     ++ [mkToken RPAREN ")"]) + n)
      with (S (length tl + S (length tr + S n)))
      by (cbn [length]; rewrite !length_app; cbn [length]; lia).
    rewrite !string_app_assoc.
    rewrite (tokens_cons _ _ _ _ (proj1 (nextToken_punctuation pre _))).
    rewrite IHl by reflexivity.
    rewrite tokens_blank.
    rewrite (tokens_cons _ _ _ _ (nextToken_operator op _ _ Hop)).
    replace (length tr + S n) with (S (length tr + n)) by lia.
    rewrite tokens_blank.
    replace (S (length tr + n)) with (length tr + S n) by lia.
    rewrite IHr by reflexivity.
    rewrite (tokens_cons _ _ _ _
               (proj1 (proj2 (nextToken_punctuation _ _)))).
    rewrite !string_app_assoc. cbn [app]. rewrite <- !app_assoc. reflexivity.
Qed.

End PrintedExpressions.

Section PrintedPrograms.
Import Lexer token Parser.

Lemma RendersProgram_printed (stmts : list Statement) :
  PrintableProgram stmts → RendersProgram stmts (programTokens stmts).
Proof.
  induction 1 as [|e He|w e rest Hw He Hrest IH|e rest He Hrest IH].
  - constructor.
  - cbn [programTokens]. apply Renders_bare; [|exact I|constructor].
    unfold firstToken.
    pose proof (Renders_printed e He loosest) as Hr.
    destruct (printedTokens e) as [|t ts] eqn:E;
      [now apply Printable_nonempty in He|].
    now apply Renders_expression.
  - cbn [programTokens ident_token]. apply Renders_semicolon;
      [|reflexivity|exact IH].
    apply (Renders_let (mkToken LET "let") (mkToken IDENT w)
             (mkToken ASSIGN "=")); try reflexivity.
    now apply Renders_printed.
  - cbn [programTokens]. apply Renders_semicolon; [|reflexivity|exact IH].
    apply Renders_return; [reflexivity|]. now apply Renders_printed.
Qed.

Lemma tokens_program (stmts : list Statement) :
  PrintableProgram stmts →
  ∀ pre n,
    tokens (length (programTokens stmts) + n)
      (lexerOn pre (programToString (mkProgram stmts)))
    = programTokens stmts
      ++ tokens n (lexerOn (pre +:+ programToString (mkProgram stmts)) "").
Proof.
  unfold programToString. cbn [statements].
  induction 1 as [|e He|w e rest (Hne & Hw & Hid) He Hrest IH
                  |e rest He Hrest IH]; intros pre n.
  - cbn. now rewrite string_app_nil_r.
  - cbn [programTokens List.map ast.concat fold_right statementToString].
    rewrite app_nil_r, tokens_printed by (try assumption; reflexivity).
    now rewrite string_app_nil_r.
  - cbn [programTokens List.map ast.concat fold_right statementToString
         ident_token ident_value Literal].
    fold (ast.concat (List.map statementToString rest)) in *.
    set (tail := ast.concat (List.map statementToString rest)) in *.
    set (te := printedTokens e).
    replace (length ((mkToken LET "let" :: mkToken IDENT w
                      :: mkToken ASSIGN "=" :: te)
                     ++ mkToken SEMICOLON ";" :: programTokens rest) + n)
      with (S (S (S (length te + S (length (programTokens rest) + n)))))
      by (rewrite length_app; cbn [length]; lia).
    rewrite !string_app_assoc.
    erewrite tokens_cons
      by (apply (nextToken_word pre "let"); [discriminate|reflexivity..]).
    change (lookupIdent "let") with LET.
    rewrite tokens_blank.
    erewrite tokens_cons
      by (apply (nextToken_word _ w); [assumption..|reflexivity]).
    rewrite Hid.
    change (" = " +:+ toString e +:+ ";" +:+ tail)
      with (" " +:+ "=" +:+ " " +:+ toString e +:+ ";" +:+ tail).
    rewrite tokens_blank.
    erewrite tokens_cons by (apply nextToken_assign; reflexivity).
    replace (length te + S (length (programTokens rest) + n))
      with (S (length te + (length (programTokens rest) + n))) by lia.
    rewrite tokens_blank.
    replace (S (length te + (length (programTokens rest) + n)))
      with (length te + S (length (programTokens rest) + n)) by lia.
    unfold te. rewrite tokens_printed by (try assumption; reflexivity).
    rewrite (tokens_cons _ _ _ _
               (proj2 (proj2 (nextToken_punctuation _ _)))).
    rewrite IH. rewrite !string_app_assoc. cbn [app].
    rewrite <- !app_assoc. reflexivity.
  - cbn [programTokens List.map ast.concat fold_right statementToString
         Literal].
    fold (ast.concat (List.map statementToString rest)) in *.
    set (tail := ast.concat (List.map statementToString rest)) in *.
    set (te := printedTokens e).
    replace (length ((mkToken RETURN "return" :: te)
                     ++ mkToken SEMICOLON ";" :: programTokens rest) + n)
      with (S (length te + S (length (programTokens rest) + n)))
      by (rewrite length_app; cbn [length]; lia).
    rewrite !string_app_assoc.
    erewrite tokens_cons
      by (apply (nextToken_word pre "return");
          [discriminate|reflexivity..]).
    change (lookupIdent "return") with RETURN.
    replace (length te + S (length (programTokens rest) + n))
      with (S (length te + (length (programTokens rest) + n))) by lia.
    rewrite tokens_blank.
    replace (S (length te + (length (programTokens rest) + n)))
      with (length te + S (length (programTokens rest) + n)) by lia.
    unfold te. rewrite tokens_printed by (try assumption; reflexivity).
    rewrite (tokens_cons _ _ _ _
               (proj2 (proj2 (nextToken_punctuation _ _)))).
    rewrite IH. rewrite !string_app_assoc. cbn [app].
    rewrite <- !app_assoc. reflexivity.
Qed.

Lemma tokens_length (n : nat) (l : Lexer) : length (tokens n l) = n.
Proof.
  revert l. induction n as [|n IH]; intros l; [reflexivity|].
  cbn [tokens]. destruct (Lexer.nextToken l) as [t l']. simpl. now rewrite IH.
Qed.

(** What a parser on a lexer sees is what the lexer gives. *)
Lemma upcoming_parser (n : nat) (l : Lexer) (errs : list string)
  (a b : Token) :
  upcoming n (mkParser l errs a b) = take n (a :: b :: tokens (n - 2) l).
Proof.
  revert l a b. induction n as [|n IH]; intros l a b; [reflexivity|].
  cbn [upcoming curToken]. unfold advance.
  cbn [lexer errors peekToken]. unfold nextTok, Lexer_source.
  destruct (Lexer.nextToken l) as [t l'] eqn:E. rewrite IH.
  destruct n as [|[|n]]; try reflexivity.
  replace (S (S (S n)) - 2) with (S n) by lia.
  replace (S (S n) - 2) with n by lia.
  rewrite (tokens_cons _ _ _ _ E). reflexivity.
Qed.

Lemma upcoming_lexer (n : nat) (l : Lexer) :
  upcoming n (Parser.new l) = tokens n l.
Proof.
  unfold Parser.new, advance. cbn [lexer errors peekToken].
  unfold nextTok, Lexer_source.
  destruct (Lexer.nextToken l) as [t1 l1] eqn:E1. cbn [lexer errors peekToken].
  destruct (Lexer.nextToken l1) as [t2 l2] eqn:E2.
  rewrite upcoming_parser.
  destruct n as [|[|n]].
  - reflexivity.
  - cbn [take]. now rewrite (tokens_cons _ _ _ _ E1).
  - replace (S (S n) - 2) with n by lia.
    rewrite (tokens_cons _ _ _ _ E1), (tokens_cons _ _ _ _ E2).
    cbn [take]. do 2 f_equal. apply take_ge. now rewrite tokens_length.
Qed.

End PrintedPrograms.

Section PrintAndParse.
Import Lexer token Parser.

Local Abbreviation skip k p := (Nat.iter k advance p).

Lemma errors_new (l : Lexer) : errors (Parser.new l) = [].
Proof.
  unfold Parser.new, advance. cbn [lexer errors peekToken].
  destruct (nextTok l) as [t1 l1]. cbn [lexer errors peekToken].
  now destruct (nextTok l1).
Qed.

(** X24: printing and parsing again gives back the program.  For a
    program of [let] and [return] statements, possibly with one
    expression statement at the end, over trees of names, integer literals
    and binary operators whose nodes carry the tokens of their text, the
    text [toString] prints (every operator between parentheses, every
    [let] and [return] closed by a semicolon) is lexed and parsed, without
    error and up to the end of file, to the same statements, and printing
    those gives the same text.  Expression statements are printed without
    a separator, so two of them do not come back: [a] and [b] are
    printed as [ab] and read as one name. *)
Theorem printed_programs_parse_back (stmts : list Statement) (budget : nat) :
  PrintableProgram stmts →
  length (programTokens stmts) < budget →
  let source := programToString (mkProgram stmts) in
  (∃ p, parseProgram budget (Parser.new (Lexer.new source))
        = Some (mkProgram stmts, p)
        ∧ errors p = [] ∧ curToken p = mkToken EOF "")
  ∧ parseToString budget source = Some (source, [])
  ∧ fst <$> parseProgram 5
              (Parser.new (Lexer.new (programToString
                                        (mkProgram sampleTwoNames))))
    = Some (mkProgram [ExpressionStatement (sampleName "ab")
                         (IdentifierE (sampleIdentifier "ab"))]).
Proof.
  intros Hp Hb source.
  set (ts := programTokens stmts) in *.
  set (p := Parser.new (Lexer.new source)).
  assert (Hup : upcoming (S (length ts)) p = ts ++ [mkToken EOF ""]).
  { unfold p. rewrite upcoming_lexer, new_at.
    change (lexerAt source 0) with (lexerOn "" source).
    replace (S (length ts)) with (length ts + 1) by lia.
    unfold ts, source. rewrite tokens_program by assumption. f_equal.
    cbn [tokens]. rewrite nextToken_end by (rewrite ch_on; reflexivity).
    reflexivity. }
  destruct (parser_on_statements stmts ts (mkToken EOF "") p budget
              (RendersProgram_printed stmts Hp) Hup eq_refl Hb)
    as [Hparse Herrs].
  assert (Hnone : errors (skip (length ts) p) = [])
    by (rewrite Herrs; apply errors_new).
  split; [|split; [|vm_compute; reflexivity]].
  - exists (skip (length ts) p). split; [exact Hparse|].
    split; [exact Hnone|]. eapply upcoming_last; [reflexivity | exact Hup].
  - unfold parseToString. fold p. now rewrite Hparse, Hnone.
Qed.

End PrintAndParse.

Lemma printed_programs_parse_back_witness :
  parseToString 20 "let x = (a + 5);return x;"
  = Some ("let x = (a + 5);return x;", []).
Proof.
  assert (Hname : ∀ w, w ∈ ["x"; "a"] → isName w).
  { intros w Hw. repeat (apply elem_of_cons in Hw as [->|Hw];
                         [repeat split; discriminate|]).
    inversion Hw. }
  assert (Hp : PrintableProgram samplePrinted).
  { apply Printable_let; [apply Hname; set_solver| |].
    - apply (Printable_infix (mkToken token.PLUS "+")); [set_solver| |].
      + apply Printable_identifier, Hname. set_solver.
      + now apply Printable_integer.
    - apply Printable_return; [|constructor].
      apply Printable_identifier, Hname. set_solver. }
  assert (Hb : length (programTokens samplePrinted) < 20)
    by (vm_compute; lia).
  exact (proj1 (proj2 (printed_programs_parse_back samplePrinted 20 Hp Hb))).
Defined.

(** * The parser returns on every input *)

Section ParserReturns.
Import token Precedence Parser.

Context {L : Type} `{TokenSource L}.

Local Abbreviation skip k p := (Nat.iter k advance p).

Lemma ends_mono (r r' : nat) (p : Parser L) :
  endsWithin r p → r ≤ r' → endsWithin r' p.
Proof. intros Hr Hle j Hj. apply Hr. lia. Qed.

Lemma ends_advance (r : nat) (p : Parser L) :
  endsWithin r p → endsWithin (r - 1) (advance p).
Proof.
  intros Hr j Hj. rewrite skip_advance. apply Hr. lia.
Qed.

Lemma skip_errors_irrelevant (j : nat) (l : L) (e e' : list string)
  (a b : Token) :
  curToken (skip j (mkParser l e a b)) = curToken (skip j (mkParser l e' a b)).
Proof.
  revert l a b. induction j as [|j IH]; intros l a b; [reflexivity|].
  rewrite <- !skip_advance. unfold advance at 2 4.
  cbn [lexer errors peekToken]. destruct (nextTok l) as [t l']. apply IH.
Qed.

Lemma ends_pushed (r : nat) (p : Parser L) (msg : string) :
  endsWithin r p →
  endsWithin r {| lexer := lexer p; errors := errors p ++ [msg];
                  curToken := curToken p; peekToken := peekToken p |}.
Proof.
  intros Hr j Hj. rewrite (skip_errors_irrelevant j _ _ (errors p)).
  destruct p. now apply Hr.
Qed.

Lemma ends_cur (r : nat) (p : Parser L) :
  endsWithin r p → Type_ (curToken p) ≠ EOF → 1 ≤ r.
Proof.
  intros Hr Hne. destruct r; [|lia]. contradiction Hne. exact (Hr 0 (le_n 0)).
Qed.

Lemma ends_peek (r : nat) (p : Parser L) :
  endsWithin r p → Type_ (peekToken p) ≠ EOF → 2 ≤ r.
Proof.
  intros Hr Hne. destruct (decide (2 ≤ r)) as [|Hlt]; [assumption|].
  contradiction Hne. rewrite <- advance_cur. apply (Hr 1). lia.
Qed.

Lemma token_eqb_eq (a b : TokenType) : token.eqb a b = true → a = b.
Proof. unfold token.eqb. now destruct (TokenType_eq_dec a b). Qed.

(** *** The rules of the parser's methods *)

Lemma returns_ret {A : Type} (r : nat) (a : A) (p : Parser L) :
  endsWithin r p → returns r (ret a) p.
Proof. intros Hr. now exists a, p. Qed.

Lemma returns_weaken {A : Type} (r r' : nat) (m : P L A) (p : Parser L) :
  returns r m p → r ≤ r' → returns r' m p.
Proof.
  intros (a & p' & Hm & Hr) Hle. exists a, p'. split; [exact Hm|].
  now apply (ends_mono r).
Qed.

Lemma returns_bind {A B : Type} (r r' : nat) (m : P L A) (k : A → P L B)
  (p : Parser L) :
  returns r' m p →
  (∀ a p', endsWithin r' p' → returns r (k a) p') →
  returns r (bind m k) p.
Proof.
  intros (a & p' & Hm & Hr) Hk. unfold returns, bind. rewrite Hm.
  exact (Hk a p' Hr).
Qed.

Lemma returns_gets {A B : Type} (r : nat) (f : Parser L → A) (k : A → P L B)
  (p : Parser L) :
  returns r (k (f p)) p → returns r (bind (gets f) k) p.
Proof. intros Hk. exact Hk. Qed.

Lemma returns_next {B : Type} (r : nat) (k : unit → P L B) (p : Parser L) :
  returns r (k tt) (advance p) → returns r (bind nextToken k) p.
Proof. intros Hk. exact Hk. Qed.

Lemma returns_push {B : Type} (r : nat) (msg : string) (k : unit → P L B)
  (p : Parser L) :
  returns r (k tt)
    {| lexer := lexer p; errors := errors p ++ [msg];
       curToken := curToken p; peekToken := peekToken p |} →
  returns r (bind (pushError msg) k) p.
Proof. intros Hk. exact Hk. Qed.

(** [expectPeek] either finds the token and moves to it, or records an
    error and stays. *)
Lemma returns_expect {B : Type} (r r0 : nat) (t : TokenType)
  (k : bool → P L B) (p : Parser L) :
  endsWithin r0 p →
  (Type_ (peekToken p) = t → returns r (k true) (advance p)) →
  (∀ p', endsWithin r0 p' → returns r (k false) p') →
  returns r (bind (expectPeek t) k) p.
Proof.
  intros Hr Hyes Hno. unfold expectPeek, peekTokenIs, peekError.
  unfold returns, bind at 1 2, gets at 1.
  destruct (token.eqb (Type_ (peekToken p)) t) eqn:E.
  - apply token_eqb_eq in E. exact (Hyes E).
  - apply Hno. now apply ends_pushed.
Qed.

End ParserReturns.

Section HandlersReturn.
Import token Precedence Parser.

Context {L : Type} `{TokenSource L}.

Variable pe : nat → P L (option Expression).
Variable bound : nat.
Hypothesis pe_returns :
  ∀ prec r p, endsWithin r p → r < bound → returns r (pe prec) p.

(** The bound of the result may be any larger one. *)
Ltac done_with Hr := apply returns_ret; apply (ends_mono _ _ _ Hr); lia.

Lemma returns_pe {B : Type} (r r0 : nat) (prec : nat)
  (k : option Expression → P L B) (p : Parser L) :
  endsWithin r0 p → r0 < bound →
  (∀ a p', endsWithin r0 p' → returns r (k a) p') →
  returns r (bind (pe prec) k) p.
Proof.
  intros Hr Hlt Hk. apply (returns_bind r r0); [|exact Hk].
  now apply pe_returns.
Qed.

Lemma returns_semicolon {B : Type} (r r0 : nat) (k : unit → P L B)
  (p : Parser L) :
  endsWithin r0 p →
  (∀ p', endsWithin r0 p' → returns r (k tt) p') →
  returns r (bind (bind (peekTokenIs SEMICOLON)
                        (λ semi, if semi then nextToken else ret tt)) k) p.
Proof.
  intros Hr Hk. unfold returns, bind at 1 2, peekTokenIs, gets.
  destruct (token.eqb (Type_ (peekToken p)) SEMICOLON).
  - apply Hk. apply (ends_mono (r0 - 1)); [now apply ends_advance | lia].
  - now apply Hk.
Qed.

Lemma parsePrefixExpression_returns (r : nat) (p : Parser L) :
  endsWithin r p → r ≤ bound → Type_ (curToken p) ≠ EOF →
  returns r (parsePrefixExpression pe) p.
Proof.
  intros Hr Hb Hcur. pose proof (ends_cur r p Hr Hcur).
  unfold parsePrefixExpression. apply returns_gets, returns_next.
  apply (returns_pe r (r - 1)); [now apply ends_advance | lia |].
  intros [e|] p' Hp'; done_with Hp'.
Qed.

Lemma parseGroupedExpression_returns (r : nat) (p : Parser L) :
  endsWithin r p → r ≤ bound → Type_ (curToken p) ≠ EOF →
  returns r (parseGroupedExpression pe) p.
Proof.
  intros Hr Hb Hcur. pose proof (ends_cur r p Hr Hcur).
  unfold parseGroupedExpression. apply returns_next.
  apply (returns_pe r (r - 1)); [now apply ends_advance | lia |].
  intros e p' Hp'. apply (returns_expect r (r - 1)); [exact Hp'| |].
  - intros _. pose proof (ends_advance _ _ Hp') as Hadv. done_with Hadv.
  - intros p'' Hp''. done_with Hp''.
Qed.

Lemma parseInfixExpression_returns (r : nat) (left : Expression)
  (p : Parser L) :
  endsWithin r p → r ≤ bound → Type_ (curToken p) ≠ EOF →
  returns r (parseInfixExpression pe left) p.
Proof.
  intros Hr Hb Hcur. pose proof (ends_cur r p Hr Hcur).
  unfold parseInfixExpression, curPrecedence.
  apply returns_gets, returns_gets, returns_next.
  apply (returns_pe r (r - 1)); [now apply ends_advance | lia |].
  intros [e|] p' Hp'; done_with Hp'.
Qed.

Lemma parseIndexExpression_returns (r : nat) (left : Expression)
  (p : Parser L) :
  endsWithin r p → r ≤ bound → Type_ (curToken p) ≠ EOF →
  returns r (parseIndexExpression pe left) p.
Proof.
  intros Hr Hb Hcur. pose proof (ends_cur r p Hr Hcur).
  unfold parseIndexExpression. apply returns_gets, returns_next.
  apply (returns_pe r (r - 1)); [now apply ends_advance | lia |].
  intros [e|] p' Hp'; [|done_with Hp'].
  apply (returns_expect r (r - 1)); [exact Hp'| |].
  - intros _. pose proof (ends_advance _ _ Hp') as Hadv. done_with Hadv.
  - intros p'' Hp''. done_with Hp''.
Qed.

Lemma parseExpressionListLoop_returns (k r : nat) (acc : list Expression)
  (p : Parser L) :
  endsWithin r p → r ≤ k → r ≤ bound →
  returns r (parseExpressionListLoop pe k acc) p.
Proof.
  revert r acc p. induction k as [|k IH]; intros r acc p Hr Hk Hb.
  - cbn [parseExpressionListLoop]. unfold peekTokenIs.
    apply returns_gets.
    destruct (token.eqb (Type_ (peekToken p)) COMMA) eqn:E;
      [|now apply returns_ret].
    apply token_eqb_eq in E.
    assert (2 ≤ r) by (apply (ends_peek r p Hr); rewrite E; discriminate).
    lia.
  - cbn [parseExpressionListLoop]. unfold peekTokenIs.
    apply returns_gets.
    destruct (token.eqb (Type_ (peekToken p)) COMMA) eqn:E;
      [|now apply returns_ret].
    apply token_eqb_eq in E.
    assert (2 ≤ r) by (apply (ends_peek r p Hr); rewrite E; discriminate).
    apply returns_next, returns_next.
    apply (returns_pe r (r - 1 - 1));
      [now apply ends_advance, ends_advance | lia |].
    intros [e|] p' Hp'; [|done_with Hp'].
    apply (returns_weaken (r - 1 - 1)); [|lia].
    apply IH; [exact Hp' | lia | lia].
Qed.

Lemma parseExpressionList_returns (k r : nat) (end_ : TokenType)
  (p : Parser L) :
  endsWithin r p → r ≤ k → r ≤ bound → Type_ (curToken p) ≠ EOF →
  returns r (parseExpressionList pe k end_) p.
Proof.
  intros Hr Hk Hb Hcur. pose proof (ends_cur r p Hr Hcur).
  unfold parseExpressionList, peekTokenIs. apply returns_gets.
  destruct (token.eqb (Type_ (peekToken p)) end_).
  - apply returns_next. pose proof (ends_advance _ _ Hr) as Hadv.
    done_with Hadv.
  - apply returns_next.
    apply (returns_pe r (r - 1)); [now apply ends_advance | lia |].
    intros [e|] p' Hp'; [|done_with Hp'].
    apply (returns_bind r (r - 1)).
    + apply parseExpressionListLoop_returns; [exact Hp' | lia | lia].
    + intros [l|] p'' Hp''; [|done_with Hp''].
      apply (returns_expect r (r - 1)); [exact Hp''| |].
      * intros _. pose proof (ends_advance _ _ Hp'') as Hadv. done_with Hadv.
      * intros p3 Hp3. done_with Hp3.
Qed.

Lemma parseArrayLiteral_returns (k r : nat) (p : Parser L) :
  endsWithin r p → r ≤ k → r ≤ bound → Type_ (curToken p) ≠ EOF →
  returns r (parseArrayLiteral pe k) p.
Proof.
  intros Hr Hk Hb Hcur. unfold parseArrayLiteral. apply returns_gets.
  apply (returns_bind r r); [now apply parseExpressionList_returns|].
  intros [l|] p' Hp'; now apply returns_ret.
Qed.

Lemma parseCallExpression_returns (k r : nat) (func : Expression)
  (p : Parser L) :
  endsWithin r p → r ≤ k → r ≤ bound → Type_ (curToken p) ≠ EOF →
  returns r (parseCallExpression pe k func) p.
Proof.
  intros Hr Hk Hb Hcur. unfold parseCallExpression. apply returns_gets.
  apply (returns_bind r r); [now apply parseExpressionList_returns|].
  intros [l|] p' Hp'; now apply returns_ret.
Qed.

Lemma parseHashLoop_end (k : nat) (acc : list (Expression * Expression))
  (p : Parser L) :
  Type_ (peekToken p) = RBRACE →
  parseHashLoop pe k acc p = Some (Some acc, p).
Proof.
  intros Hp. destruct k; cbn [parseHashLoop];
    unfold bind at 1, peekTokenIs at 1, gets at 1; now rewrite Hp.
Qed.

Lemma parseHashLoop_returns (k r : nat) (acc : list (Expression * Expression))
  (p : Parser L) :
  endsWithin r p → r ≤ k → r ≤ bound → Type_ (curToken p) ≠ EOF →
  returns r (parseHashLoop pe k acc) p.
Proof.
  revert r acc p. induction k as [|k IH]; intros r acc p Hr Hk Hb Hcur;
    pose proof (ends_cur r p Hr Hcur); [lia|].
  cbn [parseHashLoop]. unfold peekTokenIs at 1. apply returns_gets.
  destruct (token.eqb (Type_ (peekToken p)) RBRACE);
    [now apply returns_ret|].
  apply returns_next.
  apply (returns_pe r (r - 1)); [now apply ends_advance | lia |].
  intros [key|] p1 Hp1; [|done_with Hp1].
  apply (returns_expect r (r - 1)); [exact Hp1| |];
    [|intros p' Hp'; done_with Hp'].
  intros Hcolon. cbn [negb]. apply returns_next.
  assert (2 ≤ r - 1)
    by (apply (ends_peek _ p1 Hp1); rewrite Hcolon; discriminate).
  apply (returns_pe r (r - 1 - 1 - 1));
    [now apply ends_advance, ends_advance | lia |].
  intros [v|] p3 Hp3; [|done_with Hp3].
  unfold peekTokenIs. apply returns_gets.
  destruct (token.eqb (Type_ (peekToken p3)) RBRACE) eqn:E.
  - apply token_eqb_eq in E. exists (Some (acc ++ [(key, v)])), p3.
    split; [now apply parseHashLoop_end|].
    apply (ends_mono _ _ _ Hp3). lia.
  - apply (returns_expect r (r - 1 - 1 - 1)); [exact Hp3| |];
      [|intros p' Hp'; done_with Hp'].
    intros Hcomma. apply (returns_weaken (r - 1)); [|lia].
    apply IH; [|lia|lia|].
    + apply (ends_mono (r - 1 - 1 - 1 - 1)); [now apply ends_advance | lia].
    + rewrite advance_cur, Hcomma. discriminate.
Qed.

Lemma parseHashLiteral_returns (k r : nat) (p : Parser L) :
  endsWithin r p → r ≤ k → r ≤ bound → Type_ (curToken p) ≠ EOF →
  returns r (parseHashLiteral pe k) p.
Proof.
  intros Hr Hk Hb Hcur. unfold parseHashLiteral. apply returns_gets.
  apply (returns_bind r r); [now apply parseHashLoop_returns|].
  intros [l|] p' Hp'; [|now apply returns_ret].
  apply (returns_expect r r); [exact Hp'| |].
  - intros _. pose proof (ends_advance _ _ Hp') as Hadv. done_with Hadv.
  - intros p'' Hp''. now apply returns_ret.
Qed.

(** *** Statements and blocks *)

Lemma parseLetStatement_returns (r : nat) (p : Parser L) :
  endsWithin r p → r ≤ bound → returns r (parseLetStatement pe) p.
Proof.
  intros Hr Hb. unfold parseLetStatement. apply returns_gets.
  apply (returns_expect r r); [exact Hr| |];
    [|intros p' Hp'; now apply returns_ret].
  intros Hident. cbn [negb]. apply returns_gets.
  assert (2 ≤ r) by (apply (ends_peek r p Hr); rewrite Hident; discriminate).
  apply (returns_expect r (r - 1)); [now apply ends_advance| |];
    [|intros p' Hp'; done_with Hp'].
  intros Hassign. cbn [negb]. apply returns_next.
  apply (returns_pe r (r - 1 - 1 - 1));
    [now apply ends_advance, ends_advance, ends_advance | lia |].
  intros [v|] p' Hp'; [|done_with Hp'].
  apply (returns_semicolon r (r - 1 - 1 - 1)); [exact Hp'|].
  intros p'' Hp''. done_with Hp''.
Qed.

Lemma parseReturnStatement_returns (r : nat) (p : Parser L) :
  endsWithin r p → r ≤ bound → Type_ (curToken p) ≠ EOF →
  returns r (parseReturnStatement pe) p.
Proof.
  intros Hr Hb Hcur. pose proof (ends_cur r p Hr Hcur).
  unfold parseReturnStatement. apply returns_gets, returns_next.
  apply (returns_pe r (r - 1)); [now apply ends_advance | lia |].
  intros [v|] p' Hp'; [|done_with Hp'].
  apply (returns_semicolon r (r - 1)); [exact Hp'|].
  intros p'' Hp''. done_with Hp''.
Qed.

Lemma parseExpressionStatement_returns (r : nat) (p : Parser L) :
  endsWithin r p → r < bound → returns r (parseExpressionStatement pe) p.
Proof.
  intros Hr Hb. unfold parseExpressionStatement. apply returns_gets.
  apply (returns_pe r r); [exact Hr | lia |].
  intros [v|] p' Hp'; [|now apply returns_ret].
  apply (returns_semicolon r r); [exact Hp'|].
  intros p'' Hp''. now apply returns_ret.
Qed.

Lemma parseStatement_returns (r : nat) (p : Parser L) :
  endsWithin r p → r < bound → returns r (parseStatement pe) p.
Proof.
  intros Hr Hb. unfold parseStatement. apply returns_gets.
  destruct (Type_ (curToken p)) eqn:E;
    try (now apply parseExpressionStatement_returns).
  - apply parseLetStatement_returns; [exact Hr | lia].
  - apply parseReturnStatement_returns; [exact Hr | lia |].
    rewrite E. discriminate.
Qed.

Lemma parseStatements_returns (inBlock : bool) (k r : nat)
  (acc : list Statement) (p : Parser L) :
  endsWithin r p → r ≤ k → r < bound →
  returns r (parseStatements pe inBlock k acc) p.
Proof.
  revert r acc p. induction k as [|k IH]; intros r acc p Hr Hk Hb.
  - cbn [parseStatements]. unfold curTokenIs. apply returns_gets, returns_gets.
    assert (Heof : Type_ (curToken p) = EOF) by (apply (Hr 0); lia).
    rewrite Heof. cbn. rewrite orb_true_r. now apply returns_ret.
  - cbn [parseStatements]. unfold curTokenIs. apply returns_gets, returns_gets.
    destruct (inBlock && token.eqb (Type_ (curToken p)) RBRACE
              || token.eqb (Type_ (curToken p)) EOF) eqn:E;
      [now apply returns_ret|].
    apply orb_false_iff in E as [_ E].
    assert (Hcur : Type_ (curToken p) ≠ EOF).
    { intros Heq. rewrite Heq in E. discriminate E. }
    pose proof (ends_cur r p Hr Hcur).
    apply (returns_bind r r); [now apply parseStatement_returns|].
    intros stmt p' Hp'. apply returns_next.
    apply (returns_weaken (r - 1)); [|lia].
    apply IH; [now apply ends_advance | lia | lia].
Qed.

Lemma parseBlockStatement_returns (k r : nat) (p : Parser L) :
  endsWithin r p → r ≤ k → r ≤ bound → Type_ (curToken p) ≠ EOF →
  returns r (parseBlockStatement pe k) p.
Proof.
  intros Hr Hk Hb Hcur. pose proof (ends_cur r p Hr Hcur).
  unfold parseBlockStatement. apply returns_gets, returns_next.
  apply (returns_bind r (r - 1)).
  - apply parseStatements_returns; [now apply ends_advance | lia | lia].
  - intros stmts p' Hp'. done_with Hp'.
Qed.

Lemma block_after_brace (k r r0 : nat) (p : Parser L) {B : Type}
  (cont : BlockStatement → P L B) :
  endsWithin r0 p → r0 ≤ k → r0 ≤ bound →
  Type_ (peekToken p) = LBRACE →
  (∀ b p', endsWithin r0 p' → returns r (cont b) p') →
  returns r (bind (parseBlockStatement pe k) cont) (advance p).
Proof.
  intros Hr Hk Hb Hbrace Hcont.
  apply (returns_bind r r0); [|exact Hcont].
  apply parseBlockStatement_returns; try assumption.
  - apply (ends_mono (r0 - 1)); [now apply ends_advance | lia].
  - rewrite advance_cur, Hbrace. discriminate.
Qed.

Lemma parseIfExpression_returns (k r : nat) (p : Parser L) :
  endsWithin r p → r ≤ k → r ≤ bound →
  returns r (parseIfExpression pe k) p.
Proof.
  intros Hr Hk Hb. unfold parseIfExpression. apply returns_gets.
  apply (returns_expect r r); [exact Hr| |];
    [|intros p' Hp'; now apply returns_ret].
  intros Hparen. cbn [negb]. apply returns_next.
  assert (2 ≤ r) by (apply (ends_peek r p Hr); rewrite Hparen; discriminate).
  apply (returns_pe r (r - 1 - 1));
    [now apply ends_advance, ends_advance | lia |].
  intros [cond|] p1 Hp1; [|done_with Hp1].
  apply (returns_expect r (r - 1 - 1)); [exact Hp1| |];
    [|intros p' Hp'; done_with Hp'].
  intros _. cbn [negb].
  apply (returns_expect r (r - 1 - 1 - 1)); [now apply ends_advance| |];
    [|intros p' Hp'; done_with Hp'].
  intros Hbrace. cbn [negb].
  apply (block_after_brace k r (r - 1 - 1 - 1));
    [now apply ends_advance | lia | lia | exact Hbrace |].
  intros consequence p2 Hp2. unfold peekTokenIs. apply returns_gets.
  destruct (token.eqb (Type_ (peekToken p2)) ELSE); [|done_with Hp2].
  apply returns_next.
  apply (returns_expect r (r - 1 - 1 - 1 - 1)); [now apply ends_advance| |];
    [|intros p' Hp'; done_with Hp'].
  intros Hbrace'. cbn [negb].
  apply (block_after_brace k r (r - 1 - 1 - 1 - 1));
    [now apply ends_advance | lia | lia | exact Hbrace' |].
  intros alternative p3 Hp3. done_with Hp3.
Qed.

Lemma parseParametersLoop_returns (k r : nat) (acc : list Identifier)
  (p : Parser L) :
  endsWithin r p → r ≤ k → returns r (parseParametersLoop k acc) p.
Proof.
  revert r acc p. induction k as [|k IH]; intros r acc p Hr Hk;
    cbn [parseParametersLoop]; unfold peekTokenIs; apply returns_gets;
    (destruct (token.eqb (Type_ (peekToken p)) COMMA) eqn:E;
     [|now apply returns_ret]);
    apply token_eqb_eq in E;
    assert (2 ≤ r) by (apply (ends_peek r p Hr); rewrite E; discriminate);
    [lia|].
  apply returns_next, returns_next, returns_gets.
  apply (returns_weaken (r - 1 - 1)); [|lia].
  apply IH; [now apply ends_advance, ends_advance | lia].
Qed.

Lemma parseFunctionParameters_returns (k r : nat) (p : Parser L) :
  endsWithin r p → r ≤ k → returns r (parseFunctionParameters k) p.
Proof.
  intros Hr Hk. unfold parseFunctionParameters, peekTokenIs.
  apply returns_gets.
  destruct (token.eqb (Type_ (peekToken p)) RPAREN).
  - apply returns_next. pose proof (ends_advance _ _ Hr) as Hadv.
    done_with Hadv.
  - apply returns_next, returns_gets.
    apply (returns_bind r r).
    + apply parseParametersLoop_returns; [|exact Hk].
      apply (ends_mono (r - 1)); [now apply ends_advance | lia].
    + intros ids p' Hp'. apply (returns_expect r r); [exact Hp'| |].
      * intros _. pose proof (ends_advance _ _ Hp') as Hadv. done_with Hadv.
      * intros p'' Hp''. now apply returns_ret.
Qed.

Lemma parseFunctionLiteral_returns (k r : nat) (p : Parser L) :
  endsWithin r p → r ≤ k → r ≤ bound →
  returns r (parseFunctionLiteral pe k) p.
Proof.
  intros Hr Hk Hb. unfold parseFunctionLiteral. apply returns_gets.
  apply (returns_expect r r); [exact Hr| |];
    [|intros p' Hp'; now apply returns_ret].
  intros Hparen. cbn [negb].
  apply (returns_bind r r).
  { apply parseFunctionParameters_returns; [|exact Hk].
    apply (ends_mono (r - 1)); [now apply ends_advance | lia]. }
  intros [params|] p1 Hp1; [|now apply returns_ret].
  apply (returns_expect r r); [exact Hp1| |];
    [|intros p' Hp'; now apply returns_ret].
  intros Hbrace. cbn [negb].
  apply (block_after_brace k r r); try assumption.
  intros body p2 Hp2. now apply returns_ret.
Qed.

(** *** Expressions *)

Lemma infixLoop_returns (k r prec : nat) (left : Expression) (p : Parser L) :
  endsWithin r p → r ≤ k → r ≤ bound →
  returns r (infixLoop pe k prec left) p.
Proof.
  revert r left p. induction k as [|k IH]; intros r left p Hr Hk Hb;
    unfold returns; rewrite infixLoop_eq.
  - assert (Heof : Type_ (peekToken p) = EOF).
    { rewrite <- advance_cur. apply (Hr 1). lia. }
    rewrite Heof. cbn [infixParseFns].
    exists (Some left), p. split; [|exact Hr].
    now destruct (negb (token.eqb EOF SEMICOLON)
                  && (prec <? default LOWEST (precedences EOF))).
  - destruct (negb (token.eqb (Type_ (peekToken p)) SEMICOLON)
              && (prec <? default LOWEST (precedences (Type_ (peekToken p)))))
      eqn:E; [|now exists (Some left), p].
    destruct (infixParseFns pe (S k) (Type_ (peekToken p))) as [infix|] eqn:F;
      [|now exists (Some left), p].
    assert (Hpeek : Type_ (peekToken p) ≠ EOF).
    { intros Heq. rewrite Heq in F. discriminate F. }
    pose proof (ends_peek r p Hr Hpeek).
    assert (Hadv : endsWithin (r - 1) (advance p)) by now apply ends_advance.
    assert (Hcur : Type_ (curToken (advance p)) ≠ EOF)
      by now rewrite advance_cur.
    assert (Hinfix : returns (r - 1) (infix left) (advance p)).
    { destruct (Type_ (peekToken p)); try discriminate F;
        injection F as <-;
        first [ apply parseInfixExpression_returns
              | apply parseCallExpression_returns
              | apply parseIndexExpression_returns ];
        try assumption; lia. }
    destruct Hinfix as ([l|] & p' & -> & Hp').
    + apply (returns_weaken (r - 1)); [|lia].
      apply IH; [exact Hp' | lia | lia].
    + exists None, p'. split; [reflexivity|].
      apply (ends_mono _ _ _ Hp'). lia.
Qed.

Lemma parseExpressionBody_returns (r prec : nat) (p : Parser L) :
  endsWithin r p → r ≤ bound →
  returns r (parseExpressionBody pe bound prec) p.
Proof.
  intros Hr Hb. unfold parseExpressionBody. apply returns_gets.
  destruct (prefixParseFns pe bound (Type_ (curToken p))) as [prefix|] eqn:F.
  - apply (returns_bind r r).
    + destruct (Type_ (curToken p)) eqn:Et; try discriminate F;
        injection F as <-;
        assert (Hcur : Type_ (curToken p) ≠ EOF)
          by (rewrite Et; discriminate);
        first [ now apply returns_ret
              | now apply parsePrefixExpression_returns
              | now apply parseGroupedExpression_returns
              | now apply parseHashLiteral_returns
              | now apply parseFunctionLiteral_returns
              | now apply parseIfExpression_returns
              | now apply parseArrayLiteral_returns
              | idtac ].
      unfold parseIntegerLiteral. apply returns_gets.
      destruct (parseInt (Literal (curToken p)));
        try (now apply returns_ret).
      apply returns_push, returns_ret. now apply ends_pushed.
    + intros [l|] p' Hp'; [|now apply returns_ret].
      now apply infixLoop_returns.
  - unfold noPrefixParseFnError. apply returns_push, returns_ret.
    now apply ends_pushed.
Qed.

End HandlersReturn.

Section ParserAlwaysReturns.
Import token Precedence Parser.

Section AnySource.
Context {L : Type} `{TokenSource L}.

Lemma parseExpression_returns (budget prec r : nat) (p : Parser L) :
  endsWithin r p → r < budget → returns r (parseExpression budget prec) p.
Proof.
  revert prec r p. induction budget as [|n IH]; intros prec r p Hr Hb; [lia|].
  cbn [parseExpression].
  apply (parseExpressionBody_returns (parseExpression n) n); [|exact Hr|lia].
  intros prec' r' p' Hr' Hb'. now apply IH.
Qed.

Lemma parseProgram_returns (budget r : nat) (p : Parser L) :
  endsWithin r p → r < budget → returns r (parseProgram budget) p.
Proof.
  intros Hr Hb. unfold parseProgram. apply (returns_bind r r).
  - apply (parseStatements_returns (parseExpression budget) budget);
      [|exact Hr|lia|exact Hb].
    intros prec r' p' Hr' Hb'. now apply parseExpression_returns.
  - intros stmts p' Hp'. now apply returns_ret.
Qed.

Lemma parseProgram_ends (budget : nat) (p p' : Parser L) (program : Program) :
  parseProgram budget p = Some (program, p') → Type_ (curToken p') = EOF.
Proof.
  unfold parseProgram, bind, ret. intros Hparse.
  destruct (parseStatements (parseExpression budget) false budget [] p)
    as [[stmts p1]|] eqn:E; [|discriminate].
  injection Hparse as _ <-.
  destruct (parseStatements_ends _ _ _ _ _ _ _ E) as [Heof|[Hb _]];
    [exact Heof | discriminate].
Qed.

(** X22: a block needs no closing brace.  On a token sequence that is all
    end-of-file tokens from some position on, [parseBlockStatement],
    called on the opening brace, returns and stands on the closing brace
    or, when there is none, on the end of file, and it records no error
    for the missing brace: [fn(x) { x + 1] parses like [fn(x) { x + 1 }],
    and a function whose brace is not closed takes the rest of the
    program into its body. *)
Theorem blocks_need_no_closing_brace (n k r : nat) (p : Parser L) :
  endsWithin r p → r ≤ k → r ≤ n → Type_ (curToken p) ≠ EOF →
  (∃ block p',
     parseBlockStatement (parseExpression n) k p = Some (block, p')
     ∧ (Type_ (curToken p') = RBRACE ∨ Type_ (curToken p') = EOF))
  ∧ parseToString 20 "fn(x) { x + 1" = Some ("fn(x) (x + 1)", [])
  ∧ parseToString 20 "fn(x) { x + 1 }" = Some ("fn(x) (x + 1)", [])
  ∧ parseToString 20 "fn(x) { x + 1; f(2)" = Some ("fn(x) (x + 1)f(2)", []).
Proof.
  intros Hr Hk Hn Hcur. split; [|repeat split; vm_compute; reflexivity].
  destruct (parseBlockStatement_returns (parseExpression n) n
              (λ prec r' p' Hr' Hb', parseExpression_returns n prec r' p' Hr' Hb')
              k r p Hr Hk Hn Hcur) as (block & p' & Hparse & _).
  exists block, p'. split; [exact Hparse|].
  unfold parseBlockStatement, bind, gets, nextToken, modify, ret in Hparse.
  destruct (parseStatements (parseExpression n) true k [] (advance p))
    as [[stmts q1]|] eqn:E; [|discriminate].
  injection Hparse as _ <-.
  destruct (parseStatements_ends _ _ _ _ _ _ _ E) as [Heof|[_ Hb]]; auto.
Qed.

End AnySource.

(** A parser on a lexer sees end-of-file tokens from the token with the
    number of the input's length on. *)
Lemma lexer_endsWithin (inp : string) :
  endsWithin (String.length inp) (Parser.new (Lexer.new inp)).
Proof.
  intros j Hj.
  assert (Hup : upcoming (S j) (Parser.new (Lexer.new inp))
                = tokens (S j) (Lexer.new inp)) by apply upcoming_lexer.
  pose proof (tokens_reach_eof inp j 0 ltac:(lia)) as Heof.
  rewrite <- new_at in Heof. rewrite <- Hup in Heof.
  replace (S j) with (j + 1) in Heof by lia.
  rewrite upcoming_app, lookup_app_r in Heof
    by (rewrite upcoming_length; lia).
  rewrite upcoming_length, Nat.sub_diag in Heof. cbn in Heof.
  now injection Heof as ->.
Qed.

(** X25: the parser comes to an end on every input.  Every loop of the
    parser consumes a token or stops, and every nested call of
    [parseExpression] comes after a consumed token, so on a token
    sequence that is all end-of-file tokens from some position on,
    [parseProgram] returns a program (whatever errors it records) and
    stands on an end-of-file token; a budget above that position is
    never exhausted.  For a source text, a budget above its length is
    enough, and the usual entry sequence then reaches the evaluator. *)
Theorem parser_always_returns (inp : string) (budget : nat) :
  String.length inp < budget →
  (∃ program p', parseProgram budget (Parser.new (Lexer.new inp))
                 = Some (program, p')
                 ∧ Type_ (curToken p') = EOF)
  ∧ run budget inp ≠ None
  ∧ (∀ (ts : list Token) r,
       endsWithin r (Parser.new ts) → r < budget →
       ∃ program p', parseProgram budget (Parser.new ts) = Some (program, p')
                     ∧ Type_ (curToken p') = EOF).
Proof.
  intros Hb.
  destruct (parseProgram_returns budget _ _ (lexer_endsWithin inp) Hb)
    as (program & p' & Hparse & Hends).
  split; [|split].
  - exists program, p'. split; [exact Hparse|].
    exact (parseProgram_ends _ _ _ _ Hparse).
  - unfold run. rewrite Hparse. discriminate.
  - intros ts r Hends' Hr.
    destruct (parseProgram_returns budget r (Parser.new ts) Hends' Hr)
      as (program' & p'' & Hparse' & _).
    exists program', p''. split; [exact Hparse'|].
    exact (parseProgram_ends _ _ _ _ Hparse').
Qed.

End ParserAlwaysReturns.

Lemma parser_always_returns_witness :
  ∃ program p',
    Parser.parseProgram 10 (Parser.new (Lexer.new "let x = ;"))
    = Some (program, p')
    ∧ Type_ (Parser.curToken p') = token.EOF.
Proof.
  refine (proj1 (parser_always_returns "let x = ;" 10 _)). simpl. lia.
Defined.

Lemma blocks_need_no_closing_brace_witness :
  ∃ block p',
    Parser.parseBlockStatement (Parser.parseExpression 5) 5
      (Parser.new (Lexer.new "{ x"))
    = Some (block, p')
    ∧ (Type_ (Parser.curToken p') = token.RBRACE
       ∨ Type_ (Parser.curToken p') = token.EOF).
Proof.
  refine (proj1 (blocks_need_no_closing_brace 5 5 3
                   (Parser.new (Lexer.new "{ x"))
                   (lexer_endsWithin "{ x") _ _ _)).
  - lia.
  - lia.
  - vm_compute. discriminate.
Defined.

(** * The parser reads the whole language *)

(** The same tokens, grouped otherwise. *)
Ltac same_tokens H :=
  let H' := fresh in
  pose proof H as H';
  repeat (first [rewrite <- app_assoc in H' | progress cbn [app] in H']);
  repeat (first [rewrite <- app_assoc | progress cbn [app]]);
  exact H'.

(** ** The tokens before the parser

    What [sees] says about the current and the next token of the parser
    and of the parser some tokens further. *)
Section Seeing.
Import token Precedence Parser.
Context {L : Type} `{TokenSource L}.

Local Abbreviation skip k p := (Nat.iter k advance p).

Lemma sees_app (p : Parser L) (a b : list Token) :
  sees p (a ++ b) → sees p a ∧ sees (skip (length a) p) b.
Proof.
  unfold sees. rewrite length_app. intros Hup.
  now apply upcoming_split in Hup.
Qed.

Lemma sees_cons (p : Parser L) (t : Token) (ts : list Token) :
  sees p (t :: ts) → curToken p = t ∧ sees (advance p) ts.
Proof. unfold sees. cbn [length]. apply upcoming_cons. Qed.

Lemma sees_join (p : Parser L) (a b : list Token) :
  sees p a → sees (skip (length a) p) b → sees p (a ++ b).
Proof.
  unfold sees. intros Ha Hb. rewrite length_app, upcoming_app.
  now rewrite Ha, Hb.
Qed.

Lemma sees_one (p : Parser L) (t : Token) : curToken p = t → sees p [t].
Proof. unfold sees. cbn. now intros ->. Qed.

(** The tokens between [a] and [c]. *)
Lemma sees_middle (p : Parser L) (a b c : list Token) :
  sees p (a ++ b ++ c) → sees (skip (length a) p) b.
Proof.
  intros Hs. apply sees_app in Hs as [_ Hs]. now apply sees_app in Hs as [Hs _].
Qed.

Lemma sees_at (p : Parser L) (a : list Token) (t : Token) (b : list Token) :
  sees p (a ++ t :: b) → curToken (skip (length a) p) = t.
Proof.
  intros Hs. apply sees_app in Hs as [_ Hs]. now apply sees_cons in Hs as [Hs _].
Qed.

Lemma peek_at (k : nat) (p : Parser L) :
  peekToken (skip k p) = curToken (skip (S k) p).
Proof. symmetry. apply advance_cur. Qed.

Lemma sees_phrase (p : Parser L) (a b : list Token) (t : Token)
  (rest : list Token) :
  sees p (a ++ b ++ t :: rest) → sees (skip (length a) p) (b ++ [t]).
Proof.
  intros Hs. apply (sees_middle p a (b ++ [t]) rest).
  now rewrite <- app_assoc.
Qed.

Lemma sees_phrase_at (p : Parser L) (a b : list Token) (t : Token)
  (rest : list Token) (k : nat) :
  sees p (a ++ b ++ t :: rest) → k = length a → sees (skip k p) (b ++ [t]).
Proof. intros Hs ->. now apply (sees_phrase p a b t rest). Qed.

Lemma sees_at_k (p : Parser L) (a : list Token) (t : Token) (b : list Token)
  (k : nat) :
  sees p (a ++ t :: b) → k = length a → curToken (skip k p) = t.
Proof. intros Hs ->. now apply (sees_at p a t b). Qed.

Lemma skip_to (a b : nat) (p : Parser L) : a = b → skip a p = skip b p.
Proof. now intros ->. Qed.

(** The same from a parser [b] tokens further on. *)
Lemma sees_part (b : nat) (p : Parser L) (a x c : list Token) (k : nat) :
  sees (skip b p) (a ++ x ++ c) → k = b + length a → sees (skip k p) x.
Proof.
  intros Hs ->. rewrite (skip_to _ (length a + b)) by lia.
  rewrite <- skip_skip. now apply (sees_middle _ a x c).
Qed.

Lemma sees_token (b : nat) (p : Parser L) (a : list Token) (t : Token)
  (c : list Token) (k : nat) :
  sees (skip b p) (a ++ t :: c) → k = b + length a →
  curToken (skip k p) = t.
Proof.
  intros Hs ->. rewrite (skip_to _ (length a + b)) by lia.
  rewrite <- skip_skip. now apply (sees_at _ a t c).
Qed.

Lemma peek_first (p : Parser L) (t : Token) (ts : list Token) :
  sees (skip 1 p) (t :: ts) → peekToken p = t.
Proof.
  intros Hs. rewrite <- advance_cur. exact (proj1 (sees_cons _ _ _ Hs)).
Qed.

End Seeing.

(** ** One turn of the operator loop *)
Section Turns.
Import token Precedence Parser.
Context {L : Type} `{TokenSource L}.

Local Abbreviation skip k p := (Nat.iter k advance p).

Variable pe : nat → P L (option Expression).

(** The handler of the first token, then the loop. *)
Lemma body_handler (n prec : nat) (p p1 : Parser L)
  (h : P L (option Expression)) (l : Expression) :
  prefixParseFns pe n (Type_ (curToken p)) = Some h →
  h p = Some (Some l, p1) →
  parseExpressionBody pe n prec p = infixLoop pe n prec l p1.
Proof.
  intros Hfn Hh. unfold parseExpressionBody, bind, gets.
  now rewrite Hfn, Hh.
Qed.

(** One turn of the loop. *)
Lemma infixLoop_turn (n prec q : nat) (left l : Expression)
  (p p' : Parser L) (h : Expression → P L (option Expression)) :
  infixParseFns pe (S n) (Type_ (peekToken p)) = Some h →
  precedences (Type_ (peekToken p)) = Some q →
  prec < q →
  h left (advance p) = Some (Some l, p') →
  infixLoop pe (S n) prec left p = infixLoop pe n prec l p'.
Proof.
  intros Hfn Hq Hlt Hh. rewrite infixLoop_eq.
  assert (Hsemi : negb (token.eqb (Type_ (peekToken p)) SEMICOLON) = true)
    by (destruct (Type_ (peekToken p)); try discriminate Hq; reflexivity).
  rewrite Hsemi, Hq, Hfn. change (default LOWEST (Some q)) with q.
  cbn [andb]. destruct (Nat.ltb_spec prec q); [|lia].
  now rewrite Hh.
Qed.

End Turns.

(** ** What each parsing method returns

    One equation per method of the parser: what it returns once the
    expressions inside it are read and the tokens it expects are there. *)
Section HandlerEquations.
Import token Precedence Parser.
Context {L : Type} `{TokenSource L}.

Variable pe : nat → P L (option Expression).

Ltac run :=
  unfold bind, gets, ret, nextToken, modify, expectPeek, peekTokenIs,
    curTokenIs, bind, gets, ret, nextToken, modify.

Lemma expectPeek_found (t : TokenType) (p : Parser L) :
  Type_ (peekToken p) = t → expectPeek t p = Some (true, advance p).
Proof. intros <-. run. now rewrite eqb_refl. Qed.

Lemma prefix_eq (p p1 : Parser L) (r : Expression) :
  pe PREFIX (advance p) = Some (Some r, p1) →
  parsePrefixExpression pe p
  = Some (Some (PrefixExpression (curToken p) (Literal (curToken p)) r), p1).
Proof. intros Hr. unfold parsePrefixExpression. run. now rewrite Hr. Qed.

Lemma group_eq (p p1 : Parser L) (e : Expression) :
  pe LOWEST (advance p) = Some (Some e, p1) →
  Type_ (peekToken p1) = RPAREN →
  parseGroupedExpression pe p = Some (Some e, advance p1).
Proof.
  intros He Hr. unfold parseGroupedExpression. run.
  now rewrite He, Hr, eqb_refl.
Qed.

Lemma infix_eq (p p1 : Parser L) (left r : Expression) (q : nat) :
  precedences (Type_ (curToken p)) = Some q →
  pe q (advance p) = Some (Some r, p1) →
  parseInfixExpression pe left p
  = Some (Some (InfixExpression (curToken p) left (Literal (curToken p)) r),
          p1).
Proof.
  intros Hq Hr. rewrite parseInfixExpression_eq, Hq.
  change (default LOWEST (Some q)) with q. now rewrite Hr.
Qed.

Lemma index_eq (p p1 : Parser L) (left i : Expression) :
  pe LOWEST (advance p) = Some (Some i, p1) →
  Type_ (peekToken p1) = RBRACKET →
  parseIndexExpression pe left p
  = Some (Some (IndexExpression (curToken p) left i), advance p1).
Proof.
  intros Hi Hr. unfold parseIndexExpression. run.
  now rewrite Hi, Hr, eqb_refl.
Qed.

Lemma listLoop_stop (n : nat) (acc : list Expression) (p : Parser L) :
  Type_ (peekToken p) ≠ COMMA →
  parseExpressionListLoop pe n acc p = Some (Some acc, p).
Proof.
  intros Hne. destruct n; cbn [parseExpressionListLoop]; run;
    now rewrite (eqb_neq _ _ Hne).
Qed.

Lemma listLoop_step (n : nat) (acc : list Expression) (p p1 : Parser L)
  (e : Expression) :
  Type_ (peekToken p) = COMMA →
  pe LOWEST (advance (advance p)) = Some (Some e, p1) →
  parseExpressionListLoop pe (S n) acc p
  = parseExpressionListLoop pe n (acc ++ [e]) p1.
Proof.
  intros Hc He. cbn [parseExpressionListLoop]. run.
  now rewrite Hc, eqb_refl, He.
Qed.

Lemma list_empty (n : nat) (end_ : TokenType) (p : Parser L) :
  Type_ (peekToken p) = end_ →
  parseExpressionList pe n end_ p = Some (Some [], advance p).
Proof. intros <-. unfold parseExpressionList. run. now rewrite eqb_refl. Qed.

Lemma list_eq (n : nat) (end_ : TokenType) (p p1 p2 : Parser L)
  (e : Expression) (l : list Expression) :
  Type_ (peekToken p) ≠ end_ →
  pe LOWEST (advance p) = Some (Some e, p1) →
  parseExpressionListLoop pe n [e] p1 = Some (Some l, p2) →
  Type_ (peekToken p2) = end_ →
  parseExpressionList pe n end_ p = Some (Some l, advance p2).
Proof.
  intros Hne He Hl Hend. unfold parseExpressionList. run.
  rewrite (eqb_neq _ _ Hne), He.
  rewrite Hl, Hend. now rewrite eqb_refl.
Qed.

Lemma call_eq (n : nat) (p p1 : Parser L) (f : Expression)
  (args : list Expression) :
  parseExpressionList pe n RPAREN p = Some (Some args, p1) →
  parseCallExpression pe n f p
  = Some (Some (CallExpression (curToken p) f args), p1).
Proof. intros Ha. unfold parseCallExpression, bind, gets. now rewrite Ha. Qed.

Lemma array_eq (n : nat) (p p1 : Parser L) (es : list Expression) :
  parseExpressionList pe n RBRACKET p = Some (Some es, p1) →
  parseArrayLiteral pe n p = Some (Some (ArrayLiteral (curToken p) es), p1).
Proof. intros Ha. unfold parseArrayLiteral, bind, gets. now rewrite Ha. Qed.

Lemma hashLoop_last (n : nat) (acc : list (Expression * Expression))
  (p p1 p2 : Parser L) (k v : Expression) :
  Type_ (peekToken p) ≠ RBRACE →
  pe LOWEST (advance p) = Some (Some k, p1) →
  Type_ (peekToken p1) = COLON →
  pe LOWEST (advance (advance p1)) = Some (Some v, p2) →
  Type_ (peekToken p2) = RBRACE →
  parseHashLoop pe (S n) acc p = Some (Some (acc ++ [(k, v)]), p2).
Proof.
  intros Hne Hk Hcolon Hv Hend. cbn [parseHashLoop]. run.
  rewrite (eqb_neq _ _ Hne), Hk, Hcolon, eqb_refl. cbn [negb].
  rewrite Hv, Hend, eqb_refl. now apply parseHashLoop_end.
Qed.

Lemma hashLoop_more (n : nat) (acc : list (Expression * Expression))
  (p p1 p2 : Parser L) (k v : Expression) :
  Type_ (peekToken p) ≠ RBRACE →
  pe LOWEST (advance p) = Some (Some k, p1) →
  Type_ (peekToken p1) = COLON →
  pe LOWEST (advance (advance p1)) = Some (Some v, p2) →
  Type_ (peekToken p2) = COMMA →
  parseHashLoop pe (S n) acc p
  = parseHashLoop pe n (acc ++ [(k, v)]) (advance p2).
Proof.
  intros Hne Hk Hcolon Hv Hcomma. cbn [parseHashLoop]. run.
  rewrite (eqb_neq _ _ Hne), Hk, Hcolon, eqb_refl. cbn [negb].
  rewrite Hv, Hcomma. change (token.eqb COMMA RBRACE) with false.
  cbn beta iota. now rewrite Hcomma, eqb_refl.
Qed.

Lemma hash_eq (n : nat) (p p1 : Parser L)
  (pairs : list (Expression * Expression)) :
  parseHashLoop pe n [] p = Some (Some pairs, p1) →
  Type_ (peekToken p1) = RBRACE →
  parseHashLiteral pe n p
  = Some (Some (HashLiteral (curToken p) pairs), advance p1).
Proof.
  intros Hp Hend. unfold parseHashLiteral. run.
  now rewrite Hp, Hend, eqb_refl.
Qed.

Lemma block_eq (n : nat) (p p1 : Parser L) (stmts : list Statement) :
  parseStatements pe true n [] (advance p) = Some (stmts, p1) →
  parseBlockStatement pe n p = Some (Block (curToken p) stmts, p1).
Proof. intros Hs. unfold parseBlockStatement. run. now rewrite Hs. Qed.

Lemma if_eq (n : nat) (p p1 p2 : Parser L) (c : Expression)
  (b : BlockStatement) :
  Type_ (peekToken p) = LPAREN →
  pe LOWEST (advance (advance p)) = Some (Some c, p1) →
  Type_ (peekToken p1) = RPAREN →
  Type_ (peekToken (advance p1)) = LBRACE →
  parseBlockStatement pe n (advance (advance p1)) = Some (b, p2) →
  Type_ (peekToken p2) ≠ ELSE →
  parseIfExpression pe n p
  = Some (Some (IfExpression (curToken p) c b None), p2).
Proof.
  intros Hlp Hc Hrp Hlb Hb Helse. unfold parseIfExpression. run.
  rewrite Hlp, eqb_refl. cbn [negb]. rewrite Hc, Hrp, eqb_refl. cbn [negb].
  rewrite Hlb, eqb_refl. cbn [negb]. rewrite Hb.
  now rewrite (eqb_neq _ _ Helse).
Qed.

Lemma if_else_eq (n : nat) (p p1 p2 p3 : Parser L) (c : Expression)
  (b b' : BlockStatement) :
  Type_ (peekToken p) = LPAREN →
  pe LOWEST (advance (advance p)) = Some (Some c, p1) →
  Type_ (peekToken p1) = RPAREN →
  Type_ (peekToken (advance p1)) = LBRACE →
  parseBlockStatement pe n (advance (advance p1)) = Some (b, p2) →
  Type_ (peekToken p2) = ELSE →
  Type_ (peekToken (advance p2)) = LBRACE →
  parseBlockStatement pe n (advance (advance p2)) = Some (b', p3) →
  parseIfExpression pe n p
  = Some (Some (IfExpression (curToken p) c b (Some b')), p3).
Proof.
  intros Hlp Hc Hrp Hlb Hb Helse Hlb' Hb'. unfold parseIfExpression. run.
  rewrite Hlp, eqb_refl. cbn [negb]. rewrite Hc, Hrp, eqb_refl. cbn [negb].
  rewrite Hlb, eqb_refl. cbn [negb]. rewrite Hb, Helse, eqb_refl.
  rewrite Hlb', eqb_refl. cbn [negb]. now rewrite Hb'.
Qed.

Lemma parametersLoop_stop (n : nat) (acc : list Identifier) (p : Parser L) :
  Type_ (peekToken p) ≠ COMMA →
  parseParametersLoop n acc p = Some (acc, p).
Proof.
  intros Hne. destruct n; cbn [parseParametersLoop]; run;
    now rewrite (eqb_neq _ _ Hne).
Qed.

Lemma parametersLoop_step (n : nat) (acc : list Identifier) (p : Parser L) :
  Type_ (peekToken p) = COMMA →
  parseParametersLoop (S n) acc p
  = parseParametersLoop n
      (acc ++ [mkIdentifier (curToken (advance (advance p)))
                            (Literal (curToken (advance (advance p))))])
      (advance (advance p)).
Proof.
  intros Hc. cbn [parseParametersLoop]. run. now rewrite Hc, eqb_refl.
Qed.

Lemma parameters_none (n : nat) (p : Parser L) :
  Type_ (peekToken p) = RPAREN →
  parseFunctionParameters n p = Some (Some [], advance p).
Proof.
  intros Hr. unfold parseFunctionParameters. run. now rewrite Hr, eqb_refl.
Qed.

Lemma parameters_eq (n : nat) (p p1 : Parser L) (names : list Identifier) :
  Type_ (peekToken p) ≠ RPAREN →
  parseParametersLoop n
    [mkIdentifier (curToken (advance p)) (Literal (curToken (advance p)))]
    (advance p) = Some (names, p1) →
  Type_ (peekToken p1) = RPAREN →
  parseFunctionParameters n p = Some (Some names, advance p1).
Proof.
  intros Hne Hl Hr. unfold parseFunctionParameters. run.
  rewrite (eqb_neq _ _ Hne), Hl, Hr. now rewrite eqb_refl.
Qed.

Lemma function_eq (n : nat) (p p1 p2 : Parser L) (params : list Identifier)
  (b : BlockStatement) :
  Type_ (peekToken p) = LPAREN →
  parseFunctionParameters n (advance p) = Some (Some params, p1) →
  Type_ (peekToken p1) = LBRACE →
  parseBlockStatement pe n (advance p1) = Some (b, p2) →
  parseFunctionLiteral pe n p
  = Some (Some (FunctionLiteral (curToken p) params b), p2).
Proof.
  intros Hlp Hp Hlb Hb. unfold parseFunctionLiteral. run.
  rewrite Hlp, eqb_refl. cbn [negb]. rewrite Hp, Hlb, eqb_refl. cbn [negb].
  now rewrite Hb.
Qed.

(** Statements: the expression, then the semicolon when there is one. *)
Lemma let_eq (p p1 : Parser L) (v : Expression) :
  Type_ (curToken p) = LET →
  Type_ (peekToken p) = IDENT →
  Type_ (peekToken (advance p)) = ASSIGN →
  pe LOWEST (advance (advance (advance p))) = Some (Some v, p1) →
  parseStatement pe p
  = Some (Some (LetStatement (curToken p)
                  (mkIdentifier (peekToken p) (Literal (peekToken p))) v),
          if token.eqb (Type_ (peekToken p1)) SEMICOLON
          then advance p1 else p1).
Proof.
  intros Hlet Hid Has Hv. unfold parseStatement, bind at 1, gets at 1.
  rewrite Hlet. unfold parseLetStatement. run.
  rewrite Hid, eqb_refl. cbn [negb]. rewrite Has, eqb_refl. cbn [negb].
  rewrite Hv, !advance_cur.
  now destruct (token.eqb (Type_ (peekToken p1)) SEMICOLON).
Qed.

Lemma return_eq (p p1 : Parser L) (v : Expression) :
  Type_ (curToken p) = RETURN →
  pe LOWEST (advance p) = Some (Some v, p1) →
  parseStatement pe p
  = Some (Some (ReturnStatement (curToken p) v),
          if token.eqb (Type_ (peekToken p1)) SEMICOLON
          then advance p1 else p1).
Proof.
  intros Hret Hv. unfold parseStatement, bind at 1, gets at 1.
  rewrite Hret. unfold parseReturnStatement. run. rewrite Hv.
  now destruct (token.eqb (Type_ (peekToken p1)) SEMICOLON).
Qed.

Lemma expression_eq (p p1 : Parser L) (e : Expression) :
  Type_ (curToken p) ≠ LET → Type_ (curToken p) ≠ RETURN →
  pe LOWEST p = Some (Some e, p1) →
  parseStatement pe p
  = Some (Some (ExpressionStatement (curToken p) e),
          if token.eqb (Type_ (peekToken p1)) SEMICOLON
          then advance p1 else p1).
Proof.
  intros Hlet Hret He.
  assert (Hexpr : parseExpressionStatement pe p
                  = Some (Some (ExpressionStatement (curToken p) e),
                          if token.eqb (Type_ (peekToken p1)) SEMICOLON
                          then advance p1 else p1)).
  { unfold parseExpressionStatement. run. rewrite He.
    now destruct (token.eqb (Type_ (peekToken p1)) SEMICOLON). }
  unfold parseStatement, bind at 1, gets at 1.
  destruct (Type_ (curToken p)); try exact Hexpr; congruence.
Qed.

End HandlerEquations.

(** ** The first token of a phrase *)
Section FirstTokens.
Import token Precedence Parser.

(** The first token of a phrase that begins with an expression is the
    first token of that expression. *)
Local Ltac first_of_left :=
  match goal with
  | Hs : ∃ t rest, _ = t :: rest ∧ _ |- _ =>
      destruct Hs as (t & rest & -> & Ht);
      eexists _, _; split; [reflexivity | exact Ht]
  end.

Lemma Reads_starts (lo hi : nat) (e : Expression) (ts : list Token) :
  Reads lo hi e ts →
  ∃ t rest, ts = t :: rest ∧ startsExpression (Type_ t) = true.
Proof.
  apply (Reads_mut
           (λ _ _ _ ts, ∃ t rest, ts = t :: rest
                                  ∧ startsExpression (Type_ t) = true)
           (λ _ _, True) (λ _ _, True) (λ _ _, True) (λ _ _, True)
           (λ _ _, True) (λ _ _, True)); intros; try exact I;
    try (eexists _, _; split; [reflexivity|];
         match goal with Ht : Type_ _ = _ |- _ => now rewrite Ht end).
  - eexists _, _. split; [reflexivity|].
    match goal with Hop : isPrefixOperator (Type_ ?o) = true |- _ =>
      now destruct (Type_ o) end.
  - first_of_left.
  - first_of_left.
  - first_of_left.
Qed.

Lemma Reads_nonempty (lo hi : nat) (e : Expression) (ts : list Token) :
  Reads lo hi e ts → 1 ≤ length ts.
Proof.
  intros Hr. destruct (Reads_starts _ _ _ _ Hr) as (t & rest & -> & _).
  simpl. lia.
Qed.

Lemma ReadsStatement_starts (st : Statement) (ts : list Token) :
  ReadsStatement st ts →
  ∃ t rest, ts = t :: rest
            ∧ (Type_ t = LET ∨ Type_ t = RETURN
               ∨ startsExpression (Type_ t) = true).
Proof.
  intros [lt name eq e ts' Hlt _ _ _ | rt e ts' Hrt _ | tok e rest He].
  - exists lt, (name :: eq :: ts'). auto.
  - exists rt, ts'. auto.
  - destruct (Reads_starts _ _ _ _ He) as (t & rest' & [= <- <-] & Ht).
    exists tok, rest. auto.
Qed.

Lemma ReadsStatements_starts (stmts : list Statement) (ts : list Token) :
  ReadsStatements stmts ts →
  ts = []
  ∨ ∃ t rest, ts = t :: rest
              ∧ (Type_ t = LET ∨ Type_ t = RETURN
                 ∨ startsExpression (Type_ t) = true).
Proof.
  intros [|st ts' semi stmts' rest Hst _ _|st ts' stmts' rest Hst _ _];
    [now left| |];
    destruct (ReadsStatement_starts _ _ Hst) as (t & r & -> & Ht); right.
  - now exists t, (r ++ semi :: rest).
  - now exists t, (r ++ rest).
Qed.

End FirstTokens.

(** ** Reading expressions *)
Section ReadingExpressions.
Import token Precedence Parser.
Context {L : Type} `{TokenSource L}.

Local Abbreviation skip k p := (Nat.iter k advance p).

Lemma skip_last (k : nat) (p : Parser L) :
  1 ≤ k → advance (skip (k - 1) p) = skip k p.
Proof.
  intros Hk. change (advance (skip (k - 1) p)) with (skip (S (k - 1)) p).
  f_equal. lia.
Qed.

(** The token after a phrase that the parser has before it. *)
Lemma sees_after (p : Parser L) (ts : list Token) (t : Token) :
  sees p (ts ++ [t]) → curToken (skip (length ts) p) = t.
Proof. apply sees_at. Qed.

Lemma sees_after_at (a : nat) (p : Parser L) (ts : list Token) (t : Token) :
  sees (skip a p) (ts ++ [t]) → curToken (skip (a + length ts) p) = t.
Proof.
  intros Hs. rewrite (skip_to _ (length ts + a)) by lia.
  rewrite <- skip_skip. now apply sees_after.
Qed.

(** An expression read to its end: the loop stops where the next token
    binds no tighter than the operator before the expression. *)
Lemma expression_done (lo hi : nat) (e : Expression) (ts : list Token) :
  Reads lo hi e ts → expressionRead lo hi e ts →
  ∀ (b prec a : nat) (p : Parser L) (t : Token),
    prec < lo → length ts < b →
    sees (skip a p) (ts ++ [t]) → mayFollow hi t →
    default LOWEST (precedences (Type_ t)) ≤ prec →
    parseExpression b prec (skip a p)
    = Some (Some e, skip (a + length ts - 1) p).
Proof.
  intros Hr He b prec a p t Hprec Hb Hs Hf Hstop.
  pose proof (Reads_nonempty _ _ _ _ Hr) as Hne.
  destruct b as [|f]; [lia|].
  destruct (He f prec (skip a p) t Hprec ltac:(lia) Hs Hf)
    as (n' & _ & ->).
  rewrite infixLoop_stop.
  - f_equal. f_equal. rewrite skip_skip. apply skip_to. lia.
  - rewrite peek_at, (skip_to (S (length ts - 1)) (length ts)) by lia.
    now rewrite (sees_after _ _ _ Hs).
Qed.

(** The same for an expression between brackets, in a list or in a
    statement. *)
Lemma expression_whole (e : Expression) (ts : list Token) :
  Reads loosest LOWEST e ts → expressionRead loosest LOWEST e ts →
  ∀ (b a : nat) (p : Parser L) (t : Token),
    length ts < b →
    sees (skip a p) (ts ++ [t]) → endsExpression t →
    parseExpression b LOWEST (skip a p)
    = Some (Some e, skip (a + length ts - 1) p).
Proof.
  intros Hr He b a p t Hb Hs [Hnone Helse].
  apply (expression_done loosest LOWEST e ts Hr He b LOWEST a p t);
    try assumption.
  - unfold LOWEST, loosest. lia.
  - split; [|exact Helse]. rewrite Hnone. reflexivity.
  - rewrite Hnone. reflexivity.
Qed.

(** *** The expressions of one token *)

Lemma atom_read (lo hi : nat) (e : Expression) (tok : Token)
  (h : P L (option Expression)) :
  (∀ pe n, prefixParseFns pe n (Type_ tok) = Some h) →
  (∀ p, curToken p = tok → h p = Some (Some e, p)) →
  expressionRead lo hi e [tok].
Proof.
  intros Hfn Hh f prec p t Hprec Hf Hs Hfollow.
  apply sees_cons in Hs as [Hcur _]. exists f. split; [simpl; lia|].
  cbn [parseExpression].
  apply (body_handler _ _ _ _ _ h); [now rewrite Hcur | now apply Hh].
Qed.

Lemma identifier_read (lo hi : nat) (tok : Token) :
  Type_ tok = IDENT →
  expressionRead lo hi (IdentifierE (mkIdentifier tok (Literal tok))) [tok].
Proof.
  intros Ht. apply (atom_read _ _ _ _ parseIdentifier).
  - intros pe n. now rewrite Ht.
  - intros p <-. reflexivity.
Qed.

Lemma integer_read (lo hi : nat) (tok : Token) (z : Z) :
  Type_ tok = INT → parseInt (Literal tok) = Num z →
  expressionRead lo hi (IntegerLiteral tok (Num z)) [tok].
Proof.
  intros Ht Hz. apply (atom_read _ _ _ _ parseIntegerLiteral).
  - intros pe n. now rewrite Ht.
  - intros p <-. unfold parseIntegerLiteral, bind, gets. now rewrite Hz.
Qed.

Lemma string_read (lo hi : nat) (tok : Token) :
  Type_ tok = STRING →
  expressionRead lo hi (StringLiteral tok (Literal tok)) [tok].
Proof.
  intros Ht. apply (atom_read _ _ _ _ parseStringLiteral).
  - intros pe n. now rewrite Ht.
  - intros p <-. reflexivity.
Qed.

Lemma boolean_read (lo hi : nat) (tok : Token) (b : bool) :
  Type_ tok = (if b then TRUE else FALSE) →
  expressionRead lo hi (BooleanLiteral tok b) [tok].
Proof.
  intros Ht. apply (atom_read _ _ _ _ parseBoolean).
  - intros pe n. rewrite Ht. now destruct b.
  - intros p <-. unfold parseBoolean, bind, gets, curTokenIs, gets, ret.
    rewrite Ht. now destruct b.
Qed.

(** *** Expressions that start with their own token *)

(** What is common to the expressions whose first token selects the
    handler that reads all of them. *)
Lemma phrase_read (lo hi : nat) (e : Expression) (ts : list Token) :
  1 ≤ length ts →
  (∀ (f : nat) (p : Parser L) (t : Token),
     length ts ≤ f → sees p (ts ++ [t]) → mayFollow hi t →
     ∃ h, prefixParseFns (parseExpression f) f (Type_ (curToken p)) = Some h
          ∧ h p = Some (Some e, skip (length ts - 1) p)) →
  expressionRead lo hi e ts.
Proof.
  intros Hne Hh f prec p t Hprec Hf Hs Hfollow.
  destruct (Hh f p t Hf Hs Hfollow) as (h & Hfn & Hrun).
  exists f. split; [lia|]. cbn [parseExpression].
  now apply (body_handler _ _ _ _ _ h).
Qed.

Lemma group_read (lo hi : nat) (lp rp : Token) (e : Expression)
  (ts : list Token) :
  Type_ lp = LPAREN → Type_ rp = RPAREN →
  Reads loosest LOWEST e ts → expressionRead loosest LOWEST e ts →
  expressionRead lo hi e (lp :: ts ++ [rp]).
Proof.
  intros Hlp Hrp Hr He. pose proof (Reads_nonempty _ _ _ _ Hr) as Hne.
  apply phrase_read; [simpl; lia|].
  intros f p t Hf Hs _. cbn [length] in Hf. rewrite length_app in Hf.
  cbn [length] in Hf.
  exists (parseGroupedExpression (parseExpression f)).
  pose proof (sees_cons _ _ _ Hs) as [Hcur _].
  split; [now rewrite Hcur, Hlp|].
  assert (Hin : sees (skip 1 p) (ts ++ [rp])).
  { apply (sees_phrase p [lp] ts rp [t]). cbn [app] in Hs |- *.
    now rewrite <- app_assoc in Hs. }
  rewrite (group_eq _ p (skip (1 + length ts - 1) p) e).
  - f_equal. f_equal. rewrite skip_last by lia. apply skip_to.
    cbn [length]. rewrite length_app. simpl. lia.
  - apply (expression_whole e ts Hr He f 1 p rp); [lia | exact Hin |].
    split; [now rewrite Hrp | rewrite Hrp; discriminate].
  - rewrite peek_at, (skip_to _ (1 + length ts)) by lia.
    now rewrite (sees_after_at _ _ _ _ Hin).
Qed.

Lemma prefix_read (lo hi : nat) (op : Token) (r : Expression)
  (ts : list Token) :
  isPrefixOperator (Type_ op) = true → hi ≤ PREFIX →
  Reads (S PREFIX) hi r ts → expressionRead (S PREFIX) hi r ts →
  expressionRead lo hi (PrefixExpression op (Literal op) r) (op :: ts).
Proof.
  intros Hop Hhi Hr He. pose proof (Reads_nonempty _ _ _ _ Hr) as Hne.
  apply phrase_read; [simpl; lia|].
  intros f p t Hf Hs Hfollow. cbn [length] in Hf.
  exists (parsePrefixExpression (parseExpression f)).
  pose proof (sees_cons _ _ _ Hs) as [Hcur Hin].
  split; [rewrite Hcur; now destruct (Type_ op)|].
  rewrite (prefix_eq _ p (skip (1 + length ts - 1) p) r).
  - rewrite Hcur. reflexivity.
  - apply (expression_done (S PREFIX) hi r ts Hr He f PREFIX 1 p t);
      try assumption; try lia; destruct Hfollow as [Hle _]; lia.
Qed.

(** *** Operators after a left operand *)

(** What is common to the operators that the loop of [parseExpression]
    applies to a left operand [l]: the binary operators, the call and the
    index. *)
Lemma turn_read (lo hi q : nat) (op : Token) (l e : Expression)
  (tsl tsr : list Token) (level : nat) :
  Reads q level l tsl → expressionRead q level l tsl →
  precedences (Type_ op) = Some level → Type_ op ≠ ELSE →
  lo ≤ q → q ≤ level →
  (∀ (f n : nat) (p : Parser L) (t : Token),
     length tsl + S (length tsr) ≤ f → S (length tsr) ≤ n →
     sees p (tsl ++ op :: tsr ++ [t]) → mayFollow hi t →
     ∃ h, infixParseFns (parseExpression f) (S n) (Type_ op) = Some h
          ∧ h l (skip (length tsl) p)
            = Some (Some e, skip (length tsl + length tsr) p)) →
  expressionRead lo hi e (tsl ++ op :: tsr).
Proof.
  intros Hr He Hlevel Helse Hlo Hq Hh f prec p t Hprec Hf Hs Hfollow.
  pose proof (Reads_nonempty _ _ _ _ Hr) as Hne.
  rewrite length_app in Hf |- *. cbn [length] in Hf |- *.
  rewrite <- app_assoc in Hs. cbn [app] in Hs.
  assert (Hleft : sees p (tsl ++ [op])) by exact (sees_phrase p [] tsl op _ Hs).
  destruct (He f prec p op ltac:(lia) ltac:(lia) Hleft) as (n1 & Hn1 & ->).
  { split; [now rewrite Hlevel | exact Helse]. }
  destruct n1 as [|n1]; [lia|].
  destruct (Hh f n1 p t ltac:(lia) ltac:(lia) Hs Hfollow) as (h & Hfn & Hrun).
  assert (Hpeek : peekToken (skip (length tsl - 1) p) = op).
  { rewrite peek_at, (skip_to _ (length tsl)) by lia.
    exact (sees_after _ _ _ Hleft). }
  exists n1. split; [lia|].
  rewrite (infixLoop_turn _ n1 prec level l e _
             (skip (length tsl + length tsr) p) h).
  - f_equal. apply skip_to. lia.
  - now rewrite Hpeek.
  - now rewrite Hpeek.
  - lia.
  - rewrite skip_last by lia. exact Hrun.
Qed.

Lemma infix_read (lo hi q : nat) (op : Token) (l r : Expression)
  (tsl tsr : list Token) :
  operatorLevel (Type_ op) = Some q → lo ≤ q → hi ≤ q →
  Reads q q l tsl → expressionRead q q l tsl →
  Reads (S q) hi r tsr → expressionRead (S q) hi r tsr →
  expressionRead lo hi (InfixExpression op l (Literal op) r)
                 (tsl ++ op :: tsr).
Proof.
  intros Hlevel Hlo Hhi Hl Hel Hr Her.
  destruct (operatorLevel_precedences _ _ Hlevel) as [Hop Hq].
  apply (turn_read lo hi q op l _ tsl tsr q Hl Hel Hq); try lia.
  { destruct (Type_ op); discriminate. }
  intros f n p t Hf Hn Hs Hfollow.
  exists (parseInfixExpression (parseExpression f)).
  split; [destruct (Type_ op); try discriminate Hop; reflexivity|].
  pose proof (sees_at p tsl op _ Hs) as Hcur.
  rewrite (infix_eq _ _ (skip (length tsl + length tsr) p) l r q),
    Hcur; [reflexivity | now rewrite Hcur |].
  change (advance (skip (length tsl) p)) with (skip (S (length tsl)) p).
  rewrite (expression_done (S q) hi r tsr Hr Her f q (S (length tsl)) p t);
    try assumption; try lia.
  - f_equal. f_equal. apply skip_to.
    pose proof (Reads_nonempty _ _ _ _ Hr). lia.
  - apply (sees_phrase_at p (tsl ++ [op]) tsr t []);
      [now rewrite <- !app_assoc | rewrite length_app; simpl; lia].
  - destruct Hfollow as [Hle _]. lia.
Qed.

End ReadingExpressions.

(** ** Reading the elements of a list *)
Section ReadingLists.
Import token Precedence Parser.
Context {L : Type} `{TokenSource L}.

Local Abbreviation skip k p := (Nat.iter k advance p).

Lemma closing_endsExpression (t : Token) :
  Type_ t = RPAREN ∨ Type_ t = RBRACKET → endsExpression t.
Proof. intros [Ht|Ht]; split; rewrite Ht; (reflexivity || discriminate). Qed.

(** The token after an element of a list: a comma or the closing
    bracket. *)
Lemma ReadsRest_follower (es : list Expression) (rest : list Token)
  (t : Token) :
  ReadsRest es rest → Type_ t = RPAREN ∨ Type_ t = RBRACKET →
  ∃ t' tail, rest ++ [t] = t' :: tail ∧ endsExpression t'
             ∧ (rest = [] → Type_ t' ≠ COMMA).
Proof.
  intros [|comma e ts es' rest' Hcomma _ _] Ht.
  - exists t, []. split; [reflexivity|].
    split; [now apply closing_endsExpression|].
    intros _. destruct Ht as [-> | ->]; discriminate.
  - exists comma, ((ts ++ rest') ++ [t]). split; [reflexivity|].
    split; [|discriminate]. split; rewrite Hcomma; (reflexivity || discriminate).
Qed.

Lemma rest_end_read : restRead (L := L) [] [].
Proof.
  intros f n p t acc _ _ Hs Ht. apply sees_cons in Hs as [Hcur _].
  rewrite app_nil_r. change (skip (length (@nil Token)) p) with p.
  apply listLoop_stop. rewrite <- advance_cur, Hcur. destruct Ht as [-> | ->]; discriminate.
Qed.

Lemma rest_more_read (comma : Token) (e : Expression) (ts : list Token)
  (es : list Expression) (rest : list Token) :
  Type_ comma = COMMA →
  Reads loosest LOWEST e ts → expressionRead (L := L) loosest LOWEST e ts →
  ReadsRest es rest → restRead (L := L) es rest →
  restRead (L := L) (e :: es) (comma :: ts ++ rest).
Proof.
  intros Hcomma Hr He Hrest IH f n p t acc Hf Hn Hs Ht.
  pose proof (Reads_nonempty _ _ _ _ Hr) as Hne.
  cbn [length] in Hf, Hn |- *. rewrite length_app in Hf, Hn |- *.
  cbn [app] in Hs. rewrite <- app_assoc in Hs.
  change (advance p) with (skip 1 p) in Hs.
  destruct (ReadsRest_follower es rest t Hrest Ht)
    as (t' & tail & Htail & Hends & _).
  rewrite Htail in Hs.
  assert (Hpeek : peekToken p = comma).
  { rewrite <- advance_cur. exact (proj1 (sees_cons _ _ _ Hs)). }
  assert (Hin : sees (skip 2 p) (ts ++ [t'])).
  { apply (sees_phrase_at (skip 1 p) [comma] ts t' tail 1 Hs eq_refl). }
  destruct n as [|n]; [lia|].
  rewrite (listLoop_step _ n acc p (skip (2 + length ts - 1) p) e).
  - rewrite (IH f n (skip (2 + length ts - 1) p) t (acc ++ [e]));
      try lia; try assumption.
    + rewrite <- app_assoc. cbn [app]. f_equal. f_equal.
      rewrite skip_skip. apply skip_to. lia.
    + rewrite skip_last by lia.
      apply (sees_part 1 p (comma :: ts) (rest ++ [t]) []);
        [|cbn [length]; lia].
      rewrite app_nil_r. cbn [app]. now rewrite Htail.
  - now rewrite Hpeek.
  - apply (expression_whole e ts Hr He f 2 p t'); [lia | exact Hin | exact Hends].
Qed.

Lemma list_none_read : listRead (L := L) [] [].
Proof.
  intros f n p t _ _ Hs Ht. apply sees_cons in Hs as [Hcur _].
  change (skip (S (length (@nil Token))) p) with (advance p).
  apply list_empty. now rewrite <- advance_cur, Hcur.
Qed.

Lemma list_some_read (e : Expression) (ts : list Token)
  (es : list Expression) (rest : list Token) :
  Reads loosest LOWEST e ts → expressionRead (L := L) loosest LOWEST e ts →
  ReadsRest es rest → restRead (L := L) es rest →
  listRead (L := L) (e :: es) (ts ++ rest).
Proof.
  intros Hr He Hrest IH f n p t Hf Hn Hs Ht.
  pose proof (Reads_nonempty _ _ _ _ Hr) as Hne.
  destruct (Reads_starts _ _ _ _ Hr) as (t0 & ts0 & Hts & Hstart).
  rewrite length_app in Hf, Hn |- *.
  rewrite <- app_assoc in Hs. change (advance p) with (skip 1 p) in Hs.
  destruct (ReadsRest_follower es rest t Hrest Ht)
    as (t' & tail & Htail & Hends & _).
  assert (Hpeek : peekToken p = t0).
  { rewrite <- advance_cur. rewrite Hts in Hs.
    exact (proj1 (sees_cons _ _ _ Hs)). }
  assert (Hin : sees (skip 1 p) (ts ++ [t'])).
  { apply (sees_phrase_at (skip 1 p) [] ts t' tail 0); [|reflexivity].
    cbn [app]. now rewrite <- Htail. }
  assert (Hafter : sees (skip (1 + length ts) p) (rest ++ [t])).
  { rewrite (skip_to _ (length ts + 1)) by lia. rewrite <- skip_skip.
    apply (sees_middle (skip 1 p) ts (rest ++ [t]) []).
    now rewrite app_nil_r. }
  rewrite (list_eq _ n (Type_ t) p (skip (1 + length ts - 1) p)
             (skip (1 + length ts - 1 + length rest) p) e (e :: es)).
  - f_equal. f_equal. change (advance (skip ?k p)) with (skip (S k) p).
    apply skip_to. lia.
  - rewrite Hpeek. intros Heq. rewrite Heq in Hstart.
    destruct Ht as [Ht|Ht]; rewrite Ht in Hstart; discriminate.
  - apply (expression_whole e ts Hr He f 1 p t'); [lia | exact Hin | exact Hends].
  - rewrite (IH f n (skip (1 + length ts - 1) p) t [e]); try lia;
      try assumption.
    + cbn [app]. f_equal. f_equal. rewrite skip_skip. apply skip_to. lia.
    + rewrite skip_last by lia. exact Hafter.
  - rewrite peek_at, (skip_to _ (1 + length ts + length rest)) by lia.
    now rewrite (sees_after_at _ _ _ _ Hafter).
Qed.

End ReadingLists.

(** ** Calls, indexing and array literals *)
Section ReadingBrackets.
Import token Precedence Parser.
Context {L : Type} `{TokenSource L}.

Local Abbreviation skip k p := (Nat.iter k advance p).

Lemma call_read (lo hi : nat) (lp rp : Token) (fn : Expression)
  (args : list Expression) (tsf tsa : list Token) :
  Type_ lp = LPAREN → Type_ rp = RPAREN → lo ≤ CALL →
  Reads CALL CALL fn tsf → expressionRead (L := L) CALL CALL fn tsf →
  ReadsList args tsa → listRead (L := L) args tsa →
  expressionRead (L := L) lo hi (CallExpression lp fn args)
                 (tsf ++ lp :: tsa ++ [rp]).
Proof.
  intros Hlp Hrp Hlo Hr He Hargs Hlist.
  apply (turn_read lo hi CALL lp fn _ tsf (tsa ++ [rp]) CALL Hr He);
    try lia; try (rewrite Hlp; (reflexivity || discriminate)).
  intros f n p t Hf Hn Hs _. rewrite length_app in Hf, Hn |- *.
  cbn [length] in Hf, Hn |- *.
  exists (parseCallExpression (parseExpression f) (S n)).
  split; [now rewrite Hlp|].
  pose proof (sees_at p tsf lp _ Hs) as Hcur.
  rewrite (call_eq _ _ _ (skip (length tsf + (length tsa + 1)) p) fn args),
    Hcur; [reflexivity|].
  rewrite <- Hrp.
  rewrite (Hlist f (S n) (skip (length tsf) p) rp); try lia.
  - f_equal. f_equal.
    change (skip (S (length tsa)) (skip (length tsf) p))
      with (skip (S (length tsa)) (skip (length tsf) p)).
    rewrite skip_skip. apply skip_to. lia.
  - change (advance (skip (length tsf) p)) with (skip (S (length tsf)) p).
    apply (sees_part 0 p (tsf ++ [lp]) (tsa ++ [rp]) [t]).
    + same_tokens Hs.
    + rewrite length_app. simpl. lia.
  - left. exact Hrp.
Qed.

Lemma index_read (lo hi : nat) (lb rb : Token) (l i : Expression)
  (tsl tsi : list Token) :
  Type_ lb = LBRACKET → Type_ rb = RBRACKET → lo ≤ CALL →
  Reads CALL INDEX l tsl → expressionRead (L := L) CALL INDEX l tsl →
  Reads loosest LOWEST i tsi → expressionRead (L := L) loosest LOWEST i tsi →
  expressionRead (L := L) lo hi (IndexExpression lb l i)
                 (tsl ++ lb :: tsi ++ [rb]).
Proof.
  intros Hlb Hrb Hlo Hr He Hri Hei.
  pose proof (Reads_nonempty _ _ _ _ Hri) as Hne.
  apply (turn_read lo hi CALL lb l _ tsl (tsi ++ [rb]) INDEX Hr He);
    try assumption; try (unfold CALL, INDEX; lia);
    try (rewrite Hlb; (reflexivity || discriminate)).
  intros f n p t Hf Hn Hs _. rewrite length_app in Hf, Hn |- *.
  cbn [length] in Hf, Hn |- *.
  exists (parseIndexExpression (parseExpression f)).
  split; [now rewrite Hlb|].
  pose proof (sees_at p tsl lb _ Hs) as Hcur.
  assert (Hin : sees (skip (S (length tsl)) p) (tsi ++ [rb])).
  { apply (sees_part 0 p (tsl ++ [lb]) (tsi ++ [rb]) [t]).
    - same_tokens Hs.
    - rewrite length_app. simpl. lia. }
  rewrite (index_eq _ _ (skip (S (length tsl) + length tsi - 1) p) l i),
    Hcur.
  - f_equal. f_equal. change (advance (skip ?k p)) with (skip (S k) p).
    apply skip_to. lia.
  - change (advance (skip (length tsl) p)) with (skip (S (length tsl)) p).
    apply (expression_whole i tsi Hri Hei f (S (length tsl)) p rb);
      [lia | exact Hin |]. apply closing_endsExpression. now right.
  - rewrite peek_at, (skip_to _ (S (length tsl) + length tsi)) by lia.
    now rewrite (sees_after_at _ _ _ _ Hin).
Qed.

Lemma array_read (lo hi : nat) (lb rb : Token) (es : list Expression)
  (ts : list Token) :
  Type_ lb = LBRACKET → Type_ rb = RBRACKET →
  ReadsList es ts → listRead (L := L) es ts →
  expressionRead (L := L) lo hi (ArrayLiteral lb es) (lb :: ts ++ [rb]).
Proof.
  intros Hlb Hrb Hes Hlist. apply phrase_read; [simpl; lia|].
  intros f p t Hf Hs _. cbn [length] in Hf |- *.
  rewrite length_app in Hf |- *. cbn [length] in Hf |- *.
  exists (parseArrayLiteral (parseExpression f) f).
  cbn [app] in Hs. pose proof (sees_cons _ _ _ Hs) as [Hcur Hin].
  change (advance p) with (skip 1 p) in Hin.
  split; [now rewrite Hcur, Hlb|].
  rewrite (array_eq _ _ _ (skip (S (length ts)) p) es), Hcur.
  - f_equal. f_equal. apply skip_to. lia.
  - rewrite <- Hrb. apply (Hlist f f p rb); try lia; [|now right].
    change (advance p) with (skip 1 p).
    apply (sees_part 1 p [] (ts ++ [rb]) [t] 1); [|reflexivity].
    same_tokens Hin.
Qed.

End ReadingBrackets.

(** ** Hash literals *)
Section ReadingHashes.
Import token Precedence Parser.
Context {L : Type} `{TokenSource L}.

Local Abbreviation skip k p := (Nat.iter k advance p).

Lemma starts_not (t : Token) (ty : TokenType) :
  startsExpression (Type_ t) = true → startsExpression ty = false →
  Type_ t ≠ ty.
Proof. intros Ht Hty Heq. rewrite Heq in Ht. congruence. Qed.

Lemma pairs_none_read : pairsRead (L := L) [] [].
Proof.
  intros f n p t acc _ _ Hs Ht. apply sees_cons in Hs as [Hcur _].
  rewrite app_nil_r. change (skip (length (@nil Token)) p) with p.
  apply parseHashLoop_end. now rewrite <- advance_cur, Hcur.
Qed.

(** A key, the colon and a value, from the token before the key. *)
Lemma pair_read (colon : Token) (k v : Expression) (tk tv : list Token)
  (f : nat) (p : Parser L) (t : Token) (tail : list Token) :
  Type_ colon = COLON →
  Reads loosest LOWEST k tk → expressionRead (L := L) loosest LOWEST k tk →
  Reads loosest LOWEST v tv → expressionRead (L := L) loosest LOWEST v tv →
  length tk + length tv < f →
  sees (skip 1 p) (tk ++ colon :: tv ++ t :: tail) →
  endsExpression t →
  Type_ (peekToken p) ≠ RBRACE
  ∧ parseExpression f LOWEST (advance p)
    = Some (Some k, skip (length tk) p)
  ∧ Type_ (peekToken (skip (length tk) p)) = COLON
  ∧ parseExpression f LOWEST (advance (advance (skip (length tk) p)))
    = Some (Some v, skip (length tk + 1 + length tv) p)
  ∧ peekToken (skip (length tk + 1 + length tv) p) = t.
Proof.
  intros Hcolon Hrk Hek Hrv Hev Hf Hs Hends.
  pose proof (Reads_nonempty _ _ _ _ Hrk) as Hnk.
  pose proof (Reads_nonempty _ _ _ _ Hrv) as Hnv.
  destruct (Reads_starts _ _ _ _ Hrk) as (t0 & ts0 & Hts & Hstart).
  assert (Hkey : sees (skip 1 p) (tk ++ [colon]))
    by exact (sees_phrase_at _ [] tk colon _ 0 Hs eq_refl).
  assert (Hvalue : sees (skip (length tk + 2) p) (tv ++ [t])).
  { apply (sees_part 1 p (tk ++ [colon]) (tv ++ [t]) tail).
    - same_tokens Hs.
    - rewrite length_app. simpl. lia. }
  split; [|split; [|split; [|split]]].
  - rewrite Hts in Hs. cbn [app] in Hs.
    rewrite (peek_first _ _ _ Hs). now apply starts_not.
  - change (advance p) with (skip 1 p).
    rewrite (expression_whole k tk Hrk Hek f 1 p colon); try assumption;
      try lia.
    + f_equal. f_equal. apply skip_to. lia.
    + split; rewrite Hcolon; (reflexivity || discriminate).
  - rewrite peek_at, (skip_to _ (1 + length tk)) by lia.
    now rewrite (sees_after_at _ _ _ _ Hkey).
  - change (advance (advance (skip (length tk) p)))
      with (skip (S (S (length tk))) p).
    rewrite (skip_to _ (length tk + 2)) by lia.
    rewrite (expression_whole v tv Hrv Hev f (length tk + 2) p t);
      try assumption; try lia.
    f_equal. f_equal. apply skip_to. lia.
  - rewrite peek_at, (skip_to _ (length tk + 2 + length tv)) by lia.
    exact (sees_after_at _ _ _ _ Hvalue).
Qed.

Lemma pairs_last_read (colon : Token) (k v : Expression)
  (tk tv : list Token) :
  Type_ colon = COLON →
  Reads loosest LOWEST k tk → expressionRead (L := L) loosest LOWEST k tk →
  Reads loosest LOWEST v tv → expressionRead (L := L) loosest LOWEST v tv →
  pairsRead (L := L) [(k, v)] (tk ++ colon :: tv).
Proof.
  intros Hcolon Hrk Hek Hrv Hev f n p t acc Hf Hn Hs Ht.
  rewrite length_app in Hf, Hn |- *. cbn [length] in Hf, Hn |- *.
  change (advance p) with (skip 1 p) in Hs.
  destruct (pair_read colon k v tk tv f p t [] Hcolon Hrk Hek Hrv Hev)
    as (Hne & Hkey & Hpeek & Hvalue & Hend); try lia.
  { same_tokens Hs. }
  { split; rewrite Ht; (reflexivity || discriminate). }
  destruct n as [|n]; [lia|].
  rewrite (hashLoop_last _ n acc p _ _ k v Hne Hkey Hpeek Hvalue)
    by (now rewrite Hend).
  f_equal. f_equal. apply skip_to. lia.
Qed.

Lemma pairs_more_read (colon comma : Token) (k v : Expression)
  (tk tv : list Token) (pairs : list (Expression * Expression))
  (rest : list Token) :
  Type_ colon = COLON → Type_ comma = COMMA →
  Reads loosest LOWEST k tk → expressionRead (L := L) loosest LOWEST k tk →
  Reads loosest LOWEST v tv → expressionRead (L := L) loosest LOWEST v tv →
  pairsRead (L := L) pairs rest →
  pairsRead (L := L) ((k, v) :: pairs) (tk ++ colon :: tv ++ comma :: rest).
Proof.
  intros Hcolon Hcomma Hrk Hek Hrv Hev IH f n p t acc Hf Hn Hs Ht.
  rewrite !length_app in Hf, Hn |- *. cbn [length] in Hf, Hn |- *.
  rewrite length_app in Hf, Hn |- *. cbn [length] in Hf, Hn |- *.
  change (advance p) with (skip 1 p) in Hs.
  destruct (pair_read colon k v tk tv f p comma (rest ++ [t])
              Hcolon Hrk Hek Hrv Hev)
    as (Hne & Hkey & Hpeek & Hvalue & Hend); try lia.
  { same_tokens Hs. }
  { split; rewrite Hcomma; (reflexivity || discriminate). }
  destruct n as [|n]; [lia|].
  rewrite (hashLoop_more _ n acc p _ _ k v Hne Hkey Hpeek Hvalue)
    by (now rewrite Hend).
  change (advance (skip (length tk + 1 + length tv) p))
    with (skip (S (length tk + 1 + length tv)) p).
  rewrite (IH f n _ t (acc ++ [(k, v)])); try lia; try assumption.
  - rewrite <- app_assoc. cbn [app]. f_equal. f_equal.
    rewrite skip_skip. apply skip_to. lia.
  - change (advance (skip ?a p)) with (skip (S a) p).
    apply (sees_part 1 p (tk ++ colon :: tv ++ [comma]) (rest ++ [t]) []).
    + rewrite app_nil_r. same_tokens Hs.
    + rewrite !length_app. cbn [length]. rewrite length_app. simpl. lia.
Qed.

Lemma hash_read (lo hi : nat) (lb rb : Token)
  (pairs : list (Expression * Expression)) (ts : list Token) :
  Type_ lb = LBRACE → Type_ rb = RBRACE →
  ReadsPairs pairs ts → pairsRead (L := L) pairs ts →
  expressionRead (L := L) lo hi (HashLiteral lb pairs) (lb :: ts ++ [rb]).
Proof.
  intros Hlb Hrb Hps Hpairs. apply phrase_read; [simpl; lia|].
  intros f p t Hf Hs _. cbn [length] in Hf |- *.
  rewrite length_app in Hf |- *. cbn [length] in Hf |- *.
  exists (parseHashLiteral (parseExpression f) f).
  cbn [app] in Hs. pose proof (sees_cons _ _ _ Hs) as [Hcur Hin].
  change (advance p) with (skip 1 p) in Hin.
  assert (Hinner : sees (skip 1 p) (ts ++ [rb])).
  { apply (sees_part 1 p [] (ts ++ [rb]) [t] 1); [|reflexivity].
    same_tokens Hin. }
  split; [now rewrite Hcur, Hlb|].
  rewrite (hash_eq _ _ _ (skip (length ts) p) pairs), Hcur.
  - f_equal. f_equal. change (advance (skip ?k p)) with (skip (S k) p).
    apply skip_to. lia.
  - apply (Hpairs f f p rb []); try lia; assumption.
  - rewrite peek_at, (skip_to _ (1 + length ts)) by lia.
    now rewrite (sees_after_at _ _ _ _ Hinner).
Qed.

End ReadingHashes.

(** ** Function literals, statements and blocks *)
Section ReadingBlocks.
Import token Precedence Parser.
Context {L : Type} `{TokenSource L}.

Local Abbreviation skip k p := (Nat.iter k advance p).

(** *** The parameters of a function literal *)

Lemma names_read (names : list Identifier) (rest : list Token) :
  ReadsNames names rest →
  ∀ (n : nat) (p : Parser L) (t : Token) (acc : list Identifier),
    length rest ≤ n → sees (skip 1 p) (rest ++ [t]) → Type_ t ≠ COMMA →
    parseParametersLoop n acc p = Some (acc ++ names, skip (length rest) p).
Proof.
  induction 1 as [|comma name names rest Hcomma Hname _ IH];
    intros n p t acc Hn Hs Ht.
  - rewrite app_nil_r. change (skip (length (@nil Token)) p) with p.
    apply parametersLoop_stop. now rewrite (peek_first _ _ _ Hs).
  - cbn [length] in Hn |- *. cbn [app] in Hs.
    destruct n as [|n]; [lia|].
    rewrite parametersLoop_step
      by (now rewrite (peek_first _ _ _ Hs), Hcomma).
    change (advance (advance p)) with (skip 2 p).
    rewrite (sees_token 1 p [comma] name (rest ++ [t]) 2 Hs eq_refl).
    rewrite (IH n (skip 2 p) t); try lia; try assumption.
    + rewrite <- app_assoc. cbn [app]. f_equal. f_equal.
      rewrite skip_skip. apply skip_to. lia.
    + change (skip 1 (skip 2 p)) with (skip 3 p).
      apply (sees_part 1 p [comma; name] (rest ++ [t]) [] 3);
        [|reflexivity].
      rewrite app_nil_r. exact Hs.
Qed.

Lemma parameters_read (params : list Identifier) (ts : list Token) :
  ReadsParameters params ts →
  ∀ (n : nat) (p : Parser L) (rp : Token),
    length ts ≤ n → sees (skip 1 p) (ts ++ [rp]) → Type_ rp = RPAREN →
    parseFunctionParameters n p = Some (Some params, skip (S (length ts)) p).
Proof.
  intros [|name names rest Hname Hnames] n p rp Hn Hs Hrp.
  - change (skip (S (length (@nil Token))) p) with (advance p).
    apply parameters_none. now rewrite (peek_first _ _ _ Hs).
  - cbn [length] in Hn |- *. cbn [app] in Hs.
    pose proof (peek_first _ _ _ Hs) as Hpeek.
    assert (Hcur : curToken (advance p) = name)
      by (now rewrite advance_cur).
    assert (Hrest : sees (skip 1 (advance p)) (rest ++ [rp])).
    { change (skip 1 (advance p)) with (skip 2 p).
      apply (sees_part 1 p [name] (rest ++ [rp]) [] 2); [|reflexivity].
      rewrite app_nil_r. exact Hs. }
    rewrite (parameters_eq n p (skip (length rest) (advance p))
               (mkIdentifier name (Literal name) :: names)).
    + f_equal. f_equal.
      change (advance (skip (length rest) (advance p)))
        with (skip (S (length rest)) (skip 1 p)).
      rewrite skip_skip. apply skip_to. lia.
    + rewrite Hpeek, Hname. discriminate.
    + rewrite Hcur.
      apply (names_read names rest Hnames n (advance p) rp); try lia;
        [exact Hrest | rewrite Hrp; discriminate].
    + rewrite peek_at, (skip_to _ (1 + length rest)) by lia.
      now rewrite (sees_after_at _ _ _ _ Hrest).
Qed.

(** *** Statements *)

Lemma semicolon_or_not (t : Token) (k : nat) (p : Parser L) :
  1 ≤ k → curToken (skip k p) = t →
  (if token.eqb (Type_ (peekToken (skip (k - 1) p))) SEMICOLON
   then advance (skip (k - 1) p) else skip (k - 1) p)
  = (if token.eqb (Type_ t) SEMICOLON then skip k p else skip (k - 1) p).
Proof.
  intros Hk Hcur. rewrite peek_at, (skip_to _ k), Hcur by lia.
  now rewrite skip_last by lia.
Qed.

Lemma let_read (lt name eq : Token) (e : Expression) (ts : list Token) :
  Type_ lt = LET → Type_ name = IDENT → Type_ eq = ASSIGN →
  Reads loosest LOWEST e ts → expressionRead (L := L) loosest LOWEST e ts →
  statementRead (L := L)
    (LetStatement lt (mkIdentifier name (Literal name)) e)
    (lt :: name :: eq :: ts).
Proof.
  intros Hlt Hname Heq Hr He f p t Hf Hs Hends.
  pose proof (Reads_nonempty _ _ _ _ Hr) as Hne.
  cbn [length] in Hf |- *. cbn [app] in Hs.
  pose proof (sees_token 0 p [] lt _ 0 Hs eq_refl) as Hc0.
  pose proof (sees_token 0 p [lt] name _ 1 Hs eq_refl) as Hc1.
  pose proof (sees_token 0 p [lt; name] eq _ 2 Hs eq_refl) as Hc2.
  assert (Hin : sees (skip 3 p) (ts ++ [t]))
    by (apply (sees_part 0 p [lt; name; eq] (ts ++ [t]) [] 3);
        [rewrite app_nil_r; exact Hs | reflexivity]).
  change (skip 0 p) with p in Hc0.
  rewrite (let_eq _ p (skip (3 + length ts - 1) p) e).
  - rewrite <- advance_cur. change (advance p) with (skip 1 p).
    rewrite Hc0, Hc1. f_equal. f_equal.
    rewrite (semicolon_or_not t (3 + length ts) p);
      [|lia|exact (sees_after_at _ _ _ _ Hin)].
    destruct (token.eqb (Type_ t) SEMICOLON); apply skip_to; simpl; lia.
  - now rewrite Hc0.
  - rewrite <- advance_cur. change (advance p) with (skip 1 p).
    now rewrite Hc1.
  - rewrite <- advance_cur. change (advance (advance p)) with (skip 2 p).
    now rewrite Hc2.
  - change (advance (advance (advance p))) with (skip 3 p).
    now apply (expression_whole e ts Hr He f 3 p t); try lia.
Qed.

Lemma return_read (rt : Token) (e : Expression) (ts : list Token) :
  Type_ rt = RETURN →
  Reads loosest LOWEST e ts → expressionRead (L := L) loosest LOWEST e ts →
  statementRead (L := L) (ReturnStatement rt e) (rt :: ts).
Proof.
  intros Hrt Hr He f p t Hf Hs Hends.
  pose proof (Reads_nonempty _ _ _ _ Hr) as Hne.
  cbn [length] in Hf |- *. cbn [app] in Hs.
  pose proof (sees_token 0 p [] rt _ 0 Hs eq_refl) as Hc0.
  assert (Hin : sees (skip 1 p) (ts ++ [t]))
    by (apply (sees_part 0 p [rt] (ts ++ [t]) [] 1);
        [rewrite app_nil_r; exact Hs | reflexivity]).
  change (skip 0 p) with p in Hc0.
  rewrite (return_eq _ p (skip (1 + length ts - 1) p) e).
  - rewrite Hc0. f_equal. f_equal.
    rewrite (semicolon_or_not t (1 + length ts) p);
      [|lia|exact (sees_after_at _ _ _ _ Hin)].
    destruct (token.eqb (Type_ t) SEMICOLON); apply skip_to; simpl; lia.
  - now rewrite Hc0.
  - change (advance p) with (skip 1 p).
    now apply (expression_whole e ts Hr He f 1 p t); try lia.
Qed.

Lemma expression_read (tok : Token) (e : Expression) (rest : list Token) :
  Reads loosest LOWEST e (tok :: rest) →
  expressionRead (L := L) loosest LOWEST e (tok :: rest) →
  statementRead (L := L) (ExpressionStatement tok e) (tok :: rest).
Proof.
  intros Hr He f p t Hf Hs Hends.
  destruct (Reads_starts _ _ _ _ Hr) as (t0 & ts0 & [= <- <-] & Hstart).
  pose proof (sees_token 0 p [] tok _ 0 Hs eq_refl) as Hc0.
  change (skip 0 p) with p in Hc0.
  rewrite (expression_eq _ p (skip (0 + length (tok :: rest) - 1) p) e).
  - rewrite Hc0. f_equal. f_equal.
    change (0 + length (tok :: rest) - 1) with (length (tok :: rest) - 1).
    rewrite (semicolon_or_not t (length (tok :: rest)) p);
      [reflexivity | simpl; lia | exact (sees_after _ _ _ Hs)].
  - rewrite Hc0. now apply starts_not.
  - rewrite Hc0. now apply starts_not.
  - change p with (skip 0 p) at 1.
    now apply (expression_whole e _ Hr He f 0 p t).
Qed.

Lemma statement_start (st : Statement) (ts : list Token) :
  ReadsStatement st ts →
  ∃ t rest, ts = t :: rest ∧ Type_ t ≠ EOF ∧ Type_ t ≠ RBRACE
            ∧ Type_ t ≠ ELSE ∧ 1 ≤ length ts.
Proof.
  intros Hst. destruct (ReadsStatement_starts _ _ Hst) as (t & rest & -> & Ht).
  exists t, rest. split; [reflexivity|].
  repeat split; try (simpl; lia);
    destruct Ht as [Ht|[Ht|Ht]]; intros Heq; rewrite Heq in Ht;
    discriminate.
Qed.

Lemma statements_end_read : statementsRead (L := L) [] [].
Proof.
  intros f n inBlock acc p t _ _ Hs Ht. apply sees_cons in Hs as [Hcur _].
  rewrite parseStatements_eq, Hcur, app_nil_r.
  destruct Ht as [-> | [-> ->]]; [|reflexivity].
  change (token.eqb EOF EOF) with true. now rewrite orb_true_r.
Qed.

(** One turn of the statement loop. *)
Lemma statements_turn (st : Statement) (ts : list Token) (f n k : nat)
  (inBlock : bool) (acc : list Statement) (p : Parser L) (t : Token)
  (tail : list Token) :
  ReadsStatement st ts → statementRead (L := L) st ts →
  length ts < f →
  sees p (ts ++ t :: tail) → endsExpression t →
  k = (if token.eqb (Type_ t) SEMICOLON
       then S (length ts) else length ts) →
  parseStatements (parseExpression f) inBlock (S n) acc p
  = parseStatements (parseExpression f) inBlock n (acc ++ [st]) (skip k p).
Proof.
  intros Hst IH Hf Hs Hends ->.
  destruct (statement_start _ _ Hst) as (t0 & ts0 & Hts & Heof & Hbrace & _ & Hne).
  assert (Hcur : curToken p = t0).
  { rewrite Hts in Hs. exact (proj1 (sees_cons _ _ _ Hs)). }
  rewrite parseStatements_eq, Hcur, (eqb_neq _ _ Heof), (eqb_neq _ _ Hbrace).
  rewrite andb_false_r. cbn [orb].
  rewrite (IH f p t Hf (sees_phrase p [] ts t tail Hs) Hends).
  destruct (token.eqb (Type_ t) SEMICOLON); [reflexivity|].
  now rewrite skip_last by lia.
Qed.

Lemma statements_semicolon_read (st : Statement) (ts : list Token)
  (semi : Token) (stmts : list Statement) (rest : list Token) :
  ReadsStatement st ts → statementRead (L := L) st ts →
  Type_ semi = SEMICOLON →
  statementsRead (L := L) stmts rest →
  statementsRead (L := L) (st :: stmts) (ts ++ semi :: rest).
Proof.
  intros Hst IHst Hsemi IH f n inBlock acc p t Hf Hn Hs Ht.
  destruct (statement_start _ _ Hst) as (_ & _ & _ & _ & _ & _ & Hne).
  rewrite length_app in Hf, Hn |- *. cbn [length] in Hf, Hn |- *.
  destruct n as [|n]; [lia|].
  rewrite (statements_turn st ts f n (S (length ts)) inBlock acc p semi
             (rest ++ [t]) Hst IHst);
    try lia.
  - rewrite (IH f n inBlock (acc ++ [st]) _ t); try lia; try assumption.
    + rewrite <- app_assoc. cbn [app]. f_equal. f_equal.
      rewrite skip_skip. apply skip_to. lia.
    + apply (sees_part 0 p (ts ++ [semi]) (rest ++ [t]) []).
      * rewrite app_nil_r. same_tokens Hs.
      * rewrite length_app. simpl. lia.
  - same_tokens Hs.
  - split; rewrite Hsemi; (reflexivity || discriminate).
  - now rewrite Hsemi.
Qed.

Lemma statements_bare_read (st : Statement) (ts : list Token)
  (stmts : list Statement) (rest : list Token) :
  ReadsStatement st ts → statementRead (L := L) st ts →
  startsAfresh rest →
  ReadsStatements stmts rest → statementsRead (L := L) stmts rest →
  statementsRead (L := L) (st :: stmts) (ts ++ rest).
Proof.
  intros Hst IHst Hfresh Hrest IH f n inBlock acc p t Hf Hn Hs Ht.
  destruct (statement_start _ _ Hst) as (_ & _ & _ & _ & _ & _ & Hne).
  rewrite length_app in Hf, Hn |- *.
  assert (Hnext : ∃ t' tail, rest ++ [t] = t' :: tail
                             ∧ endsExpression t'
                             ∧ Type_ t' ≠ SEMICOLON).
  { destruct rest as [|t' rest'].
    - exists t, []. split; [reflexivity|].
      unfold endsExpression.
      destruct Ht as [Ht | [_ Ht]]; rewrite Ht;
        repeat split; (reflexivity || discriminate).
    - exists t', (rest' ++ [t]). split; [reflexivity|].
      destruct Hfresh as [Hprec Hns].
      destruct (ReadsStatements_starts _ _ Hrest)
        as [Hnil | (t0 & r0 & [= <- <-] & Hstart)]; [discriminate|].
      unfold endsExpression. repeat split; try assumption.
      intros Heq. rewrite Heq in Hstart.
      destruct Hstart as [?|[?|?]]; discriminate. }
  destruct Hnext as (t' & tail & Htail & Hends & Hns).
  destruct n as [|n]; [lia|].
  rewrite (statements_turn st ts f n (length ts) inBlock acc p t' tail
             Hst IHst);
    try lia; try assumption.
  - rewrite (IH f n inBlock (acc ++ [st]) _ t); try lia; try assumption.
    + rewrite <- app_assoc. cbn [app]. f_equal. f_equal.
      rewrite skip_skip. apply skip_to. lia.
    + apply (sees_part 0 p ts (rest ++ [t]) []); [|lia].
      rewrite app_nil_r. same_tokens Hs.
  - rewrite <- Htail. same_tokens Hs.
  - now rewrite (eqb_neq _ _ Hns).
Qed.

(** *** Blocks, [if] and [fn] *)

Lemma block_read (lb rb : Token) (stmts : list Statement)
  (ts : list Token) :
  Type_ lb = LBRACE → Type_ rb = RBRACE →
  statementsRead (L := L) stmts ts →
  blockRead (L := L) (Block lb stmts) (lb :: ts ++ [rb]).
Proof.
  intros Hlb Hrb IH f n p t Hf Hn Hs.
  cbn [length] in Hf, Hn |- *. rewrite length_app in Hf, Hn |- *.
  cbn [length] in Hf, Hn |- *. cbn [app] in Hs.
  pose proof (sees_token 0 p [] lb _ 0 Hs eq_refl) as Hc0.
  change (skip 0 p) with p in Hc0.
  rewrite (block_eq _ n p (skip (S (length ts)) p) stmts), Hc0.
  - f_equal. f_equal. apply skip_to. lia.
  - change (advance p) with (skip 1 p).
    rewrite (IH f n true [] (skip 1 p) rb); try lia.
    + cbn [app]. f_equal. f_equal. rewrite skip_skip. apply skip_to. lia.
    + apply (sees_part 0 p [lb] (ts ++ [rb]) [t] 1); [|reflexivity].
      same_tokens Hs.
    + right. now split.
Qed.

Lemma ReadsBlock_starts (b : BlockStatement) (ts : list Token) :
  ReadsBlock b ts →
  ∃ lb rest, ts = lb :: rest ∧ Type_ lb = LBRACE ∧ 2 ≤ length ts.
Proof.
  intros [lb rb stmts ts' Hlb _ _]. exists lb, (ts' ++ [rb]).
  split; [reflexivity|]. split; [exact Hlb|].
  simpl. rewrite length_app. simpl. lia.
Qed.

(** A block after the token before its brace. *)
Lemma block_after (b : BlockStatement) (ts : list Token) (f a : nat)
  (p : Parser L) (t : Token) (tail : list Token) :
  ReadsBlock b ts → blockRead (L := L) b ts →
  length ts ≤ f →
  sees (skip (S a) p) (ts ++ t :: tail) →
  Type_ (peekToken (skip a p)) = LBRACE
  ∧ parseBlockStatement (parseExpression f) f (advance (skip a p))
    = Some (b, skip (a + length ts) p)
  ∧ peekToken (skip (a + length ts) p) = t.
Proof.
  intros Hb IH Hf Hs.
  destruct (ReadsBlock_starts _ _ Hb) as (lb & rest & Hts & Hlb & Hlen).
  assert (Hin : sees (skip (S a) p) (ts ++ [t])).
  { apply (sees_part (S a) p [] (ts ++ [t]) tail); [|simpl; lia].
    same_tokens Hs. }
  split; [|split].
  - rewrite Hts in Hs. cbn [app] in Hs.
    rewrite peek_at, (proj1 (sees_cons _ _ _ Hs)). exact Hlb.
  - change (advance (skip a p)) with (skip (S a) p).
    rewrite (IH f f (skip (S a) p) t Hf Hf Hin).
    f_equal. f_equal. rewrite skip_skip. apply skip_to. lia.
  - rewrite peek_at, (skip_to _ (S a + length ts)) by lia.
    exact (sees_after_at _ _ _ _ Hin).
Qed.

Lemma if_read (lo hi : nat) (tok lp rp : Token) (cond : Expression)
  (consequence : BlockStatement) (tsc tsb : list Token) :
  Type_ tok = IF → Type_ lp = LPAREN → Type_ rp = RPAREN →
  Reads loosest LOWEST cond tsc →
  expressionRead (L := L) loosest LOWEST cond tsc →
  ReadsBlock consequence tsb → blockRead (L := L) consequence tsb →
  expressionRead (L := L) lo hi (IfExpression tok cond consequence None)
                 (tok :: lp :: tsc ++ rp :: tsb).
Proof.
  intros Htok Hlp Hrp Hr He Hb IHb.
  pose proof (Reads_nonempty _ _ _ _ Hr) as Hne.
  apply phrase_read; [simpl; lia|].
  intros f p t Hf Hs [_ Helse]. cbn [length] in Hf |- *.
  rewrite length_app in Hf |- *. cbn [length] in Hf |- *.
  exists (parseIfExpression (parseExpression f) f).
  assert (Hs' : sees (skip 0 p) (tok :: lp :: tsc ++ rp :: tsb ++ [t]))
    by same_tokens Hs.
  pose proof (sees_token 0 p [] tok _ 0 Hs' eq_refl) as Hc0.
  change (skip 0 p) with p in Hc0.
  assert (Hin : sees (skip 2 p) (tsc ++ [rp])).
  { apply (sees_part 0 p [tok; lp] (tsc ++ [rp]) (tsb ++ [t]) 2);
      [same_tokens Hs' | reflexivity]. }
  destruct (block_after consequence tsb f (2 + length tsc) p t []
              Hb IHb ltac:(lia)) as (Hbrace & Hblock & Hpeek).
  { apply (sees_part 0 p (tok :: lp :: tsc ++ [rp]) (tsb ++ [t]) []).
    - rewrite app_nil_r. same_tokens Hs'.
    - cbn [length]. rewrite length_app. simpl. lia. }
  split; [now rewrite Hc0, Htok|].
  rewrite (if_eq _ f p (skip (2 + length tsc - 1) p)
             (skip (2 + length tsc + length tsb) p) cond consequence), Hc0.
  - f_equal. f_equal. apply skip_to. lia.
  - change p with (skip 0 p) at 1. rewrite peek_at.
    now rewrite (sees_token 0 p [tok] lp _ 1 Hs' eq_refl).
  - change (advance (advance p)) with (skip 2 p).
    apply (expression_whole cond tsc Hr He f 2 p rp); [lia | exact Hin |].
    now apply closing_endsExpression; left.
  - rewrite peek_at, (skip_to _ (2 + length tsc)) by lia.
    now rewrite (sees_after_at _ _ _ _ Hin).
  - rewrite skip_last by lia. exact Hbrace.
  - rewrite skip_last by lia. exact Hblock.
  - now rewrite Hpeek.
Qed.

Lemma if_else_read (lo hi : nat) (tok lp rp el : Token) (cond : Expression)
  (consequence alternative : BlockStatement) (tsc tsb tse : list Token) :
  Type_ tok = IF → Type_ lp = LPAREN → Type_ rp = RPAREN →
  Type_ el = ELSE →
  Reads loosest LOWEST cond tsc →
  expressionRead (L := L) loosest LOWEST cond tsc →
  ReadsBlock consequence tsb → blockRead (L := L) consequence tsb →
  ReadsBlock alternative tse → blockRead (L := L) alternative tse →
  expressionRead (L := L) lo hi
    (IfExpression tok cond consequence (Some alternative))
    (tok :: lp :: tsc ++ rp :: tsb ++ el :: tse).
Proof.
  intros Htok Hlp Hrp Hel Hr He Hb IHb Ha IHa.
  pose proof (Reads_nonempty _ _ _ _ Hr) as Hne.
  destruct (ReadsBlock_starts _ _ Hb) as (_ & _ & _ & _ & Hnb).
  destruct (ReadsBlock_starts _ _ Ha) as (_ & _ & _ & _ & Hna).
  apply phrase_read; [simpl; lia|].
  intros f p t Hf Hs _. cbn [length] in Hf |- *.
  rewrite !length_app in Hf |- *. cbn [length] in Hf |- *.
  rewrite length_app in Hf |- *. cbn [length] in Hf |- *.
  exists (parseIfExpression (parseExpression f) f).
  assert (Hs' : sees (skip 0 p)
                  (tok :: lp :: tsc ++ rp :: tsb ++ el :: tse ++ [t]))
    by same_tokens Hs.
  pose proof (sees_token 0 p [] tok _ 0 Hs' eq_refl) as Hc0.
  change (skip 0 p) with p in Hc0.
  assert (Hin : sees (skip 2 p) (tsc ++ [rp])).
  { apply (sees_part 0 p [tok; lp] (tsc ++ [rp]) (tsb ++ el :: tse ++ [t]) 2);
      [same_tokens Hs' | reflexivity]. }
  destruct (block_after consequence tsb f (2 + length tsc) p el (tse ++ [t])
              Hb IHb ltac:(lia)) as (Hbrace & Hblock & Hpeek).
  { apply (sees_part 0 p (tok :: lp :: tsc ++ [rp])
             (tsb ++ el :: tse ++ [t]) []).
    - rewrite app_nil_r. same_tokens Hs'.
    - cbn [length]. rewrite length_app. simpl. lia. }
  destruct (block_after alternative tse f (2 + length tsc + length tsb + 1)
              p t [] Ha IHa ltac:(lia)) as (Hbrace' & Hblock' & _).
  { apply (sees_part 0 p (tok :: lp :: tsc ++ rp :: tsb ++ [el])
             (tse ++ [t]) []).
    - rewrite app_nil_r. same_tokens Hs'.
    - cbn [length]. rewrite !length_app. cbn [length].
      rewrite length_app. simpl. lia. }
  split; [now rewrite Hc0, Htok|].
  rewrite (if_else_eq _ f p (skip (2 + length tsc - 1) p)
             (skip (2 + length tsc + length tsb) p)
             (skip (2 + length tsc + length tsb + 1 + length tse) p)
             cond consequence alternative), Hc0.
  - f_equal. f_equal. apply skip_to. lia.
  - change p with (skip 0 p) at 1. rewrite peek_at.
    now rewrite (sees_token 0 p [tok] lp _ 1 Hs' eq_refl).
  - change (advance (advance p)) with (skip 2 p).
    apply (expression_whole cond tsc Hr He f 2 p rp); [lia | exact Hin |].
    now apply closing_endsExpression; left.
  - rewrite peek_at, (skip_to _ (2 + length tsc)) by lia.
    now rewrite (sees_after_at _ _ _ _ Hin).
  - rewrite skip_last by lia. exact Hbrace.
  - rewrite skip_last by lia. exact Hblock.
  - now rewrite Hpeek.
  - change (advance (skip ?k p)) with (skip (S k) p).
    rewrite (skip_to _ (2 + length tsc + length tsb + 1)) by lia.
    exact Hbrace'.
  - change (advance (advance (skip ?k p))) with (advance (skip (S k) p)).
    rewrite (skip_to (S (2 + length tsc + length tsb))
               (2 + length tsc + length tsb + 1)) by lia.
    exact Hblock'.
Qed.

Lemma function_read (lo hi : nat) (tok lp rp : Token)
  (parameters : list Identifier) (body : BlockStatement)
  (tsp tsb : list Token) :
  Type_ tok = FUNCTION → Type_ lp = LPAREN → Type_ rp = RPAREN →
  ReadsParameters parameters tsp →
  ReadsBlock body tsb → blockRead (L := L) body tsb →
  expressionRead (L := L) lo hi (FunctionLiteral tok parameters body)
                 (tok :: lp :: tsp ++ rp :: tsb).
Proof.
  intros Htok Hlp Hrp Hparams Hb IHb.
  destruct (ReadsBlock_starts _ _ Hb) as (_ & _ & _ & _ & Hnb).
  apply phrase_read; [simpl; lia|].
  intros f p t Hf Hs _. cbn [length] in Hf |- *.
  rewrite length_app in Hf |- *. cbn [length] in Hf |- *.
  exists (parseFunctionLiteral (parseExpression f) f).
  assert (Hs' : sees (skip 0 p) (tok :: lp :: tsp ++ rp :: tsb ++ [t]))
    by same_tokens Hs.
  pose proof (sees_token 0 p [] tok _ 0 Hs' eq_refl) as Hc0.
  change (skip 0 p) with p in Hc0.
  assert (Hin : sees (skip 2 p) (tsp ++ [rp])).
  { apply (sees_part 0 p [tok; lp] (tsp ++ [rp]) (tsb ++ [t]) 2);
      [same_tokens Hs' | reflexivity]. }
  destruct (block_after body tsb f (2 + length tsp) p t []
              Hb IHb ltac:(lia)) as (Hbrace & Hblock & _).
  { apply (sees_part 0 p (tok :: lp :: tsp ++ [rp]) (tsb ++ [t]) []).
    - rewrite app_nil_r. same_tokens Hs'.
    - cbn [length]. rewrite length_app. simpl. lia. }
  split; [now rewrite Hc0, Htok|].
  rewrite (function_eq _ f p (skip (2 + length tsp) p)
             (skip (2 + length tsp + length tsb) p) parameters body), Hc0.
  - f_equal. f_equal. apply skip_to. lia.
  - change p with (skip 0 p) at 1. rewrite peek_at.
    now rewrite (sees_token 0 p [tok] lp _ 1 Hs' eq_refl).
  - change (advance p) with (skip 1 p).
    assert (Hin' : sees (skip 1 (skip 1 p)) (tsp ++ [rp])) by exact Hin.
    rewrite (parameters_read parameters tsp Hparams f (skip 1 p) rp
               ltac:(lia) Hin' Hrp).
    f_equal. f_equal. rewrite skip_skip. apply skip_to. lia.
  - exact Hbrace.
  - exact Hblock.
Qed.

End ReadingBlocks.

(** ** The whole grammar *)
Section ParserReadsTheLanguage.
Import token Precedence Parser.
Context {L : Type} `{TokenSource L}.

Local Abbreviation skip k p := (Nat.iter k advance p).

(** Every phrase of the grammar is read as the grammar reads it. *)
Lemma grammar_read :
  (∀ lo hi e ts, Reads lo hi e ts → expressionRead (L := L) lo hi e ts)
  ∧ (∀ es ts, ReadsList es ts → listRead (L := L) es ts)
  ∧ (∀ es ts, ReadsRest es ts → restRead (L := L) es ts)
  ∧ (∀ pairs ts, ReadsPairs pairs ts → pairsRead (L := L) pairs ts)
  ∧ (∀ b ts, ReadsBlock b ts → blockRead (L := L) b ts)
  ∧ (∀ st ts, ReadsStatement st ts → statementRead (L := L) st ts)
  ∧ (∀ stmts ts, ReadsStatements stmts ts →
                 statementsRead (L := L) stmts ts).
Proof.
  assert (Hboth :
    (∀ lo hi e ts, Reads lo hi e ts →
       Reads lo hi e ts ∧ expressionRead (L := L) lo hi e ts)
    ∧ (∀ es ts, ReadsList es ts →
         ReadsList es ts ∧ listRead (L := L) es ts)
    ∧ (∀ es ts, ReadsRest es ts →
         ReadsRest es ts ∧ restRead (L := L) es ts)
    ∧ (∀ pairs ts, ReadsPairs pairs ts →
         ReadsPairs pairs ts ∧ pairsRead (L := L) pairs ts)
    ∧ (∀ b ts, ReadsBlock b ts →
         ReadsBlock b ts ∧ blockRead (L := L) b ts)
    ∧ (∀ st ts, ReadsStatement st ts →
         ReadsStatement st ts ∧ statementRead (L := L) st ts)
    ∧ (∀ stmts ts, ReadsStatements stmts ts →
         ReadsStatements stmts ts ∧ statementsRead (L := L) stmts ts)).
  { apply Reads_mutual; intros;
      repeat match goal with Hc : _ ∧ _ |- _ => destruct Hc end;
      (split; [econstructor; eassumption|]).
    - eapply identifier_read; eassumption.
    - eapply integer_read; eassumption.
    - eapply string_read; eassumption.
    - eapply (boolean_read _ _ _ true); eassumption.
    - eapply (boolean_read _ _ _ false); eassumption.
    - eapply group_read; eassumption.
    - eapply prefix_read; eassumption.
    - eapply infix_read; eassumption.
    - eapply call_read; eassumption.
    - eapply index_read; eassumption.
    - eapply array_read; eassumption.
    - eapply hash_read; eassumption.
    - eapply if_read; eassumption.
    - eapply if_else_read; eassumption.
    - eapply function_read; eassumption.
    - apply list_none_read.
    - eapply list_some_read; eassumption.
    - apply rest_end_read.
    - eapply rest_more_read; eassumption.
    - apply pairs_none_read.
    - eapply pairs_last_read; eassumption.
    - eapply pairs_more_read; eassumption.
    - eapply block_read; eassumption.
    - eapply let_read; eassumption.
    - eapply return_read; eassumption.
    - eapply expression_read; eassumption.
    - apply statements_end_read.
    - eapply statements_semicolon_read; eassumption.
    - eapply statements_bare_read; eassumption. }
  destruct Hboth as (He & Hl & Hr & Hp & Hb & Hs & Hss).
  repeat split; intros; first [ now apply He | now apply Hl | now apply Hr
                              | now apply Hp | now apply Hb | now apply Hs
                              | now apply Hss ].
Qed.

Lemma language_read (stmts : list Statement) (ts : list Token)
  (eof : Token) (p : Parser L) (budget : nat) :
  ReadsStatements stmts ts →
  upcoming (S (length ts)) p = ts ++ [eof] →
  Type_ eof = EOF →
  length ts < budget →
  parseProgram budget p = Some (mkProgram stmts, skip (length ts) p).
Proof.
  intros Hprog Hup Heof Hb.
  assert (Hs : sees p (ts ++ [eof])).
  { unfold sees. rewrite length_app. cbn [length].
    now rewrite Nat.add_1_r. }
  unfold parseProgram, bind, ret.
  now rewrite (proj2 (proj2 (proj2 (proj2 (proj2 (proj2 grammar_read)))))
                 stmts ts Hprog budget budget false [] p eof Hb
                 ltac:(lia) Hs (or_introl Heof)).
Qed.

End ParserReadsTheLanguage.

Section TheLanguage.
Import token Precedence Parser.
Context {L : Type} `{TokenSource L}.

Local Abbreviation skip k p := (Nat.iter k advance p).

(** X26: the parser reads the whole language as its grammar says.  On the
    tokens of a sequence of statements of the grammar [ReadsStatements]
    (let, return and expression statements over identifiers, literals,
    groups, prefix and binary operators, calls, indexing, array, hash and
    function literals, [if] with and without [else], and blocks) followed
    by the end of file, [parseProgram] returns exactly the tree the grammar
    gives, has consumed all the tokens, stands on the end of file and
    records no error. *)
Theorem parser_reads_the_language (stmts : list Statement)
  (ts : list Token) (eof : Token) (p : Parser L) (budget : nat) :
  ReadsStatements stmts ts →
  upcoming (S (length ts)) p = ts ++ [eof] →
  Type_ eof = EOF →
  length ts < budget →
  parseProgram budget p = Some (mkProgram stmts, skip (length ts) p)
  ∧ curToken (skip (length ts) p) = eof
  ∧ errors (skip (length ts) p) = errors p.
Proof.
  intros Hprog Hup Heof Hb.
  split; [now apply (language_read stmts ts eof)|].
  split; [|apply skip_errors].
  eapply upcoming_last; [reflexivity | exact Hup].
Qed.

End TheLanguage.

Lemma parser_reads_the_language_witness :
  ∃ stmts : list Statement,
    ReadsStatements stmts sampleLanguageTokens
    ∧ Parser.parseProgram 60 (Parser.new (Lexer.new sampleLanguage))
      = Some (mkProgram stmts,
              Nat.iter 48 Parser.advance
                (Parser.new (Lexer.new sampleLanguage)))
    ∧ programToString (mkProgram stmts)
      = "let f = fn(x, y) if(!x) return ((-y) * 2);else ([x, y][0]);f(true, ({1:2}[1]))".
Proof.
  pose (tk := mkToken).
  pose (lp := tk token.LPAREN "("). pose (rp := tk token.RPAREN ")").
  pose (lb := tk token.LBRACE "{"). pose (rb := tk token.RBRACE "}").
  pose (lk := tk token.LBRACKET "["). pose (rk := tk token.RBRACKET "]").
  pose (comma := tk token.COMMA ",").
  assert (Hle : ∀ a b : nat, Nat.leb a b = true → a ≤ b)
    by (intros a b; apply Nat.leb_le).
  (* return -y * 2 *)
  pose proof (Reads_prefix Precedence.PRODUCT Precedence.PRODUCT
                (tk token.MINUS "-") _ _ eq_refl (Hle 5 6 eq_refl)
                (Reads_identifier _ _ (sampleName "y") eq_refl)) as Hneg.
  pose proof (Reads_infix loosest Precedence.LOWEST Precedence.PRODUCT
                (tk token.ASTERISK "*") _ _ _ _ eq_refl
                (Hle 2 5 eq_refl) (Hle 1 5 eq_refl) Hneg
                (Reads_integer _ _ (tk token.INT "2") 2 eq_refl eq_refl))
    as Hproduct.
  pose proof (ReadsStatements_bare _ _ _ []
                (Reads_return (tk token.RETURN "return") _ _ eq_refl
                   Hproduct)
                I ReadsStatements_end) as Hthen.
  pose proof (ReadsBlock_braces lb rb _ _ eq_refl eq_refl Hthen) as Hblock1.
  (* [x, y][0] *)
  pose proof (ReadsList_some _ _ _ _
                (Reads_identifier loosest Precedence.LOWEST
                   (sampleName "x") eq_refl)
                (ReadsRest_more comma _ _ _ _ eq_refl
                   (Reads_identifier loosest Precedence.LOWEST
                      (sampleName "y") eq_refl)
                   ReadsRest_end)) as Hxy.
  pose proof (Reads_index loosest Precedence.LOWEST lk rk _ _ _ _
                eq_refl eq_refl (Hle 2 7 eq_refl)
                (Reads_array _ _ lk rk _ _ eq_refl eq_refl Hxy)
                (Reads_integer _ _ (tk token.INT "0") 0 eq_refl eq_refl))
    as Hindex.
  pose proof (ReadsStatements_bare _ _ _ []
                (Reads_expression lk _ _ Hindex) I ReadsStatements_end)
    as Helse.
  pose proof (ReadsBlock_braces lb rb _ _ eq_refl eq_refl Helse) as Hblock2.
  (* if (!x) { ... } else { ... } *)
  pose proof (Reads_prefix loosest Precedence.LOWEST
                (tk token.BANG "!") _ _ eq_refl (Hle 1 6 eq_refl)
                (Reads_identifier _ _ (sampleName "x") eq_refl)) as Hnot.
  pose proof (Reads_if_else loosest Precedence.LOWEST (tk token.IF "if")
                lp rp (tk token.ELSE "else") _ _ _ _ _ _
                eq_refl eq_refl eq_refl eq_refl Hnot Hblock1 Hblock2)
    as Hif.
  pose proof (ReadsStatements_bare _ _ _ []
                (Reads_expression (tk token.IF "if") _ _ Hif)
                I ReadsStatements_end) as Hbody.
  (* let f = fn(x, y) { ... } *)
  pose proof (Reads_function loosest Precedence.LOWEST
                (tk token.FUNCTION "fn") lp rp _ _ _ _
                eq_refl eq_refl eq_refl
                (ReadsParameters_some (sampleName "x") _ _ eq_refl
                   (ReadsNames_more comma (sampleName "y") _ _
                      eq_refl eq_refl ReadsNames_end))
                (ReadsBlock_braces lb rb _ _ eq_refl eq_refl Hbody))
    as Hfn.
  pose proof (Reads_let (tk token.LET "let") (sampleName "f")
                (tk token.ASSIGN "=") _ _ eq_refl eq_refl eq_refl Hfn)
    as Hlet.
  (* f(true, {1: 2}[1]) *)
  pose proof (Reads_index loosest Precedence.LOWEST lk rk _ _ _ _
                eq_refl eq_refl (Hle 2 7 eq_refl)
                (Reads_hash _ _ lb rb _ _ eq_refl eq_refl
                   (ReadsPairs_last (tk token.COLON ":") _ _ _ _ eq_refl
                      (Reads_integer _ _ (tk token.INT "1") 1
                         eq_refl eq_refl)
                      (Reads_integer _ _ (tk token.INT "2") 2
                         eq_refl eq_refl)))
                (Reads_integer _ _ (tk token.INT "1") 1 eq_refl eq_refl))
    as Hlookup.
  pose proof (Reads_call loosest Precedence.LOWEST lp rp _ _ _ _
                eq_refl eq_refl (Hle 2 7 eq_refl)
                (Reads_identifier _ _ (sampleName "f") eq_refl)
                (ReadsList_some _ _ _ _
                   (Reads_true loosest Precedence.LOWEST
                      (tk token.TRUE "true") eq_refl)
                   (ReadsRest_more comma _ _ _ _ eq_refl Hlookup
                      ReadsRest_end))) as Hcall.
  pose proof (ReadsStatements_semicolon _ _ (tk token.SEMICOLON ";") _ _
                Hlet eq_refl
                (ReadsStatements_bare _ _ _ []
                   (Reads_expression (sampleName "f") _ _ Hcall)
                   I ReadsStatements_end)) as Hprogram.
  eexists. split; [exact Hprogram|]. split; [|reflexivity].
  exact (proj1 (parser_reads_the_language _ sampleLanguageTokens
                  (tk token.EOF "")
                  (Parser.new (Lexer.new sampleLanguage)) 60
                  Hprogram eq_refl eq_refl (Hle 49 60 eq_refl))).
Defined.
